(** * Sleep/wake component engine of Chipmunk2D (src/cpSpaceComponent.c)

    A shallow embedding of the functions of [cpSpaceComponent.c] over an
    explicit store of bodies, shapes, arbiters, constraints and spaces,
    followed by the properties of the engine that are proved about them.

    C pointers are addresses into the store ([ptr]); a nullable pointer is an
    [option ptr].  Dereferencing an address that is not in the store, a failed
    [cpAssert] and freeing something that is not a live heap block are
    undefined behaviour in C: the embedding stops there ([fail]).  Loops over
    intrusive lists and rings take a bound [N] on the number of iterations;
    running out of it stops the run as well. *)

From Stdlib Require Import PrimFloat ZArith Lia.
From stdpp Require Import gmap list.

Set Default Proof Using "Type".

(** ** Data model *)

Abbreviation ptr := nat (only parsing).
Abbreviation cpFloat := float (only parsing).
Abbreviation cpHashValue := Z (only parsing).

Record cpVect := cpv { vx : cpFloat; vy : cpFloat }.

(** Modelled from the spec: [|gravity|^2] is the dot product of the gravity
    vector with itself ([cpvdot] is declared outside this file). *)
Definition cpvdot (v1 v2 : cpVect) : cpFloat :=
  (vx v1 * vx v2 + vy v1 * vy v2)%float.

(** [cpComponentNode]: the engine-private record embedded in each body. *)
Record cpComponentNode := mkNode {
  parent : option ptr;
  next : option ptr;
  rank : Z;
  idleTime : cpFloat
}.

(** Modelled from the spec: the fields of a body this engine reads.  The
    struct is declared in a header outside this file; [kineticEnergy] stands
    for the value of the helper [cpBodyKineticEnergy(body)] and [isStatic] for
    the classification [cpBodyIsStatic(body)], both read-only here. *)
Record cpBody := mkBody {
  m : cpFloat;
  kineticEnergy : cpFloat;
  p : cpVect;
  rot : cpVect;
  isStatic : bool;
  shapeList : option ptr;
  arbiterList : option ptr;
  constraintList : option ptr;
  space : option ptr;
  node : cpComponentNode
}.

(** A shape: owner, link of the owner's [shapeList], stable [hashid], and the
    position and rotation its cached bounding box was last computed from. *)
Record cpShape := mkShape {
  shape_body : ptr;
  shape_next : option ptr;
  hashid : cpHashValue;
  shape_cache : option (cpVect * cpVect)
}.

(** Modelled from the spec: one contact point with its solver state
    [(px, py, jn, jt)]; [memcpy] of [n * sizeof(cpContact)] bytes copies [n]
    such records. *)
Record cpContact := mkContact {
  px : cpFloat; py : cpFloat; jn : cpFloat; jt : cpFloat
}.

(** Where an arbiter's [contacts] pointer points: nowhere, into the per-step
    contact buffer of a space at some offset, or at a private heap block. *)
Inductive cpContactPtr :=
| ContactsNull
| ContactsInBuffer (space : ptr) (offset : nat)
| ContactsHeap (block : ptr).

Record cpArbiter := mkArbiter {
  arb_a : ptr;
  arb_b : ptr;
  arb_nextA : option ptr;
  arb_nextB : option ptr;
  numContacts : nat;
  contacts : cpContactPtr
}.

Record cpConstraint := mkConstraint {
  con_a : ptr;
  con_b : ptr;
  con_nextA : option ptr;
  con_nextB : option ptr
}.

(** The part of a space the engine uses.  Arrays ([cpArray]) are lists in
    insertion order; a spatial index is the set of [(hashid, shape)] entries
    it holds; [contactSet] maps an unordered shape pair to its arbiter; the
    contact buffer is an arena of cells with a watermark
    [contactBufferNum]. *)
Record cpSpace := mkSpace {
  locked : bool;
  bodies : list ptr;
  rousedBodies : list ptr;
  sleepingComponents : list ptr;
  arbiters : list ptr;
  constraints : list ptr;
  activeShapes : gset (cpHashValue * ptr);
  staticShapes : gset (cpHashValue * ptr);
  contactSet : gmap (ptr * ptr) ptr;
  contactBuffer : gmap nat cpContact;
  contactBufferNum : nat;
  idleSpeedThreshold : cpFloat;
  sleepTimeThreshold : cpFloat;
  gravity : cpVect
}.

(** The store: every object of each kind by address, and the live blocks
    obtained from [cpmalloc]. *)
Record world := mkWorld {
  w_bodies : gmap ptr cpBody;
  w_shapes : gmap ptr cpShape;
  w_arbiters : gmap ptr cpArbiter;
  w_constraints : gmap ptr cpConstraint;
  w_spaces : gmap ptr cpSpace;
  w_blocks : gmap ptr (gmap nat cpContact)
}.

(** *** Field updates *)

Definition set_parent (v : option ptr) (n : cpComponentNode) : cpComponentNode :=
  mkNode v (next n) (rank n) (idleTime n).
Definition set_next (v : option ptr) (n : cpComponentNode) : cpComponentNode :=
  mkNode (parent n) v (rank n) (idleTime n).
Definition set_rank (v : Z) (n : cpComponentNode) : cpComponentNode :=
  mkNode (parent n) (next n) v (idleTime n).
Definition set_idleTime (v : cpFloat) (n : cpComponentNode) : cpComponentNode :=
  mkNode (parent n) (next n) (rank n) v.

Definition set_node (v : cpComponentNode) (b : cpBody) : cpBody :=
  mkBody (m b) (kineticEnergy b) (p b) (rot b) (isStatic b) (shapeList b)
         (arbiterList b) (constraintList b) (space b) v.
Definition set_arbiterList (v : option ptr) (b : cpBody) : cpBody :=
  mkBody (m b) (kineticEnergy b) (p b) (rot b) (isStatic b) (shapeList b)
         v (constraintList b) (space b) (node b).

Definition set_shape_cache (v : option (cpVect * cpVect)) (s : cpShape) : cpShape :=
  mkShape (shape_body s) (shape_next s) (hashid s) v.

Definition set_arb_nextA (v : option ptr) (a : cpArbiter) : cpArbiter :=
  mkArbiter (arb_a a) (arb_b a) v (arb_nextB a) (numContacts a) (contacts a).
Definition set_contacts (v : cpContactPtr) (a : cpArbiter) : cpArbiter :=
  mkArbiter (arb_a a) (arb_b a) (arb_nextA a) (arb_nextB a) (numContacts a) v.

Definition set_bodies (v : list ptr) (s : cpSpace) : cpSpace :=
  mkSpace (locked s) v (rousedBodies s) (sleepingComponents s) (arbiters s)
          (constraints s) (activeShapes s) (staticShapes s) (contactSet s)
          (contactBuffer s) (contactBufferNum s) (idleSpeedThreshold s)
          (sleepTimeThreshold s) (gravity s).
Definition set_rousedBodies (v : list ptr) (s : cpSpace) : cpSpace :=
  mkSpace (locked s) (bodies s) v (sleepingComponents s) (arbiters s)
          (constraints s) (activeShapes s) (staticShapes s) (contactSet s)
          (contactBuffer s) (contactBufferNum s) (idleSpeedThreshold s)
          (sleepTimeThreshold s) (gravity s).
Definition set_sleepingComponents (v : list ptr) (s : cpSpace) : cpSpace :=
  mkSpace (locked s) (bodies s) (rousedBodies s) v (arbiters s)
          (constraints s) (activeShapes s) (staticShapes s) (contactSet s)
          (contactBuffer s) (contactBufferNum s) (idleSpeedThreshold s)
          (sleepTimeThreshold s) (gravity s).
Definition set_arbiters (v : list ptr) (s : cpSpace) : cpSpace :=
  mkSpace (locked s) (bodies s) (rousedBodies s) (sleepingComponents s) v
          (constraints s) (activeShapes s) (staticShapes s) (contactSet s)
          (contactBuffer s) (contactBufferNum s) (idleSpeedThreshold s)
          (sleepTimeThreshold s) (gravity s).
Definition set_constraints (v : list ptr) (s : cpSpace) : cpSpace :=
  mkSpace (locked s) (bodies s) (rousedBodies s) (sleepingComponents s)
          (arbiters s) v (activeShapes s) (staticShapes s) (contactSet s)
          (contactBuffer s) (contactBufferNum s) (idleSpeedThreshold s)
          (sleepTimeThreshold s) (gravity s).
Definition set_activeShapes (v : gset (cpHashValue * ptr)) (s : cpSpace) : cpSpace :=
  mkSpace (locked s) (bodies s) (rousedBodies s) (sleepingComponents s)
          (arbiters s) (constraints s) v (staticShapes s) (contactSet s)
          (contactBuffer s) (contactBufferNum s) (idleSpeedThreshold s)
          (sleepTimeThreshold s) (gravity s).
Definition set_staticShapes (v : gset (cpHashValue * ptr)) (s : cpSpace) : cpSpace :=
  mkSpace (locked s) (bodies s) (rousedBodies s) (sleepingComponents s)
          (arbiters s) (constraints s) (activeShapes s) v (contactSet s)
          (contactBuffer s) (contactBufferNum s) (idleSpeedThreshold s)
          (sleepTimeThreshold s) (gravity s).
Definition set_contactSet (v : gmap (ptr * ptr) ptr) (s : cpSpace) : cpSpace :=
  mkSpace (locked s) (bodies s) (rousedBodies s) (sleepingComponents s)
          (arbiters s) (constraints s) (activeShapes s) (staticShapes s) v
          (contactBuffer s) (contactBufferNum s) (idleSpeedThreshold s)
          (sleepTimeThreshold s) (gravity s).
Definition set_contactBuffer (v : gmap nat cpContact) (s : cpSpace) : cpSpace :=
  mkSpace (locked s) (bodies s) (rousedBodies s) (sleepingComponents s)
          (arbiters s) (constraints s) (activeShapes s) (staticShapes s)
          (contactSet s) v (contactBufferNum s) (idleSpeedThreshold s)
          (sleepTimeThreshold s) (gravity s).
Definition set_contactBufferNum (v : nat) (s : cpSpace) : cpSpace :=
  mkSpace (locked s) (bodies s) (rousedBodies s) (sleepingComponents s)
          (arbiters s) (constraints s) (activeShapes s) (staticShapes s)
          (contactSet s) (contactBuffer s) v (idleSpeedThreshold s)
          (sleepTimeThreshold s) (gravity s).

Definition with_bodies (v : gmap ptr cpBody) (w : world) : world :=
  mkWorld v (w_shapes w) (w_arbiters w) (w_constraints w) (w_spaces w) (w_blocks w).
Definition with_shapes (v : gmap ptr cpShape) (w : world) : world :=
  mkWorld (w_bodies w) v (w_arbiters w) (w_constraints w) (w_spaces w) (w_blocks w).
Definition with_arbiters (v : gmap ptr cpArbiter) (w : world) : world :=
  mkWorld (w_bodies w) (w_shapes w) v (w_constraints w) (w_spaces w) (w_blocks w).
Definition with_spaces (v : gmap ptr cpSpace) (w : world) : world :=
  mkWorld (w_bodies w) (w_shapes w) (w_arbiters w) (w_constraints w) v (w_blocks w).
Definition with_blocks (v : gmap ptr (gmap nat cpContact)) (w : world) : world :=
  mkWorld (w_bodies w) (w_shapes w) (w_arbiters w) (w_constraints w) (w_spaces w) v.

(** ** The store monad: a run either stops or returns a value and a store. *)

Definition M (A : Type) : Type := world → option (A * world).

Definition ret {A} (x : A) : M A := λ w, Some (x, w).
Definition bind {A B} (c : M A) (k : A → M B) : M B :=
  λ w, match c w with
       | Some (x, w') => k x w'
       | None => None
       end.
Definition fail {A} : M A := λ _, None.

Declare Scope store_scope.
Delimit Scope store_scope with store.
Notation "'let*' x := c 'in' k" := (bind c (λ x, k))
  (at level 10, x pattern, c at level 100, k at level 200) : store_scope.
Notation "c ;; k" := (bind c (λ _, k))
  (at level 100, k at level 200, right associativity) : store_scope.
Open Scope store_scope.

(** [cpAssert(cond, msg)]: a failed assertion aborts the run. *)
Definition cpAssert (cond : bool) : M unit := if cond then ret tt else fail.

Definition load_body (b : ptr) : M cpBody :=
  λ w, x ← w_bodies w !! b; Some (x, w).
Definition load_shape (s : ptr) : M cpShape :=
  λ w, x ← w_shapes w !! s; Some (x, w).
Definition load_arbiter (a : ptr) : M cpArbiter :=
  λ w, x ← w_arbiters w !! a; Some (x, w).
Definition load_constraint (c : ptr) : M cpConstraint :=
  λ w, x ← w_constraints w !! c; Some (x, w).
Definition load_space (s : ptr) : M cpSpace :=
  λ w, x ← w_spaces w !! s; Some (x, w).

(** Writes through a pointer: the object must be in the store. *)
Definition modify_body (b : ptr) (f : cpBody → cpBody) : M unit :=
  λ w, x ← w_bodies w !! b; Some (tt, with_bodies (<[b := f x]> (w_bodies w)) w).
Definition modify_shape (s : ptr) (f : cpShape → cpShape) : M unit :=
  λ w, x ← w_shapes w !! s; Some (tt, with_shapes (<[s := f x]> (w_shapes w)) w).
Definition modify_arbiter (a : ptr) (f : cpArbiter → cpArbiter) : M unit :=
  λ w, x ← w_arbiters w !! a; Some (tt, with_arbiters (<[a := f x]> (w_arbiters w)) w).
Definition modify_space (s : ptr) (f : cpSpace → cpSpace) : M unit :=
  λ w, x ← w_spaces w !! s; Some (tt, with_spaces (<[s := f x]> (w_spaces w)) w).

Definition modify_node (b : ptr) (f : cpComponentNode → cpComponentNode) : M unit :=
  modify_body b (λ x, set_node (f (node x)) x).

(** ** Collaborators declared outside this file *)

(** Modelled from the spec: ambient container arrays, append and
    delete-by-identity (the first entry equal to the object is dropped). *)
Definition cpArrayPush (arr : list ptr) (obj : ptr) : list ptr := arr ++ [obj].

Fixpoint cpArrayDeleteObj (arr : list ptr) (obj : ptr) : list ptr :=
  match arr with
  | [] => []
  | x :: arr' => if decide (x = obj) then arr' else x :: cpArrayDeleteObj arr' obj
  end.

(** Modelled from the spec: the spatial index contract [insert(shape, hashid)]
    and [remove(shape, hashid)]. *)
Definition cpSpatialIndexInsert (index : gset (cpHashValue * ptr)) (obj : ptr)
    (id : cpHashValue) : gset (cpHashValue * ptr) := index ∪ {[ (id, obj) ]}.
Definition cpSpatialIndexRemove (index : gset (cpHashValue * ptr)) (obj : ptr)
    (id : cpHashValue) : gset (cpHashValue * ptr) := index ∖ {[ (id, obj) ]}.

(** Modelled from the spec: the pair key of the contact set is an unordered
    fingerprint of two shape identities, symmetric in its arguments; insertion
    and removal are by that key. *)
Definition CP_HASH_PAIR (a b : ptr) : ptr * ptr := (a `min` b, a `max` b).
Definition cpHashSetInsert (set : gmap (ptr * ptr) ptr) (key : ptr * ptr)
    (arb : ptr) : gmap (ptr * ptr) ptr := <[key := arb]> set.
Definition cpHashSetRemove (set : gmap (ptr * ptr) ptr) (key : ptr * ptr)
    : gmap (ptr * ptr) ptr := delete key set.

(** Modelled from the spec: the classification predicates of a body.  A body
    is rogue when it is not bound to a space; it is sleeping when its
    [node.next] is present (the field test the spec attributes to the
    source). *)
Definition cpBodyIsStatic (b : cpBody) : bool := isStatic b.
Definition cpBodyIsRogue (b : cpBody) : bool := bool_decide (space b = None).
Definition cpBodyIsSleeping (b : cpBody) : bool := bool_decide (next (node b) ≠ None).

(** Modelled from the spec: [cpBodyKineticEnergy] is a read-only attribute of
    the body. *)
Definition cpBodyKineticEnergy (b : cpBody) : cpFloat := kineticEnergy b.

(** Modelled from the spec: [shapeUpdate(shape, position, rotation)] refreshes
    the cached bounding box of the shape. *)
Definition cpShapeUpdate (shape : ptr) (pos rot : cpVect) : M unit :=
  modify_shape shape (set_shape_cache (Some (pos, rot))).

(** *** Contact storage *)

(** The cells [off, off+n) of a region, when all of them hold a contact. *)
Fixpoint read_cells (cells : gmap nat cpContact) (off n : nat) : option (list cpContact) :=
  match n with
  | O => Some []
  | S n => c ← cells !! off; cs ← read_cells cells (S off) n; Some (c :: cs)
  end.

Fixpoint write_cells (cells : gmap nat cpContact) (off : nat) (cs : list cpContact)
    : gmap nat cpContact :=
  match cs with
  | [] => cells
  | c :: cs' => write_cells (<[off := c]> cells) (S off) cs'
  end.

(** Reading [n] contacts through a contacts pointer. *)
Definition read_contacts (src : cpContactPtr) (n : nat) : M (list cpContact) :=
  λ w, match src with
       | ContactsNull => if decide (n = 0) then Some ([], w) else None
       | ContactsInBuffer sp off =>
           s ← w_spaces w !! sp; cs ← read_cells (contactBuffer s) off n; Some (cs, w)
       | ContactsHeap blk =>
           cells ← w_blocks w !! blk; cs ← read_cells cells 0 n; Some (cs, w)
       end.

Definition write_contacts (dst : cpContactPtr) (cs : list cpContact) : M unit :=
  match dst with
  | ContactsNull => if decide (cs = []) then ret tt else fail
  | ContactsInBuffer sp off =>
      modify_space sp (λ s, set_contactBuffer (write_cells (contactBuffer s) off cs) s)
  | ContactsHeap blk =>
      λ w, cells ← w_blocks w !! blk;
           Some (tt, with_blocks (<[blk := write_cells cells 0 cs]> (w_blocks w)) w)
  end.

(** [memcpy(dst, src, n*sizeof(cpContact))]. *)
Definition memcpy (dst src : cpContactPtr) (n : nat) : M unit :=
  let* cs := read_contacts src n in write_contacts dst cs.

(** [cpmalloc]: a block at an address that is not live, contents not yet
    written. *)
Definition cpmalloc (n : nat) : M cpContactPtr :=
  λ w, let blk := fresh (dom (w_blocks w)) in
       Some (ContactsHeap blk, with_blocks (<[blk := ∅]> (w_blocks w)) w).

(** [cpfree]: releases a live block; [cpfree(NULL)] does nothing. *)
Definition cpfree (q : cpContactPtr) : M unit :=
  match q with
  | ContactsNull => ret tt
  | ContactsInBuffer _ _ => fail
  | ContactsHeap blk =>
      λ w, _ ← w_blocks w !! blk; Some (tt, with_blocks (delete blk (w_blocks w)) w)
  end.

(** Modelled from the spec: [contactBufferGetArray(space)] is the writable
    span at the watermark of the per-step arena, [contactBufferAdvance(space, n)]
    moves the watermark. *)
Definition cpContactBufferGetArray (space : ptr) : M cpContactPtr :=
  let* sp := load_space space in ret (ContactsInBuffer space (contactBufferNum sp)).
Definition cpSpacePushContacts (space : ptr) (count : nat) : M unit :=
  modify_space space (λ s, set_contactBufferNum (contactBufferNum s + count) s).

(** ** Sleeping functions (cpSpaceComponent.c) *)

Definition is_body (body : ptr) (q : option ptr) : bool := bool_decide (q = Some body).

Fixpoint componentNodeRoot (N : nat) (body : ptr) : M ptr :=
  match N with
  | O => fail
  | S N =>
      let* b := load_body body in
      match parent (node b) with
      | Some parent =>
          (* path compression, attaches this node directly to the root *)
          let* root := componentNodeRoot N parent in
          modify_node body (set_parent (Some root));;
          ret root
      | None => ret body
      end
  end.

Definition componentNodeMerge (a_root b_root : ptr) : M unit :=
  let* a := load_body a_root in
  let* b := load_body b_root in
  if (rank (node a) <? rank (node b))%Z then
    modify_node a_root (set_parent (Some b_root))
  else if (rank (node a) >? rank (node b))%Z then
    modify_node b_root (set_parent (Some a_root))
  else if decide (a_root ≠ b_root) then
    modify_node b_root (set_parent (Some a_root));;
    modify_node a_root (λ n, set_rank (rank n + 1) n)
  else ret tt.

(** *** Loop shapes of the source *)

(** [for(x = head; x; x = NEXT(x)) BODY(x)] over an intrusive list: the link
    is read after the body has run. *)
Fixpoint for_each (N : nat) (next_of : ptr → M (option ptr)) (body : ptr → M unit)
    (cur : option ptr) : M unit :=
  match cur with
  | None => ret tt
  | Some x =>
      match N with
      | O => fail
      | S N => body x;; let* nx := next_of x in for_each N next_of body nx
      end
  end.

(** [do { next = body->node.next; STEP(body); } while((body = next) != root)]:
    the ring link is read before the step; a missing link makes the next
    round dereference a null pointer.  [acc] carries what the step appends to
    a local array. *)
Fixpoint ring_loop {A} (N : nat) (step : A → ptr → M A) (root body : ptr) (acc : A) : M A :=
  match N with
  | O => fail
  | S N =>
      let* b := load_body body in
      let next := next (node b) in
      let* acc := step acc body in
      match next with
      | Some body' => if decide (body' = root) then ret acc else ring_loop N step root body' acc
      | None => fail
      end
  end.

(** [for(i=0; i<arr->num; i++) BODY(arr->arr[i])] over an array the body does
    not write to. *)
Fixpoint for_array {A} (step : A → ptr → M A) (arr : list ptr) (acc : A) : M A :=
  match arr with
  | [] => ret acc
  | x :: arr' => let* acc := step acc x in for_array step arr' acc
  end.

Definition shape_link (shape : ptr) : M (option ptr) :=
  let* sh := load_shape shape in ret (shape_next sh).

(** [arb->a->body == body ? arb->nextA : arb->nextB] *)
Definition arbiter_link (body arb : ptr) : M (option ptr) :=
  let* ar := load_arbiter arb in
  let* a := load_shape (arb_a ar) in
  ret (if decide (shape_body a = body) then arb_nextA ar else arb_nextB ar).

(** [c->a == body ? c->nextA : c->nextB] *)
Definition constraint_link (body c : ptr) : M (option ptr) :=
  let* con := load_constraint c in
  ret (if decide (con_a con = body) then con_nextA con else con_nextB con).

(** [body == arb->a->body || cpBodyIsStatic(arb->a->body)] *)
Definition arbiter_primary (body arb : ptr) : M bool :=
  let* ar := load_arbiter arb in
  let* a := load_shape (arb_a ar) in
  if decide (body = shape_body a) then ret true
  else let* ab := load_body (shape_body a) in ret (cpBodyIsStatic ab).

(** [other == body || cpBodyIsStatic(other)] with [other = c->a] *)
Definition constraint_primary (body c : ptr) : M bool :=
  let* con := load_constraint c in
  let other := con_a con in
  if decide (other = body) then ret true
  else let* ob := load_body other in ret (cpBodyIsStatic ob).

(** *** cpSpaceActivateBody *)

Definition cpSpaceActivateBody_shape (space shape : ptr) : M unit :=
  let* sh := load_shape shape in
  modify_space space (λ s, set_staticShapes (cpSpatialIndexRemove (staticShapes s) shape (hashid sh)) s);;
  modify_space space (λ s, set_activeShapes (cpSpatialIndexInsert (activeShapes s) shape (hashid sh)) s).

Definition cpSpaceActivateBody_arbiter (space body arb : ptr) : M unit :=
  let* primary := arbiter_primary body arb in
  if primary then
    let* ar := load_arbiter arb in
    let numContacts := numContacts ar in
    let contacts := contacts ar in
    (* Restore contact values back to the space's contact buffer memory *)
    let* buf := cpContactBufferGetArray space in
    modify_arbiter arb (set_contacts buf);;
    memcpy buf contacts numContacts;;
    cpSpacePushContacts space numContacts;;
    let arbHashID := CP_HASH_PAIR (arb_a ar) (arb_b ar) in
    modify_space space (λ s, set_contactSet (cpHashSetInsert (contactSet s) arbHashID arb) s);;
    cpfree contacts
  else ret tt.

Definition cpSpaceActivateBody_constraint (space body c : ptr) : M unit :=
  let* primary := constraint_primary body c in
  if primary then modify_space space (λ s, set_constraints (cpArrayPush (constraints s) c) s)
  else ret tt.

Definition cpSpaceActivateBody (N : nat) (space body : ptr) : M unit :=
  let* sp := load_space space in
  if locked sp then
    (* cpSpaceActivateBody() is called again once the space is unlocked *)
    modify_space space (λ s, set_rousedBodies (cpArrayPush (rousedBodies s) body) s)
  else
    modify_space space (λ s, set_bodies (cpArrayPush (bodies s) body) s);;
    let* b := load_body body in
    for_each N shape_link (cpSpaceActivateBody_shape space) (shapeList b);;
    let* b := load_body body in
    for_each N (arbiter_link body) (cpSpaceActivateBody_arbiter space body) (arbiterList b);;
    let* b := load_body body in
    for_each N (constraint_link body) (cpSpaceActivateBody_constraint space body) (constraintList b).

(** *** cpSpaceDeactivateBody *)

Definition cpSpaceDeactivateBody_shape (space shape : ptr) : M unit :=
  let* sh := load_shape shape in
  modify_space space (λ s, set_activeShapes (cpSpatialIndexRemove (activeShapes s) shape (hashid sh)) s);;
  modify_space space (λ s, set_staticShapes (cpSpatialIndexInsert (staticShapes s) shape (hashid sh)) s).

Definition cpSpaceDeactivateBody_arbiter (space body arb : ptr) : M unit :=
  let* primary := arbiter_primary body arb in
  if primary then
    let* ar := load_arbiter arb in
    let arbHashID := CP_HASH_PAIR (arb_a ar) (arb_b ar) in
    modify_space space (λ s, set_contactSet (cpHashSetRemove (contactSet s) arbHashID) s);;
    modify_space space (λ s, set_arbiters (cpArrayDeleteObj (arbiters s) arb) s);;
    (* Save contact values to a new block of memory so they won't time out *)
    let* ar := load_arbiter arb in
    let bytes := numContacts ar in
    let* saved := cpmalloc bytes in
    memcpy saved (contacts ar) bytes;;
    modify_arbiter arb (set_contacts saved)
  else ret tt.

Definition cpSpaceDeactivateBody_constraint (space body c : ptr) : M unit :=
  let* primary := constraint_primary body c in
  if primary then modify_space space (λ s, set_constraints (cpArrayDeleteObj (constraints s) c) s)
  else ret tt.

Definition cpSpaceDeactivateBody (N : nat) (space body : ptr) : M unit :=
  let* b := load_body body in
  for_each N shape_link (cpSpaceDeactivateBody_shape space) (shapeList b);;
  let* b := load_body body in
  for_each N (arbiter_link body) (cpSpaceDeactivateBody_arbiter space body) (arbiterList b);;
  let* b := load_body body in
  for_each N (constraint_link body) (cpSpaceDeactivateBody_constraint space body) (constraintList b).

(** *** componentActivate, cpBodyActivate *)

Definition componentActivate_step (N : nat) (space : ptr) (_ : unit) (body : ptr) : M unit :=
  modify_node body (λ _, mkNode None None 0 0);;
  cpSpaceActivateBody N space body.

Definition componentActivate (N : nat) (root : ptr) : M unit :=
  let* r := load_body root in
  if negb (cpBodyIsSleeping r) then ret tt
  else
    match space r with
    | None => fail (* Trying to activate a body that was never added to a space. *)
    | Some space =>
        ring_loop N (componentActivate_step N space) root root tt;;
        modify_space space (λ s, set_sleepingComponents (cpArrayDeleteObj (sleepingComponents s) root) s)
    end.

Definition cpBodyActivate (N : nat) (body : ptr) : M unit :=
  let* root := componentNodeRoot N body in
  componentActivate N root.

(** *** mergeBodies *)

Definition mergeBodies (N : nat) (space : ptr) (components rogueBodies : list ptr)
    (a b : ptr) : M (list ptr) :=
  let* ab := load_body a in
  (* Ignore connections to static bodies *)
  let* static := (if cpBodyIsStatic ab then ret true
                  else let* bb := load_body b in ret (cpBodyIsStatic bb)) in
  if (static : bool) then ret rogueBodies
  else
    let* a_root := componentNodeRoot N a in
    let* b_root := componentNodeRoot N b in
    let* ar := load_body a_root in
    let a_sleep := cpBodyIsSleeping ar in
    let* br := load_body b_root in
    let b_sleep := cpBodyIsSleeping br in
    (if a_sleep || b_sleep then
       componentActivate N a_root;; componentActivate N b_root
     else ret tt);;
    (* Add any rogue bodies found to the list and reset the idle time of anything they touch. *)
    let* ab := load_body a in
    let* rogueBodies :=
      (if cpBodyIsRogue ab then
         let rogueBodies := cpArrayPush rogueBodies a in
         modify_node b (set_idleTime 0);; ret rogueBodies
       else ret rogueBodies) in
    let* bb := load_body b in
    let* rogueBodies :=
      (if cpBodyIsRogue bb then
         let rogueBodies := cpArrayPush rogueBodies b in
         modify_node a (set_idleTime 0);; ret rogueBodies
       else ret rogueBodies) in
    componentNodeMerge a_root b_root;;
    ret rogueBodies.

(** *** componentActive, addToComponent, cpBodyPushArbiter *)

Fixpoint componentActive_loop (N : nat) (threshold : cpFloat) (root body : ptr) : M bool :=
  match N with
  | O => fail
  | S N =>
      let* b := load_body body in
      let next := next (node b) in
      if (idleTime (node b) <? threshold)%float then ret true
      else
        match next with
        | Some body' =>
            if decide (body' = root) then ret false
            else componentActive_loop N threshold root body'
        | None => fail
        end
  end.

Definition componentActive (N : nat) (root : ptr) (threshold : cpFloat) : M bool :=
  componentActive_loop N threshold root root.

Definition addToComponent (N : nat) (body : ptr) (components : list ptr) : M (list ptr) :=
  let* b := load_body body in
  (* Check that the body is not already added to the component list *)
  if bool_decide (next (node b) ≠ None) then ret components
  else
    let* root := componentNodeRoot N body in
    let* r := load_body root in
    match next (node r) with
    | None =>
        (* If the root isn't part of a list yet, then it hasn't been
           added to the components list. Do that now. *)
        let components := cpArrayPush components root in
        (* Start the list *)
        modify_node body (set_next (Some root));;
        modify_node root (set_next (Some body));;
        ret components
    | Some next =>
        if decide (root ≠ body) then
          (* Splice in body after the root. *)
          modify_node body (set_next (Some next));;
          modify_node root (set_next (Some body));;
          ret components
        else ret components
    end.

Definition cpBodyPushArbiter (body arb : ptr) : M unit :=
  let* b := load_body body in
  if negb (cpBodyIsStatic b) && negb (cpBodyIsRogue b) then
    modify_arbiter arb (set_arb_nextA (arbiterList b));;
    modify_body body (set_arbiterList (Some arb))
  else ret tt.

(** *** cpSpaceProcessComponents *)

(** C truth value of a float: anything that does not compare equal to zero. *)
Definition truthy (x : cpFloat) : bool := negb (x =? 0)%float.

(** update idling and reset arbiter lists *)
Definition cpSpaceProcessComponents_idle (dvsq dt : cpFloat) (_ : unit) (body : ptr) : M unit :=
  let* b := load_body body in
  let thresh := (if truthy dvsq then m b * dvsq else 0)%float in
  modify_node body (λ n,
    set_idleTime (if (thresh <? cpBodyKineticEnergy b)%float then 0%float
                  else (idleTime n + dt)%float) n);;
  modify_body body (set_arbiterList None).

(** iterate graph edges and build forests: one arbiter.  [space->arbiters] is
    not written to while the loop runs. *)
Definition cpSpaceProcessComponents_arbiter (N : nat) (space : ptr) (components : list ptr)
    (rogueBodies : list ptr) (arb : ptr) : M (list ptr) :=
  let* ar := load_arbiter arb in
  let* a := load_shape (arb_a ar) in
  let* b := load_shape (arb_b ar) in
  let* rogueBodies := mergeBodies N space components rogueBodies (shape_body a) (shape_body b) in
  (* Push arbiter connectivity onto bodies *)
  cpBodyPushArbiter (shape_body a) arb;;
  cpBodyPushArbiter (shape_body b) arb;;
  ret rogueBodies.

(** [for(int j=0; j<constraints->num; j++)]: the length is read again at every
    round, and waking a body appends to [space->constraints]. *)
Fixpoint cpSpaceProcessComponents_constraints (N fuel : nat) (space : ptr)
    (components rogueBodies : list ptr) (j : nat) : M (list ptr) :=
  match fuel with
  | O => fail
  | S fuel =>
      let* sp := load_space space in
      match constraints sp !! j with
      | None => ret rogueBodies
      | Some c =>
          let* constraint := load_constraint c in
          let* rogueBodies :=
            mergeBodies N space components rogueBodies (con_a constraint) (con_b constraint) in
          cpSpaceProcessComponents_constraints N fuel space components rogueBodies (S j)
      end
  end.

(** the copy branch of the component loop: one ring member *)
Definition cpSpaceProcessComponents_copy (newBodies : list ptr) (body : ptr) : M (list ptr) :=
  let* b := load_body body in
  let newBodies := if negb (cpBodyIsRogue b) then cpArrayPush newBodies body else newBodies in
  modify_node body (λ n, mkNode None None 0 (idleTime n));;
  ret newBodies.

Definition cpSpaceProcessComponents_deactivate (N : nat) (space : ptr) (_ : unit) (body : ptr)
    : M unit :=
  cpSpaceDeactivateBody N space body.

(** iterate components, copy or deactivate: one component *)
Definition cpSpaceProcessComponents_component (N : nat) (space : ptr)
    (newBodies : list ptr) (root : ptr) : M (list ptr) :=
  let* sp := load_space space in
  let* active := componentActive N root (sleepTimeThreshold sp) in
  if (active : bool) then
    ring_loop N cpSpaceProcessComponents_copy root root newBodies
  else
    ring_loop N (cpSpaceProcessComponents_deactivate N space) root root tt;;
    modify_space space (λ s, set_sleepingComponents (cpArrayPush (sleepingComponents s) root) s);;
    ret newBodies.

(** The phases of [cpSpaceProcessComponents] up to ring assembly: the result
    is the local array [components]. *)
Definition cpSpaceProcessComponents_build (N : nat) (space : ptr) (dt : cpFloat) : M (list ptr) :=
  let* sp := load_space space in
  let rogueBodies := [] in
  let components := [] in
  let dv := idleSpeedThreshold sp in
  let dvsq := (if truthy dv then dv * dv else cpvdot (gravity sp) (gravity sp) * dt * dt)%float in
  for_array (cpSpaceProcessComponents_idle dvsq dt) (bodies sp) tt;;
  let* rogueBodies :=
    for_array (cpSpaceProcessComponents_arbiter N space components) (arbiters sp) rogueBodies in
  let* rogueBodies := cpSpaceProcessComponents_constraints N N space components rogueBodies 0 in
  (* iterate bodies and add them to their components *)
  let* sp := load_space space in
  let* components := for_array (λ cs body, addToComponent N body cs) (bodies sp) components in
  for_array (λ cs body, addToComponent N body cs) rogueBodies components.

Definition cpSpaceProcessComponents (N : nat) (space : ptr) (dt : cpFloat) : M unit :=
  let newBodies := [] in
  let* components := cpSpaceProcessComponents_build N space dt in
  let* newBodies := for_array (cpSpaceProcessComponents_component N space) components newBodies in
  modify_space space (set_bodies newBodies).

(** *** cpBodySleep, cpBodySleepWithGroup *)

Definition cpBodySleepWithGroup_shape (pos rot : cpVect) (shape : ptr) : M unit :=
  cpShapeUpdate shape pos rot.

Definition cpBodySleepWithGroup (N : nat) (body : ptr) (group : option ptr) : M unit :=
  let* b := load_body body in
  cpAssert (negb (cpBodyIsStatic b) && negb (cpBodyIsRogue b));;
  match space b with
  | None => fail (* Cannot put a body to sleep that has not been added to a space. *)
  | Some space =>
      let* sp := load_space space in
      cpAssert (negb (locked sp));;
      match group with
      | None => ret tt
      | Some g => let* gb := load_body g in cpAssert (cpBodyIsSleeping gb)
      end;;
      if cpBodyIsSleeping b then ret tt
      else
        for_each N shape_link (cpBodySleepWithGroup_shape (p b) (rot b)) (shapeList b);;
        cpSpaceDeactivateBody N space body;;
        match group with
        | Some group =>
            let* root := componentNodeRoot N group in
            let* r := load_body root in
            modify_node body (λ _, mkNode (Some root) (next (node r)) 0 0);;
            modify_node root (set_next (Some body))
        | None =>
            modify_node body (λ _, mkNode None (Some body) 0 0);;
            modify_space space (λ s, set_sleepingComponents (cpArrayPush (sleepingComponents s) body) s)
        end;;
        modify_space space (λ s, set_bodies (cpArrayDeleteObj (bodies s) body) s)
  end.

Definition cpBodySleep (N : nat) (body : ptr) : M unit :=
  cpBodySleepWithGroup N body None.

(** ** The disjoint-set forest *)

(** [chain w x l r]: following [node.parent] from [x] visits the bodies [l]
    (each of which has a parent) and ends at [r], whose parent is absent. *)
Inductive chain (w : world) : ptr → list ptr → ptr → Prop :=
| chain_root x b :
    w_bodies w !! x = Some b → parent (node b) = None → chain w x [] x
| chain_step x b y l r :
    w_bodies w !! x = Some b → parent (node b) = Some y →
    chain w y l r → chain w x (x :: l) r.

(** Path compression: every body of [l] is attached directly to [r]. *)
Definition compress (r : ptr) (l : list ptr) (bs : gmap ptr cpBody) : gmap ptr cpBody :=
  foldr (λ x bs, alter (λ b, set_node (set_parent (Some r) (node b)) b) x bs) bs l.


(** ** Example stores *)

Definition zero_vect : cpVect := cpv 0 0.

(** A dynamic body with unit mass at rest. *)
Definition example_body (sp shl : option ptr) (nd : cpComponentNode) : cpBody :=
  mkBody 1 0 zero_vect zero_vect false shl None None sp nd.

Definition example_space (lk : bool) (thr : cpFloat) (bs arbs : list ptr) : cpSpace :=
  mkSpace lk bs [] [] arbs [] ∅ ∅ ∅ ∅ 0 0 thr (cpv 0 (-10)).

(** Three bodies of space 0 in a parent chain 1 → 2 → 3, none in a ring. *)
Definition chain_world : world :=
  mkWorld
    (<[1 := example_body (Some 0) None (mkNode (Some 2) None 0 0)]>
     (<[2 := example_body (Some 0) None (mkNode (Some 3) None 0 0)]>
      (<[3 := example_body (Some 0) None (mkNode None None 1 0)]> ∅)))
    ∅ ∅ ∅ (<[0 := example_space false 0.5 [1; 2; 3] []]> ∅) ∅.

(** A locked space with a sleeping body 1 in a ring of its own. *)
Definition locked_world : world :=
  mkWorld (<[1 := example_body (Some 0) None (mkNode None (Some 1) 0 0)]> ∅)
          ∅ ∅ ∅ (<[0 := example_space true 0.5 [] []]> ∅) ∅.

(** An unlocked space whose only body, 1, is awake and owns shape 11. *)
Definition awake_world : world :=
  mkWorld (<[1 := example_body (Some 0) (Some 11) (mkNode None None 0 0)]> ∅)
          (<[11 := mkShape 1 None 11 None]> ∅)
          ∅ ∅ (<[0 := example_space false 0.5 [1] []]> ∅) ∅.

(** A dynamic body 1 and a static body 2, joined by nothing yet. *)
Definition static_world : world :=
  mkWorld (<[1 := example_body (Some 0) None (mkNode None None 0 0.75)]>
           (<[2 := mkBody 1 0 zero_vect zero_vect true None None None (Some 0)
                     (mkNode None None 0 0)]> ∅))
          ∅ ∅ ∅ (<[0 := example_space false 0.5 [1] []]> ∅) ∅.

(** The arbiters met when walking the arbiter list of [body] from [cur], the
    way [cpSpaceActivateBody] and [cpSpaceDeactivateBody] walk it. *)
Fixpoint arbiter_walk (N : nat) (body : ptr) (cur : option ptr) (w : world)
    : option (list ptr) :=
  match cur with
  | None => Some []
  | Some arb =>
      match N with
      | O => None
      | S N =>
          '(nx, _) ← arbiter_link body arb w;
          l ← arbiter_walk N body nx w;
          Some (arb :: l)
      end
  end.

(** Bodies 1, 2, 3 of space 0 with shapes 11, 12, 13; arbiter 21 is between
    shapes 11 and 12, arbiter 22 between shapes 11 and 13. *)
Definition contact_world : world :=
  mkWorld
    (<[1 := example_body (Some 0) (Some 11) (mkNode None None 0 0)]>
     (<[2 := example_body (Some 0) (Some 12) (mkNode None None 0 0)]>
      (<[3 := example_body (Some 0) (Some 13) (mkNode None None 0 0)]> ∅)))
    (<[11 := mkShape 1 None 11 None]>
     (<[12 := mkShape 2 None 12 None]>
      (<[13 := mkShape 3 None 13 None]> ∅)))
    (<[21 := mkArbiter 11 12 None None 0 ContactsNull]>
     (<[22 := mkArbiter 11 13 None None 0 ContactsNull]> ∅))
    ∅ (<[0 := example_space false 0.5 [1; 2; 3] [21; 22]]> ∅) ∅.

(** ** The verdict phase *)

(** A body whose node is [{absent, absent, 0, _}]. *)
Definition cleared (w : world) (x : ptr) : Prop :=
  ∃ b, w_bodies w !! x = Some b ∧
       parent (node b) = None ∧ next (node b) = None ∧ rank (node b) = 0%Z.

(** The idle time of a body, when the body is in the store. *)
Definition idle_of (w : world) (x : ptr) : option cpFloat :=
  (idleTime ∘ node) <$> w_bodies w !! x.

(** [ring_from w root x l]: following [node.next] from [x] passes through the
    bodies [l], the last of which links back to [root]. *)
Inductive ring_from (w : world) (root : ptr) : ptr → list ptr → Prop :=
| ring_last x b :
    w_bodies w !! x = Some b → next (node b) = Some root → ring_from w root x [x]
| ring_more x b y l :
    w_bodies w !! x = Some b → next (node b) = Some y → y ≠ root →
    ring_from w root y l → ring_from w root x (x :: l).

(** The members of the ring of [root]. *)
Definition ring (w : world) (root : ptr) (l : list ptr) : Prop := ring_from w root root l.

(** One body at rest in space 0, awake, with shape 11 and nothing touching it. *)
Definition resting_world : world :=
  mkWorld (<[1 := example_body (Some 0) (Some 11) (mkNode None None 0 0)]> ∅)
          (<[11 := mkShape 1 None 11 None]> ∅)
          ∅ ∅ (<[0 := example_space false 0.5 [1] []]> ∅) ∅.

(** ** Intrusive lists *)

(** [linked nx w cur l]: the walk [x = cur; x; x = nx(x)] in the store [w]
    meets the objects [l] and then a null link. *)
Inductive linked (nx : ptr → M (option ptr)) (w : world) : option ptr → list ptr → Prop :=
| linked_nil : linked nx w None []
| linked_cons x y l :
    fst <$> nx x w = Some y → linked nx w y l → linked nx w (Some x) (x :: l).

(** ** Contacts across sleep and wake *)

(** What the walks over arbiter lists read of an arbiter. *)
Definition arb_skeleton (ar : cpArbiter) : ptr * ptr * option ptr * option ptr * nat :=
  (arb_a ar, arb_b ar, arb_nextA ar, arb_nextB ar, numContacts ar).

(** Two stores with the same static bodies, shapes and arbiter skeletons. *)
Definition same_graph (w1 w2 : world) : Prop :=
  (∀ x, isStatic <$> w_bodies w2 !! x = isStatic <$> w_bodies w1 !! x) ∧
  w_shapes w2 = w_shapes w1 ∧
  ∀ z, arb_skeleton <$> w_arbiters w2 !! z = arb_skeleton <$> w_arbiters w1 !! z.

(** The pair key under which an arbiter record goes into the contact set. *)
Definition key_of (ar : cpArbiter) : ptr * ptr := CP_HASH_PAIR (arb_a ar) (arb_b ar).

(** The part of a space that holds contacts. *)
Definition contact_part (s : cpSpace) : gmap (ptr * ptr) ptr * gmap nat cpContact * nat :=
  (contactSet s, contactBuffer s, contactBufferNum s).

(** Two stores that differ at most in what spaces hold besides contacts. *)
Definition contact_eq (w1 w2 : world) : Prop :=
  w_bodies w2 = w_bodies w1 ∧ w_shapes w2 = w_shapes w1 ∧
  w_arbiters w2 = w_arbiters w1 ∧ w_blocks w2 = w_blocks w1 ∧
  ∀ s, contact_part <$> w_spaces w2 !! s = contact_part <$> w_spaces w1 !! s.

(** The contact array of an arbiter record, when it can be read. *)
Definition contents (w : world) (ar : cpArbiter) : option (list cpContact) :=
  fst <$> read_contacts (contacts ar) (numContacts ar) w.

(** The arbiter [arb] has the record [ar], whose contact array reads [cs]. *)
Definition holds (arb : ptr) (ar : cpArbiter) (cs : list cpContact) (w : world) : Prop :=
  w_arbiters w !! arb = Some ar ∧ contents w ar = Some cs.

(** While waking: [arb] still has its sleeping record, and its private block,
    if it has not been released, still reads [cs]. *)
Definition saved (arb : ptr) (ar : cpArbiter) (blk : ptr) (cs : list cpContact)
    (w : world) : Prop :=
  w_arbiters w !! arb = Some ar ∧
  ∀ cells, w_blocks w !! blk = Some cells → read_cells cells 0 (numContacts ar) = Some cs.

(** After waking: the contacts of [arb] are the cells [off, off + n) of the
    contact buffer of [space], below the watermark, and read [cs]; [arb] is in
    the contact set under its pair key; the block [blk] is gone. *)
Definition restored (space arb : ptr) (ar : cpArbiter) (blk off : nat)
    (cs : list cpContact) (w : world) : Prop :=
  w_arbiters w !! arb = Some (set_contacts (ContactsInBuffer space off) ar) ∧
  w_blocks w !! blk = None ∧
  ∃ sp, w_spaces w !! space = Some sp ∧
        read_cells (contactBuffer sp) off (numContacts ar) = Some cs ∧
        off + numContacts ar ≤ contactBufferNum sp ∧
        contactSet sp !! key_of ar = Some arb.

(** Two stores in which the walk over the arbiter list of [body] reads the
    same of the arbiters [l]: the list link
    [arb->a->body == body ? arb->nextA : arb->nextB], the test
    [body == arb->a->body || cpBodyIsStatic(arb->a->body)] and the pair key
    of each. *)
Definition same_walk (body : ptr) (l : list ptr) (w1 w2 : world) : Prop :=
  ∀ z, z ∈ l →
    fst <$> arbiter_link body z w2 = fst <$> arbiter_link body z w1 ∧
    fst <$> arbiter_primary body z w2 = fst <$> arbiter_primary body z w1 ∧
    key_of <$> w_arbiters w2 !! z = key_of <$> w_arbiters w1 !! z.

(** What the time between putting [body] to sleep, in the store [w1], and
    waking it, in the store [w1'], has left alone for the contacts of [arb]
    to come back: [body] has the arbiter list it had and the walk over it
    reads the same of its arbiters [l]; [arb] has the record it had, and the
    private block of that record is as it was; the space is there and
    unlocked.  All else may have changed: the nodes of bodies, the caches of
    shapes, the arrays and indexes of spaces, and the contact arrays of other
    arbiters with their blocks, as they do when other bodies of the component
    are put to sleep or woken in between. *)
Definition slept (body space arb : ptr) (l : list ptr) (w1 w1' : world) : Prop :=
  arbiterList <$> w_bodies w1' !! body = arbiterList <$> w_bodies w1 !! body ∧
  same_walk body l w1 w1' ∧
  w_arbiters w1' !! arb = w_arbiters w1 !! arb ∧
  (∀ ar blk, w_arbiters w1 !! arb = Some ar → contacts ar = ContactsHeap blk →
             w_blocks w1' !! blk = w_blocks w1 !! blk) ∧
  ∃ sp, w_spaces w1' !! space = Some sp ∧ locked sp = false.

(** Bodies 1 and 2 of the unlocked space 0 touch through arbiter 21 between
    their shapes 11 and 12; the arbiter is on the list of body 1 and its one
    contact [(1, 2, 3, 4)] is in the contact buffer at offset 0. *)
Definition touching_world : world :=
  mkWorld
    (<[1 := mkBody 1 0 zero_vect zero_vect false (Some 11) (Some 21) None (Some 0)
              (mkNode None None 0 0)]>
     (<[2 := example_body (Some 0) (Some 12) (mkNode None None 0 0)]> ∅))
    (<[11 := mkShape 1 None 11 None]> (<[12 := mkShape 2 None 12 None]> ∅))
    (<[21 := mkArbiter 11 12 None None 1 (ContactsInBuffer 0 0)]> ∅)
    ∅
    (<[0 := mkSpace false [1; 2] [] [] [21] [] {[ (11%Z, 11); (12%Z, 12) ]} ∅
              {[ CP_HASH_PAIR 11 12 := 21 ]} {[ 0 := mkContact 1 2 3 4 ]} 1
              0 0.5 (cpv 0 (-10))]> ∅)
    ∅.

(** Two stacked bodies: body 1 rests on the static floor 3, body 2 rests on
    body 1.  Arbiter 21 is between the floor shape 13 and shape 11 of body 1,
    with one contact; arbiter 22 is between shape 12 of body 2 and shape 11,
    with two contacts.  The arbiter list of body 1 is 21, 22, that of body 2
    is 22; [cpSpaceDeactivateBody] processes 21 for body 1 (its first body is
    static) and 22 for body 2. *)
Definition stack_world : world :=
  mkWorld
    (<[1 := mkBody 1 0 zero_vect zero_vect false (Some 11) (Some 21) None (Some 0)
              (mkNode None None 0 0)]>
     (<[2 := mkBody 1 0 zero_vect zero_vect false (Some 12) (Some 22) None (Some 0)
               (mkNode None None 0 0)]>
      (<[3 := mkBody 1 0 zero_vect zero_vect true (Some 13) None None None
                (mkNode None None 0 0)]> ∅)))
    (<[11 := mkShape 1 None 11 None]>
     (<[12 := mkShape 2 None 12 None]> (<[13 := mkShape 3 None 13 None]> ∅)))
    (<[21 := mkArbiter 13 11 None (Some 22) 1 (ContactsInBuffer 0 0)]>
     (<[22 := mkArbiter 12 11 None None 2 (ContactsInBuffer 0 1)]> ∅))
    ∅
    (<[0 := mkSpace false [1; 2] [] [] [21; 22] [] {[ (11%Z, 11); (12%Z, 12) ]}
              {[ (13%Z, 13) ]}
              {[ CP_HASH_PAIR 13 11 := 21; CP_HASH_PAIR 12 11 := 22 ]}
              {[ 0 := mkContact 1 2 3 4; 1 := mkContact 5 6 7 8; 2 := mkContact 9 10 11 12 ]} 3
              0 0.5 (cpv 0 (-10))]> ∅)
    ∅.

(** ** The forest and the rings during component processing *)

(** [root_of w x r]: [r] is the root of the tree of [x]. *)
Definition root_of (w : world) (x r : ptr) : Prop := ∃ l, chain w x l r.

(** The parent link of a body, when the body is in the store. *)
Definition parent_of (w : world) (x : ptr) : option (option ptr) :=
  (parent ∘ node) <$> w_bodies w !! x.

(** The ring link of a body, when the body is in the store. *)
Definition next_of (w : world) (x : ptr) : option (option ptr) :=
  (next ∘ node) <$> w_bodies w !! x.

(** What the component processor reads of a body besides its parent link. *)
Definition bview (b : cpBody) : option ptr * cpFloat * option ptr * bool :=
  (next (node b), idleTime (node b), space b, isStatic b).
Definition view_of (w : world) (x : ptr) : option (option ptr * cpFloat * option ptr * bool) :=
  bview <$> w_bodies w !! x.

(** Two stores whose bodies have the same links, idle times, spaces and
    static flags. *)
Definition same_nodes (w w' : world) : Prop :=
  ∀ y, view_of w' y = view_of w y ∧ parent_of w' y = parent_of w y.

(** A ring with its tree: [r] has no parent and is the parent of every
    other member. *)
Definition sring (w : world) (r : ptr) (l : list ptr) : Prop :=
  ring w r l ∧ parent_of w r = Some None ∧
  ∀ y, y ∈ l → y ≠ r → parent_of w y = Some (Some r).

(** The array [space->bodies]. *)
Definition active_list (space : ptr) (w : world) : list ptr :=
  default [] (bodies <$> w_spaces w !! space).

(** The invariant of forest building in [cpSpaceProcessComponents], for the
    space [space] and the local array [rogueBodies]:
    - the space is unlocked and no body of [space->bodies] is rogue;
    - an awake body (no ring link) that is dynamic and not rogue is in
      [space->bodies], and its parent, if it has one, is awake and is in
      [space->bodies] or [rogueBodies];
    - a sleeping body belongs to [space] and is on a ring with its tree;
    - every body of [rogueBodies] is rogue and awake, and its tree has an
      awake member with idle time 0 that is in [space->bodies] or
      [rogueBodies]. *)
Record build_inv (space : ptr) (w : world) (rogueBodies : list ptr) : Prop := {
  bi_unlocked : locked <$> w_spaces w !! space = Some false;
  bi_active_not_rogue :
    ∀ x nx idle st, x ∈ active_list space w → view_of w x ≠ Some (nx, idle, None, st);
  bi_awake :
    ∀ x idle sp st, view_of w x = Some (None, idle, sp, st) →
      (st = false → sp ≠ None → x ∈ active_list space w) ∧
      (∀ p, parent_of w x = Some (Some p) →
         (p ∈ active_list space w ∨ p ∈ rogueBodies) ∧ next_of w p = Some None);
  bi_sleeping :
    ∀ x n idle sp st, view_of w x = Some (Some n, idle, sp, st) →
      sp = Some space ∧ ∃ r l, sring w r l ∧ x ∈ l;
  bi_rogue :
    ∀ R, R ∈ rogueBodies →
      (∃ idle st, view_of w R = Some (None, idle, None, st)) ∧
      ∃ z r sp st, view_of w z = Some (None, 0%float, sp, st) ∧
                   (z ∈ active_list space w ∨ z ∈ rogueBodies) ∧
                   root_of w z r ∧ root_of w R r
}.

(** [woken w w' l]: from [w] to [w'] the sleeping bodies [l] have been given
    the node [{absent, absent, 0, 0}] and nothing else about bodies has
    changed. *)
Definition woken (w w' : world) (l : list ptr) : Prop :=
  (∀ y, y ∈ l → ∃ nx idle sp st,
     view_of w y = Some (Some nx, idle, sp, st) ∧
     view_of w' y = Some (None, 0%float, sp, st) ∧ parent_of w' y = Some None) ∧
  (∀ y, y ∉ l → view_of w' y = view_of w y ∧ parent_of w' y = parent_of w y).

(** Two stores whose bodies have the same links, spaces and static flags:
    only idle times, ranks and what hangs off the bodies may differ. *)
Definition links (v : option ptr * cpFloat * option ptr * bool) : option ptr * option ptr * bool :=
  (v.1.1.1, v.1.2, v.2).
Definition same_links (w w' : world) : Prop :=
  ∀ y, parent_of w' y = parent_of w y ∧ links <$> view_of w' y = links <$> view_of w y.

(** An idle time that is 0 in [w] is 0 in [w']. *)
Definition keeps_zero (w w' : world) : Prop :=
  ∀ z nx sp st, view_of w z = Some (nx, 0%float, sp, st) →
                view_of w' z = Some (nx, 0%float, sp, st).

(** [anchor space w x r]: where [mergeBodies] stands once it has looked up
    the root [r] of [x] and woken what was asleep.  The body [x] is awake,
    and either [r] is still its root, or [x] and [r] were woken together:
    then both belong to [space] and [r] has idle time 0 and is in
    [space->bodies]. *)
Definition anchor (space : ptr) (w : world) (x r : ptr) : Prop :=
  next_of w x = Some None ∧
  (root_of w x r ∨
   ∃ idle st st', view_of w x = Some (None, idle, Some space, st) ∧
                  view_of w r = Some (None, 0%float, Some space, st') ∧
                  r ∈ active_list space w).

(** What ring assembly leaves of a body: idle time, space and static flag. *)
Definition rest (v : option ptr * cpFloat * option ptr * bool) : cpFloat * option ptr * bool :=
  (v.1.1.2, v.1.2, v.2).

(** The invariant of ring assembly in [cpSpaceProcessComponents].  [w0] is
    the store when assembly starts, [listed] holds of the bodies of the two
    arrays it walks, [cs] is the local array [components] and [seen] are the
    bodies [addToComponent] has been run on:
    - idle times, spaces, static flags and roots are those of [w0], and a
      body without ring link had none in [w0];
    - the parent of a body that was awake in [w0] was awake in [w0] and is
      listed;
    - a body that was awake in [w0] and has a ring link now is on the ring of
      an entry of [cs];
    - every entry of [cs] has a ring with its tree, made of listed bodies
      that were awake in [w0], and no entry is repeated;
    - every body of [seen] that was awake in [w0] has a ring link. *)
Record asm_inv (listed : ptr → Prop) (w0 w : world) (cs seen : list ptr) : Prop := {
  ai_rest : ∀ y, rest <$> view_of w y = rest <$> view_of w0 y;
  ai_roots : ∀ y r, root_of w0 y r → root_of w y r;
  ai_awake : ∀ y, next_of w y = Some None → next_of w0 y = Some None;
  ai_parent :
    ∀ y p, next_of w0 y = Some None → parent_of w y = Some (Some p) →
           next_of w0 p = Some None ∧ listed p;
  ai_ringed :
    ∀ y n, next_of w0 y = Some None → next_of w y = Some (Some n) →
           ∃ r l, r ∈ cs ∧ sring w r l ∧ y ∈ l;
  ai_rings :
    ∀ r, r ∈ cs → ∃ l, sring w r l ∧ ∀ y, y ∈ l → next_of w0 y = Some None ∧ listed y;
  ai_nodup : NoDup cs;
  ai_seen : ∀ y, y ∈ seen → next_of w0 y = Some None → ∃ n, next_of w y = Some (Some n)
}.

(** [kept_awake w r]: [r] has a ring with its tree, and if a member of the
    ring is rogue then a member has idle time 0. *)
Definition kept_awake (w : world) (r : ptr) : Prop :=
  ∃ l, sring w r l ∧
       ∀ R nx idle st, R ∈ l → view_of w R = Some (nx, idle, None, st) →
         ∃ z nx' sp st', z ∈ l ∧ view_of w z = Some (nx', 0%float, sp, st').

(** Body 1 of the unlocked space 0 rests on the rogue body 2: arbiter 21 is
    between their shapes 11 and 12.  [thr] is the sleep threshold. *)
Definition rogue_world (thr : cpFloat) : world :=
  mkWorld
    (<[1 := example_body (Some 0) (Some 11) (mkNode None None 0 0)]>
     (<[2 := example_body None (Some 12) (mkNode None None 0 0)]> ∅))
    (<[11 := mkShape 1 None 11 None]> (<[12 := mkShape 2 None 12 None]> ∅))
    (<[21 := mkArbiter 11 12 None None 0 ContactsNull]> ∅)
    ∅ (<[0 := example_space false thr [1] [21]]> ∅) ∅.

(** A store that [cpSpaceProcessComponents] does not expect: body 1 belongs
    to space 0 and is awake, yet it is not in [space->bodies]; the rogue body
    2, of rank 1 and idle time 1, touches it through arbiter 21. *)
Definition orphan_world : world :=
  mkWorld
    (<[1 := example_body (Some 0) (Some 11) (mkNode None None 0 0)]>
     (<[2 := example_body None (Some 12) (mkNode None None 1 1)]> ∅))
    (<[11 := mkShape 1 None 11 None]> (<[12 := mkShape 2 None 12 None]> ∅))
    (<[21 := mkArbiter 11 12 None None 0 ContactsNull]> ∅)
    ∅ (<[0 := example_space false 0.5 [] [21]]> ∅) ∅.

(** Two awake bodies of space 0, each the root of its own tree. *)
Definition awake_pair : world :=
  mkWorld
    (<[1 := example_body (Some 0) None (mkNode None None 0 0)]>
     (<[2 := example_body (Some 0) None (mkNode None None 0 0)]> ∅))
    ∅ ∅ ∅ (<[0 := example_space false 0.5 [1; 2] []]> ∅) ∅.

(** Body 1 sleeps in a component of its own, body 2 of the same unlocked
    space is awake. *)
Definition group_world : world :=
  mkWorld
    (<[1 := example_body (Some 0) None (mkNode None (Some 1) 0 0)]>
     (<[2 := example_body (Some 0) None (mkNode None None 0 0)]> ∅))
    ∅ ∅ ∅
    (<[0 := mkSpace false [2] [] [1] [] [] ∅ ∅ ∅ ∅ 0 0 0.5 (cpv 0 (-10))]> ∅) ∅.

(** The entries of a spatial index for the shapes [l]: each shape under its
    [hashid]. *)
Definition shape_keys (w : world) (l : list ptr) : gset (cpHashValue * ptr) :=
  list_to_set (omap (λ x, (λ sh, (hashid sh, x)) <$> w_shapes w !! x) l).

(** The array [space->sleepingComponents]. *)
Definition sleeping_list (space : ptr) (w : world) : list ptr :=
  default [] (sleepingComponents <$> w_spaces w !! space).

(** The idle-speed threshold of the idle phase of [cpSpaceProcessComponents]
    for a body of mass [mass]: [dvsq ? m*dvsq : 0] with
    [dvsq = dv ? dv*dv : g.g*dt*dt]. *)
Definition idle_thresh (sp : cpSpace) (dt mass : cpFloat) : cpFloat :=
  let dv := idleSpeedThreshold sp in
  let dvsq := (if truthy dv then dv * dv else cpvdot (gravity sp) (gravity sp) * dt * dt)%float in
  (if truthy dvsq then mass * dvsq else 0)%float.

(** Body 1 of the unlocked space 0 moves: its kinetic energy is 500. *)
Definition moving_world : world :=
  mkWorld (<[1 := mkBody 1 500 zero_vect zero_vect false None None None (Some 0)
                    (mkNode None None 0 0.75)]> ∅)
          ∅ ∅ ∅ (<[0 := example_space false 0.5 [1] []]> ∅) ∅.

(** While the forest is built, an awake body that has a parent is in
    [space->bodies] or in [rogueBodies]. *)
Definition parents_listed (s : ptr) (w : world) (rogueBodies : list ptr) : Prop :=
  ∀ x p, next_of w x = Some None → parent_of w x = Some (Some p) →
         x ∈ active_list s w ∨ x ∈ rogueBodies.

(** The store between two calls of [cpSpaceProcessComponents], for a store
    with one space [s]: the invariant of forest building holds with no rogue
    body collected, awake bodies have no parent, every body is rogue or of
    [s], and [space->bodies] lists awake bodies, each once. *)
Record step_inv (s : ptr) (w : world) : Prop := {
  si_build : build_inv s w [];
  si_parentless : ∀ x, next_of w x = Some None → parent_of w x = Some None;
  si_space : ∀ x b, w_bodies w !! x = Some b → space b = None ∨ space b = Some s;
  si_listed_awake : ∀ x, x ∈ active_list s w → next_of w x = Some None;
  si_nodup : NoDup (active_list s w)
}.

(** What decides which bodies [cpSpaceProcessComponents] merges: the shapes,
    the constraints and the two shapes of every arbiter. *)
Definition arb_ends (ar : cpArbiter) : ptr * ptr := (arb_a ar, arb_b ar).
Definition touch_graph (w : world)
    : gmap ptr cpShape * gmap ptr cpConstraint * gmap ptr (ptr * ptr) :=
  (w_shapes w, w_constraints w, arb_ends <$> w_arbiters w).

(** No arbiter and no constraint of the store touches the body [x]. *)
Definition free_body (w : world) (x : ptr) : Prop :=
  (∀ arb ar sh shp, w_arbiters w !! arb = Some ar → sh = arb_a ar ∨ sh = arb_b ar →
                    w_shapes w !! sh = Some shp → shape_body shp ≠ x) ∧
  (∀ c con, w_constraints w !! c = Some con → con_a con ≠ x ∧ con_b con ≠ x).

(** The body [x] is a tree of its own: it has no parent and is the parent
    of no body. *)
Definition lone (w : world) (x : ptr) : Prop :=
  parent_of w x = Some None ∧ ∀ y, parent_of w y ≠ Some (Some x).

(** [sleepingComponents] and the sleeping rings agree: the array lists every
    root once, each entry is the root of a ring with its tree, and every
    sleeping body is on the ring of an entry. *)
Record sleep_inv (s : ptr) (w : world) : Prop := {
  sl_nodup : NoDup (sleeping_list s w);
  sl_rings : ∀ r, r ∈ sleeping_list s w → ∃ l, sring w r l;
  sl_listed : ∀ x n, next_of w x = Some (Some n) →
                ∃ r l, r ∈ sleeping_list s w ∧ sring w r l ∧ x ∈ l
}.

(** What the component processor does not write of a body: everything but
    the component node and the arbiter list. *)
Definition body_rest (b : cpBody)
    : cpFloat * cpFloat * cpVect * cpVect * bool * option ptr * option ptr * option ptr :=
  (m b, kineticEnergy b, p b, rot b, isStatic b, shapeList b, constraintList b, space b).

(** What the walks over a body's arbiter list and constraint list need of an
    entry: the arbiter is in the store with its first shape and the body of
    that shape, and its contact array can be read; the constraint is in the
    store with its first body. *)
Definition arbiter_ready (w : world) (arb : ptr) : Prop :=
  ∃ ar sh ob cs, w_arbiters w !! arb = Some ar ∧ w_shapes w !! arb_a ar = Some sh ∧
                 w_bodies w !! shape_body sh = Some ob ∧ contents w ar = Some cs.
Definition constraint_ready (w : world) (c : ptr) : Prop :=
  ∃ con ob, w_constraints w !! c = Some con ∧ w_bodies w !! con_a con = Some ob.

(** Two stores that differ at most in their spaces, and there not in the
    contact buffers. *)
Definition same_but_spaces (w1 w2 : world) : Prop :=
  w_bodies w2 = w_bodies w1 ∧ w_shapes w2 = w_shapes w1 ∧ w_arbiters w2 = w_arbiters w1 ∧
  w_constraints w2 = w_constraints w1 ∧ w_blocks w2 = w_blocks w1 ∧
  ∀ s, contactBuffer <$> w_spaces w2 !! s = contactBuffer <$> w_spaces w1 !! s.

(** The private block that holds the saved contacts of an arbiter, if it has
    one. *)
Definition saved_block (w : world) (arb : ptr) : option ptr :=
  ar ← w_arbiters w !! arb;
  match contacts ar with ContactsHeap blk => Some blk | _ => None end.

(** What waking [body] needs of an arbiter on its list: the arbiter is in the
    store with its first shape and the body of that shape, and if the test
    [body == arb->a->body || cpBodyIsStatic(arb->a->body)] passes, its contact
    array is empty and null, or is a live heap block that can be read. *)
Definition arbiter_asleep (w : world) (body arb : ptr) : Prop :=
  ∃ ar sh ob, w_arbiters w !! arb = Some ar ∧ w_shapes w !! arb_a ar = Some sh ∧
    w_bodies w !! shape_body sh = Some ob ∧
    (shape_body sh = body ∨ isStatic ob = true →
       (contacts ar = ContactsNull ∧ numContacts ar = 0) ∨
       ∃ blk cells cs, contacts ar = ContactsHeap blk ∧ w_blocks w !! blk = Some cells ∧
                       read_cells cells 0 (numContacts ar) = Some cs).

(** [touching_world] with body 1 asleep on its own: its shape is in the
    static index, and the one contact of arbiter 21 is saved in the heap
    block 7. *)
Definition saved_world : world :=
  mkWorld
    (<[1 := mkBody 1 0 zero_vect zero_vect false (Some 11) (Some 21) None (Some 0)
              (mkNode None (Some 1) 0 0)]>
     (<[2 := example_body (Some 0) (Some 12) (mkNode None None 0 0)]> ∅))
    (<[11 := mkShape 1 None 11 None]> (<[12 := mkShape 2 None 12 None]> ∅))
    (<[21 := mkArbiter 11 12 None None 1 (ContactsHeap 7)]> ∅)
    ∅
    (<[0 := mkSpace false [2] [] [1] [] [] {[ (12%Z, 12) ]} {[ (11%Z, 11) ]} ∅ ∅ 0
              0 0.5 (cpv 0 (-10))]> ∅)
    (<[7 := {[ 0 := mkContact 1 2 3 4 ]}]> ∅).

(** ** Invariants of runs *)

(** [preserves I c]: a run of [c] that returns keeps [I]. *)
Definition preserves {A} (I : world → Prop) (c : M A) : Prop :=
  ∀ w x w', c w = Some (x, w') → I w → I w'.

(** [reads c]: a run of [c] that returns leaves the store as it was. *)
Definition reads {A} (c : M A) : Prop :=
  ∀ w x w', c w = Some (x, w') → w' = w.
(** ** Reasoning about runs *)

Lemma bind_Some {A B} (c : M A) (k : A → M B) w y w' :
  bind c k w = Some (y, w') ↔ ∃ x w1, c w = Some (x, w1) ∧ k x w1 = Some (y, w').
Proof.
  unfold bind. split.
  - destruct (c w) as [[x w1]|] eqn:E; [|done]. eauto.
  - intros (x & w1 & -> & H). done.
Qed.

Lemma ret_Some {A} (x y : A) w w' : ret x w = Some (y, w') ↔ y = x ∧ w' = w.
Proof. unfold ret. intuition congruence. Qed.

Lemma load_body_Some b x w w' :
  load_body b w = Some (x, w') ↔ w_bodies w !! b = Some x ∧ w' = w.
Proof. unfold load_body. destruct (w_bodies w !! _); simpl; intuition congruence. Qed.

Lemma load_shape_Some s x w w' :
  load_shape s w = Some (x, w') ↔ w_shapes w !! s = Some x ∧ w' = w.
Proof. unfold load_shape. destruct (w_shapes w !! _); simpl; intuition congruence. Qed.

Lemma load_arbiter_Some a x w w' :
  load_arbiter a w = Some (x, w') ↔ w_arbiters w !! a = Some x ∧ w' = w.
Proof. unfold load_arbiter. destruct (w_arbiters w !! _); simpl; intuition congruence. Qed.

Lemma load_constraint_Some c x w w' :
  load_constraint c w = Some (x, w') ↔ w_constraints w !! c = Some x ∧ w' = w.
Proof. unfold load_constraint. destruct (w_constraints w !! _); simpl; intuition congruence. Qed.

Lemma load_space_Some s x w w' :
  load_space s w = Some (x, w') ↔ w_spaces w !! s = Some x ∧ w' = w.
Proof. unfold load_space. destruct (w_spaces w !! _); simpl; intuition congruence. Qed.

Lemma modify_body_Some b f u w w' :
  modify_body b f w = Some (u, w') ↔
  ∃ x, w_bodies w !! b = Some x ∧ w' = with_bodies (<[b := f x]> (w_bodies w)) w.
Proof.
  unfold modify_body. destruct u, (w_bodies w !! _) as [y|]; simpl.
  - split; [intros [= <-]; eauto|intros (? & [= <-] & ->); done].
  - split; [done|intros (? & [=] & _)].
Qed.

Lemma modify_node_Some b f u w w' :
  modify_node b f w = Some (u, w') ↔
  ∃ x, w_bodies w !! b = Some x ∧
       w' = with_bodies (<[b := set_node (f (node x)) x]> (w_bodies w)) w.
Proof. apply modify_body_Some. Qed.

Lemma modify_shape_Some s f u w w' :
  modify_shape s f w = Some (u, w') ↔
  ∃ x, w_shapes w !! s = Some x ∧ w' = with_shapes (<[s := f x]> (w_shapes w)) w.
Proof.
  unfold modify_shape. destruct u, (w_shapes w !! _) as [y|]; simpl.
  - split; [intros [= <-]; eauto|intros (? & [= <-] & ->); done].
  - split; [done|intros (? & [=] & _)].
Qed.

Lemma modify_arbiter_Some a f u w w' :
  modify_arbiter a f w = Some (u, w') ↔
  ∃ x, w_arbiters w !! a = Some x ∧ w' = with_arbiters (<[a := f x]> (w_arbiters w)) w.
Proof.
  unfold modify_arbiter. destruct u, (w_arbiters w !! _) as [y|]; simpl.
  - split; [intros [= <-]; eauto|intros (? & [= <-] & ->); done].
  - split; [done|intros (? & [=] & _)].
Qed.

Lemma modify_space_Some s f u w w' :
  modify_space s f w = Some (u, w') ↔
  ∃ x, w_spaces w !! s = Some x ∧ w' = with_spaces (<[s := f x]> (w_spaces w)) w.
Proof.
  unfold modify_space. destruct u, (w_spaces w !! _) as [y|]; simpl.
  - split; [intros [= <-]; eauto|intros (? & [= <-] & ->); done].
  - split; [done|intros (? & [=] & _)].
Qed.

Lemma with_bodies_id w : with_bodies (w_bodies w) w = w.
Proof. by destruct w. Qed.

Lemma set_node_id b : set_node (node b) b = b.
Proof. by destruct b. Qed.

(** Takes one step of a successful run apart. *)
Ltac run_step H :=
  first
    [ apply bind_Some in H as (? & ? & ? & H)
    | apply ret_Some in H as [? ?]
    | apply load_body_Some in H as [? ?]
    | apply load_shape_Some in H as [? ?]
    | apply load_arbiter_Some in H as [? ?]
    | apply load_constraint_Some in H as [? ?]
    | apply load_space_Some in H as [? ?]
    | apply modify_node_Some in H as (? & ? & ?)
    | apply modify_body_Some in H as (? & ? & ?)
    | apply modify_shape_Some in H as (? & ? & ?)
    | apply modify_arbiter_Some in H as (? & ? & ?)
    | apply modify_space_Some in H as (? & ? & ?) ].

(** Takes a successful run apart as far as its binds, loads and stores go. *)
Ltac run_inv H :=
  cbv zeta in H;
  lazymatch type of H with
  | bind _ _ _ = Some _ =>
      let H1 := fresh "Hrun" in
      apply bind_Some in H as (? & ? & H1 & H); run_inv H1; run_inv H
  | ret _ _ = Some _ => apply ret_Some in H as [? ?]; subst
  | fail _ = Some _ => discriminate H
  | load_body _ _ = Some _ => apply load_body_Some in H as [H ?]; subst
  | load_shape _ _ = Some _ => apply load_shape_Some in H as [H ?]; subst
  | load_arbiter _ _ = Some _ => apply load_arbiter_Some in H as [H ?]; subst
  | load_constraint _ _ = Some _ => apply load_constraint_Some in H as [H ?]; subst
  | load_space _ _ = Some _ => apply load_space_Some in H as [H ?]; subst
  | modify_node _ _ _ = Some _ => apply modify_node_Some in H as (? & H & ?); subst
  | modify_body _ _ _ = Some _ => apply modify_body_Some in H as (? & H & ?); subst
  | modify_shape _ _ _ = Some _ => apply modify_shape_Some in H as (? & H & ?); subst
  | modify_arbiter _ _ _ = Some _ => apply modify_arbiter_Some in H as (? & H & ?); subst
  | modify_space _ _ _ = Some _ => apply modify_space_Some in H as (? & H & ?); subst
  | _ => idtac
  end.

(** ** Lemmas on the disjoint-set forest *)

Lemma chain_det w x l r l' r' : chain w x l r → chain w x l' r' → l = l' ∧ r = r'.
Proof.
  intros H. revert l' r'. induction H as [x b Hb Hp|x b y l r Hb Hp Hc IH]; intros l' r' H'.
  - inversion H'; simplify_eq; done.
  - inversion H' as [|? ? ? ? ? ? ? Hc']; simplify_eq.
    destruct (IH _ _ Hc') as [-> ->]. done.
Qed.

Lemma chain_root_parent w x l r :
  chain w x l r → ∃ b, w_bodies w !! r = Some b ∧ parent (node b) = None.
Proof. induction 1; eauto. Qed.

Lemma chain_suffix w x l r z :
  chain w x l r → z ∈ l → ∃ l', chain w z (z :: l') r ∧ length l' < length l.
Proof.
  induction 1 as [|x b y l r Hb Hp Hc IH]; intros Hz.
  - by apply elem_of_nil in Hz.
  - apply elem_of_cons in Hz as [->|Hz].
    + exists l. split; [by econstructor|simpl; lia].
    + destruct (IH Hz) as (l' & ? & ?). exists l'. split; [done|simpl; lia].
Qed.

Lemma chain_root_not_in w x l r : chain w x l r → r ∉ l.
Proof.
  intros H Hr. destruct (chain_suffix _ _ _ _ _ H Hr) as (l' & H' & _).
  destruct (chain_root_parent _ _ _ _ H) as (b & Hb & Hp).
  inversion H'; simplify_eq.
Qed.

Lemma chain_NoDup w x l r : chain w x l r → NoDup l.
Proof.
  induction 1 as [|x b y l r Hb Hp Hc IH]; [constructor|].
  constructor; [|done]. intros Hx.
  destruct (chain_suffix _ _ _ _ _ Hc Hx) as (l' & H' & Hlen).
  assert (chain w x (x :: l) r) as H'' by (by econstructor).
  destruct (chain_det _ _ _ _ _ _ H' H'') as [? _]. simplify_eq. lia.
Qed.

Lemma compress_lookup_notin r l bs x : x ∉ l → compress r l bs !! x = bs !! x.
Proof.
  induction l as [|y l IH]; simpl; [done|]. intros Hx.
  apply not_elem_of_cons in Hx as [? ?]. rewrite lookup_alter_ne; auto.
Qed.

Lemma compress_lookup_in r l bs x b :
  NoDup l → x ∈ l → bs !! x = Some b →
  compress r l bs !! x = Some (set_node (set_parent (Some r) (node b)) b).
Proof.
  induction l as [|y l IH]; simpl; intros Hnd Hx Hb; [by apply elem_of_nil in Hx|].
  apply NoDup_cons in Hnd as [Hy Hnd].
  apply elem_of_cons in Hx as [->|Hx].
  - rewrite lookup_alter_eq, compress_lookup_notin, Hb; done.
  - rewrite lookup_alter_ne by (intros ->; done). auto.
Qed.

(** [componentNodeRoot] returns the root of the chain and compresses the path. *)
Lemma componentNodeRoot_chain w x l r N :
  chain w x l r → length l < N →
  componentNodeRoot N x w = Some (r, with_bodies (compress r l (w_bodies w)) w).
Proof.
  intros H. revert N.
  induction H as [x b Hb Hp|x b y l r Hb Hp Hc IH]; intros N HN;
    (destruct N as [|N]; [simpl in HN; lia|]); simpl.
  - unfold bind, load_body. rewrite Hb. simpl. rewrite Hp. by rewrite with_bodies_id.
  - unfold bind at 1. unfold load_body. rewrite Hb. simpl. rewrite Hp.
    unfold bind at 1. rewrite IH by (simpl in HN; lia).
    assert (x ∉ l) as Hx.
    { pose proof (chain_NoDup w x (x :: l) r ltac:(by econstructor)) as Hnd.
      by apply NoDup_cons in Hnd as [? _]. }
    unfold bind, modify_node, modify_body. simpl.
    rewrite compress_lookup_notin, Hb by done. simpl.
    unfold ret. f_equal. f_equal. unfold with_bodies. simpl. f_equal.
    apply map_eq. intros z. destruct (decide (z = x)) as [->|Hz].
    + rewrite lookup_insert_eq, lookup_alter_eq, compress_lookup_notin, Hb; done.
    + rewrite lookup_insert_ne, lookup_alter_ne; done.
Qed.

(** ** Invariants through the control structure *)

Lemma reads_preserves {A} (I : world → Prop) (c : M A) : reads c → preserves I c.
Proof. intros Hc w x w' H HI. by rewrite (Hc _ _ _ H). Qed.

Lemma reads_ret {A} (x : A) : reads (ret x).
Proof. intros w y w' H. by apply ret_Some in H as [_ ->]. Qed.

Lemma reads_fail {A} : reads (@fail A).
Proof. intros w y w' H. done. Qed.

Lemma reads_bind {A B} (c : M A) (k : A → M B) :
  reads c → (∀ x, reads (k x)) → reads (bind c k).
Proof.
  intros Hc Hk w y w' H. apply bind_Some in H as (x & w1 & H1 & H2).
  rewrite (Hk _ _ _ _ H2). eauto.
Qed.

Lemma reads_load_body b : reads (load_body b).
Proof. intros w x w' H. by apply load_body_Some in H as [_ ->]. Qed.
Lemma reads_load_shape s : reads (load_shape s).
Proof. intros w x w' H. by apply load_shape_Some in H as [_ ->]. Qed.
Lemma reads_load_arbiter a : reads (load_arbiter a).
Proof. intros w x w' H. by apply load_arbiter_Some in H as [_ ->]. Qed.
Lemma reads_load_constraint c : reads (load_constraint c).
Proof. intros w x w' H. by apply load_constraint_Some in H as [_ ->]. Qed.
Lemma reads_load_space s : reads (load_space s).
Proof. intros w x w' H. by apply load_space_Some in H as [_ ->]. Qed.

Lemma reads_cpAssert c : reads (cpAssert c).
Proof. destruct c; [apply reads_ret|apply reads_fail]. Qed.

Lemma reads_shape_link s : reads (shape_link s).
Proof. apply reads_bind; [apply reads_load_shape|intros; apply reads_ret]. Qed.

Lemma reads_arbiter_link body arb : reads (arbiter_link body arb).
Proof.
  apply reads_bind; [apply reads_load_arbiter|intros].
  apply reads_bind; [apply reads_load_shape|intros; apply reads_ret].
Qed.

Lemma reads_constraint_link body c : reads (constraint_link body c).
Proof. apply reads_bind; [apply reads_load_constraint|intros; apply reads_ret]. Qed.

Lemma reads_arbiter_primary body arb : reads (arbiter_primary body arb).
Proof.
  apply reads_bind; [apply reads_load_arbiter|intros].
  apply reads_bind; [apply reads_load_shape|intros].
  case_decide; [apply reads_ret|].
  apply reads_bind; [apply reads_load_body|intros; apply reads_ret].
Qed.

Lemma reads_constraint_primary body c : reads (constraint_primary body c).
Proof.
  apply reads_bind; [apply reads_load_constraint|intros]. cbv zeta.
  case_decide; [apply reads_ret|].
  apply reads_bind; [apply reads_load_body|intros; apply reads_ret].
Qed.

Lemma reads_read_contacts src n : reads (read_contacts src n).
Proof.
  intros w x w' H. unfold read_contacts in H.
  destruct src; [case_decide|..]; simplify_option_eq; done.
Qed.

Lemma reads_cpContactBufferGetArray space : reads (cpContactBufferGetArray space).
Proof. apply reads_bind; [apply reads_load_space|intros; apply reads_ret]. Qed.

Lemma preserves_ret {A} I (x : A) : preserves I (ret x).
Proof. apply reads_preserves, reads_ret. Qed.

Lemma preserves_fail {A} I : preserves I (@fail A).
Proof. apply reads_preserves, reads_fail. Qed.

Lemma preserves_bind {A B} I (c : M A) (k : A → M B) :
  preserves I c → (∀ x, preserves I (k x)) → preserves I (bind c k).
Proof.
  intros Hc Hk w y w' H HI. apply bind_Some in H as (x & w1 & H1 & H2).
  eapply Hk; [done|]. by eapply Hc.
Qed.

Lemma preserves_for_each I N nx step cur :
  (∀ x, preserves I (nx x)) → (∀ x, preserves I (step x)) →
  preserves I (for_each N nx step cur).
Proof.
  intros Hnx Hstep. revert cur.
  induction N as [|N IH]; intros [x|]; cbn [for_each];
    try apply preserves_ret; try apply preserves_fail.
  apply preserves_bind; [done|intros _].
  apply preserves_bind; [done|intros nx']. apply IH.
Qed.

Lemma preserves_ring_loop {A} I N (step : A → ptr → M A) root body acc :
  (∀ acc x, preserves I (step acc x)) → preserves I (ring_loop N step root body acc).
Proof.
  intros Hstep. revert body acc.
  induction N as [|N IH]; intros body acc; cbn [ring_loop]; [apply preserves_fail|].
  apply preserves_bind; [apply reads_preserves, reads_load_body|intros b].
  apply preserves_bind; [done|intros acc'].
  destruct (next (node b)) as [body'|]; [|apply preserves_fail].
  case_decide; [apply preserves_ret|apply IH].
Qed.

Lemma preserves_for_array {A} I (step : A → ptr → M A) arr acc :
  (∀ acc x, preserves I (step acc x)) → preserves I (for_array step arr acc).
Proof.
  intros Hstep. revert acc.
  induction arr as [|x arr IH]; intros acc; cbn [for_array]; [apply preserves_ret|].
  apply preserves_bind; [done|intros acc']. apply IH.
Qed.

(** ** What the store operations leave alone *)

Lemma preserves_modify_space_field {B} (g : cpSpace → B) space v s f :
  (∀ S, g (f S) = g S) →
  preserves (λ w, g <$> w_spaces w !! space = Some v) (modify_space s f).
Proof.
  intros Hf w u w' H HI. run_step H. subst w'. simpl.
  destruct (decide (s = space)) as [->|Hne].
  - rewrite lookup_insert_eq. simpl. rewrite Hf.
    match goal with Hx : w_spaces w !! space = Some _ |- _ => rewrite Hx in HI end. done.
  - by rewrite lookup_insert_ne.
Qed.

Lemma modify_body_spaces b f u w w' :
  modify_body b f w = Some (u, w') → w_spaces w' = w_spaces w.
Proof. intros H. run_step H. by subst. Qed.

Lemma modify_arbiter_spaces a f u w w' :
  modify_arbiter a f w = Some (u, w') → w_spaces w' = w_spaces w.
Proof. intros H. run_step H. by subst. Qed.

Lemma modify_shape_spaces s f u w w' :
  modify_shape s f w = Some (u, w') → w_spaces w' = w_spaces w.
Proof. intros H. run_step H. by subst. Qed.

Lemma cpmalloc_spaces n q w w' : cpmalloc n w = Some (q, w') → w_spaces w' = w_spaces w.
Proof. unfold cpmalloc. intros [= <- <-]. done. Qed.

Lemma cpfree_spaces q u w w' : cpfree q w = Some (u, w') → w_spaces w' = w_spaces w.
Proof.
  destruct q; simpl; intros H; [by apply ret_Some in H as [_ ->]|done|].
  destruct (w_blocks w !! block); simplify_eq/=. done.
Qed.

Lemma preserves_write_contacts_field {B} (g : cpSpace → B) space v dst cs :
  (∀ S c, g (set_contactBuffer c S) = g S) →
  preserves (λ w, g <$> w_spaces w !! space = Some v) (write_contacts dst cs).
Proof.
  intros Hg. destruct dst; simpl.
  - case_decide; [apply preserves_ret|apply preserves_fail].
  - apply preserves_modify_space_field. intros. apply Hg.
  - intros w u w' H HI. destruct (w_blocks w !! block); simplify_eq/=. done.
Qed.

Lemma preserves_memcpy_field {B} (g : cpSpace → B) space v dst src n :
  (∀ S c, g (set_contactBuffer c S) = g S) →
  preserves (λ w, g <$> w_spaces w !! space = Some v) (memcpy dst src n).
Proof.
  intros Hg. apply preserves_bind; [apply reads_preserves, reads_read_contacts|].
  intros cs. by apply preserves_write_contacts_field.
Qed.




Lemma set_parent_id b r :
  parent (node b) = Some r → set_node (set_parent (Some r) (node b)) b = b.
Proof. destruct b as [? ? ? ? ? ? ? ? ? []]. simpl. by intros ->. Qed.

(** Compressing a chain of at most one link changes nothing. *)
Lemma compress_short w x l r :
  chain w x l r → length l ≤ 1 → compress r l (w_bodies w) = w_bodies w.
Proof.
  intros Hc Hlen. destruct Hc as [x b Hb Hp|x b y l r Hb Hp Hc]; [done|].
  destruct Hc as [y b' Hb' Hp'|]; [|simpl in Hlen; lia]. simpl.
  apply map_eq. intros z. destruct (decide (z = x)) as [->|Hz].
  - by rewrite lookup_alter_eq, Hb; simpl; rewrite set_parent_id.
  - by rewrite lookup_alter_ne.
Qed.

(** ** Deactivation and the verdict leave body records alone *)

Section bodies_frame.
Context (P : gmap ptr cpBody → Prop).
Let I (w : world) : Prop := P (w_bodies w).

Lemma preserves_modify_space_bodies s f : preserves I (modify_space s f).
Proof. intros w u w' H HI. run_step H. by subst. Qed.

Lemma preserves_modify_arbiter_bodies a f : preserves I (modify_arbiter a f).
Proof. intros w u w' H HI. run_step H. by subst. Qed.

Lemma preserves_modify_shape_bodies s f : preserves I (modify_shape s f).
Proof. intros w u w' H HI. run_step H. by subst. Qed.

Lemma preserves_cpmalloc_bodies n : preserves I (cpmalloc n).
Proof. intros w u w' H HI. unfold cpmalloc in H. by simplify_eq. Qed.

Lemma preserves_cpfree_bodies q : preserves I (cpfree q).
Proof.
  destruct q; simpl; [apply preserves_ret|apply preserves_fail|].
  intros w u w' H HI. destruct (w_blocks w !! block); by simplify_eq/=.
Qed.

Lemma preserves_memcpy_bodies dst src n : preserves I (memcpy dst src n).
Proof.
  apply preserves_bind; [apply reads_preserves, reads_read_contacts|intros cs].
  destruct dst; simpl.
  - case_decide; [apply preserves_ret|apply preserves_fail].
  - apply preserves_modify_space_bodies.
  - intros w u w' H HI. destruct (w_blocks w !! block); by simplify_eq/=.
Qed.

Lemma preserves_cpSpaceDeactivateBody_bodies N space body :
  preserves I (cpSpaceDeactivateBody N space body).
Proof.
  apply preserves_bind; [apply reads_preserves, reads_load_body|intros b].
  apply preserves_bind.
  { apply preserves_for_each; [intros; apply reads_preserves, reads_shape_link|].
    intros sh. apply preserves_bind; [apply reads_preserves, reads_load_shape|intros ?].
    apply preserves_bind; intros; apply preserves_modify_space_bodies. }
  intros _. apply preserves_bind; [apply reads_preserves, reads_load_body|intros b'].
  apply preserves_bind.
  { apply preserves_for_each; [intros; apply reads_preserves, reads_arbiter_link|].
    intros arb. apply preserves_bind;
      [apply reads_preserves, reads_arbiter_primary|intros [|]]; [|apply preserves_ret].
    apply preserves_bind; [apply reads_preserves, reads_load_arbiter|intros ar]. cbv zeta.
    apply preserves_bind; [apply preserves_modify_space_bodies|intros _].
    apply preserves_bind; [apply preserves_modify_space_bodies|intros _].
    apply preserves_bind; [apply reads_preserves, reads_load_arbiter|intros ar']. cbv zeta.
    apply preserves_bind; [apply preserves_cpmalloc_bodies|intros saved].
    apply preserves_bind; [apply preserves_memcpy_bodies|intros _].
    apply preserves_modify_arbiter_bodies. }
  intros _. apply preserves_bind; [apply reads_preserves, reads_load_body|intros b''].
  apply preserves_for_each; [intros; apply reads_preserves, reads_constraint_link|].
  intros c. apply preserves_bind;
    [apply reads_preserves, reads_constraint_primary|intros [|]]; [|apply preserves_ret].
  apply preserves_modify_space_bodies.
Qed.
End bodies_frame.

Lemma reads_componentActive_loop N threshold root body :
  reads (componentActive_loop N threshold root body).
Proof.
  revert body. induction N as [|N IH]; intros body; cbn [componentActive_loop];
    [apply reads_fail|].
  apply reads_bind; [apply reads_load_body|intros b]. cbv zeta.
  destruct (idleTime (node b) <? threshold)%float; [apply reads_ret|].
  destruct (next (node b)); [|apply reads_fail].
  case_decide; [apply reads_ret|apply IH].
Qed.

Lemma reads_componentActive N root threshold : reads (componentActive N root threshold).
Proof. apply reads_componentActive_loop. Qed.

(** ** The verdict phase *)

(** Copying a ring into [newBodies]: the array stays free of repetitions and
    all its entries have a cleared node.  A member met a second time has lost
    its [next] link, which stops the run. *)
Lemma ring_loop_copy_cleared N root body nb w nb' w' :
  ring_loop N cpSpaceProcessComponents_copy root body nb w = Some (nb', w') →
  NoDup nb → (∀ x, x ∈ nb → cleared w x) →
  NoDup nb' ∧ (∀ x, x ∈ nb' → cleared w' x).
Proof.
  revert body nb w. induction N as [|N IH]; intros body nb w H Hnd Hcl;
    cbn [ring_loop] in H; [done|].
  apply bind_Some in H as (b & ? & Hb & H). run_inv Hb.
  apply bind_Some in H as (nb1 & w1 & Hcopy & H).
  destruct (next (node b)) as [body'|] eqn:Hnext; [|done].
  unfold cpSpaceProcessComponents_copy in Hcopy. run_inv Hcopy. simplify_eq.
  assert (body ∉ nb) as Hbody.
  { intros Hin. destruct (Hcl _ Hin) as (b0 & Hb0 & _ & Hn & _). congruence. }
  match type of H with (if _ then ret ?l else _) ?w = _ =>
    assert (NoDup l ∧ ∀ x, x ∈ l → cleared w x) as [Hnd1 Hcl1] end.
  { split.
    - destruct (negb _); [|done]. unfold cpArrayPush.
      apply NoDup_app. split; [done|]. split; [|apply NoDup_singleton].
      intros x Hx Hx'. apply list_elem_of_singleton in Hx' as ->. done.
    - intros x Hx. unfold cleared. simpl.
      destruct (decide (x = body)) as [->|Hne].
      + rewrite lookup_insert_eq. eexists. split; [done|]. done.
      + rewrite lookup_insert_ne by done. apply Hcl.
        destruct (negb _); [|done]. unfold cpArrayPush in Hx.
        apply elem_of_app in Hx as [?|Hx]; [done|].
        by apply list_elem_of_singleton in Hx. }
  case_decide.
  - run_inv H. done.
  - by eapply IH.
Qed.

(** No step of the verdict phase changes the idle time of any body. *)
Lemma preserves_copy_idle x v acc body :
  preserves (λ w, idle_of w x = v) (cpSpaceProcessComponents_copy acc body).
Proof.
  intros w r w' H <-. unfold cpSpaceProcessComponents_copy in H. run_inv H. simplify_eq.
  unfold idle_of. simpl. destruct (decide (x = body)) as [->|Hne].
  - rewrite lookup_insert_eq. by rewrite Hrun.
  - by rewrite lookup_insert_ne.
Qed.

Lemma preserves_component_bodies (P : gmap ptr cpBody → Prop) N space nb root :
  (∀ acc body, preserves (λ w, P (w_bodies w)) (cpSpaceProcessComponents_copy acc body)) →
  preserves (λ w, P (w_bodies w)) (cpSpaceProcessComponents_component N space nb root).
Proof.
  intros Hcopy.
  apply preserves_bind; [apply reads_preserves, reads_load_space|intros sp].
  apply preserves_bind; [apply reads_preserves, reads_componentActive|intros [|]].
  - by apply preserves_ring_loop.
  - apply preserves_bind.
    { apply preserves_ring_loop. intros [] body.
      apply (preserves_cpSpaceDeactivateBody_bodies P). }
    intros _. apply preserves_bind; [apply (preserves_modify_space_bodies P)|intros _].
    apply preserves_ret.
Qed.

Lemma preserves_component_idle x v N space nb root :
  preserves (λ w, idle_of w x = v) (cpSpaceProcessComponents_component N space nb root).
Proof.
  apply (preserves_component_bodies (λ bs, (idleTime ∘ node) <$> bs !! x = v)).
  intros. apply preserves_copy_idle.
Qed.

Lemma component_cleared N space nb root w nb' w' :
  cpSpaceProcessComponents_component N space nb root w = Some (nb', w') →
  NoDup nb → (∀ x, x ∈ nb → cleared w x) →
  NoDup nb' ∧ (∀ x, x ∈ nb' → cleared w' x).
Proof.
  intros H Hnd Hcl. unfold cpSpaceProcessComponents_component in H.
  apply bind_Some in H as (sp & ? & Hsp & H). run_inv Hsp.
  apply bind_Some in H as (active & ? & Hact & H).
  pose proof (reads_componentActive _ _ _ _ _ _ Hact) as ->.
  destruct active.
  - by eapply ring_loop_copy_cleared.
  - apply bind_Some in H as ([] & w1 & Hloop & H). run_inv H.
    split; [done|]. intros y Hy.
    assert (w_bodies w1 = w_bodies w) as Hsame.
    { refine (preserves_ring_loop (λ w', w_bodies w' = w_bodies w) _ _ _ _ _ _ _ _ _
                Hloop eq_refl).
      intros [] body.
      apply (preserves_cpSpaceDeactivateBody_bodies (λ bs, bs = w_bodies w)). }
    unfold cleared. simpl. rewrite Hsame. by apply Hcl.
Qed.

Lemma verdict_cleared N space components nb w nb' w' :
  for_array (cpSpaceProcessComponents_component N space) components nb w = Some (nb', w') →
  NoDup nb → (∀ x, x ∈ nb → cleared w x) →
  NoDup nb' ∧ (∀ x, x ∈ nb' → cleared w' x).
Proof.
  revert nb w. induction components as [|root components IH]; intros nb w H Hnd Hcl;
    cbn [for_array] in H.
  - run_inv H. done.
  - apply bind_Some in H as (nb1 & w1 & Hc & H).
    destruct (component_cleared _ _ _ _ _ _ _ Hc Hnd Hcl) as [Hnd1 Hcl1].
    by eapply IH.
Qed.

(** A component judged not active is a ring all of whose members have an idle
    time that is not below the threshold. *)
Lemma componentActive_loop_false N threshold root body w w' :
  componentActive_loop N threshold root body w = Some (false, w') →
  ∃ l, ring_from w root body l ∧
       ∀ x, x ∈ l → ∃ b, w_bodies w !! x = Some b ∧
                         (idleTime (node b) <? threshold)%float = false.
Proof.
  revert body. induction N as [|N IH]; intros body H; cbn [componentActive_loop] in H;
    [done|].
  apply bind_Some in H as (b & ? & Hb & H). run_inv Hb.
  destruct (idleTime (node b) <? threshold)%float eqn:Hidle; [by run_inv H|].
  destruct (next (node b)) as [body'|] eqn:Hnext; [|done].
  case_decide as Hroot.
  - subst body'. exists [body]. split; [by econstructor|].
    intros x Hx. apply list_elem_of_singleton in Hx as ->. eauto.
  - destruct (IH _ H) as (l & Hl & Hall). exists (body :: l). split.
    + by eapply ring_more.
    + intros x Hx. apply elem_of_cons in Hx as [->|Hx]; eauto.
Qed.

(** Fields of a space that deactivating a body does not write to. *)
Section space_field_frame.
Context {B : Type} (g : cpSpace → B) (space0 : ptr) (v : B).
Context (g_activeShapes : ∀ S x, g (set_activeShapes x S) = g S).
Context (g_staticShapes : ∀ S x, g (set_staticShapes x S) = g S).
Context (g_contactSet : ∀ S x, g (set_contactSet x S) = g S).
Context (g_arbiters : ∀ S x, g (set_arbiters x S) = g S).
Context (g_constraints : ∀ S x, g (set_constraints x S) = g S).
Context (g_contactBuffer : ∀ S x, g (set_contactBuffer x S) = g S).
Let I (w : world) : Prop := g <$> w_spaces w !! space0 = Some v.

Lemma preserves_cpSpaceDeactivateBody_field N space body :
  preserves I (cpSpaceDeactivateBody N space body).
Proof using All.
  apply preserves_bind; [apply reads_preserves, reads_load_body|intros b].
  apply preserves_bind.
  { apply preserves_for_each; [intros; apply reads_preserves, reads_shape_link|].
    intros sh. apply preserves_bind; [apply reads_preserves, reads_load_shape|intros ?].
    apply preserves_bind; intros; by apply preserves_modify_space_field. }
  intros _. apply preserves_bind; [apply reads_preserves, reads_load_body|intros b'].
  apply preserves_bind.
  { apply preserves_for_each; [intros; apply reads_preserves, reads_arbiter_link|].
    intros arb. apply preserves_bind;
      [apply reads_preserves, reads_arbiter_primary|intros [|]]; [|apply preserves_ret].
    apply preserves_bind; [apply reads_preserves, reads_load_arbiter|intros ar]. cbv zeta.
    apply preserves_bind; [by apply preserves_modify_space_field|intros _].
    apply preserves_bind; [by apply preserves_modify_space_field|intros _].
    apply preserves_bind; [apply reads_preserves, reads_load_arbiter|intros ar']. cbv zeta.
    apply preserves_bind.
    { intros w u w' H HI. unfold I. by rewrite (cpmalloc_spaces _ _ _ _ H). }
    intros saved. apply preserves_bind; [by apply preserves_memcpy_field|intros _].
    intros w u w' H HI. unfold I. by rewrite (modify_arbiter_spaces _ _ _ _ _ H). }
  intros _. apply preserves_bind; [apply reads_preserves, reads_load_body|intros b''].
  apply preserves_for_each; [intros; apply reads_preserves, reads_constraint_link|].
  intros c. apply preserves_bind;
    [apply reads_preserves, reads_constraint_primary|intros [|]]; [|apply preserves_ret].
  by apply preserves_modify_space_field.
Qed.
End space_field_frame.

(** ** Intrusive lists *)

Lemma linked_det nx w cur l l' : linked nx w cur l → linked nx w cur l' → l = l'.
Proof.
  intros H. revert l'. induction H as [|x y l Hx Hl IH]; intros l' H'.
  - by inversion H'.
  - inversion H' as [|? y' l'' Hx' Hl']; simplify_eq. f_equal. by apply IH.
Qed.

Lemma linked_suffix nx w cur l z :
  linked nx w cur l → z ∈ l → ∃ l', linked nx w (Some z) (z :: l') ∧ length l' < length l.
Proof.
  induction 1 as [|x y l Hx Hl IH]; intros Hz; [by apply elem_of_nil in Hz|].
  apply elem_of_cons in Hz as [->|Hz].
  - exists l. split; [by econstructor|simpl; lia].
  - destruct (IH Hz) as (l' & ? & ?). exists l'. split; [done|simpl; lia].
Qed.

Lemma linked_NoDup nx w cur l : linked nx w cur l → NoDup l.
Proof.
  induction 1 as [|x y l Hx Hl IH]; [constructor|].
  constructor; [|done]. intros Hin.
  destruct (linked_suffix _ _ _ _ _ Hl Hin) as (l' & H' & Hlen).
  assert (linked nx w (Some x) (x :: l)) as H'' by (by econstructor).
  pose proof (linked_det _ _ _ _ _ H' H'') as E. simplify_eq. lia.
Qed.

Lemma linked_stable nx w1 w2 cur l :
  (∀ z, fst <$> nx z w2 = fst <$> nx z w1) → linked nx w1 cur l → linked nx w2 cur l.
Proof.
  intros Hst. induction 1 as [|x y l Hx Hl IH]; [constructor|].
  econstructor; [|done]. by rewrite Hst.
Qed.

Lemma for_array_app {A} (step : A → ptr → M A) l1 l2 acc w :
  for_array step (l1 ++ l2) acc w =
  match for_array step l1 acc w with
  | Some (acc', w') => for_array step l2 acc' w'
  | None => None
  end.
Proof.
  revert acc w. induction l1 as [|x l1 IH]; intros acc w; simpl; [done|].
  unfold bind. destruct (step acc x w) as [[acc1 w1]|]; [apply IH|done].
Qed.

(** A loop over an intrusive list whose body leaves the links alone runs the
    body over the list that the walk meets in the initial store. *)
Lemma for_each_linked N nx step cur w w' :
  (∀ x, reads (nx x)) →
  (∀ x z w1 w2 u, step x w1 = Some (u, w2) → fst <$> nx z w2 = fst <$> nx z w1) →
  for_each N nx step cur w = Some (tt, w') →
  ∃ l, linked nx w cur l ∧ for_array (λ _ x, step x) l tt w = Some (tt, w').
Proof.
  intros Hnx Hst. revert cur w.
  induction N as [|N IH]; intros [x|] w H; cbn [for_each] in H;
    try (by run_inv H; exists []; split; [constructor|]); try done.
  apply bind_Some in H as ([] & w1 & Hstep & H).
  apply bind_Some in H as (y & w1' & Hy & H).
  pose proof (Hnx _ _ _ _ Hy) as ->.
  destruct (IH _ _ H) as (l & Hl & Hfold).
  exists (x :: l). split.
  - econstructor.
    + rewrite <- (Hst _ _ _ _ _ Hstep), Hy. done.
    + eapply linked_stable; [|done]. intros z. symmetry. by eapply Hst.
  - cbn [for_array]. unfold bind. by rewrite Hstep.
Qed.

(** ** Contact storage *)

Lemma read_cells_length cells off n cs : read_cells cells off n = Some cs → length cs = n.
Proof.
  revert off cs. induction n as [|n IH]; intros off cs H; simpl in H; [by simplify_eq|].
  destruct (cells !! off) as [c|]; [|done]. simpl in H.
  destruct (read_cells cells (S off) n) as [cs'|] eqn:E; [|done]. simpl in H.
  simplify_eq. simpl. f_equal. by eapply IH.
Qed.

Lemma write_cells_lookup_below cells off cs i :
  i < off → write_cells cells off cs !! i = cells !! i.
Proof.
  revert cells off. induction cs as [|c cs IH]; intros cells off Hi; simpl; [done|].
  rewrite IH by lia. apply lookup_insert_ne. lia.
Qed.

Lemma write_cells_lookup_above cells off cs i :
  off + length cs ≤ i → write_cells cells off cs !! i = cells !! i.
Proof.
  revert cells off. induction cs as [|c cs IH]; intros cells off Hi; simpl in *; [done|].
  rewrite IH by lia. apply lookup_insert_ne. lia.
Qed.

Lemma read_write_cells cells off cs :
  read_cells (write_cells cells off cs) off (length cs) = Some cs.
Proof.
  revert cells off. induction cs as [|c cs IH]; intros cells off; simpl; [done|].
  rewrite write_cells_lookup_below, lookup_insert_eq by lia. simpl.
  by rewrite IH.
Qed.

Lemma read_cells_ext cells cells' off n :
  (∀ i, off ≤ i < off + n → cells' !! i = cells !! i) →
  read_cells cells' off n = read_cells cells off n.
Proof.
  revert off. induction n as [|n IH]; intros off H; simpl; [done|].
  rewrite H by lia. destruct (cells !! off); [|done]. simpl.
  rewrite IH; [done|]. intros i Hi. apply H. lia.
Qed.

Lemma read_cells_write_above cells off n off' cs :
  off + n ≤ off' → read_cells (write_cells cells off' cs) off n = read_cells cells off n.
Proof. intros H. apply read_cells_ext. intros i Hi. apply write_cells_lookup_below. lia. Qed.

(** ** Contacts across sleep and wake *)

Lemma same_graph_refl w : same_graph w w.
Proof. done. Qed.

Lemma same_graph_trans w1 w2 w3 : same_graph w1 w2 → same_graph w2 w3 → same_graph w1 w3.
Proof.
  intros (Hb & Hs & Ha) (Hb' & Hs' & Ha'). split; [|split; [congruence|]].
  - intros x. by rewrite Hb', Hb.
  - intros z. by rewrite Ha', Ha.
Qed.

Lemma same_graph_sym w1 w2 : same_graph w1 w2 → same_graph w2 w1.
Proof. intros (Hb & Hs & Ha). by repeat split. Qed.

Lemma same_graph_arbiter_link w1 w2 body z :
  same_graph w1 w2 → fst <$> arbiter_link body z w2 = fst <$> arbiter_link body z w1.
Proof.
  intros (Hb & Hs & Ha). specialize (Ha z).
  unfold arbiter_link, bind, load_arbiter, load_shape.
  destruct (w_arbiters w2 !! z) as [ar2|], (w_arbiters w1 !! z) as [ar1|];
    simpl in *; try done.
  unfold arb_skeleton in Ha. simplify_eq. rewrite Hs.
  repeat match goal with H : _ = _ |- _ => rewrite H end.
  destruct (w_shapes w1 !! arb_a ar1); done.
Qed.

Lemma same_graph_arbiter_primary w1 w2 body z :
  same_graph w1 w2 → fst <$> arbiter_primary body z w2 = fst <$> arbiter_primary body z w1.
Proof.
  intros (Hb & Hs & Ha). specialize (Ha z).
  unfold arbiter_primary, bind, load_arbiter, load_shape, load_body.
  destruct (w_arbiters w2 !! z) as [ar2|], (w_arbiters w1 !! z) as [ar1|];
    simpl in *; try done.
  unfold arb_skeleton in Ha. simplify_eq. rewrite Hs.
  repeat match goal with H : _ = _ |- _ => rewrite H end.
  destruct (w_shapes w1 !! arb_a ar1) as [sh|]; simpl; [|done].
  case_decide; [done|]. specialize (Hb (shape_body sh)).
  destruct (w_bodies w2 !! shape_body sh) as [b2|], (w_bodies w1 !! shape_body sh) as [b1|];
    simpl in *; try done.
Qed.

Lemma contact_eq_refl w : contact_eq w w.
Proof. done. Qed.

Lemma contact_eq_trans w1 w2 w3 : contact_eq w1 w2 → contact_eq w2 w3 → contact_eq w1 w3.
Proof.
  intros (Hb & Hs & Ha & Hk & Hp) (Hb' & Hs' & Ha' & Hk' & Hp').
  split; [congruence|]. split; [congruence|]. split; [congruence|]. split; [congruence|].
  intros s. by rewrite Hp', Hp.
Qed.

Lemma contact_eq_same_graph w1 w2 : contact_eq w1 w2 → same_graph w1 w2.
Proof.
  intros (Hb & Hs & Ha & _). split; [|split; [done|]].
  - intros x. by rewrite Hb.
  - intros z. by rewrite Ha.
Qed.

Lemma contact_eq_modify_space s f u w w' :
  (∀ S, contact_part (f S) = contact_part S) →
  modify_space s f w = Some (u, w') → contact_eq w w'.
Proof.
  intros Hf H. run_inv H. repeat split. intros s'. simpl.
  destruct (decide (s = s')) as [->|Hne].
  - rewrite lookup_insert_eq, H. simpl. by rewrite Hf.
  - by rewrite lookup_insert_ne.
Qed.

Lemma contact_eq_contents w1 w2 ar : contact_eq w1 w2 → contents w2 ar = contents w1 ar.
Proof.
  intros (Hb & Hs & Ha & Hk & Hp). unfold contents, read_contacts.
  destruct (contacts ar) as [|s off|blk].
  - by case_decide.
  - specialize (Hp s).
    destruct (w_spaces w2 !! s) as [S2|], (w_spaces w1 !! s) as [S1|]; simpl in *; try done.
    unfold contact_part in Hp. simplify_eq.
    repeat match goal with H : _ = _ |- _ => rewrite H end.
    by destruct (read_cells _ _ _).
  - rewrite Hk. destruct (w_blocks w1 !! blk); simpl; [|done].
    by destruct (read_cells _ _ _).
Qed.

Lemma contact_eq_holds w1 w2 arb ar cs : contact_eq w1 w2 → holds arb ar cs w1 → holds arb ar cs w2.
Proof.
  intros Heq [Har Hcs]. split.
  - destruct Heq as (_ & _ & -> & _). done.
  - by rewrite (contact_eq_contents _ _ _ Heq).
Qed.

Lemma contact_eq_saved w1 w2 arb ar blk cs :
  contact_eq w1 w2 → saved arb ar blk cs w1 → saved arb ar blk cs w2.
Proof. intros (_ & _ & Ha & Hk & _) [Har Hcs]. split; [by rewrite Ha|by rewrite Hk]. Qed.

Lemma contact_eq_restored w1 w2 space arb ar blk off cs :
  contact_eq w1 w2 → restored space arb ar blk off cs w1 → restored space arb ar blk off cs w2.
Proof.
  intros (_ & _ & Ha & Hk & Hp) (Har & Hblk & sp & Hsp & Hread & Hnum & Hset).
  split; [by rewrite Ha|]. split; [by rewrite Hk|].
  specialize (Hp space). rewrite Hsp in Hp.
  destruct (w_spaces w2 !! space) as [sp2|]; simpl in Hp; [|done].
  unfold contact_part in Hp. simplify_eq. exists sp2.
  repeat match goal with H : _ = _ |- _ => rewrite H end. done.
Qed.

Lemma cpmalloc_Some n q w w' :
  cpmalloc n w = Some (q, w') ↔
  q = ContactsHeap (fresh (dom (w_blocks w))) ∧
  w' = with_blocks (<[fresh (dom (w_blocks w)) := ∅]> (w_blocks w)) w.
Proof. unfold cpmalloc. split; [by intros [= <- <-]|by intros [-> ->]]. Qed.

Lemma memcpy_heap_Some blk src n u w w' :
  memcpy (ContactsHeap blk) src n w = Some (u, w') →
  ∃ cs cells, read_contacts src n w = Some (cs, w) ∧ w_blocks w !! blk = Some cells ∧
              w' = with_blocks (<[blk := write_cells cells 0 cs]> (w_blocks w)) w.
Proof.
  intros H. unfold memcpy in H. apply bind_Some in H as (cs & w1 & Hread & H).
  pose proof (reads_read_contacts _ _ _ _ _ Hread) as ->. simpl in H.
  destruct (w_blocks w !! blk) as [cells|] eqn:E; simplify_eq/=. eauto.
Qed.

Lemma memcpy_buffer_Some s off src n u w w' :
  memcpy (ContactsInBuffer s off) src n w = Some (u, w') →
  ∃ cs sp, read_contacts src n w = Some (cs, w) ∧ w_spaces w !! s = Some sp ∧
           w' = with_spaces (<[s := set_contactBuffer (write_cells (contactBuffer sp) off cs) sp]>
                               (w_spaces w)) w.
Proof.
  intros H. unfold memcpy in H. apply bind_Some in H as (cs & w1 & Hread & H).
  pose proof (reads_read_contacts _ _ _ _ _ Hread) as ->. simpl in H.
  run_inv H. eauto.
Qed.

Lemma cpfree_Some q u w w' :
  cpfree q w = Some (u, w') →
  (q = ContactsNull ∧ w' = w) ∨
  (∃ blk, q = ContactsHeap blk ∧ is_Some (w_blocks w !! blk) ∧
          w' = with_blocks (delete blk (w_blocks w)) w).
Proof.
  destruct q as [|s off|blk]; simpl; intros H.
  - run_inv H. by left.
  - done.
  - right. destruct (w_blocks w !! blk) eqn:E; simplify_eq/=. eauto.
Qed.

Lemma read_contacts_contents src n cs ar w w' :
  read_contacts src n w = Some (cs, w') → contacts ar = src → numContacts ar = n →
  contents w ar = Some cs.
Proof. intros H <- <-. unfold contents. by rewrite H. Qed.

(** Reading a contact array depends on the contact buffers and on the live
    blocks only, and survives other blocks coming and going. *)
Lemma contents_frame w w' ar cs :
  (∀ s, contactBuffer <$> w_spaces w' !! s = contactBuffer <$> w_spaces w !! s) →
  (∀ b c, contacts ar = ContactsHeap b → w_blocks w !! b = Some c → w_blocks w' !! b = Some c) →
  contents w ar = Some cs → contents w' ar = Some cs.
Proof.
  intros Hbuf Hblk. unfold contents, read_contacts.
  destruct (contacts ar) as [|s off|blk].
  - by case_decide.
  - specialize (Hbuf s).
    destruct (w_spaces w !! s) as [S1|]; simpl in *; [|done].
    destruct (w_spaces w' !! s) as [S2|]; simpl in *; [|done].
    injection Hbuf as Hbuf. rewrite Hbuf. by destruct (read_cells _ _ _).
  - destruct (w_blocks w !! blk) as [c|] eqn:E; simpl; [|done].
    rewrite (Hblk _ _ eq_refl E). simpl. by destruct (read_cells _ _ _).
Qed.

Lemma contents_length w ar cs : contents w ar = Some cs → length cs = numContacts ar.
Proof.
  unfold contents, read_contacts. destruct (contacts ar) as [|s off|blk]; intros H.
  - case_decide as Hn; simplify_eq/=. by rewrite Hn.
  - destruct (w_spaces w !! s) as [S1|]; simpl in *; [|done].
    destruct (read_cells _ _ _) eqn:E; simplify_eq/=. by eapply read_cells_length.
  - destruct (w_blocks w !! blk) as [c|]; simpl in *; [|done].
    destruct (read_cells _ _ _) eqn:E; simplify_eq/=. by eapply read_cells_length.
Qed.

(** What deactivating one arbiter does to the store. *)
Lemma cpSpaceDeactivateBody_arbiter_inv space body arb w w' :
  cpSpaceDeactivateBody_arbiter space body arb w = Some (tt, w') →
  (fst <$> arbiter_primary body arb w = Some false ∧ w' = w) ∨
  (fst <$> arbiter_primary body arb w = Some true ∧
   ∃ ar cs,
     w_arbiters w !! arb = Some ar ∧
     w_bodies w' = w_bodies w ∧ w_shapes w' = w_shapes w ∧
     w_arbiters w' = <[arb := set_contacts (ContactsHeap (fresh (dom (w_blocks w)))) ar]>
                       (w_arbiters w) ∧
     w_blocks w' = <[fresh (dom (w_blocks w)) := write_cells ∅ 0 cs]> (w_blocks w) ∧
     (∀ s, contactBuffer <$> w_spaces w' !! s = contactBuffer <$> w_spaces w !! s) ∧
     length cs = numContacts ar ∧
     (∀ cs0, contents w ar = Some cs0 → cs0 = cs)).
Proof.
  intros H. unfold cpSpaceDeactivateBody_arbiter in H.
  apply bind_Some in H as (prim & w0 & Hprim & H).
  pose proof (reads_arbiter_primary _ _ _ _ _ Hprim) as ->.
  destruct prim; [|run_inv H; left; by rewrite Hprim].
  right. split; [by rewrite Hprim|].
  apply bind_Some in H as (ar & ? & Har & H). run_inv Har.
  apply bind_Some in H as ([] & w1 & Hset & H). run_inv Hset.
  apply bind_Some in H as ([] & w2 & Harbs & H). run_inv Harbs.
  apply bind_Some in H as (ar' & ? & Har' & H). run_inv Har'. simpl in Har'. simplify_eq.
  apply bind_Some in H as (saved & w3 & Hmalloc & H).
  apply cpmalloc_Some in Hmalloc as [-> ->].
  apply bind_Some in H as ([] & w4 & Hcopy & H).
  apply memcpy_heap_Some in Hcopy as (cs & cells & Hread & Hcells & ->).
  run_inv H. simpl in *. rewrite lookup_insert_eq in Hcells. simplify_eq.
  exists ar, cs. split; [done|]. split; [done|]. split; [done|]. split; [done|].
  split; [by rewrite insert_insert_eq|]. split.
  { intros s. destruct (decide (s = space)) as [->|Hne].
    - rewrite lookup_insert_eq. rewrite lookup_insert_eq in Harbs. simplify_eq.
      by rewrite Hset.
    - by rewrite !lookup_insert_ne. }
  pose proof (read_contacts_contents _ _ _ ar _ _ Hread eq_refl eq_refl) as Hc.
  split; [by eapply contents_length|].
  intros cs0 Hcs0.
  eapply (contents_frame w) in Hcs0; [rewrite Hc in Hcs0; by simplify_eq| |].
  - intros s. simpl. destruct (decide (s = space)) as [->|Hne].
    + rewrite lookup_insert_eq. rewrite lookup_insert_eq in Harbs. simplify_eq.
      by rewrite Hset.
    + by rewrite !lookup_insert_ne.
  - intros b c _ Hb. simpl. rewrite lookup_insert_ne; [done|].
    intros <-. apply (is_fresh (dom (w_blocks w))). apply elem_of_dom. eauto.
Qed.

(** What waking one arbiter does to the store. *)
Lemma cpSpaceActivateBody_arbiter_inv space body arb w w' :
  cpSpaceActivateBody_arbiter space body arb w = Some (tt, w') →
  (fst <$> arbiter_primary body arb w = Some false ∧ w' = w) ∨
  (fst <$> arbiter_primary body arb w = Some true ∧
   ∃ ar sp sp' cs,
     w_arbiters w !! arb = Some ar ∧ w_spaces w !! space = Some sp ∧
     contents w ar = Some cs ∧
     w_bodies w' = w_bodies w ∧ w_shapes w' = w_shapes w ∧
     w_arbiters w' = <[arb := set_contacts (ContactsInBuffer space (contactBufferNum sp)) ar]>
                       (w_arbiters w) ∧
     w_spaces w' = <[space := sp']> (w_spaces w) ∧
     contactBuffer sp' = write_cells (contactBuffer sp) (contactBufferNum sp) cs ∧
     contactBufferNum sp' = contactBufferNum sp + numContacts ar ∧
     contactSet sp' = <[CP_HASH_PAIR (arb_a ar) (arb_b ar) := arb]> (contactSet sp) ∧
     ((contacts ar = ContactsNull ∧ w_blocks w' = w_blocks w) ∨
      (∃ blk, contacts ar = ContactsHeap blk ∧ is_Some (w_blocks w !! blk) ∧
              w_blocks w' = delete blk (w_blocks w)))).
Proof.
  intros H. unfold cpSpaceActivateBody_arbiter in H.
  apply bind_Some in H as (prim & w0 & Hprim & H).
  pose proof (reads_arbiter_primary _ _ _ _ _ Hprim) as ->.
  destruct prim; [|run_inv H; left; by rewrite Hprim].
  right. split; [by rewrite Hprim|].
  apply bind_Some in H as (ar & ? & Har & H). run_inv Har. cbv zeta in H.
  apply bind_Some in H as (buf & ? & Hbuf & H).
  unfold cpContactBufferGetArray in Hbuf. run_inv Hbuf.
  match goal with Hx : w_spaces w !! space = Some ?x |- _ =>
    rename x into sp; rename Hx into Hsp end.
  apply bind_Some in H as ([] & w1 & Hmod & H). run_inv Hmod. simplify_eq.
  apply bind_Some in H as ([] & w2 & Hcopy & H).
  apply memcpy_buffer_Some in Hcopy as (cs & sp0 & Hread & Hsp0 & ->).
  simpl in Hsp0. simplify_eq.
  apply bind_Some in H as ([] & w3 & Hpush & H).
  unfold cpSpacePushContacts in Hpush. run_inv Hpush.
  simpl in Hpush. rewrite lookup_insert_eq in Hpush. simplify_eq.
  apply bind_Some in H as ([] & w4 & Hins & H). run_inv Hins.
  simpl in Hins. rewrite lookup_insert_eq in Hins. simplify_eq.
  eexists ar, sp, _, cs. split; [done|]. split; [done|]. split.
  { match type of Hread with read_contacts _ _ ?w0 = _ =>
      eapply (contents_frame w0 w) end;
      [intros; reflexivity|intros ? ? _ Hb; exact Hb|].
    by eapply read_contacts_contents. }
  apply cpfree_Some in H as [[Hnull ->]|(blk & Hblk & Hlive & ->)]; simpl;
    (split; [done|]); (split; [done|]); (split; [done|]);
    (split; [by rewrite !insert_insert_eq|]); simpl;
    (split; [done|]); (split; [done|]); (split; [done|]).
  - by left.
  - right. exists blk. done.
Qed.

Lemma preserves_for_array_in {A} I (step : A → ptr → M A) arr acc :
  (∀ acc x, x ∈ arr → preserves I (step acc x)) → preserves I (for_array step arr acc).
Proof.
  revert acc. induction arr as [|x arr IH]; intros acc Hstep; cbn [for_array];
    [apply preserves_ret|].
  apply preserves_bind; [apply Hstep; by left|intros acc'].
  apply IH. intros acc'' y Hy. apply Hstep. by right.
Qed.

Lemma same_graph_key_of w1 w2 z :
  same_graph w1 w2 → key_of <$> w_arbiters w2 !! z = key_of <$> w_arbiters w1 !! z.
Proof.
  intros (_ & _ & Ha). specialize (Ha z).
  destruct (w_arbiters w2 !! z) as [ar2|], (w_arbiters w1 !! z) as [ar1|]; simpl in *; try done.
  unfold arb_skeleton in Ha. unfold key_of. injection Ha as H1 H2 _ _ _. by rewrite H1, H2.
Qed.

Lemma same_graph_insert_contacts w w' arb ar q :
  w_bodies w' = w_bodies w → w_shapes w' = w_shapes w →
  w_arbiters w !! arb = Some ar →
  w_arbiters w' = <[arb := set_contacts q ar]> (w_arbiters w) →
  same_graph w w'.
Proof.
  intros Hb Hs Har Ha. split; [intros x; by rewrite Hb|]. split; [done|].
  intros z. rewrite Ha.
  destruct (decide (z = arb)) as [->|Hne].
  - by rewrite lookup_insert_eq, Har.
  - by rewrite lookup_insert_ne.
Qed.

Lemma cpSpaceDeactivateBody_arbiter_same_graph space body x w w' :
  cpSpaceDeactivateBody_arbiter space body x w = Some (tt, w') → same_graph w w'.
Proof.
  intros H. apply cpSpaceDeactivateBody_arbiter_inv in H
    as [[_ ->]|(_ & ar & cs & Har & Hb & Hs & Ha & _)]; [done|].
  by eapply same_graph_insert_contacts.
Qed.

Lemma cpSpaceActivateBody_arbiter_same_graph space body x w w' :
  cpSpaceActivateBody_arbiter space body x w = Some (tt, w') → same_graph w w'.
Proof.
  intros H. apply cpSpaceActivateBody_arbiter_inv in H
    as [[_ ->]|(_ & ar & sp & sp' & cs & Har & _ & _ & Hb & Hs & Ha & _)]; [done|].
  by eapply same_graph_insert_contacts.
Qed.

(** Deactivating another arbiter leaves the record and the contact array of
    [arb] as they are. *)
Lemma preserves_deactivate_other_holds space body arb ar cs x :
  x ≠ arb → preserves (holds arb ar cs) (cpSpaceDeactivateBody_arbiter space body x).
Proof.
  intros Hne w [] w' H [Har Hcs]. apply cpSpaceDeactivateBody_arbiter_inv in H
    as [[_ ->]|(_ & ar' & cs' & Har' & Hb & Hs & Ha & Hk & Hbuf & _)]; [done|].
  split.
  - rewrite Ha. by rewrite lookup_insert_ne.
  - eapply contents_frame; [exact Hbuf| |exact Hcs].
    intros b c _ Hbc. rewrite Hk. rewrite lookup_insert_ne; [done|].
    intros <-. apply (is_fresh (dom (w_blocks w))). apply elem_of_dom. eauto.
Qed.

(** Deactivating [arb] itself moves its contact array to a fresh block. *)
Lemma deactivate_self_holds space body arb ar cs w w' :
  cpSpaceDeactivateBody_arbiter space body arb w = Some (tt, w') →
  fst <$> arbiter_primary body arb w = Some true →
  holds arb ar cs w →
  ∃ blk, w_blocks w !! blk = None ∧
         holds arb (set_contacts (ContactsHeap blk) ar) cs w'.
Proof.
  intros H Hprim [Har Hcs]. apply cpSpaceDeactivateBody_arbiter_inv in H
    as [[Hprim' _]|(_ & ar' & cs' & Har' & Hb & Hs & Ha & Hk & Hbuf & Hlen & Hsame)];
    [congruence|].
  simplify_eq. pose proof (Hsame _ Hcs) as ->.
  exists (fresh (dom (w_blocks w))). split.
  - apply not_elem_of_dom. apply is_fresh.
  - split; [by rewrite Ha, lookup_insert_eq|].
    unfold contents, read_contacts. simpl. rewrite Hk, lookup_insert_eq. simpl.
    rewrite <- Hlen. by rewrite read_write_cells.
Qed.

(** Waking another arbiter leaves the sleeping record of [arb] and what its
    block holds as they are. *)
Lemma preserves_activate_other_saved space body arb ar blk cs x :
  x ≠ arb → preserves (saved arb ar blk cs) (cpSpaceActivateBody_arbiter space body x).
Proof.
  intros Hne w [] w' H [Har Hcs]. apply cpSpaceActivateBody_arbiter_inv in H
    as [[_ ->]|(_ & ar' & sp & sp' & cs' & Har' & Hsp & _ & Hb & Hs & Ha & _ & _ & _ & _ & Hfree)];
    [done|].
  split.
  - rewrite Ha. by rewrite lookup_insert_ne.
  - intros cells Hcells. apply Hcs.
    destruct Hfree as [[_ Hk]|(blk' & _ & _ & Hk)]; rewrite Hk in Hcells; [done|].
    apply lookup_delete_Some in Hcells as [_ ?]. done.
Qed.

(** Waking [arb] itself copies the block into the contact buffer at the
    watermark, enters [arb] in the contact set and releases the block. *)
Lemma activate_self_restored space body arb ar blk cs w w' :
  cpSpaceActivateBody_arbiter space body arb w = Some (tt, w') →
  fst <$> arbiter_primary body arb w = Some true →
  saved arb ar blk cs w → contacts ar = ContactsHeap blk →
  ∃ off, restored space arb ar blk off cs w'.
Proof.
  intros H Hprim [Har Hcs] Hblk. apply cpSpaceActivateBody_arbiter_inv in H
    as [[Hprim' _]|(_ & ar' & sp & sp' & cs' & Har' & Hsp & Hread & Hb & Hs & Ha & Hsp'
                     & Hbuf & Hnum & Hset & Hfree)]; [congruence|].
  simplify_eq. exists (contactBufferNum sp).
  destruct Hfree as [[Hnull _]|(blk' & Hblk' & [cells Hcells] & Hk)]; [congruence|].
  assert (blk' = blk) as -> by congruence.
  assert (cs' = cs) as ->.
  { pose proof (Hcs _ Hcells) as Hcs'. unfold contents, read_contacts in Hread.
    rewrite Hblk, Hcells in Hread. simpl in Hread. rewrite Hcs' in Hread. by simplify_eq/=. }
  split; [by rewrite Ha, lookup_insert_eq|].
  split; [rewrite Hk; apply lookup_delete_eq|].
  exists sp'. split; [rewrite Hsp'; apply lookup_insert_eq|].
  rewrite Hbuf, Hnum, Hset. split.
  - rewrite <- (read_cells_length _ _ _ _ (Hcs _ Hcells)). apply read_write_cells.
  - split; [lia|]. apply lookup_insert_eq.
Qed.

(** Waking another arbiter, under another pair key, leaves the restored
    contacts of [arb] as they are. *)
Lemma preserves_activate_other_restored space body arb ar blk off cs x w0 :
  x ≠ arb →
  (∀ ar', w_arbiters w0 !! x = Some ar' → key_of ar' ≠ key_of ar) →
  preserves (λ w, restored space arb ar blk off cs w ∧ same_graph w0 w)
            (cpSpaceActivateBody_arbiter space body x).
Proof.
  intros Hne Hkey w [] w' H [Hrest Hg].
  pose proof (cpSpaceActivateBody_arbiter_same_graph _ _ _ _ _ H) as Hg'.
  split; [|by eapply same_graph_trans].
  apply cpSpaceActivateBody_arbiter_inv in H
    as [[_ ->]|(_ & ar' & sp & sp' & cs' & Har' & Hsp & Hread & Hb & Hs & Ha & Hsp'
                 & Hbuf & Hnum & Hset & Hfree)]; [done|].
  destruct Hrest as (Har & Hblk & sp0 & Hsp0 & Hread0 & Hnum0 & Hset0).
  simplify_eq. split; [by rewrite Ha, lookup_insert_ne|]. split.
  { destruct Hfree as [[_ Hk]|(blk' & _ & _ & Hk)]; rewrite Hk; [done|].
    apply lookup_delete_None. by right. }
  exists sp'. split; [rewrite Hsp'; apply lookup_insert_eq|].
  rewrite Hbuf, Hnum, Hset. split; [by rewrite read_cells_write_above|].
  split; [lia|]. rewrite lookup_insert_ne; [done|].
  pose proof (same_graph_key_of _ _ x Hg) as Hk. rewrite Har' in Hk.
  destruct (w_arbiters w0 !! x) as [ar0|] eqn:E; [|done].
  simpl in Hk. apply (inj Some) in Hk.
  change (key_of ar' ≠ key_of ar). rewrite Hk. by apply Hkey.
Qed.

Lemma preserves_modify_space_contact_eq w0 s f :
  (∀ S, contact_part (f S) = contact_part S) → preserves (contact_eq w0) (modify_space s f).
Proof.
  intros Hf w u w' H HI. eapply contact_eq_trans; [done|]. by eapply contact_eq_modify_space.
Qed.

Lemma preserves_shapes_contact_eq w0 N space step cur :
  (∀ shape, step shape = cpSpaceDeactivateBody_shape space shape) ∨
  (∀ shape, step shape = cpSpaceActivateBody_shape space shape) →
  preserves (contact_eq w0) (for_each N shape_link step cur).
Proof.
  intros Hstep. apply preserves_for_each; [intros; apply reads_preserves, reads_shape_link|].
  intros sh. destruct Hstep as [-> | ->];
    (apply preserves_bind; [apply reads_preserves, reads_load_shape|intros ?]);
    (apply preserves_bind; [|intros _]); by apply preserves_modify_space_contact_eq.
Qed.

Lemma preserves_constraints_contact_eq w0 N space body step cur :
  (∀ c, step c = cpSpaceDeactivateBody_constraint space body c) ∨
  (∀ c, step c = cpSpaceActivateBody_constraint space body c) →
  preserves (contact_eq w0) (for_each N (constraint_link body) step cur).
Proof.
  intros Hstep. apply preserves_for_each;
    [intros; apply reads_preserves, reads_constraint_link|].
  intros c. destruct Hstep as [-> | ->];
    (apply preserves_bind; [apply reads_preserves, reads_constraint_primary|intros [|]];
      [|apply preserves_ret]); by apply preserves_modify_space_contact_eq.
Qed.

(** The arbiter loop of [cpSpaceDeactivateBody] is a run over the arbiters
    the walk meets, and keeps the graph. *)
Lemma deactivate_arbiters_fold N space body cur w w' :
  for_each N (arbiter_link body) (cpSpaceDeactivateBody_arbiter space body) cur w
    = Some (tt, w') →
  ∃ l, linked (arbiter_link body) w cur l ∧
       for_array (λ _ x, cpSpaceDeactivateBody_arbiter space body x) l tt w = Some (tt, w').
Proof.
  apply for_each_linked; [intros; apply reads_arbiter_link|].
  intros x z w1 w2 [] Hstep. apply same_graph_arbiter_link.
  by eapply cpSpaceDeactivateBody_arbiter_same_graph.
Qed.

Lemma activate_arbiters_fold N space body cur w w' :
  for_each N (arbiter_link body) (cpSpaceActivateBody_arbiter space body) cur w
    = Some (tt, w') →
  ∃ l, linked (arbiter_link body) w cur l ∧
       for_array (λ _ x, cpSpaceActivateBody_arbiter space body x) l tt w = Some (tt, w').
Proof.
  apply for_each_linked; [intros; apply reads_arbiter_link|].
  intros x z w1 w2 [] Hstep. apply same_graph_arbiter_link.
  by eapply cpSpaceActivateBody_arbiter_same_graph.
Qed.

Lemma preserves_same_graph_deactivate w0 space body l :
  preserves (same_graph w0)
    (for_array (λ _ x, cpSpaceDeactivateBody_arbiter space body x) l tt).
Proof.
  apply preserves_for_array. intros [] x w [] w' H HI.
  eapply same_graph_trans; [done|]. by eapply cpSpaceDeactivateBody_arbiter_same_graph.
Qed.

Lemma preserves_same_graph_activate w0 space body l :
  preserves (same_graph w0)
    (for_array (λ _ x, cpSpaceActivateBody_arbiter space body x) l tt).
Proof.
  apply preserves_for_array. intros [] x w [] w' H HI.
  eapply same_graph_trans; [done|]. by eapply cpSpaceActivateBody_arbiter_same_graph.
Qed.

Lemma linked_split_at nx w cur l x :
  linked nx w cur l → x ∈ l → ∃ l1 l2, l = l1 ++ (x :: l2) ∧ (x ∉ l1) ∧ (x ∉ l2).
Proof.
  intros Hl Hx. apply linked_NoDup in Hl.
  apply list_elem_of_split in Hx as (l1 & l2 & ->). exists l1, l2. split; [done|].
  apply NoDup_app in Hl as (_ & Hdisj & Hnd2). apply NoDup_cons in Hnd2 as [? _].
  split; [|done]. intros Hin. apply (Hdisj _ Hin). by left.
Qed.

(** Deactivating a body saves the contacts of each arbiter it processes in a
    private block. *)
Lemma cpSpaceDeactivateBody_saves N space body w w1 b l arb ar cs :
  cpSpaceDeactivateBody N space body w = Some (tt, w1) →
  w_bodies w !! body = Some b →
  linked (arbiter_link body) w (arbiterList b) l → arb ∈ l →
  fst <$> arbiter_primary body arb w = Some true →
  holds arb ar cs w →
  same_graph w w1 ∧ ∃ blk, holds arb (set_contacts (ContactsHeap blk) ar) cs w1.
Proof.
  intros H Hb Hl Harb Hprim Hholds. unfold cpSpaceDeactivateBody in H.
  apply bind_Some in H as (b0 & ? & Hb0 & H). run_inv Hb0.
  assert (b0 = b) as -> by congruence.
  apply bind_Some in H as ([] & wa & Hshapes & H).
  assert (contact_eq w wa) as Hca.
  { refine (preserves_shapes_contact_eq w _ _ _ _ _ _ _ _ Hshapes (contact_eq_refl w)).
    by left. }
  pose proof (contact_eq_same_graph _ _ Hca) as Hga.
  apply bind_Some in H as (b1 & ? & Hb1 & H). run_inv Hb1.
  assert (b1 = b) as -> by (destruct Hca as (Hbs & _); congruence).
  apply bind_Some in H as ([] & wb & Harbs & H).
  apply bind_Some in H as (b2 & ? & Hb2 & H). run_inv Hb2.
  assert (contact_eq wb w1) as Hcb.
  { refine (preserves_constraints_contact_eq wb _ _ _ _ _ _ _ _ _ H (contact_eq_refl wb)).
    by left. }
  apply deactivate_arbiters_fold in Harbs as (l' & Hl' & Hfold).
  assert (l' = l) as ->.
  { eapply linked_det; [exact Hl'|]. eapply linked_stable; [|exact Hl].
    intros z. by apply same_graph_arbiter_link. }
  destruct (linked_split_at _ _ _ _ _ Hl Harb) as (l1 & l2 & -> & Hn1 & Hn2).
  rewrite for_array_app in Hfold.
  destruct (for_array _ l1 tt wa) as [[[] w_l1]|] eqn:Hf1; [|done].
  cbn [for_array] in Hfold. apply bind_Some in Hfold as ([] & w_arb & Hstep & Hf2).
  assert (holds arb ar cs w_l1) as Hh1.
  { refine (preserves_for_array_in (holds arb ar cs) _ _ _ _ _ _ _ Hf1
              (contact_eq_holds _ _ _ _ _ Hca Hholds)).
    intros [] x Hx. apply preserves_deactivate_other_holds. intros ->. done. }
  assert (same_graph wa w_l1) as Hg1.
  { exact (preserves_same_graph_deactivate wa _ _ _ _ _ _ Hf1 (same_graph_refl wa)). }
  destruct (deactivate_self_holds space body arb ar cs _ _ Hstep) as (blk & _ & Hh2);
    [|done|].
  { rewrite (same_graph_arbiter_primary w); [done|].
    eapply same_graph_trans; done. }
  assert (holds arb (set_contacts (ContactsHeap blk) ar) cs wb) as Hh3.
  { refine (preserves_for_array_in (holds arb _ cs) _ _ _ _ _ _ _ Hf2 Hh2).
    intros [] x Hx. apply preserves_deactivate_other_holds. intros ->. done. }
  split.
  - eapply same_graph_trans; [exact Hga|]. eapply same_graph_trans; [exact Hg1|].
    eapply same_graph_trans; [by eapply cpSpaceDeactivateBody_arbiter_same_graph|].
    eapply same_graph_trans;
      [exact (preserves_same_graph_deactivate w_arb _ _ _ _ _ _ Hf2 (same_graph_refl _))|].
    by apply contact_eq_same_graph.
  - exists blk. by eapply contact_eq_holds.
Qed.

Lemma holds_saved arb ar blk cs w :
  holds arb ar cs w → contacts ar = ContactsHeap blk → saved arb ar blk cs w.
Proof.
  intros [Har Hcs] Hblk. split; [done|]. intros cells Hcells.
  unfold contents, read_contacts in Hcs. rewrite Hblk, Hcells in Hcs. simpl in Hcs.
  destruct (read_cells cells 0 (numContacts ar)); by simplify_eq/=.
Qed.

(** Waking a body restores the contacts of each arbiter it processes from
    the private block into the contact buffer. *)
Lemma cpSpaceActivateBody_restores N space body w1 w2 sp b l arb ar blk cs :
  cpSpaceActivateBody N space body w1 = Some (tt, w2) →
  w_spaces w1 !! space = Some sp → locked sp = false →
  w_bodies w1 !! body = Some b →
  linked (arbiter_link body) w1 (arbiterList b) l → arb ∈ l →
  fst <$> arbiter_primary body arb w1 = Some true →
  holds arb ar cs w1 → contacts ar = ContactsHeap blk →
  (∀ x ar', x ∈ l → x ≠ arb → w_arbiters w1 !! x = Some ar' → key_of ar' ≠ key_of ar) →
  ∃ off, restored space arb ar blk off cs w2.
Proof.
  intros H Hsp Hlocked Hb Hl Harb Hprim Hholds Hblk Hkeys. unfold cpSpaceActivateBody in H.
  apply bind_Some in H as (sp0 & ? & Hsp0 & H). run_inv Hsp0.
  assert (sp0 = sp) as -> by congruence. rewrite Hlocked in H.
  apply bind_Some in H as ([] & w0 & Hpush & H).
  assert (contact_eq w1 w0) as Hc0.
  { refine (contact_eq_modify_space _ _ _ _ _ _ Hpush). intros; reflexivity. }
  apply bind_Some in H as (b0 & ? & Hb0 & H). run_inv Hb0.
  apply bind_Some in H as ([] & wa & Hshapes & H).
  assert (contact_eq w1 wa) as Hca.
  { refine (preserves_shapes_contact_eq w1 _ _ _ _ _ _ _ _ Hshapes Hc0). by right. }
  pose proof (contact_eq_same_graph _ _ Hca) as Hga.
  apply bind_Some in H as (b1 & ? & Hb1 & H). run_inv Hb1.
  assert (b1 = b) as -> by (destruct Hca as (Hbs & _); congruence).
  apply bind_Some in H as ([] & wb & Harbs & H).
  apply bind_Some in H as (b2 & ? & Hb2 & H). run_inv Hb2.
  assert (contact_eq wb w2) as Hcb.
  { refine (preserves_constraints_contact_eq wb _ _ _ _ _ _ _ _ _ H (contact_eq_refl wb)).
    by right. }
  apply activate_arbiters_fold in Harbs as (l' & Hl' & Hfold).
  assert (l' = l) as ->.
  { eapply linked_det; [exact Hl'|]. eapply linked_stable; [|exact Hl].
    intros z. by apply same_graph_arbiter_link. }
  destruct (linked_split_at _ _ _ _ _ Hl Harb) as (l1 & l2 & -> & Hn1 & Hn2).
  rewrite for_array_app in Hfold.
  destruct (for_array _ l1 tt wa) as [[[] w_l1]|] eqn:Hf1; [|done].
  cbn [for_array] in Hfold. apply bind_Some in Hfold as ([] & w_arb & Hstep & Hf2).
  assert (saved arb ar blk cs w_l1) as Hs1.
  { refine (preserves_for_array_in (saved arb ar blk cs) _ _ _ _ _ _ _ Hf1 _).
    - intros [] x Hx. apply preserves_activate_other_saved. intros ->. done.
    - eapply contact_eq_saved; [exact Hca|]. by apply holds_saved. }
  assert (same_graph w1 w_l1) as Hg1.
  { eapply same_graph_trans; [exact Hga|].
    exact (preserves_same_graph_activate wa _ _ _ _ _ _ Hf1 (same_graph_refl wa)). }
  destruct (activate_self_restored space body arb ar blk cs _ _ Hstep) as (off & Hr);
    [|done|done|].
  { by rewrite (same_graph_arbiter_primary w1). }
  exists off. eapply contact_eq_restored; [exact Hcb|].
  assert (restored space arb ar blk off cs wb ∧ same_graph w1 wb) as [Hr2 _]; [|done].
  refine (preserves_for_array_in (λ w, restored space arb ar blk off cs w ∧ same_graph w1 w)
            _ _ _ _ _ _ _ Hf2 _).
  - intros [] x Hx. apply preserves_activate_other_restored; [by intros ->|].
    intros ar' Har'. eapply (Hkeys x); [|by intros ->|done].
    apply elem_of_app. right. by right.
  - split; [done|]. eapply same_graph_trans; [exact Hg1|].
    by eapply cpSpaceActivateBody_arbiter_same_graph.
Qed.

(** ** More on the forest: what [componentNodeRoot] and [componentNodeMerge] do to roots *)

Lemma parent_of_Some w x q :
  parent_of w x = Some q ↔ ∃ b, w_bodies w !! x = Some b ∧ parent (node b) = q.
Proof.
  unfold parent_of. destruct (w_bodies w !! x) as [b|]; simpl.
  - split; [intros [= <-]; eauto|intros (b' & [= <-] & <-); done].
  - split; [done|intros (b' & [=] & _)].
Qed.

Lemma next_of_Some w x q :
  next_of w x = Some q ↔ ∃ b, w_bodies w !! x = Some b ∧ next (node b) = q.
Proof.
  unfold next_of. destruct (w_bodies w !! x) as [b|]; simpl.
  - split; [intros [= <-]; eauto|intros (b' & [= <-] & <-); done].
  - split; [done|intros (b' & [=] & _)].
Qed.

Lemma chain_root' w x : parent_of w x = Some None → chain w x [] x.
Proof. intros (b & Hb & Hp)%parent_of_Some. by econstructor. Qed.

Lemma chain_step' w x y l r :
  parent_of w x = Some (Some y) → chain w y l r → chain w x (x :: l) r.
Proof. intros (b & Hb & Hp)%parent_of_Some Hc. by econstructor. Qed.

Lemma chain_frame w w' x l r :
  (∀ y, y ∈ l ∨ y = r → parent_of w' y = parent_of w y) → chain w x l r → chain w' x l r.
Proof.
  intros Hsame Hc. induction Hc as [x b Hb Hp|x b y l r Hb Hp Hc IH].
  - apply chain_root'. rewrite Hsame by (by right). apply parent_of_Some. eauto.
  - apply (chain_step' _ _ y).
    + rewrite Hsame by (left; by left). apply parent_of_Some. eauto.
    + apply IH. intros z [Hz| ->]; apply Hsame; [left; by right|by right].
Qed.

Lemma chain_members_parent w x l r y :
  chain w x l r → y ∈ l → ∃ p, parent_of w y = Some (Some p) ∧ (p ∈ l ∨ p = r).
Proof.
  induction 1 as [|x b z l r Hb Hp Hc IH]; intros Hy; [by apply elem_of_nil in Hy|].
  apply elem_of_cons in Hy as [->|Hy].
  - exists z. split; [apply parent_of_Some; eauto|].
    inversion Hc; simplify_eq; [by right|left; right; by left].
  - destruct (IH Hy) as (q & Hq & Hin). exists q. split; [done|].
    destruct Hin as [?|?]; [left; by right|by right].
Qed.

Lemma chain_member_chain w x l r y :
  chain w x l r → y ∈ l → ∃ l', chain w y l' r.
Proof.
  intros Hc Hy. destruct (chain_suffix _ _ _ _ _ Hc Hy) as (l' & H' & _). eauto.
Qed.

Lemma chain_root_chain w x l r : chain w x l r → chain w r [] r.
Proof.
  intros Hc. destruct (chain_root_parent _ _ _ _ Hc) as (b & Hb & Hp). by econstructor.
Qed.

Lemma root_of_det w x r r' : root_of w x r → root_of w x r' → r = r'.
Proof. intros [l Hc] [l' Hc']. by destruct (chain_det _ _ _ _ _ _ Hc Hc'). Qed.

Lemma set_parent_twice r b :
  set_node (set_parent (Some r) (node (set_node (set_parent (Some r) (node b)) b)))
           (set_node (set_parent (Some r) (node b)) b)
  = set_node (set_parent (Some r) (node b)) b.
Proof. by destruct b as [? ? ? ? ? ? ? ? ? []]. Qed.

Lemma compress_lookup r l bs y :
  compress r l bs !! y =
  (λ b, if decide (y ∈ l) then set_node (set_parent (Some r) (node b)) b else b) <$> bs !! y.
Proof.
  induction l as [|z l IH]; simpl.
  - destruct (bs !! y); [|done]. cbn [fmap option_fmap option_map].
    destruct (decide (y ∈ [])) as [H|_]; [by apply elem_of_nil in H|done].
  - destruct (decide (y = z)) as [->|Hne].
    + rewrite lookup_alter_eq, IH. destruct (bs !! z) as [b|]; simpl; [|done].
      destruct (decide (z ∈ z :: l)) as [_|Hn]; [|exfalso; apply Hn; by left].
      f_equal. case_decide; [apply set_parent_twice|done].
    + rewrite lookup_alter_ne, IH by done. destruct (bs !! y) as [b|]; simpl; [|done].
      f_equal. destruct (decide (y ∈ l)) as [Hin|Hin].
      * destruct (decide (y ∈ z :: l)) as [_|Hn]; [done|]. exfalso. apply Hn. by right.
      * destruct (decide (y ∈ z :: l)) as [[?|?]%elem_of_cons|_]; done.
Qed.

(** [componentNodeRoot] returns only for a finite chain, and then compresses it. *)
Lemma componentNodeRoot_inv N x w r w' :
  componentNodeRoot N x w = Some (r, w') →
  ∃ l, chain w x l r ∧ length l < N ∧ w' = with_bodies (compress r l (w_bodies w)) w.
Proof.
  revert x w r w'. induction N as [|N IH]; intros x w r w' H.
  { done. }
  assert (∃ l r0, chain w x l r0 ∧ length l < S N) as (l & r0 & Hc & Hlen).
  { cbn [componentNodeRoot] in H.
    apply bind_Some in H as (b & ? & Hb & H). run_inv Hb.
    destruct (parent (node b)) as [q|] eqn:Hp.
    - apply bind_Some in H as (r1 & w1 & Hrec & H).
      destruct (IH _ _ _ _ Hrec) as (l & Hc & Hlen & ->).
      exists (x :: l), r1. split; [by econstructor|simpl; lia].
    - exists [], x. split; [by econstructor|simpl; lia]. }
  rewrite (componentNodeRoot_chain _ _ _ _ _ Hc Hlen) in H. simplify_eq. eauto.
Qed.

Lemma compress_view w r l y :
  view_of (with_bodies (compress r l (w_bodies w)) w) y = view_of w y.
Proof.
  unfold view_of. simpl. rewrite compress_lookup.
  destruct (w_bodies w !! y) as [b|]; simpl; [|done]. by case_decide.
Qed.

Lemma compress_parent_of w r l y :
  parent_of (with_bodies (compress r l (w_bodies w)) w) y =
  if decide (y ∈ l) then (λ _, Some r) <$> parent_of w y else parent_of w y.
Proof.
  unfold parent_of. simpl. rewrite compress_lookup.
  destruct (w_bodies w !! y) as [b|]; simpl; [|by case_decide]. by case_decide.
Qed.

Lemma chain_member_has_parent w x l r y :
  chain w x l r → y ∈ l → parent_of w y ≠ Some None.
Proof.
  intros Hc Hy. destruct (chain_members_parent _ _ _ _ _ Hc Hy) as (p & Hp & _).
  by rewrite Hp.
Qed.

Lemma chain_root_parent_of w x l r : chain w x l r → parent_of w r = Some None.
Proof.
  intros Hc. destruct (chain_root_parent _ _ _ _ Hc) as (b & Hb & Hp).
  apply parent_of_Some. eauto.
Qed.

(** Path compression keeps the root of every body. *)
Lemma compress_root_of w x l r y ry :
  chain w x l r → root_of w y ry →
  root_of (with_bodies (compress r l (w_bodies w)) w) y ry.
Proof.
  intros Hc [ly Hy].
  assert (parent_of (with_bodies (compress r l (w_bodies w)) w) r = Some None) as Hr.
  { rewrite compress_parent_of, decide_False by (by eapply chain_root_not_in).
    by eapply chain_root_parent_of. }
  induction Hy as [y b Hb Hp|y b p ly ry Hb Hp Hy IH].
  - exists []. apply chain_root'. rewrite compress_parent_of.
    assert (parent_of w y = Some None) as Hpy by (apply parent_of_Some; eauto).
    rewrite decide_False; [done|]. intros Hin.
    by apply (chain_member_has_parent _ _ _ _ _ Hc Hin).
  - assert (parent_of w y = Some (Some p)) as Hpy by (apply parent_of_Some; eauto).
    destruct (decide (y ∈ l)) as [Hin|Hin].
    + destruct (chain_member_chain _ _ _ _ _ Hc Hin) as (l' & Hc').
      assert (ry = r) as ->.
      { eapply root_of_det; [|by eexists]. exists (y :: ly). by econstructor. }
      exists [y]. apply (chain_step' _ _ r); [|by apply chain_root'].
      rewrite compress_parent_of, decide_True, Hpy by done. done.
    + destruct IH as [lp Hlp]. exists (y :: lp). apply (chain_step' _ _ p); [|done].
      by rewrite compress_parent_of, decide_False.
Qed.

(** What [componentNodeMerge] does: nothing, or one of the two bodies becomes
    the parent of the other. *)
Lemma componentNodeMerge_inv a_root b_root w w' :
  componentNodeMerge a_root b_root w = Some (tt, w') →
  w_spaces w' = w_spaces w ∧ w_shapes w' = w_shapes w ∧ w_arbiters w' = w_arbiters w ∧
  w_constraints w' = w_constraints w ∧ w_blocks w' = w_blocks w ∧
  (∀ y, view_of w' y = view_of w y) ∧
  ((a_root = b_root ∧ ∀ y, parent_of w' y = parent_of w y) ∨
   ∃ child par,
     ((child = a_root ∧ par = b_root) ∨ (child = b_root ∧ par = a_root)) ∧ child ≠ par ∧
     parent_of w' child = Some (Some par) ∧
     ∀ y, y ≠ child → parent_of w' y = parent_of w y).
Proof.
  intros H. unfold componentNodeMerge in H.
  apply bind_Some in H as (a & ? & Ha & H). run_inv Ha.
  apply bind_Some in H as (b & ? & Hb & H). run_inv Hb.
  destruct (rank (node a) <? rank (node b))%Z eqn:Hlt;
    [|destruct (rank (node a) >? rank (node b))%Z eqn:Hgt; [|case_decide as Hne]].
  - run_inv H. simplify_eq. repeat (split; [done|]). split.
    + intros y. unfold view_of. simpl. destruct (decide (y = a_root)) as [->|?].
      * rewrite lookup_insert_eq, Ha. done.
      * by rewrite lookup_insert_ne.
    + right. exists a_root, b_root. split; [by left|]. split.
      { intros ->. assert (a = b) as -> by congruence. lia. }
      split.
      * unfold parent_of. simpl. by rewrite lookup_insert_eq.
      * intros y Hy. unfold parent_of. simpl. by rewrite lookup_insert_ne.
  - run_inv H. simplify_eq. repeat (split; [done|]). split.
    + intros y. unfold view_of. simpl. destruct (decide (y = b_root)) as [->|?].
      * rewrite lookup_insert_eq, Hb. done.
      * by rewrite lookup_insert_ne.
    + right. exists b_root, a_root. split; [by right|]. split.
      { intros ->. assert (a = b) as -> by congruence. lia. }
      split.
      * unfold parent_of. simpl. by rewrite lookup_insert_eq.
      * intros y Hy. unfold parent_of. simpl. by rewrite lookup_insert_ne.
  - apply bind_Some in H as ([] & w1 & H1 & H). run_inv H1. run_inv H. simplify_eq.
    simpl in *. rewrite lookup_insert_ne in H by done.
    assert (x0 = a) as -> by congruence.
    repeat (split; [done|]). split.
    + intros y. unfold view_of. simpl. destruct (decide (y = a_root)) as [->|?].
      * rewrite lookup_insert_eq, Ha. done.
      * rewrite lookup_insert_ne by done. destruct (decide (y = b_root)) as [->|?].
        -- rewrite lookup_insert_eq, Hb. done.
        -- by rewrite lookup_insert_ne.
    + right. exists b_root, a_root. split; [by right|]. split; [done|]. split.
      * unfold parent_of. simpl. rewrite lookup_insert_ne by done.
        by rewrite lookup_insert_eq.
      * intros y Hy. unfold parent_of. simpl.
        destruct (decide (y = a_root)) as [->|?].
        -- rewrite lookup_insert_eq, Ha. done.
        -- rewrite !lookup_insert_ne by done. done.
  - run_inv H. repeat (split; [done|]). left.
    by split.
Qed.

(** Linking the root [child] under the root [par] sends the bodies under
    [child] to [par] and leaves the other roots alone. *)
Lemma link_root_of w w' child par y ry :
  child ≠ par →
  parent_of w child = Some None → parent_of w par = Some None →
  parent_of w' child = Some (Some par) →
  (∀ z, z ≠ child → parent_of w' z = parent_of w z) →
  root_of w y ry → root_of w' y (if decide (ry = child) then par else ry).
Proof.
  intros Hne Hchild Hpar Hchild' Hframe [ly Hy].
  assert (chain w' par [] par) as Hpar'.
  { apply chain_root'. by rewrite Hframe. }
  induction Hy as [y b Hb Hp|y b p ly ry Hb Hp Hy IH].
  - case_decide as E.
    + subst y. exists [child]. by apply (chain_step' _ _ par).
    + exists []. apply chain_root'. rewrite Hframe by done. apply parent_of_Some. eauto.
  - destruct IH as [lp Hlp]. exists (y :: lp). apply (chain_step' _ _ p); [|done].
    rewrite Hframe; [apply parent_of_Some; eauto|].
    intros ->. apply parent_of_Some in Hchild as (b' & Hb' & Hp'). congruence.
Qed.

(** ** Rings *)

Lemma view_next_of w x nx idle sp st :
  view_of w x = Some (nx, idle, sp, st) → next_of w x = Some nx.
Proof.
  unfold view_of, next_of, bview. destruct (w_bodies w !! x); simpl; [|done].
  by intros [= <- _ _ _].
Qed.

Lemma next_of_view w x nx :
  next_of w x = Some nx → ∃ idle sp st, view_of w x = Some (nx, idle, sp, st).
Proof.
  unfold view_of, next_of, bview. destruct (w_bodies w !! x); simpl; [|done].
  intros [= <-]. eauto.
Qed.

Lemma ring_last' w root x : next_of w x = Some (Some root) → ring_from w root x [x].
Proof. intros (b & Hb & Hn)%next_of_Some. by econstructor. Qed.

Lemma ring_more' w root x y l :
  next_of w x = Some (Some y) → y ≠ root → ring_from w root y l →
  ring_from w root x (x :: l).
Proof. intros (b & Hb & Hn)%next_of_Some ? ?. by econstructor. Qed.

Lemma ring_from_det w root x l l' : ring_from w root x l → ring_from w root x l' → l = l'.
Proof.
  intros H. revert l'. induction H as [x b Hb Hn|x b y l Hb Hn Hy Hl IH]; intros l' H'.
  - inversion H'; simplify_eq; done.
  - inversion H' as [|? ? ? ? ? ? ? Hl']; simplify_eq.
    f_equal. by apply IH.
Qed.

Lemma ring_from_head w root x l : ring_from w root x l → ∃ l', l = x :: l'.
Proof. destruct 1; eauto. Qed.

Lemma ring_from_next w root x l y :
  ring_from w root x l → y ∈ l → ∃ n, next_of w y = Some (Some n).
Proof.
  induction 1 as [x b Hb Hn|x b z l Hb Hn Hz Hl IH]; intros Hy.
  - apply list_elem_of_singleton in Hy as ->. exists root. apply next_of_Some. eauto.
  - apply elem_of_cons in Hy as [->|Hy]; [|by apply IH].
    exists z. apply next_of_Some. eauto.
Qed.

Lemma ring_from_suffix w root x l y :
  ring_from w root x l → y ∈ l → ∃ l', ring_from w root y l' ∧ length l' ≤ length l.
Proof.
  induction 1 as [x b Hb Hn|x b z l Hb Hn Hz Hl IH]; intros Hy.
  - apply list_elem_of_singleton in Hy as ->. exists [x]. split; [by econstructor|done].
  - apply elem_of_cons in Hy as [->|Hy].
    + exists (x :: l). split; [by econstructor|done].
    + destruct (IH Hy) as (l' & ? & ?). exists l'. split; [done|simpl; lia].
Qed.

Lemma ring_from_NoDup w root x l : ring_from w root x l → NoDup l.
Proof.
  induction 1 as [x b Hb Hn|x b z l Hb Hn Hz Hl IH]; [apply NoDup_singleton|].
  constructor; [|done]. intros Hin.
  destruct (ring_from_suffix _ _ _ _ _ Hl Hin) as (l' & H' & Hlen).
  assert (ring_from w root x (x :: l)) as H'' by (by econstructor).
  pose proof (ring_from_det _ _ _ _ _ H' H'') as ->. simpl in Hlen. lia.
Qed.

Lemma ring_from_tail_not_root w root x l y :
  ring_from w root x l → y ∈ l → y ≠ x → y ≠ root.
Proof.
  induction 1 as [x b Hb Hn|x b z l Hb Hn Hz Hl IH]; intros Hy Hne.
  - by apply list_elem_of_singleton in Hy.
  - apply elem_of_cons in Hy as [->|Hy]; [done|].
    destruct (decide (y = z)) as [->|Hyz]; [done|]. by apply IH.
Qed.

Lemma ring_from_frame w w' root x l :
  (∀ y, y ∈ l → next_of w' y = next_of w y) → ring_from w root x l → ring_from w' root x l.
Proof.
  intros Hsame H. induction H as [x b Hb Hn|x b z l Hb Hn Hz Hl IH].
  - apply ring_last'. rewrite Hsame by (by left). apply next_of_Some. eauto.
  - apply (ring_more' _ _ _ z); [|done|].
    + rewrite Hsame by (by left). apply next_of_Some. eauto.
    + apply IH. intros y Hy. apply Hsame. by right.
Qed.

Lemma ring_root_in w r l : ring w r l → r ∈ l.
Proof. intros H. destruct (ring_from_head _ _ _ _ H) as [l' ->]. by left. Qed.

Lemma sring_frame w w' r l :
  (∀ y, y ∈ l → next_of w' y = next_of w y ∧ parent_of w' y = parent_of w y) →
  sring w r l → sring w' r l.
Proof.
  intros Hsame (Hring & Hroot & Hpar). split; [|split].
  - eapply ring_from_frame; [|done]. intros y Hy. by apply Hsame.
  - destruct (Hsame r (ring_root_in _ _ _ Hring)) as [_ ->]. done.
  - intros y Hy Hne. destruct (Hsame y Hy) as [_ ->]. by apply Hpar.
Qed.

(** Two rings with their trees that share a body are the same ring. *)
Lemma sring_disjoint w r l r' l' x :
  sring w r l → sring w r' l' → x ∈ l → x ∈ l' → r = r' ∧ l = l'.
Proof.
  intros (Hring & Hroot & Hpar) (Hring' & Hroot' & Hpar') Hx Hx'.
  assert (r = r') as <-.
  { destruct (decide (x = r)) as [Hxr|Hne], (decide (x = r')) as [Hxr'|Hne'].
    - congruence.
    - subst x. rewrite (Hpar' _ Hx' Hne') in Hroot. done.
    - subst x. rewrite (Hpar _ Hx Hne) in Hroot'. done.
    - specialize (Hpar _ Hx Hne). specialize (Hpar' _ Hx' Hne'). congruence. }
  split; [done|]. by eapply ring_from_det.
Qed.

Lemma sring_root_of w r l x : sring w r l → x ∈ l → root_of w x r.
Proof.
  intros (Hring & Hroot & Hpar) Hx. destruct (decide (x = r)) as [->|Hne].
  - exists []. by apply chain_root'.
  - exists [x]. apply (chain_step' _ _ r); [by apply Hpar|by apply chain_root'].
Qed.

(** ** What waking a body leaves alone *)

Section activate_frame.
Context (P : gmap ptr cpBody → Prop).
Let I (w : world) : Prop := P (w_bodies w).

Lemma preserves_cpSpaceActivateBody_bodies N space body :
  preserves I (cpSpaceActivateBody N space body).
Proof.
  apply preserves_bind; [apply reads_preserves, reads_load_space|intros sp].
  destruct (locked sp); [apply (preserves_modify_space_bodies P)|].
  apply preserves_bind; [apply (preserves_modify_space_bodies P)|intros _].
  apply preserves_bind; [apply reads_preserves, reads_load_body|intros b].
  apply preserves_bind.
  { apply preserves_for_each; [intros; apply reads_preserves, reads_shape_link|].
    intros sh. apply preserves_bind; [apply reads_preserves, reads_load_shape|intros ?].
    apply preserves_bind; intros; apply (preserves_modify_space_bodies P). }
  intros _. apply preserves_bind; [apply reads_preserves, reads_load_body|intros b'].
  apply preserves_bind.
  { apply preserves_for_each; [intros; apply reads_preserves, reads_arbiter_link|].
    intros arb. apply preserves_bind;
      [apply reads_preserves, reads_arbiter_primary|intros [|]]; [|apply preserves_ret].
    apply preserves_bind; [apply reads_preserves, reads_load_arbiter|intros ar]. cbv zeta.
    apply preserves_bind; [apply reads_preserves, reads_cpContactBufferGetArray|intros buf].
    apply preserves_bind; [apply (preserves_modify_arbiter_bodies P)|intros _].
    apply preserves_bind; [apply (preserves_memcpy_bodies P)|intros _].
    apply preserves_bind; [apply (preserves_modify_space_bodies P)|intros _].
    apply preserves_bind; [apply (preserves_modify_space_bodies P)|intros _].
    apply (preserves_cpfree_bodies P). }
  intros _. apply preserves_bind; [apply reads_preserves, reads_load_body|intros b''].
  apply preserves_for_each; [intros; apply reads_preserves, reads_constraint_link|].
  intros c. apply preserves_bind;
    [apply reads_preserves, reads_constraint_primary|intros [|]]; [|apply preserves_ret].
  apply (preserves_modify_space_bodies P).
Qed.
End activate_frame.

Section activate_field_frame.
Context {B : Type} (g : cpSpace → B) (space0 : ptr) (v : B).
Context (g_activeShapes : ∀ S x, g (set_activeShapes x S) = g S).
Context (g_staticShapes : ∀ S x, g (set_staticShapes x S) = g S).
Context (g_contactSet : ∀ S x, g (set_contactSet x S) = g S).
Context (g_constraints : ∀ S x, g (set_constraints x S) = g S).
Context (g_contactBuffer : ∀ S x, g (set_contactBuffer x S) = g S).
Context (g_contactBufferNum : ∀ S x, g (set_contactBufferNum x S) = g S).
Let I (w : world) : Prop := g <$> w_spaces w !! space0 = Some v.

Lemma preserves_cpSpaceActivateBody_loops N space body :
  preserves I
    (let* b := load_body body in
     for_each N shape_link (cpSpaceActivateBody_shape space) (shapeList b);;
     let* b := load_body body in
     for_each N (arbiter_link body) (cpSpaceActivateBody_arbiter space body) (arbiterList b);;
     let* b := load_body body in
     for_each N (constraint_link body) (cpSpaceActivateBody_constraint space body)
       (constraintList b)).
Proof using All.
  apply preserves_bind; [apply reads_preserves, reads_load_body|intros b].
  apply preserves_bind.
  { apply preserves_for_each; [intros; apply reads_preserves, reads_shape_link|].
    intros sh. apply preserves_bind; [apply reads_preserves, reads_load_shape|intros ?].
    apply preserves_bind; intros; by apply preserves_modify_space_field. }
  intros _. apply preserves_bind; [apply reads_preserves, reads_load_body|intros b'].
  apply preserves_bind.
  { apply preserves_for_each; [intros; apply reads_preserves, reads_arbiter_link|].
    intros arb. apply preserves_bind;
      [apply reads_preserves, reads_arbiter_primary|intros [|]]; [|apply preserves_ret].
    apply preserves_bind; [apply reads_preserves, reads_load_arbiter|intros ar]. cbv zeta.
    apply preserves_bind; [apply reads_preserves, reads_cpContactBufferGetArray|intros buf].
    apply preserves_bind.
    { intros w u w' H HI. unfold I. by rewrite (modify_arbiter_spaces _ _ _ _ _ H). }
    intros _. apply preserves_bind; [by apply preserves_memcpy_field|intros _].
    apply preserves_bind; [by apply preserves_modify_space_field|intros _].
    apply preserves_bind; [by apply preserves_modify_space_field|intros _].
    intros w u w' H HI. unfold I. by rewrite (cpfree_spaces _ _ _ _ H). }
  intros _. apply preserves_bind; [apply reads_preserves, reads_load_body|intros b''].
  apply preserves_for_each; [intros; apply reads_preserves, reads_constraint_link|].
  intros c. apply preserves_bind;
    [apply reads_preserves, reads_constraint_primary|intros [|]]; [|apply preserves_ret].
  by apply preserves_modify_space_field.
Qed.
End activate_field_frame.

(** Waking a body in an unlocked space: body records stay, the lock stays,
    and [space->bodies] gets the body appended. *)
Lemma cpSpaceActivateBody_unlocked_frame N space body w w' :
  cpSpaceActivateBody N space body w = Some (tt, w') →
  locked <$> w_spaces w !! space = Some false →
  w_bodies w' = w_bodies w ∧
  locked <$> w_spaces w' !! space = Some false ∧
  active_list space w' = active_list space w ++ [body].
Proof.
  intros H Hlk. split.
  { exact (preserves_cpSpaceActivateBody_bodies (λ bs, bs = w_bodies w) _ _ _ _ _ _
             H eq_refl). }
  unfold cpSpaceActivateBody in H.
  apply bind_Some in H as (sp & ? & Hsp & H). run_inv Hsp.
  rewrite Hsp in Hlk. simpl in Hlk. injection Hlk as Hlk. rewrite Hlk in H.
  apply bind_Some in H as ([] & w0 & Hpush & H). run_inv Hpush.
  assert (x = sp) as -> by congruence.
  split.
  - refine (preserves_cpSpaceActivateBody_loops locked space false _ _ _ _ _ _ N space body
              _ _ _ H _); try done.
    simpl. rewrite lookup_insert_eq. simpl. by rewrite Hlk.
  - unfold active_list.
    assert (bodies <$> w_spaces w' !! space = Some (bodies sp ++ [body])) as ->.
    { refine (preserves_cpSpaceActivateBody_loops bodies space _ _ _ _ _ _ _ N space body
                _ _ _ H _); try done.
      simpl. by rewrite lookup_insert_eq. }
    by rewrite Hsp.
Qed.

(** ** The invariant of forest building *)

Lemma next_of_view_of w x : next_of w x = (λ v, v.1.1.1) <$> view_of w x.
Proof. unfold next_of, view_of, bview. by destruct (w_bodies w !! x). Qed.

Lemma same_nodes_next_of w w' y : same_nodes w w' → next_of w' y = next_of w y.
Proof. intros H. rewrite !next_of_view_of. by destruct (H y) as [-> _]. Qed.

Lemma same_nodes_root_of w w' x r : same_nodes w w' → root_of w x r → root_of w' x r.
Proof.
  intros H [l Hc]. exists l. eapply chain_frame; [|done]. intros y _. by destruct (H y).
Qed.

Lemma same_nodes_sring w w' r l : same_nodes w w' → sring w r l → sring w' r l.
Proof.
  intros H. apply sring_frame. intros y _. split; [by apply same_nodes_next_of|].
  by destruct (H y).
Qed.

Lemma same_nodes_refl w : same_nodes w w.
Proof. done. Qed.

Lemma same_nodes_trans w1 w2 w3 : same_nodes w1 w2 → same_nodes w2 w3 → same_nodes w1 w3.
Proof.
  intros H1 H2 y. destruct (H1 y) as [E1 E1'], (H2 y) as [E2 E2']. split; congruence.
Qed.

(** The invariant only looks at the links, idle times, spaces and static
    flags of bodies, at [space->bodies] and at the lock. *)
Lemma build_inv_frame space w w' rb :
  same_nodes w w' →
  active_list space w' = active_list space w →
  locked <$> w_spaces w' !! space = locked <$> w_spaces w !! space →
  build_inv space w rb → build_inv space w' rb.
Proof.
  intros Hn Hl Hlk [H0 H1 H3 H4 H5].
  assert (∀ y, view_of w' y = view_of w y) as Hv by (intros y; by destruct (Hn y)).
  assert (∀ y, parent_of w' y = parent_of w y) as Hp by (intros y; by destruct (Hn y)).
  split.
  - by rewrite Hlk.
  - intros x nx idle st. rewrite Hl, Hv. apply H1.
  - intros x idle sp st. rewrite Hv, Hl. intros Hx.
    destruct (H3 _ _ _ _ Hx) as [Ha Hb]. split; [done|].
    intros p. rewrite Hp, (same_nodes_next_of w w') by done. apply Hb.
  - intros x n idle sp st. rewrite Hv. intros Hx.
    destruct (H4 _ _ _ _ _ Hx) as (Hsp & r & l & Hr & Hin). split; [done|].
    exists r, l. split; [by eapply same_nodes_sring|done].
  - intros R HR. destruct (H5 R HR) as (HvR & z & r & sp & st & Hz & Hzl & Hzr & HRr).
    rewrite Hv, Hl. split; [done|]. exists z, r, sp, st. rewrite Hv.
    split; [done|]. split; [done|]. split; by eapply same_nodes_root_of.
Qed.

(** The chain of an awake body passes through awake bodies only, and all of
    them but the first are in [space->bodies] or [rogueBodies]. *)
Lemma awake_chain space w rb x l r :
  build_inv space w rb → next_of w x = Some None → chain w x l r →
  ∀ y, y ∈ l ∨ y = r →
    next_of w y = Some None ∧ (y = x ∨ y ∈ active_list space w ∨ y ∈ rb).
Proof.
  intros Hinv Hx Hc. induction Hc as [x b Hb Hp|x b p l r Hb Hp Hc IH].
  - intros y [Hy| ->]; [by apply elem_of_nil in Hy|]. split; [done|by left].
  - destruct (next_of_view _ _ _ Hx) as (idle & sp & st & Hv).
    destruct (bi_awake _ _ _ Hinv _ _ _ _ Hv) as [_ Hpar].
    destruct (Hpar p) as [Hpl Hpn]; [apply parent_of_Some; eauto|].
    specialize (IH Hpn).
    intros y [Hy| ->].
    + apply elem_of_cons in Hy as [->|Hy]; [split; [done|by left]|].
      destruct (IH y (or_introl Hy)) as [? [->|?]]; split; try done; by right.
    + destruct (IH r (or_intror eq_refl)) as [? [->|?]]; split; try done; by right.
Qed.

Lemma awake_root_of_frame space w w' rb x r :
  build_inv space w rb → next_of w x = Some None →
  (∀ y, next_of w y = Some None → parent_of w' y = parent_of w y) →
  root_of w x r → root_of w' x r.
Proof.
  intros Hinv Hx Hsame [l Hc]. exists l. eapply chain_frame; [|done].
  intros y Hy. apply Hsame. by apply (awake_chain _ _ _ _ _ _ Hinv Hx Hc y).
Qed.

(** The root of a sleeping body is the root of its ring. *)
Lemma sleeping_root space w rb x n r :
  build_inv space w rb → next_of w x = Some (Some n) → root_of w x r →
  ∃ l, sring w r l ∧ x ∈ l.
Proof.
  intros Hinv Hx Hr. destruct (next_of_view _ _ _ Hx) as (idle & sp & st & Hv).
  destruct (bi_sleeping _ _ _ Hinv _ _ _ _ _ Hv) as (_ & r0 & l & Hring & Hin).
  pose proof (sring_root_of _ _ _ _ Hring Hin) as Hr0.
  rewrite (root_of_det _ _ _ _ Hr Hr0). eauto.
Qed.

(** Waking a whole ring keeps the invariant. *)
Lemma build_inv_wake space w w' rb r l :
  build_inv space w rb → sring w r l → woken w w' l →
  locked <$> w_spaces w' !! space = Some false →
  active_list space w' = active_list space w ++ l →
  build_inv space w' rb.
Proof.
  intros Hinv Hring [Hin Hout] Hlk Hlist.
  assert (∀ y, y ∈ l → ∃ st, view_of w' y = Some (None, 0%float, Some space, st) ∧
                             parent_of w' y = Some None) as Hwoken.
  { intros y Hy. destruct (Hin y Hy) as (nx & idle & sp & st & Hv & Hv' & Hp').
    destruct (bi_sleeping _ _ _ Hinv _ _ _ _ _ Hv) as [-> _]. eauto. }
  assert (∀ y, next_of w y = Some None → y ∉ l) as Hawake.
  { intros y Hy Hyl. destruct (Hin y Hyl) as (nx & idle & sp & st & Hv & _).
    apply view_next_of in Hv. congruence. }
  assert (∀ y, next_of w y = Some None → next_of w' y = Some None) as Hawake'.
  { intros y Hy. destruct (Hout y (Hawake y Hy)) as [Hvy _].
    by rewrite next_of_view_of, Hvy, <- next_of_view_of. }
  split.
  - done.
  - intros x nx idle st Hx Hv. destruct (decide (x ∈ l)) as [Hxl|Hxl].
    + destruct (Hwoken x Hxl) as (? & Hv' & _). congruence.
    + destruct (Hout x Hxl) as [Hv' _]. rewrite Hv' in Hv.
      rewrite Hlist in Hx. apply elem_of_app in Hx as [Hx|Hx]; [|done].
      by eapply (bi_active_not_rogue _ _ _ Hinv).
  - intros x idle sp st Hv. rewrite Hlist. destruct (decide (x ∈ l)) as [Hxl|Hxl].
    + destruct (Hwoken x Hxl) as (? & Hv' & Hp'). split.
      * intros _ _. apply elem_of_app. by right.
      * intros p Hp. congruence.
    + destruct (Hout x Hxl) as [Hv' Hp']. rewrite Hv' in Hv. rewrite Hp'.
      destruct (bi_awake _ _ _ Hinv _ _ _ _ Hv) as [Ha Hb]. split.
      * intros ? ?. apply elem_of_app. left. by apply Ha.
      * intros p Hp. destruct (Hb p Hp) as [Hpl Hpn]. split; [|by apply Hawake'].
        destruct Hpl as [?|?]; [left; apply elem_of_app; by left|by right].
  - intros x n idle sp st Hv. destruct (decide (x ∈ l)) as [Hxl|Hxl].
    + destruct (Hwoken x Hxl) as (? & Hv' & _). congruence.
    + destruct (Hout x Hxl) as [Hv' _]. rewrite Hv' in Hv.
      destruct (bi_sleeping _ _ _ Hinv _ _ _ _ _ Hv) as (Hsp & r' & l' & Hring' & Hin').
      split; [done|]. exists r', l'. split; [|done].
      eapply sring_frame; [|done]. intros y Hy.
      assert (y ∉ l) as Hyl.
      { intros Hyl. destruct (sring_disjoint _ _ _ _ _ _ Hring Hring' Hyl Hy) as [_ ->].
        done. }
      destruct (Hout y Hyl) as [Hvy Hpy]. split; [|done].
      by rewrite !next_of_view_of, Hvy.
  - intros R HR.
    destruct (bi_rogue _ _ _ Hinv R HR) as ((idle & st & HvR) & z & r0 & sp & st' & Hz & Hzl & Hzr & HRr).
    assert (∀ y, next_of w y = Some None → parent_of w' y = parent_of w y) as Hpar.
    { intros y Hy. by destruct (Hout y (Hawake y Hy)). }
    pose proof (view_next_of _ _ _ _ _ _ HvR) as HRn.
    pose proof (view_next_of _ _ _ _ _ _ Hz) as Hzn.
    destruct (Hout R (Hawake R HRn)) as [HvR' _].
    destruct (Hout z (Hawake z Hzn)) as [Hvz' _].
    split; [rewrite HvR'; eauto|].
    exists z, r0, sp, st'. rewrite Hvz', Hlist. split; [done|]. split.
    { destruct Hzl as [?|?]; [left; apply elem_of_app; by left|by right]. }
    split; by eapply awake_root_of_frame.
Qed.

(** ** Loops over rings *)

(** A loop over a ring whose step leaves the links of the other bodies alone
    runs the step over the members of the ring. *)
Lemma ring_loop_fold {A} N (step : A → ptr → M A) root x l acc w acc' w' :
  (∀ acc y w1 acc1 w2, step acc y w1 = Some (acc1, w2) →
     ∀ z, z ≠ y → next_of w2 z = next_of w1 z) →
  ring_from w root x l →
  ring_loop N step root x acc w = Some (acc', w') →
  for_array step l acc w = Some (acc', w').
Proof.
  intros Hstep. revert N x acc w.
  induction l as [|x0 l IH]; intros N x acc w Hring H; [inversion Hring|].
  destruct N as [|N]; [done|]. cbn [ring_loop] in H.
  apply bind_Some in H as (b & ? & Hb & H). run_inv Hb.
  apply bind_Some in H as (acc1 & w1 & Hs & H).
  pose proof (ring_from_NoDup _ _ _ _ Hring) as Hnd.
  inversion Hring as [? b' Hb' Hn|? b' y ? Hb' Hn Hy Hl]; simplify_eq.
  - rewrite Hn in H. rewrite decide_True in H by done. run_inv H.
    cbn [for_array]. unfold bind. by rewrite Hs.
  - rewrite Hn in H. rewrite decide_False in H by done.
    cbn [for_array]. unfold bind at 1. rewrite Hs. eapply IH; [|exact H].
    eapply ring_from_frame; [|done]. intros z Hz. eapply Hstep; [done|].
    intros ->. by apply NoDup_cons in Hnd as [? _].
Qed.

(** One round of the loop of [componentActivate]. *)
Lemma componentActivate_step_inv N space y w w' :
  componentActivate_step N space tt y w = Some (tt, w') →
  locked <$> w_spaces w !! space = Some false →
  (∃ b, w_bodies w !! y = Some b ∧
        w_bodies w' = <[y := set_node (mkNode None None 0 0) b]> (w_bodies w)) ∧
  locked <$> w_spaces w' !! space = Some false ∧
  active_list space w' = active_list space w ++ [y].
Proof.
  intros H Hlk. unfold componentActivate_step in H.
  apply bind_Some in H as ([] & w1 & Hnode & H). run_inv Hnode.
  destruct (cpSpaceActivateBody_unlocked_frame _ _ _ _ _ H Hlk) as (Hb & Hlk' & Hl).
  split; [eauto|]. split; [done|]. done.
Qed.

Lemma componentActivate_fold N space l w w' :
  for_array (componentActivate_step N space) l tt w = Some (tt, w') →
  NoDup l → locked <$> w_spaces w !! space = Some false →
  (∀ y, y ∈ l → ∃ b, w_bodies w !! y = Some b ∧
                     w_bodies w' !! y = Some (set_node (mkNode None None 0 0) b)) ∧
  (∀ y, y ∉ l → w_bodies w' !! y = w_bodies w !! y) ∧
  locked <$> w_spaces w' !! space = Some false ∧
  active_list space w' = active_list space w ++ l.
Proof.
  revert w. induction l as [|x l IH]; intros w H Hnd Hlk; cbn [for_array] in H.
  - run_inv H. split; [intros y Hy; by apply elem_of_nil in Hy|].
    split; [done|]. split; [done|]. by rewrite app_nil_r.
  - apply bind_Some in H as ([] & w1 & Hstep & H).
    apply NoDup_cons in Hnd as [Hx Hnd].
    destruct (componentActivate_step_inv _ _ _ _ _ Hstep Hlk) as ((b & Hb & Hb1) & Hlk1 & Hl1).
    destruct (IH _ H Hnd Hlk1) as (Hin & Hout & Hlk' & Hl').
    split; [|split; [|split]].
    + intros y Hy. apply elem_of_cons in Hy as [->|Hy].
      * exists b. split; [done|]. rewrite (Hout x Hx), Hb1. apply lookup_insert_eq.
      * destruct (Hin y Hy) as (b1 & Hy1 & Hy'). exists b1. split; [|done].
        rewrite Hb1, lookup_insert_ne in Hy1; [done|]. intros ->. done.
    + intros y Hy. apply not_elem_of_cons in Hy as [Hne Hy].
      rewrite (Hout y Hy), Hb1. by apply lookup_insert_ne.
    + done.
    + rewrite Hl', Hl1, <- app_assoc. done.
Qed.

(** [componentActivate] does nothing to an awake root and wakes the whole
    ring of a sleeping one. *)
Lemma componentActivate_inv N s rb r w w' :
  componentActivate N r w = Some (tt, w') →
  build_inv s w rb → parent_of w r = Some None →
  (next_of w r = Some None ∧ w' = w) ∨
  (∃ l, sring w r l ∧ woken w w' l ∧
        locked <$> w_spaces w' !! s = Some false ∧
        active_list s w' = active_list s w ++ l).
Proof.
  intros H Hinv Hroot. unfold componentActivate in H.
  apply bind_Some in H as (b & ? & Hb & H). run_inv Hb.
  unfold cpBodyIsSleeping in H. case_bool_decide as Hsleep; simpl in H.
  - destruct (next (node b)) as [n|] eqn:Hn; [|done].
    assert (next_of w r = Some (Some n)) as Hrn by (apply next_of_Some; eauto).
    destruct (next_of_view _ _ _ Hrn) as (idle & sp & st & Hv).
    destruct (bi_sleeping _ _ _ Hinv _ _ _ _ _ Hv) as (Hsp & r0 & l & Hring & Hin).
    assert (space b = Some s) as Hspace.
    { unfold view_of, bview in Hv. rewrite Hb in Hv. simpl in Hv. congruence. }
    rewrite Hspace in H.
    assert (r0 = r) as ->.
    { destruct Hring as (_ & _ & Hpar). destruct (decide (r = r0)) as [|Hne]; [done|].
      rewrite (Hpar r Hin Hne) in Hroot. done. }
    apply bind_Some in H as ([] & w1 & Hloop & H). run_inv H.
    right. exists l. split; [done|].
    pose proof Hring as (Hr & _ & _).
    apply (ring_loop_fold _ _ _ _ l) in Hloop; [|clear; intros [] y w1 [] w2 Hs z Hz|done].
    2:{ unfold componentActivate_step in Hs.
        apply bind_Some in Hs as ([] & w3 & Hnode & Hs). run_inv Hnode.
        pose proof (preserves_cpSpaceActivateBody_bodies (λ bs, bs = _) _ _ _ _ _ _
                      Hs eq_refl) as E.
        unfold next_of. rewrite E. simpl. by rewrite lookup_insert_ne. }
    destruct (componentActivate_fold _ _ _ _ _ Hloop (ring_from_NoDup _ _ _ _ Hr)
                (bi_unlocked _ _ _ Hinv)) as (Hin' & Hout' & Hlk' & Hl').
    split; [|split].
    + split.
      * intros y Hy. destruct (Hin' y Hy) as (by_ & Hby & Hby').
        destruct (ring_from_next _ _ _ _ _ Hr Hy) as (ny & Hny).
        apply next_of_Some in Hny as (by0 & Hby0 & Hny).
        assert (by0 = by_) as -> by congruence.
        exists ny, (idleTime (node by_)), (space by_), (isStatic by_).
        unfold view_of, parent_of, bview. simpl. rewrite Hby, Hby'. simpl.
        rewrite Hny. done.
      * intros y Hy. unfold view_of, parent_of. simpl. by rewrite (Hout' y Hy).
    + simpl. rewrite lookup_insert_eq. simpl. by rewrite H in Hlk'.
    + unfold active_list in *. simpl. rewrite lookup_insert_eq. simpl. by rewrite H in Hl'.
  - run_inv H. left. split; [|done]. apply next_of_Some. exists b. split; [done|].
    destruct (next (node b)); done.
Qed.

(** ** [componentNodeRoot] during forest building *)

Lemma componentNodeRoot_build_inv N s rb x w r w' :
  componentNodeRoot N x w = Some (r, w') → build_inv s w rb →
  build_inv s w' rb ∧ root_of w x r ∧ root_of w' x r ∧ parent_of w' r = Some None ∧
  (∀ y, view_of w' y = view_of w y) ∧ w_spaces w' = w_spaces w ∧
  (∀ y ry, root_of w y ry → root_of w' y ry).
Proof.
  intros H Hinv. apply componentNodeRoot_inv in H as (l & Hc & _ & ->).
  assert (∀ y ry, root_of w y ry →
                  root_of (with_bodies (compress r l (w_bodies w)) w) y ry) as Hroots.
  { intros y ry. by apply (compress_root_of _ x). }
  assert (parent_of (with_bodies (compress r l (w_bodies w)) w) r = Some None) as Hr.
  { rewrite compress_parent_of, decide_False by (by eapply chain_root_not_in).
    by eapply chain_root_parent_of. }
  split; [|split; [by eexists|split; [apply Hroots; by eexists|]]].
  2:{ split; [done|]. split; [apply compress_view|]. split; [done|]. done. }
  assert (∀ y, next_of (with_bodies (compress r l (w_bodies w)) w) y = next_of w y) as Hnext.
  { intros y. by rewrite !next_of_view_of, compress_view. }
  pose proof Hinv as [H0 H1 H3 H4 H5]. split.
  - done.
  - intros y nx idle st. rewrite compress_view. apply H1.
  - intros y idle sp st. rewrite compress_view. intros Hv.
    destruct (H3 _ _ _ _ Hv) as [Ha Hb]. split; [done|].
    intros p. rewrite compress_parent_of, Hnext. case_decide as Hyl; [|apply Hb].
    destruct (parent_of w y) as [q|] eqn:Hq; [|done]. simpl. intros [= <-].
    destruct (chain_member_chain _ _ _ _ _ Hc Hyl) as (ly & Hcy).
    destruct (awake_chain s w rb y ly r Hinv (view_next_of _ _ _ _ _ _ Hv) Hcy r
                (or_intror eq_refl)) as [Hrn Hrl].
    split; [|done]. destruct Hrl as [->|?]; [|done].
    exfalso. by apply (chain_root_not_in _ _ _ _ Hc).
  - intros y n idle sp st. rewrite compress_view. intros Hv.
    destruct (H4 _ _ _ _ _ Hv) as (Hsp & r0 & l0 & Hring & Hin). split; [done|].
    exists r0, l0. split; [|done]. eapply sring_frame; [|done].
    intros z Hz. split; [apply Hnext|].
    rewrite compress_parent_of. case_decide as Hzl; [|done].
    destruct (chain_member_chain _ _ _ _ _ Hc Hzl) as (lz & Hcz).
    assert (r = r0) as <-.
    { eapply root_of_det; [by eexists|]. by eapply sring_root_of. }
    destruct Hring as (_ & Hr0 & Hpar).
    rewrite Hpar; [done|done|]. intros ->.
    by apply (chain_member_has_parent _ _ _ _ _ Hc Hzl).
  - intros R HR. destruct (H5 R HR) as (HvR & z & r0 & sp & st & Hz & Hzl & Hzr & HRr).
    rewrite compress_view. split; [done|]. exists z, r0, sp, st. rewrite compress_view.
    split; [done|]. split; [done|]. split; by apply Hroots.
Qed.

(** ** Stores with the same links *)

Lemma links_view w w' y nx idle sp st :
  same_links w w' → view_of w y = Some (nx, idle, sp, st) →
  ∃ idle', view_of w' y = Some (nx, idle', sp, st).
Proof.
  intros H Hv. destruct (H y) as [_ Hl]. rewrite Hv in Hl. unfold links in Hl.
  destruct (view_of w' y) as [[[[nx' idle'] sp'] st']|]; [|done].
  simpl in Hl. injection Hl as -> -> ->. eauto.
Qed.

Lemma same_links_sym w w' : same_links w w' → same_links w' w.
Proof. intros H y. destruct (H y). done. Qed.

Lemma same_links_trans w1 w2 w3 : same_links w1 w2 → same_links w2 w3 → same_links w1 w3.
Proof. intros H1 H2 y. destruct (H1 y) as [E1 E1'], (H2 y) as [E2 E2']. split; congruence. Qed.

Lemma same_nodes_links w w' : same_nodes w w' → same_links w w' ∧ keeps_zero w w'.
Proof.
  intros H. split.
  - intros y. destruct (H y) as [-> ->]. done.
  - intros z nx sp st. by destruct (H z) as [-> _].
Qed.

Lemma same_links_next_of w w' y : same_links w w' → next_of w' y = next_of w y.
Proof.
  intros H. destruct (H y) as [_ Hl]. rewrite !next_of_view_of. unfold links in Hl.
  destruct (view_of w y) as [[[[nx idle] sp] st]|], (view_of w' y) as [[[[nx' idle'] sp'] st']|];
    simpl in *; congruence.
Qed.

Lemma same_links_root_of w w' x r : same_links w w' → root_of w x r → root_of w' x r.
Proof.
  intros H [l Hc]. exists l. eapply chain_frame; [|done]. intros y _. by destruct (H y).
Qed.

Lemma same_links_sring w w' r l : same_links w w' → sring w r l → sring w' r l.
Proof.
  intros H. apply sring_frame. intros y _. split; [by apply same_links_next_of|].
  by destruct (H y).
Qed.

(** The invariant looks at idle times only to find the idle times 0 that keep
    the components of the rogue bodies awake. *)
Lemma build_inv_links space w w' rb :
  same_links w w' → (rb ≠ [] → keeps_zero w w') →
  active_list space w' = active_list space w →
  locked <$> w_spaces w' !! space = locked <$> w_spaces w !! space →
  build_inv space w rb → build_inv space w' rb.
Proof.
  intros Hn Hz Hl Hlk [H0 H1 H3 H4 H5].
  pose proof (same_links_sym _ _ Hn) as Hn'.
  assert (∀ y, parent_of w' y = parent_of w y) as Hp by (intros y; by destruct (Hn y)).
  split.
  - by rewrite Hlk.
  - intros x nx idle st. rewrite Hl. intros Hx Hv.
    destruct (links_view _ _ _ _ _ _ _ Hn' Hv) as (idle' & Hv'). by eapply H1.
  - intros x idle sp st Hv. rewrite Hl.
    destruct (links_view _ _ _ _ _ _ _ Hn' Hv) as (idle' & Hv').
    destruct (H3 _ _ _ _ Hv') as [Ha Hb]. split; [done|].
    intros p. rewrite Hp, (same_links_next_of w w') by done. apply Hb.
  - intros x n idle sp st Hv.
    destruct (links_view _ _ _ _ _ _ _ Hn' Hv) as (idle' & Hv').
    destruct (H4 _ _ _ _ _ Hv') as (Hsp & r & l & Hr & Hin). split; [done|].
    exists r, l. split; [by eapply same_links_sring|done].
  - intros R HR. destruct (H5 R HR) as ((idle & st0 & HvR) & z & r & sp & st & Hv & Hzl & Hzr & HRr).
    assert (rb ≠ []) as Hne by (intros ->; by apply elem_of_nil in HR).
    rewrite Hl. split.
    + destruct (links_view _ _ _ _ _ _ _ Hn HvR) as (idle' & HvR'). eauto.
    + exists z, r, sp, st. split; [by apply Hz|]. split; [done|].
      split; by eapply same_links_root_of.
Qed.

(** Setting an idle time changes no link. *)
Lemma set_idleTime_links x v w w' :
  modify_node x (set_idleTime v) w = Some (tt, w') →
  same_links w w' ∧ w_spaces w' = w_spaces w ∧
  (v = 0%float → keeps_zero w w') ∧
  ∃ nx idle sp st, view_of w x = Some (nx, idle, sp, st) ∧ view_of w' x = Some (nx, v, sp, st).
Proof.
  intros H. run_inv H. rename x0 into b, H into Hb.
  assert (∀ y, y ≠ x → view_of (with_bodies (<[x:=set_node (set_idleTime v (node b)) b]>
                                              (w_bodies w)) w) y = view_of w y) as Hother.
  { intros y Hy. unfold view_of. simpl. by rewrite lookup_insert_ne. }
  assert (view_of (with_bodies (<[x:=set_node (set_idleTime v (node b)) b]> (w_bodies w)) w) x
          = Some (next (node b), v, space b, isStatic b)) as Hx'.
  { unfold view_of. simpl. by rewrite lookup_insert_eq. }
  assert (view_of w x = Some (bview b)) as Hx by (unfold view_of; by rewrite Hb).
  split; [|split; [done|split]].
  - intros y. destruct (decide (y = x)) as [->|Hy].
    + split; [|by rewrite Hx', Hx].
      unfold parent_of. simpl. by rewrite lookup_insert_eq, Hb.
    + split; [|by rewrite Hother].
      unfold parent_of. simpl. by rewrite lookup_insert_ne.
  - intros -> z nx sp st Hz. destruct (decide (z = x)) as [->|Hy].
    + rewrite Hx in Hz. unfold bview in Hz. rewrite Hx'. congruence.
    + by rewrite Hother.
  - exists (next (node b)), (idleTime (node b)), (space b), (isStatic b). done.
Qed.

(** ** Anchors *)

Lemma chain_in_store w x l r : chain w x l r → ∃ nx, next_of w x = Some nx.
Proof. destruct 1; exists (next (node b)); apply next_of_Some; eauto. Qed.

(** A body under an awake root is awake. *)
Lemma awake_under_root s w rb x r :
  build_inv s w rb → root_of w x r → next_of w r = Some None → next_of w x = Some None.
Proof.
  intros Hinv Hr Hn. pose proof Hr as [l Hc].
  destruct (chain_in_store _ _ _ _ Hc) as ([n|] & Hx); [|done].
  destruct (sleeping_root _ _ _ _ _ _ Hinv Hx Hr) as (l' & Hring & _).
  destruct Hring as (Hring & _).
  destruct (ring_from_next _ _ _ _ _ Hring (ring_root_in _ _ _ Hring)) as (n' & Hn').
  congruence.
Qed.

Lemma anchor_of_root s w rb x r :
  build_inv s w rb → root_of w x r → next_of w r = Some None → anchor s w x r.
Proof. intros Hinv Hr Hn. split; [by eapply awake_under_root|by left]. Qed.

(** What [componentActivate] on a root does to the invariant and to anchors. *)
Lemma componentActivate_anchor N s rb r w w' :
  componentActivate N r w = Some (tt, w') →
  build_inv s w rb → parent_of w r = Some None →
  build_inv s w' rb ∧ next_of w' r = Some None ∧
  (∀ y, parent_of w y = Some None → parent_of w' y = Some None) ∧
  (∀ x, root_of w x r → anchor s w' x r) ∧
  (∀ x r0, r0 ≠ r → root_of w x r0 → root_of w' x r0) ∧
  (∀ x r0, anchor s w x r0 → anchor s w' x r0) ∧
  (∀ y nx idle sp st, view_of w y = Some (nx, idle, sp, st) →
     ∃ nx' idle', view_of w' y = Some (nx', idle', sp, st)).
Proof.
  intros H Hinv Hroot.
  destruct (componentActivate_inv _ _ _ _ _ _ H Hinv Hroot)
    as [[Hn ->]|(l & Hring & Hwoken & Hlk & Hlist)].
  { split; [done|]. split; [done|]. split; [done|].
    split; [intros x Hx; by eapply anchor_of_root|]. split; [done|]. split; [done|]. eauto. }
  pose proof (build_inv_wake _ _ _ _ _ _ Hinv Hring Hwoken Hlk Hlist) as Hinv'.
  destruct Hwoken as [Hin Hout].
  assert (∀ y, y ∈ l → ∃ st, view_of w' y = Some (None, 0%float, Some s, st) ∧
                             parent_of w' y = Some None) as Hwoken.
  { intros y Hy. destruct (Hin y Hy) as (nx & idle & sp & st & Hv & Hv' & Hp').
    destruct (bi_sleeping _ _ _ Hinv _ _ _ _ _ Hv) as [-> _]. eauto. }
  assert (∀ y, next_of w y = Some None → y ∉ l) as Hawake.
  { intros y Hy Hyl. destruct (Hin y Hyl) as (nx & idle & sp & st & Hv & _).
    apply view_next_of in Hv. congruence. }
  assert (r ∈ l) as Hrl by (destruct Hring as [Hring _]; by eapply ring_root_in).
  assert (∀ x, root_of w x r → x ∈ l) as Htree.
  { intros x Hx. pose proof Hx as [lx Hc].
    destruct (chain_in_store _ _ _ _ Hc) as ([n|] & Hxn).
    - destruct (sleeping_root _ _ _ _ _ _ Hinv Hxn Hx) as (l' & Hring' & Hxl).
      by destruct (sring_disjoint _ _ _ _ _ _ Hring Hring' Hrl
                     (ring_root_in _ _ _ (proj1 Hring'))) as [_ ->].
    - destruct (awake_chain _ _ _ _ _ _ Hinv Hxn Hc r (or_intror eq_refl)) as [Hrn _].
      by destruct (Hawake r Hrn). }
  split; [done|]. split.
  { destruct (Hwoken r Hrl) as (st & Hv & _). by eapply view_next_of. }
  split.
  { intros y Hy. destruct (decide (y ∈ l)) as [Hyl|Hyl].
    - by destruct (Hwoken y Hyl) as (st & _ & ?).
    - destruct (Hout y Hyl) as [_ ->]. done. }
  split.
  { intros x Hx. pose proof (Htree x Hx) as Hxl.
    destruct (Hwoken x Hxl) as (st & Hv & _), (Hwoken r Hrl) as (st' & Hvr & _).
    split; [by eapply view_next_of|]. right. exists 0%float, st, st'.
    split; [done|]. split; [done|]. rewrite Hlist. apply elem_of_app. by right. }
  split.
  { intros x r0 Hne [lx Hc]. exists lx. eapply chain_frame; [|done].
    intros y Hy. assert (y ∉ l) as Hyl; [|by destruct (Hout y Hyl)].
    intros Hyl. apply Hne. apply (root_of_det w y); [|by eapply sring_root_of].
    destruct Hy as [Hy| ->]; [|exists []; by eapply chain_root_chain].
    destruct (chain_member_chain _ _ _ _ _ Hc Hy) as (ly & Hcy). by exists ly. }
  split.
  2:{ intros y nx idle sp st Hv. destruct (decide (y ∈ l)) as [Hyl|Hyl].
      - destruct (Hin y Hyl) as (nx0 & idle0 & sp0 & st0 & Hv0 & Hv' & _).
        rewrite Hv in Hv0. injection Hv0 as -> -> -> ->. eauto.
      - destruct (Hout y Hyl) as [-> _]. eauto. }
  intros x r0 [Hxn Hx].
  destruct (Hout x (Hawake x Hxn)) as [Hvx _].
  split; [by rewrite next_of_view_of, Hvx, <- next_of_view_of|].
  destruct Hx as [Hx|(idle & st & st' & Hv & Hvr & Hr0)].
  - left. apply (awake_root_of_frame s w w' rb x r0 Hinv Hxn); [|done].
    intros y Hy. by destruct (Hout y (Hawake y Hy)).
  - right. exists idle, st, st'. rewrite Hvx. split; [done|].
    destruct (Hout r0 (Hawake r0 (view_next_of _ _ _ _ _ _ Hvr))) as [-> _].
    split; [done|]. rewrite Hlist. apply elem_of_app. by left.
Qed.

Lemma anchor_links s w w' x r :
  same_links w w' → keeps_zero w w' → active_list s w' = active_list s w →
  anchor s w x r → anchor s w' x r.
Proof.
  intros Hn Hz Hl [Hx H]. split; [by rewrite (same_links_next_of w w')|].
  destruct H as [H|(idle & st & st' & Hv & Hvr & Hr)].
  - left. by eapply same_links_root_of.
  - right. destruct (links_view _ _ _ _ _ _ _ Hn Hv) as (idle' & Hv').
    exists idle', st, st'. rewrite Hl. split; [done|]. split; [by apply Hz|done].
Qed.

(** An anchored body with idle time 0 gives the tree of its root a member
    with idle time 0. *)
Lemma anchor_zero s w (rb' : list ptr) x r :
  anchor s w x r → parent_of w r = Some None →
  (∃ nx sp st, view_of w x = Some (nx, 0%float, sp, st)) →
  x ∈ active_list s w ∨ x ∈ rb' →
  ∃ z sp st, view_of w z = Some (None, 0%float, sp, st) ∧
             (z ∈ active_list s w ∨ z ∈ rb') ∧ root_of w z r.
Proof.
  intros [Hx H] Hr (nx & sp & st & Hv) Hl.
  destruct H as [H|(idle & st0 & st' & _ & Hvr & Hrl)].
  - exists x, sp, st. split; [|done].
    apply view_next_of in Hv as Hn. rewrite Hx in Hn. by injection Hn as <-.
  - exists r, (Some s), st'. split; [done|]. split; [by left|].
    exists []. by apply chain_root'.
Qed.

Lemma anchor_root_listed s w rb (rb' : list ptr) x r :
  build_inv s w rb → anchor s w x r → (∀ y, y ∈ rb → y ∈ rb') →
  x ∈ active_list s w ∨ x ∈ rb' → r ∈ active_list s w ∨ r ∈ rb'.
Proof.
  intros Hinv [Hx H] Hsub Hl. destruct H as [[l Hc]|(idle & st0 & st' & _ & _ & Hrl)]; [|by left].
  destruct (awake_chain _ _ _ _ _ _ Hinv Hx Hc r (or_intror eq_refl)) as [_ [->|[?|?]]];
    [done|by left|right; by apply Hsub].
Qed.

(** Linking the two roots that [mergeBodies] has looked up, once the rogue
    ones among [a] and [b] are in [rogueBodies] and the idle time of what
    they touch is 0. *)
Lemma build_inv_merge s w w' rb rb' a b ar br :
  build_inv s w rb →
  componentNodeMerge ar br w = Some (tt, w') →
  anchor s w a ar → anchor s w b br →
  parent_of w ar = Some None → parent_of w br = Some None →
  next_of w ar = Some None → next_of w br = Some None →
  a ∈ active_list s w ∨ a ∈ rb' → b ∈ active_list s w ∨ b ∈ rb' →
  (∀ y, y ∈ rb' ↔ y ∈ rb ∨ (y = a ∧ ∃ idle st, view_of w a = Some (None, idle, None, st))
                        ∨ (y = b ∧ ∃ idle st, view_of w b = Some (None, idle, None, st))) →
  ((∃ idle st, view_of w a = Some (None, idle, None, st)) →
   ∃ nx sp st, view_of w b = Some (nx, 0%float, sp, st)) →
  ((∃ idle st, view_of w b = Some (None, idle, None, st)) →
   ∃ nx sp st, view_of w a = Some (nx, 0%float, sp, st)) →
  build_inv s w' rb'.
Proof.
  intros Hinv Hmerge Ha Hb Hpa Hpb Hna Hnb Hla Hlb Hrb Hza Hzb.
  apply componentNodeMerge_inv in Hmerge as (Hsp & _ & _ & _ & _ & Hv & Hmerge).
  assert (active_list s w' = active_list s w) as Hl by (unfold active_list; by rewrite Hsp).
  assert (∀ y, next_of w' y = next_of w y) as Hn.
  { intros y. by rewrite !next_of_view_of, Hv. }
  assert (∀ y, y ∈ rb → y ∈ rb') as Hsub by (intros y Hy; apply Hrb; by left).
  pose proof (anchor_root_listed _ _ _ rb' _ _ Hinv Ha Hsub Hla) as Hlar.
  pose proof (anchor_root_listed _ _ _ rb' _ _ Hinv Hb Hsub Hlb) as Hlbr.
  assert (∃ ρ : ptr → ptr, (∀ y ry, root_of w y ry → root_of w' y (ρ ry)) ∧ ρ ar = ρ br)
    as (ρ & Hρ & Hρab).
  { destruct Hmerge as [[-> Hp]|(child & par & Hcp & Hne & Hchild & Hp)].
    - exists id. split; [|done]. intros y ry [l Hc]. exists l.
      eapply chain_frame; [|done]. intros z _. apply Hp.
    - exists (λ r, if decide (r = child) then par else r). split.
      + intros y ry. apply link_root_of; try done;
          destruct Hcp as [[-> ->]|[-> ->]]; done.
      + destruct Hcp as [[-> ->]|[-> ->]]; repeat case_decide; congruence. }
  assert (∀ x p, parent_of w' x = Some (Some p) →
                 parent_of w x = Some (Some p) ∨
                 (next_of w x = Some None ∧ (p = ar ∨ p = br))) as Hpar.
  { intros x p Hx. destruct Hmerge as [[-> Hp]|(child & par & Hcp & Hne & Hchild & Hp)].
    - left. by rewrite <- Hp.
    - destruct (decide (x = child)) as [->|Hxc]; [|left; by rewrite <- Hp].
      right. rewrite Hchild in Hx. injection Hx as <-.
      destruct Hcp as [[-> ->]|[-> ->]]; split; auto. }
  destruct Hinv as [H0 H1 H3 H4 H5]. split.
  - by rewrite Hsp.
  - intros x nx idle st. rewrite Hl, Hv. apply H1.
  - intros x idle sp st. rewrite Hv, Hl. intros Hx.
    destruct (H3 _ _ _ _ Hx) as [Hact Hold]. split; [done|].
    intros p Hp. rewrite Hn. destruct (Hpar x p Hp) as [Hp'|[_ [-> | ->]]]; [|done..].
    destruct (Hold p Hp') as [[?|?] ?]; split; auto.
  - intros x n idle sp st. rewrite Hv. intros Hx.
    destruct (H4 _ _ _ _ _ Hx) as (Hspx & r & l & Hring & Hin). split; [done|].
    exists r, l. split; [|done]. eapply sring_frame; [|done].
    intros y Hy. split; [done|].
    destruct (ring_from_next _ _ _ _ _ (proj1 Hring) Hy) as (n' & Hy').
    destruct Hmerge as [[-> Hp]|(child & par & Hcp & Hne & Hchild & Hp)]; [done|].
    apply Hp. intros ->. destruct Hcp as [[-> ->]|[-> ->]]; congruence.
  - assert (∀ x y rx ry, anchor s w x rx → anchor s w y ry →
              parent_of w ry = Some None → ρ rx = ρ ry →
              y ∈ active_list s w ∨ y ∈ rb' →
              (∃ idle st, view_of w x = Some (None, idle, None, st)) →
              (∃ nx sp st, view_of w y = Some (nx, 0%float, sp, st)) →
              ∃ z r sp st, view_of w' z = Some (None, 0%float, sp, st) ∧
                           (z ∈ active_list s w' ∨ z ∈ rb') ∧
                           root_of w' z r ∧ root_of w' x r) as Hnew.
    { intros x y rx ry [_ Hx] Hy Hpy Hρxy Hly (idle & st & Hvx) Hzy.
      destruct (anchor_zero _ _ rb' _ _ Hy Hpy Hzy Hly) as (z & sp & st' & Hvz & Hlz & Hrz).
      exists z, (ρ ry), sp, st'. rewrite Hv, Hl. split; [done|]. split; [done|].
      split; [by apply Hρ|]. rewrite <- Hρxy. apply Hρ.
      destruct Hx as [Hx|(? & ? & ? & Hvx' & _)]; [done|congruence]. }
    intros R HR. rewrite Hv. apply Hrb in HR as [HR|[[-> HR]|[-> HR]]].
    + destruct (H5 R HR) as (HvR & z & r & sp & st & Hvz & Hzl & Hzr & HRr).
      split; [done|]. exists z, (ρ r), sp, st. rewrite Hv, Hl.
      split; [done|]. split; [destruct Hzl; auto|]. split; by apply Hρ.
    + split; [done|]. apply (Hnew a b ar br); auto.
    + split; [done|]. apply (Hnew b a br ar); auto.
Qed.

(** ** [mergeBodies] *)

(** The step of [mergeBodies] for one of its two bodies: a rogue [x] goes to
    [rogueBodies] and the idle time of [y] becomes 0. *)
Lemma mergeBodies_rogue x xb y rb w rb1 w1 :
  w_bodies w !! x = Some xb →
  (if cpBodyIsRogue xb then modify_node y (set_idleTime 0);; ret (cpArrayPush rb x)
   else ret rb) w = Some (rb1, w1) →
  same_links w w1 ∧ keeps_zero w w1 ∧ w_spaces w1 = w_spaces w ∧
  ((space xb = None ∧ rb1 = rb ++ [x] ∧ ∃ nx sp st, view_of w1 y = Some (nx, 0%float, sp, st))
   ∨ (space xb ≠ None ∧ rb1 = rb)).
Proof.
  intros Hx H. unfold cpBodyIsRogue in H. case_bool_decide as Hsp.
  - apply bind_Some in H as ([] & w2 & H & Hret). apply ret_Some in Hret as [-> ->].
    apply set_idleTime_links in H as (Hn & Hs & Hz & nx & idle & sp & st & _ & Hv).
    split; [done|]. split; [exact (Hz eq_refl)|]. split; [done|]. left. eauto 10.
  - apply ret_Some in H as [-> ->]. split; [done|]. split; [by intros z ? ? ?|].
    split; [done|]. by right.
Qed.

Lemma view_of_Some w x b : w_bodies w !! x = Some b → view_of w x = Some (bview b).
Proof. unfold view_of. by intros ->. Qed.

(** ** Awake bodies with a parent stay listed *)

Lemma componentNodeRoot_parents_listed N s rb x w r w' :
  componentNodeRoot N x w = Some (r, w') → parents_listed s w rb → parents_listed s w' rb.
Proof.
  intros H HPL y p Hy Hp. apply componentNodeRoot_inv in H as (l & Hc & _ & ->).
  unfold active_list. simpl.
  rewrite next_of_view_of, compress_view, <- next_of_view_of in Hy.
  rewrite compress_parent_of in Hp. case_decide as Hin.
  - destruct (chain_members_parent _ _ _ _ _ Hc Hin) as (q & Hq & _). by apply (HPL y q).
  - by apply (HPL y p).
Qed.

Lemma componentActivate_parents_listed N s rb r w w' :
  componentActivate N r w = Some (tt, w') →
  build_inv s w rb → parent_of w r = Some None →
  parents_listed s w rb → parents_listed s w' rb.
Proof.
  intros H Hinv Hr HPL.
  destruct (componentActivate_inv _ s rb _ _ _ H Hinv Hr)
    as [[_ ->]|(l & _ & [Hin Hout] & _ & Hl)]; [done|].
  intros y p Hy Hp. destruct (decide (y ∈ l)) as [Hyl|Hyl].
  - destruct (Hin y Hyl) as (? & ? & ? & ? & _ & _ & Hp'). congruence.
  - destruct (Hout y Hyl) as [Hv Hp']. rewrite Hl.
    rewrite next_of_view_of, Hv, <- next_of_view_of in Hy. rewrite Hp' in Hp.
    destruct (HPL y p Hy Hp); [left; apply elem_of_app; by left|by right].
Qed.

Lemma parents_listed_links s w w' rb (rb' : list ptr) :
  same_links w w' → active_list s w' = active_list s w → (∀ y, y ∈ rb → y ∈ rb') →
  parents_listed s w rb → parents_listed s w' rb'.
Proof.
  intros Hn Hl Hsub HPL y p Hy Hp. rewrite (same_links_next_of _ _ _ Hn) in Hy.
  destruct (Hn y) as [Hp' _]. rewrite Hp' in Hp. rewrite Hl.
  destruct (HPL y p Hy Hp); [by left|right; by apply Hsub].
Qed.

Lemma parents_listed_merge s w w' (rb : list ptr) ar br :
  componentNodeMerge ar br w = Some (tt, w') →
  ar ∈ active_list s w ∨ ar ∈ rb → br ∈ active_list s w ∨ br ∈ rb →
  parents_listed s w rb → parents_listed s w' rb.
Proof.
  intros H Ha Hb HPL y p Hy Hp.
  apply componentNodeMerge_inv in H as (Hs & _ & _ & _ & _ & Hv & Hcase).
  unfold active_list in *. rewrite Hs.
  rewrite next_of_view_of, Hv, <- next_of_view_of in Hy.
  destruct Hcase as [[_ Hsame]|(child & par & Hcp & _ & _ & Hsame)].
  - rewrite Hsame in Hp. by apply (HPL y p).
  - destruct (decide (y = child)) as [->|Hne].
    + destruct Hcp as [[-> _]|[-> _]]; done.
    + rewrite Hsame in Hp by done. by apply (HPL y p).
Qed.

(** [mergeBodies] up to the linking of the two roots. *)
Lemma mergeBodies_stages N s cs rb a b w rb' w' :
  mergeBodies N s cs rb a b w = Some (rb', w') → build_inv s w rb →
  (rb' = rb ∧ w' = w) ∨
  ∃ ar br w6,
    build_inv s w6 rb ∧ componentNodeMerge ar br w6 = Some (tt, w') ∧
    anchor s w6 a ar ∧ anchor s w6 b br ∧
    parent_of w6 ar = Some None ∧ parent_of w6 br = Some None ∧
    next_of w6 ar = Some None ∧ next_of w6 br = Some None ∧
    (a ∈ active_list s w6 ∨ a ∈ rb') ∧ (b ∈ active_list s w6 ∨ b ∈ rb') ∧
    (∀ y, y ∈ rb' ↔ y ∈ rb ∨ (y = a ∧ ∃ idle st, view_of w6 a = Some (None, idle, None, st))
                          ∨ (y = b ∧ ∃ idle st, view_of w6 b = Some (None, idle, None, st))) ∧
    ((∃ idle st, view_of w6 a = Some (None, idle, None, st)) →
     ∃ nx sp st, view_of w6 b = Some (nx, 0%float, sp, st)) ∧
    ((∃ idle st, view_of w6 b = Some (None, idle, None, st)) →
     ∃ nx sp st, view_of w6 a = Some (nx, 0%float, sp, st)) ∧
    (parents_listed s w rb → parents_listed s w6 rb).
Proof.
  intros H Hinv. unfold mergeBodies in H.
  apply bind_Some in H as (ab & ? & Hab & H). apply load_body_Some in Hab as [Hab ->].
  apply bind_Some in H as (static & w0 & Hst & H).
  assert (w0 = w ∧ (static = false → isStatic ab = false ∧
            ∃ bb, w_bodies w !! b = Some bb ∧ isStatic bb = false)) as [-> Hstatic].
  { unfold cpBodyIsStatic in Hst. destruct (isStatic ab).
    - apply ret_Some in Hst as [-> ->]. done.
    - apply bind_Some in Hst as (bb & ? & Hbb & Hst). apply load_body_Some in Hbb as [Hbb ->].
      apply ret_Some in Hst as [-> ->]. split; [done|]. eauto. }
  destruct static; [apply ret_Some in H as [-> ->]; by left|]. right.
  destruct Hstatic as (Hsa & bb & Hbb & Hsb); [done|].
  apply view_of_Some in Hab as Hva. apply view_of_Some in Hbb as Hvb. unfold bview in Hva, Hvb.
  rewrite Hsa in Hva. rewrite Hsb in Hvb. clear Hab Hbb Hsa Hsb.
  (* the two roots *)
  apply bind_Some in H as (ar & w1 & Har & H).
  pose proof (componentNodeRoot_parents_listed _ s rb _ _ _ _ Har) as HPL1.
  apply componentNodeRoot_build_inv with (s := s) (rb := rb) in Har
    as (Hinv1 & _ & Hra1 & Hpa1 & Hv1 & Hs1 & _); [|done].
  apply bind_Some in H as (br & w2 & Hbr & H).
  pose proof (componentNodeRoot_parents_listed _ s rb _ _ _ _ Hbr) as HPL2.
  apply componentNodeRoot_build_inv with (s := s) (rb := rb) in Hbr
    as (Hinv2 & _ & Hrb2 & Hpb2 & Hv2 & Hs2 & Hroots2); [|done].
  apply Hroots2 in Hra1 as Hra2.
  assert (parent_of w2 ar = Some None) as Hpa2.
  { destruct Hra2 as [l Hc]. by eapply chain_root_parent_of. }
  rewrite <- Hv1, <- Hv2 in Hva, Hvb. clear Hv1 Hv2 Hs1 Hs2 Hroots2 Hra1 Hpa1 Hinv1 Hinv.
  (* waking what sleeps *)
  apply bind_Some in H as (arb & ? & Harb & H). apply load_body_Some in Harb as [Harb ->].
  apply bind_Some in H as (brb & ? & Hbrb & H). apply load_body_Some in Hbrb as [Hbrb ->].
  apply bind_Some in H as ([] & w4 & Hwake & H).
  assert ((parents_listed s w2 rb → parents_listed s w4 rb) ∧
          build_inv s w4 rb ∧ anchor s w4 a ar ∧ anchor s w4 b br ∧
          parent_of w4 ar = Some None ∧ parent_of w4 br = Some None ∧
          next_of w4 ar = Some None ∧ next_of w4 br = Some None ∧
          (∃ nx idle sp, view_of w4 a = Some (nx, idle, sp, false)) ∧
          (∃ nx idle sp, view_of w4 b = Some (nx, idle, sp, false)))
    as (HPL4 & Hinv4 & Ha4 & Hb4 & Hpa4 & Hpb4 & Hna4 & Hnb4 & Hva4 & Hvb4).
  { destruct (cpBodyIsSleeping arb || cpBodyIsSleeping brb) eqn:Hsleep.
    - apply bind_Some in Hwake as ([] & w3 & Hwa & Hwb).
      pose proof (componentActivate_parents_listed _ s rb _ _ _ Hwa Hinv2 Hpa2) as HPL3.
      apply componentActivate_anchor with (s := s) (rb := rb) in Hwa
        as (Hinv3 & Hna3 & Hroots3 & Hanchor3 & Hother3 & _ & Hview3); [|done..].
      pose proof (Hroots3 _ Hpa2) as Hpa3. pose proof (Hroots3 _ Hpb2) as Hpb3.
      pose proof (componentActivate_parents_listed _ s rb _ _ _ Hwb Hinv3 Hpb3) as HPL4.
      apply componentActivate_anchor with (s := s) (rb := rb) in Hwb
        as (Hinv4 & Hnb4 & Hroots4 & Hanchor4 & _ & Hkeep4 & Hview4); [|done..].
      split; [auto|]. split; [done|]. split; [apply Hkeep4, Hanchor3, Hra2|]. split.
      { destruct (decide (br = ar)) as [->|Hne].
        - apply Hkeep4, Hanchor3, Hrb2.
        - apply Hanchor4, Hother3; done. }
      split; [by apply Hroots4|]. split; [by apply Hroots4|]. split.
      { destruct (Hkeep4 ar ar) as [? _]; [|done]. split; [done|]. left.
        exists []. by apply chain_root'. }
      split; [done|].
      destruct (Hview3 _ _ _ _ _ Hva) as (? & ? & Hva3), (Hview3 _ _ _ _ _ Hvb) as (? & ? & Hvb3).
      destruct (Hview4 _ _ _ _ _ Hva3) as (? & ? & Hva4), (Hview4 _ _ _ _ _ Hvb3) as (? & ? & Hvb4).
      eauto 10.
    - apply ret_Some in Hwake as [_ ->]. apply orb_false_elim in Hsleep as [Hsa Hsb].
      unfold cpBodyIsSleeping in Hsa, Hsb.
      apply bool_decide_eq_false in Hsa, Hsb.
      assert (next_of w2 ar = Some None) as Hna.
      { apply next_of_Some. exists arb. split; [done|].
        destruct (next (node arb)); [by destruct Hsa|done]. }
      assert (next_of w2 br = Some None) as Hnb.
      { apply next_of_Some. exists brb. split; [done|].
        destruct (next (node brb)); [by destruct Hsb|done]. }
      split; [done|]. split; [done|].
      split; [by eapply anchor_of_root|]. split; [by eapply anchor_of_root|].
      eauto 15. }
  clear Hva Hvb Hinv2 Hrb2 Hpb2 Hra2 Hpa2 Harb Hbrb Hwake.
  (* rogue bodies and idle times *)
  apply bind_Some in H as (ab4 & ? & Hab & H). apply load_body_Some in Hab as [Hab ->].
  apply bind_Some in H as (rb1 & w5 & Hrogue_a & H).
  apply (mergeBodies_rogue _ _ _ _ _ _ _ Hab) in Hrogue_a as (Hn5 & Hz5 & Hs5 & Hcase_a).
  apply bind_Some in H as (bb5 & ? & Hbb & H). apply load_body_Some in Hbb as [Hbb ->].
  apply bind_Some in H as (rb2 & w6 & Hrogue_b & H).
  apply (mergeBodies_rogue _ _ _ _ _ _ _ Hbb) in Hrogue_b as (Hn6 & Hz6 & Hs6 & Hcase_b).
  apply bind_Some in H as ([] & w7 & Hmerge & H). apply ret_Some in H as [-> ->].
  pose proof (same_links_trans _ _ _ Hn5 Hn6) as Hn.
  assert (keeps_zero w4 w6) as Hz by (intros z nx sp st Hv; by apply Hz6, Hz5).
  assert (active_list s w6 = active_list s w4) as Hl.
  { unfold active_list. by rewrite Hs6, Hs5. }
  assert (build_inv s w6 rb) as Hinv6.
  { apply (build_inv_links s w4); [done|done|done| |done]. by rewrite Hs6, Hs5. }
  apply view_of_Some in Hab as Hva. apply view_of_Some in Hbb as Hvb. unfold bview in Hva, Hvb.
  destruct Hva4 as (nxa & idle_a & spa & Hva4), Hvb4 as (nxb & idle_b & spb & Hvb4).
  pose proof (anchor_links _ _ _ _ _ Hn Hz Hl Ha4) as Ha6.
  pose proof (anchor_links _ _ _ _ _ Hn Hz Hl Hb4) as Hb6.
  destruct (links_view _ _ _ _ _ _ _ Hn Hva4) as (idle_a6 & Hva6).
  destruct (links_view _ _ _ _ _ _ _ Hn Hvb4) as (idle_b6 & Hvb6).
  destruct (links_view _ _ _ _ _ _ _ Hn5 Hvb4) as (idle_b5 & Hvb5).
  assert (nxa = None) as ->.
  { destruct Ha6 as [Hx _]. apply view_next_of in Hva6. congruence. }
  assert (nxb = None) as ->.
  { destruct Hb6 as [Hx _]. apply view_next_of in Hvb6. congruence. }
  assert (space ab4 = spa) as Hspa by congruence.
  assert (space bb5 = spb) as Hspb by congruence.
  assert (∀ y, y ∈ rb2 ↔
            y ∈ rb ∨ (y = a ∧ ∃ idle st, view_of w6 a = Some (None, idle, None, st))
                   ∨ (y = b ∧ ∃ idle st, view_of w6 b = Some (None, idle, None, st))) as Hrb.
  { intros y.
    assert (y ∈ rb1 ↔ y ∈ rb ∨ (y = a ∧ spa = None)) as E1.
    { destruct Hcase_a as [(? & -> & _)|[? ->]].
      - rewrite elem_of_app, list_elem_of_singleton. intuition congruence.
      - intuition congruence. }
    assert (y ∈ rb2 ↔ y ∈ rb1 ∨ (y = b ∧ spb = None)) as E2.
    { destruct Hcase_b as [(? & -> & _)|[? ->]].
      - rewrite elem_of_app, list_elem_of_singleton. intuition congruence.
      - intuition congruence. }
    rewrite E2, E1. split.
    - intros [[?|[-> ->]]|[-> ->]]; eauto 10.
    - intros [?|[[-> (? & ? & ?)]|[-> (? & ? & ?)]]]; [by left; left|left; right|right];
        split; congruence. }
  assert (a ∈ active_list s w6 ∨ a ∈ rb2) as Hla.
  { destruct spa as [sa|]; [left|right; apply Hrb; eauto 10].
    by eapply (bi_awake _ _ _ Hinv6). }
  assert (b ∈ active_list s w6 ∨ b ∈ rb2) as Hlb.
  { destruct spb as [sb|]; [left|right; apply Hrb; eauto 10].
    by eapply (bi_awake _ _ _ Hinv6). }
  exists ar, br, w6. split; [done|]. split; [done|]. split; [done|]. split; [done|].
  split; [destruct (Hn ar) as [-> _]; done|]. split; [destruct (Hn br) as [-> _]; done|].
  split; [by rewrite (same_links_next_of w4 w6)|].
  split; [by rewrite (same_links_next_of w4 w6)|].
  split; [done|]. split; [done|]. split; [done|]. split; [|split].
  - intros (idle & st & Hv). destruct Hcase_a as [(_ & _ & nx & sp & st' & Hv0)|[? _]].
    + rewrite (Hz6 _ _ _ _ Hv0). eauto.
    + congruence.
  - intros (idle & st & Hv). destruct Hcase_b as [(_ & _ & nx & sp & st' & Hv0)|[? _]].
    + eauto.
    + congruence.
  - intros HPL. apply (parents_listed_links s w4 w6 rb rb); [done|done|done|]. auto.
Qed.

(** [mergeBodies] keeps the invariant of forest building. *)
Lemma mergeBodies_build_inv N s cs rb a b w rb' w' :
  mergeBodies N s cs rb a b w = Some (rb', w') → build_inv s w rb → build_inv s w' rb'.
Proof.
  intros H Hinv.
  destruct (mergeBodies_stages _ _ _ _ _ _ _ _ _ H Hinv)
    as [[-> ->]|(ar & br & w6 & Hinv6 & Hmerge & Ha & Hb & Hpa & Hpb & Hna & Hnb & Hla & Hlb &
                 Hrb & Hza & Hzb & _)]; [done|].
  by apply (build_inv_merge s w6 w' rb rb' a b ar br).
Qed.

(** [mergeBodies] keeps the awake bodies that have a parent listed. *)
Lemma mergeBodies_parents_listed N s cs rb a b w rb' w' :
  mergeBodies N s cs rb a b w = Some (rb', w') → build_inv s w rb →
  parents_listed s w rb → parents_listed s w' rb'.
Proof.
  intros H Hinv HPL.
  destruct (mergeBodies_stages _ _ _ _ _ _ _ _ _ H Hinv)
    as [[-> ->]|(ar & br & w6 & Hinv6 & Hmerge & Ha & Hb & Hpa & Hpb & Hna & Hnb & Hla & Hlb &
                 Hrb & _ & _ & HPL6)]; [done|].
  assert (∀ y, y ∈ rb → y ∈ rb') as Hsub by (intros y Hy; apply Hrb; by left).
  apply (parents_listed_merge s w6 w' rb' ar br); [done| | |].
  - by apply (anchor_root_listed s w6 rb rb' a ar).
  - by apply (anchor_root_listed s w6 rb rb' b br).
  - apply (parents_listed_links s w6 w6 rb rb'); [done|done|done|auto].
Qed.


(** ** The phases of forest building *)

Lemma for_array_inv {A} (I : A → world → Prop) (step : A → ptr → M A) arr acc w acc' w' :
  (∀ acc x w acc' w', x ∈ arr → step acc x w = Some (acc', w') → I acc w → I acc' w') →
  for_array step arr acc w = Some (acc', w') → I acc w → I acc' w'.
Proof.
  revert acc w. induction arr as [|x arr IH]; intros acc w Hstep H HI; cbn [for_array] in H.
  - by apply ret_Some in H as [-> ->].
  - apply bind_Some in H as (acc1 & w1 & H1 & H).
    apply (IH acc1 w1); [|done|].
    + intros ? y ? ? ? Hy. apply Hstep. by right.
    + eapply Hstep; [by left|done|done].
Qed.

(** Writing to a body without touching its links. *)
Lemma modify_body_links x f w w' :
  (∀ b, links (bview (f b)) = links (bview b) ∧ parent (node (f b)) = parent (node b)) →
  modify_body x f w = Some (tt, w') →
  same_links w w' ∧ w_spaces w' = w_spaces w.
Proof.
  intros Hf H. apply modify_body_Some in H as (b & Hb & ->). split; [|done].
  intros y. unfold parent_of, view_of. simpl. destruct (decide (y = x)) as [->|Hy].
  - rewrite lookup_insert_eq, Hb. simpl. destruct (Hf b) as [-> ->]. done.
  - by rewrite lookup_insert_ne.
Qed.

(** Pushing an arbiter writes to the arbiter and to [body->arbiterList]. *)
Lemma cpBodyPushArbiter_frame body arb w w' :
  cpBodyPushArbiter body arb w = Some (tt, w') →
  same_nodes w w' ∧ w_spaces w' = w_spaces w.
Proof.
  intros H. unfold cpBodyPushArbiter in H.
  apply bind_Some in H as (b & ? & Hb & H). apply load_body_Some in Hb as [Hb ->].
  destruct (negb (cpBodyIsStatic b) && negb (cpBodyIsRogue b)).
  - apply bind_Some in H as ([] & w1 & H1 & H).
    apply modify_arbiter_Some in H1 as (ar & Har & ->).
    apply modify_body_Some in H as (b' & Hb' & ->). simpl in *.
    split; [|done]. intros y. unfold view_of, parent_of. simpl.
    destruct (decide (y = body)) as [->|Hy].
    + rewrite lookup_insert_eq, Hb'. done.
    + by rewrite lookup_insert_ne.
  - by apply ret_Some in H as [_ ->].
Qed.

Lemma build_inv_push s rb body arb w w' :
  cpBodyPushArbiter body arb w = Some (tt, w') → build_inv s w rb → build_inv s w' rb.
Proof.
  intros H. apply cpBodyPushArbiter_frame in H as [Hn Hs].
  apply build_inv_frame; [done|unfold active_list|]; by rewrite Hs.
Qed.

Lemma cpSpaceProcessComponents_arbiter_build_inv N s cs rb arb w rb' w' :
  cpSpaceProcessComponents_arbiter N s cs rb arb w = Some (rb', w') →
  build_inv s w rb → build_inv s w' rb'.
Proof.
  intros H Hinv. unfold cpSpaceProcessComponents_arbiter in H.
  apply bind_Some in H as (ar & ? & Har & H). apply load_arbiter_Some in Har as [Har ->].
  apply bind_Some in H as (a & ? & Ha & H). apply load_shape_Some in Ha as [Ha ->].
  apply bind_Some in H as (b & ? & Hb & H). apply load_shape_Some in Hb as [Hb ->].
  apply bind_Some in H as (rb1 & w1 & Hmerge & H).
  apply bind_Some in H as ([] & w2 & Hpa & H).
  apply bind_Some in H as ([] & w3 & Hpb & H). apply ret_Some in H as [-> ->].
  eapply build_inv_push; [done|]. eapply build_inv_push; [done|].
  by eapply mergeBodies_build_inv.
Qed.

Lemma cpSpaceProcessComponents_constraints_build_inv N fuel s cs rb j w rb' w' :
  cpSpaceProcessComponents_constraints N fuel s cs rb j w = Some (rb', w') →
  build_inv s w rb → build_inv s w' rb'.
Proof.
  revert rb j w. induction fuel as [|fuel IH]; intros rb j w H Hinv;
    cbn [cpSpaceProcessComponents_constraints] in H; [done|].
  apply bind_Some in H as (sp & ? & Hsp & H). apply load_space_Some in Hsp as [Hsp ->].
  destruct (constraints sp !! j) as [c|]; [|by apply ret_Some in H as [-> ->]].
  apply bind_Some in H as (con & ? & Hc & H). apply load_constraint_Some in Hc as [Hc ->].
  apply bind_Some in H as (rb1 & w1 & Hmerge & H).
  eapply IH; [done|]. by eapply mergeBodies_build_inv.
Qed.

(** The idle phase writes idle times and arbiter lists only. *)
Lemma cpSpaceProcessComponents_idle_links dvsq dt body w w' :
  cpSpaceProcessComponents_idle dvsq dt tt body w = Some (tt, w') →
  same_links w w' ∧ w_spaces w' = w_spaces w.
Proof.
  intros H. unfold cpSpaceProcessComponents_idle in H.
  apply bind_Some in H as (b & ? & Hb & H). apply load_body_Some in Hb as [Hb ->].
  apply bind_Some in H as ([] & w1 & H1 & H).
  apply modify_body_links in H1 as [Hn1 Hs1]; [|done].
  apply modify_body_links in H as [Hn2 Hs2]; [|done].
  split; [by eapply same_links_trans|congruence].
Qed.

Lemma same_links_refl w : same_links w w.
Proof. done. Qed.

(** The phases before ring assembly establish and keep the invariant of
    forest building. *)
Lemma cpSpaceProcessComponents_build_forest N s dt w cs w' :
  cpSpaceProcessComponents_build N s dt w = Some (cs, w') →
  build_inv s w [] →
  ∃ rb w3 cs1 w4,
    build_inv s w3 rb ∧
    for_array (λ cs body, addToComponent N body cs) (active_list s w3) [] w3 = Some (cs1, w4) ∧
    for_array (λ cs body, addToComponent N body cs) rb cs1 w4 = Some (cs, w').
Proof.
  intros H Hinv. unfold cpSpaceProcessComponents_build in H.
  apply bind_Some in H as (sp & ? & Hsp & H). apply load_space_Some in Hsp as [Hsp ->].
  cbv zeta in H.
  apply bind_Some in H as ([] & w1 & Hidle & H).
  apply bind_Some in H as (rb1 & w2 & Harb & H).
  apply bind_Some in H as (rb & w3 & Hcon & H).
  apply bind_Some in H as (sp3 & ? & Hsp3 & H). apply load_space_Some in Hsp3 as [Hsp3 ->].
  apply bind_Some in H as (cs1 & w4 & Hadd1 & Hadd2).
  exists rb, w3, cs1, w4. split; [|split; [|done]].
  - assert (same_links w w1 ∧ w_spaces w1 = w_spaces w) as [Hn Hs].
    { refine (for_array_inv (λ _ w1, same_links w w1 ∧ w_spaces w1 = w_spaces w)
                _ _ _ _ _ _ _ Hidle (conj (same_links_refl w) eq_refl)).
      intros [] x wa [] wb _ Hstep [Hn Hs].
      apply cpSpaceProcessComponents_idle_links in Hstep as [Hn' Hs'].
      split; [by eapply same_links_trans|congruence]. }
    assert (build_inv s w1 []) as Hinv1.
    { apply (build_inv_links s w);
        [done|done|unfold active_list; by rewrite Hs|by rewrite Hs|done]. }
    assert (build_inv s w2 rb1) as Hinv2.
    { refine (for_array_inv (λ rb w, build_inv s w rb) _ _ _ _ _ _ _ Harb Hinv1).
      intros ? ? ? ? ? _. apply cpSpaceProcessComponents_arbiter_build_inv. }
    by eapply cpSpaceProcessComponents_constraints_build_inv.
  - unfold active_list. by rewrite Hsp3.
Qed.

(** ** Ring assembly *)

Lemma sring_det w r l l' : sring w r l → sring w r l' → l = l'.
Proof. intros [H _] [H' _]. by eapply ring_from_det. Qed.

Lemma sring_root_in w r l : sring w r l → r ∈ l.
Proof. intros [H _]. by eapply ring_root_in. Qed.

Lemma sring_next w r l y : sring w r l → y ∈ l → ∃ n, next_of w y = Some (Some n).
Proof. intros [H _]. by eapply ring_from_next. Qed.

(** A body without parent that is on a ring with its tree is its root. *)
Lemma sring_parentless w r l y : sring w r l → y ∈ l → parent_of w y = Some None → y = r.
Proof.
  intros (_ & _ & Hpar) Hy Hp. destruct (decide (y = r)) as [|Hne]; [done|].
  rewrite (Hpar y Hy Hne) in Hp. done.
Qed.

(** Path compression keeps every ring with its tree. *)
Lemma compress_sring w x l r r0 l0 :
  chain w x l r → sring w r0 l0 → sring (with_bodies (compress r l (w_bodies w)) w) r0 l0.
Proof.
  intros Hc Hring. eapply sring_frame; [|done].
  intros z Hz. split; [by rewrite !next_of_view_of, compress_view|].
  rewrite compress_parent_of. case_decide as Hzl; [|done].
  destruct (chain_member_chain _ _ _ _ _ Hc Hzl) as (lz & Hcz).
  assert (r = r0) as <-.
  { eapply root_of_det; [by eexists|]. by eapply sring_root_of. }
  destruct Hring as (_ & Hr0 & Hpar).
  rewrite Hpar; [done|done|]. intros ->.
  by apply (chain_member_has_parent _ _ _ _ _ Hc Hzl).
Qed.

(** The chain of a body that was awake when assembly started passes through
    such bodies only, and all of them but the first are listed. *)
Lemma asm_chain L w0 w cs seen x l r :
  asm_inv L w0 w cs seen → next_of w0 x = Some None → chain w x l r →
  ∀ y, y ∈ l ∨ y = r → next_of w0 y = Some None ∧ (y = x ∨ L y).
Proof.
  intros Hinv Hx Hc. induction Hc as [x b Hb Hp|x b p l r Hb Hp Hc IH].
  - intros y [Hy| ->]; [by apply elem_of_nil in Hy|]. split; [done|by left].
  - destruct (ai_parent _ _ _ _ _ Hinv x p Hx) as [Hpn Hpl]; [apply parent_of_Some; eauto|].
    specialize (IH Hpn).
    intros y [Hy| ->].
    + apply elem_of_cons in Hy as [->|Hy]; [split; [done|by left]|].
      destruct (IH y (or_introl Hy)) as [? [->|?]]; split; try done; by right.
    + destruct (IH r (or_intror eq_refl)) as [? [->|?]]; split; try done; by right.
Qed.

Lemma componentNodeRoot_asm_inv N L w0 cs seen x w r w1 :
  componentNodeRoot N x w = Some (r, w1) → asm_inv L w0 w cs seen →
  next_of w0 x = Some None → L x →
  asm_inv L w0 w1 cs seen ∧ parent_of w1 r = Some None ∧
  (x ≠ r → parent_of w1 x = Some (Some r)) ∧
  (∀ y, next_of w1 y = next_of w y) ∧ next_of w0 r = Some None ∧ L r.
Proof.
  intros H Hinv Hx HLx. apply componentNodeRoot_inv in H as (l & Hc & _ & ->).
  assert (∀ y, next_of (with_bodies (compress r l (w_bodies w)) w) y = next_of w y) as Hnext.
  { intros y. by rewrite !next_of_view_of, compress_view. }
  destruct (asm_chain _ _ _ _ _ _ _ _ Hinv Hx Hc r (or_intror eq_refl)) as [Hr0 HrL].
  assert (L r) as HLr by (by destruct HrL as [->|?]).
  split; [|split; [|split; [|done]]].
  - destruct Hinv as [H1 H2 H3 H4 H5 H6 H7 H8]. split.
    + intros y. rewrite compress_view. apply H1.
    + intros y ry Hy. apply (compress_root_of _ x); [done|by apply H2].
    + intros y. rewrite Hnext. apply H3.
    + intros y p Hy. rewrite compress_parent_of. case_decide; [|by apply H4].
      destruct (parent_of w y); simpl; [|done]. by intros [= <-].
    + intros y n Hy. rewrite Hnext. intros Hn.
      destruct (H5 y n Hy Hn) as (r0 & l0 & ? & ? & ?). exists r0, l0.
      split; [done|]. split; [by apply (compress_sring _ x)|done].
    + intros r0 Hr. destruct (H6 r0 Hr) as (l0 & ? & ?). exists l0.
      split; [by apply (compress_sring _ x)|done].
    + done.
    + intros y Hy Hy0. rewrite Hnext. by apply H8.
  - rewrite compress_parent_of, decide_False by (by eapply chain_root_not_in).
    by eapply chain_root_parent_of.
  - intros Hne. rewrite compress_parent_of.
    inversion Hc as [? b Hb Hp|? b p l' ? Hb Hp Hc']; simplify_eq.
    rewrite decide_True by (by left).
    assert (parent_of w x = Some (Some p)) as -> by (apply parent_of_Some; eauto). done.
Qed.

(** The two writes of [addToComponent]. *)
Lemma set_next_twice x r n w w2 w3 :
  modify_node x (set_next (Some n)) w = Some (tt, w2) →
  modify_node r (set_next (Some x)) w2 = Some (tt, w3) →
  (∀ y, parent_of w3 y = parent_of w y) ∧
  (∀ y, rest <$> view_of w3 y = rest <$> view_of w y) ∧
  next_of w3 r = Some (Some x) ∧ (x ≠ r → next_of w3 x = Some (Some n)) ∧
  (∀ y, y ≠ x → y ≠ r → next_of w3 y = next_of w y).
Proof.
  intros H1 H2. apply modify_node_Some in H1 as (b1 & Hb1 & ->).
  apply modify_node_Some in H2 as (b2 & Hb2 & ->). simpl in *.
  assert (∀ y, ∃ f, (∀ n, parent (f n) = parent n ∧ idleTime (f n) = idleTime n) ∧
            w_bodies (with_bodies (<[r:=set_node (set_next (Some x) (node b2)) b2]>
              (<[x:=set_node (set_next (Some n) (node b1)) b1]> (w_bodies w)))
              (with_bodies (<[x:=set_node (set_next (Some n) (node b1)) b1]> (w_bodies w)) w))
              !! y = (λ b, set_node (f (node b)) b) <$> w_bodies w !! y) as Hshape.
  { intros y. simpl. destruct (decide (y = r)) as [->|Hyr].
    - rewrite lookup_insert_eq. destruct (decide (r = x)) as [->|Hrx].
      + rewrite lookup_insert_eq in Hb2. injection Hb2 as <-. rewrite Hb1. simpl.
        exists (λ n, set_next (Some x) n). done.
      + rewrite lookup_insert_ne in Hb2 by done. rewrite Hb2. simpl.
        exists (λ n, set_next (Some x) n). done.
    - rewrite lookup_insert_ne by done. destruct (decide (y = x)) as [->|Hyx].
      + rewrite lookup_insert_eq, Hb1. simpl. exists (set_next (Some n)). done.
      + rewrite lookup_insert_ne by done. exists id. split; [done|].
        destruct (w_bodies w !! y) as [[]|]; done. }
  split; [|split; [|split; [|split]]].
  - intros y. destruct (Hshape y) as (f & Hf & Hy). unfold parent_of. rewrite Hy.
    destruct (w_bodies w !! y) as [b|]; simpl; [|done]. by destruct (Hf (node b)) as [-> _].
  - intros y. destruct (Hshape y) as (f & Hf & Hy). unfold view_of. rewrite Hy.
    destruct (w_bodies w !! y) as [b|]; simpl; [|done]. unfold rest. simpl.
    by destruct (Hf (node b)) as [_ ->].
  - unfold next_of. simpl. by rewrite lookup_insert_eq.
  - intros Hne. unfold next_of. simpl. rewrite lookup_insert_ne by done.
    by rewrite lookup_insert_eq.
  - intros y Hyx Hyr. unfold next_of. simpl. by rewrite !lookup_insert_ne by done.
Qed.

(** Splicing [x] into the ring of [r], right after [r]. *)
Lemma ring_splice w w' r x n t :
  ring w r (r :: t) → next_of w r = Some (Some n) → x ∉ r :: t →
  next_of w' r = Some (Some x) → next_of w' x = Some (Some n) →
  (∀ y, y ≠ x → y ≠ r → next_of w' y = next_of w y) →
  ring w' r (r :: x :: t).
Proof.
  intros Hring Hn Hx Hr' Hx' Hframe.
  assert (x ≠ r) as Hxr by (intros ->; apply Hx; by left).
  pose proof (ring_from_NoDup _ _ _ _ Hring) as Hnd. apply NoDup_cons in Hnd as [Hrt _].
  apply (ring_more' _ _ _ x); [done|done|].
  inversion Hring as [? b Hb Hnb|? b y ? Hb Hnb Hy Ht]; simplify_eq.
  - assert (n = r) as ->.
    { apply next_of_Some in Hn as (b' & Hb' & Hn'). congruence. }
    by apply ring_last'.
  - assert (n = y) as ->.
    { apply next_of_Some in Hn as (b' & Hb' & Hn'). congruence. }
    apply (ring_more' _ _ _ y); [done|done|].
    eapply ring_from_frame; [|done]. intros z Hz. apply Hframe.
    + intros ->. apply Hx. by right.
    + by intros ->.
Qed.

(** Linking [x] into the ring of its root [r]: [n] is what [x] now points
    to, the root itself when the ring is new. *)
Lemma asm_inv_link L w0 w1 w3 cs cs' seen x r n :
  asm_inv L w0 w1 cs seen →
  next_of w0 x = Some None → L x → next_of w0 r = Some None → L r →
  next_of w1 x = Some None →
  parent_of w1 r = Some None → (x ≠ r → parent_of w1 x = Some (Some r)) →
  (∀ y, parent_of w3 y = parent_of w1 y) →
  (∀ y, rest <$> view_of w3 y = rest <$> view_of w1 y) →
  next_of w3 r = Some (Some x) → (x ≠ r → next_of w3 x = Some (Some n)) →
  (∀ y, y ≠ x → y ≠ r → next_of w3 y = next_of w1 y) →
  (next_of w1 r = Some None ∧ n = r ∧ cs' = cs ++ [r]) ∨
  (next_of w1 r = Some (Some n) ∧ cs' = cs) →
  asm_inv L w0 w3 cs' (seen ++ [x]).
Proof.
  intros Hinv Hx0 HLx Hr0 HLr Hx1 Hpr Hpx Hpar Hrest Hr3 Hx3 Hframe Hcase.
  (* the other rings stay *)
  assert (∀ r0 l0, sring w1 r0 l0 → r0 ≠ r → sring w3 r0 l0) as Hother.
  { intros r0 l0 Hring Hne. eapply sring_frame; [|done].
    intros y Hy. split; [|done]. apply Hframe.
    - intros ->. destruct (sring_next _ _ _ _ Hring Hy) as (? & ?). congruence.
    - intros ->. apply Hne. symmetry. by eapply sring_parentless. }
  (* the ring of [r] *)
  assert (r ∈ cs' ∧ ∃ lnew, sring w3 r lnew ∧ x ∈ lnew ∧ r ∈ lnew ∧
            (∀ y, y ∈ lnew → next_of w0 y = Some None ∧ L y) ∧
            (∀ lold y, sring w1 r lold → y ∈ lold → y ∈ lnew)) as (Hrcs & lnew & Hnew & Hxnew & Hrnew & Hmem & Hold).
  { destruct Hcase as [(Hr1 & -> & ->)|[Hr1 ->]].
    - split; [apply elem_of_app; right; by left|].
      assert (∀ lold y, sring w1 r lold → y ∈ lold → False) as Hnone.
      { intros lold y Hring _. destruct (sring_next _ _ _ _ Hring (sring_root_in _ _ _ Hring))
          as (? & ?). congruence. }
      destruct (decide (x = r)) as [->|Hne].
      + exists [r]. split; [|split; [by left|split; [by left|split]]].
        * split; [by apply ring_last'|]. split; [by rewrite Hpar|].
          intros y Hy. by apply list_elem_of_singleton in Hy.
        * intros y Hy. by apply list_elem_of_singleton in Hy as ->.
        * intros lold y Hring Hy. destruct (Hnone lold y Hring Hy).
      + exists [r; x]. split; [|split; [by right; left|split; [by left|split]]].
        * split; [|split; [by rewrite Hpar|]].
          { apply (ring_more' _ _ _ x); [done|done|]. apply ring_last'. by apply Hx3. }
          intros y Hy Hyr. apply elem_of_cons in Hy as [->|Hy]; [done|].
          apply list_elem_of_singleton in Hy as ->. rewrite Hpar. by apply Hpx.
        * intros y Hy. apply elem_of_cons in Hy as [->|Hy]; [done|].
          by apply list_elem_of_singleton in Hy as ->.
        * intros lold y Hring Hy. destruct (Hnone lold y Hring Hy).
    - assert (x ≠ r) as Hne by (intros ->; congruence).
      destruct (ai_ringed _ _ _ _ _ Hinv r n Hr0 Hr1) as (r' & l' & Hr' & Hring & Hrl).
      assert (r = r') as <- by (by eapply sring_parentless).
      split; [done|].
      destruct (ring_from_head _ _ _ _ (proj1 Hring)) as [t ->].
      assert (x ∉ r :: t) as Hxt.
      { intros Hin. destruct (sring_next _ _ _ _ Hring Hin) as (? & ?). congruence. }
      exists (r :: x :: t). split; [|split; [by right; left|split; [by left|split]]].
      + split; [|split; [by rewrite Hpar|]].
        { eapply ring_splice; [exact (proj1 Hring)|done|done|done|by apply Hx3|done]. }
        intros y Hy Hyr. rewrite Hpar.
        apply elem_of_cons in Hy as [->|Hy]; [done|].
        apply elem_of_cons in Hy as [->|Hy]; [by apply Hpx|].
        destruct Hring as (_ & _ & Hp). apply Hp; [by right|done].
      + destruct (ai_rings _ _ _ _ _ Hinv r Hr') as (l'' & Hring'' & Hmem).
        rewrite <- (sring_det _ _ _ _ Hring Hring'') in Hmem.
        intros y Hy. apply elem_of_cons in Hy as [->|Hy]; [done|].
        apply elem_of_cons in Hy as [->|Hy]; [done|]. apply Hmem. by right.
      + intros lold y Hring' Hy. rewrite <- (sring_det _ _ _ _ Hring Hring') in Hy.
        apply elem_of_cons in Hy as [->|Hy]; [by left|]. right. by right. }
  assert (∀ r0, r0 ∈ cs' → r0 ≠ r → r0 ∈ cs) as Hcs.
  { intros r0 Hr0' Hne. destruct Hcase as [(_ & _ & ->)|[_ ->]]; [|done].
    apply elem_of_app in Hr0' as [?|Hr0']; [done|].
    by apply list_elem_of_singleton in Hr0'. }
  assert (∀ r0, r0 ∈ cs → r0 ∈ cs') as Hcs'.
  { intros r0 Hr0'. destruct Hcase as [(_ & _ & ->)|[_ ->]]; [|done].
    apply elem_of_app. by left. }
  assert (∀ y m, next_of w3 y = Some m → y ≠ x → y ≠ r → next_of w1 y = Some m) as Hback.
  { intros y m Hy ? ?. by rewrite <- Hframe. }
  destruct Hinv as [H1 H2 H3 H4 H5 H6 H7 H8]. split.
  - intros y. by rewrite Hrest.
  - intros y ry Hy. destruct (H2 y ry Hy) as [l Hc]. exists l.
    eapply chain_frame; [|done]. intros z _. apply Hpar.
  - intros y Hy. destruct (decide (y = r)) as [->|Hyr]; [congruence|].
    destruct (decide (y = x)) as [->|Hyx]; [done|]. apply H3. by apply Hback.
  - intros y p Hy. rewrite Hpar. by apply H4.
  - intros y m Hy Hy3.
    destruct (decide (y = r)) as [->|Hyr]; [by exists r, lnew|].
    destruct (decide (y = x)) as [->|Hyx]; [by exists r, lnew|].
    destruct (H5 y m Hy (Hback _ _ Hy3 Hyx Hyr)) as (r0 & l0 & Hr0cs & Hring & Hyl).
    destruct (decide (r0 = r)) as [->|Hne].
    + exists r, lnew. split; [done|]. split; [done|]. by eapply Hold.
    + exists r0, l0. split; [by apply Hcs'|]. split; [by apply Hother|done].
  - intros r0 Hr0cs. destruct (decide (r0 = r)) as [->|Hne]; [by exists lnew|].
    destruct (H6 r0 (Hcs _ Hr0cs Hne)) as (l0 & Hring & Hmem0). exists l0.
    split; [by apply Hother|done].
  - destruct Hcase as [(Hr1 & _ & ->)|[_ ->]]; [|done].
    apply NoDup_app. split; [done|]. split; [|apply NoDup_singleton].
    intros y Hy Hyr. apply list_elem_of_singleton in Hyr as ->.
    destruct (H6 r Hy) as (l0 & Hring & _).
    destruct (sring_next _ _ _ _ Hring (sring_root_in _ _ _ Hring)) as (? & ?). congruence.
  - intros y Hy Hy0. apply elem_of_app in Hy as [Hy|Hy].
    + destruct (H8 y Hy Hy0) as (m & Hm).
      destruct (decide (y = r)) as [->|Hyr]; [eauto|].
      destruct (decide (y = x)) as [->|Hyx]; [eauto|].
      exists m. by rewrite Hframe.
    + apply list_elem_of_singleton in Hy as ->.
      destruct (decide (x = r)) as [->|Hne]; eauto.
Qed.

(** One call of [addToComponent] during ring assembly. *)
Lemma addToComponent_asm_inv N L w0 cs seen x w cs' w' :
  addToComponent N x cs w = Some (cs', w') → asm_inv L w0 w cs seen → L x →
  asm_inv L w0 w' cs' (seen ++ [x]).
Proof.
  intros H Hinv HLx. unfold addToComponent in H.
  apply bind_Some in H as (b & ? & Hb & H). apply load_body_Some in Hb as [Hb ->].
  case_bool_decide as Hsleep.
  { apply ret_Some in H as [-> ->]. destruct Hinv as [H1 H2 H3 H4 H5 H6 H7 H8].
    split; try done. intros y Hy Hy0. apply elem_of_app in Hy as [Hy|Hy]; [by apply H8|].
    apply list_elem_of_singleton in Hy as ->.
    destruct (next (node b)) as [n|] eqn:Hn; [|done]. exists n. apply next_of_Some. eauto. }
  assert (next_of w x = Some None) as Hx.
  { apply next_of_Some. exists b. split; [done|]. destruct (next (node b)); [|done].
    by destruct Hsleep. }
  pose proof (ai_awake _ _ _ _ _ Hinv x Hx) as Hx0.
  apply bind_Some in H as (r & w1 & Hfind & H).
  apply (componentNodeRoot_asm_inv _ L w0 cs seen) in Hfind
    as (Hinv1 & Hpr & Hpx & Hnext & Hr0 & HLr); [|done..].
  apply bind_Some in H as (rb & ? & Hrb & H). apply load_body_Some in Hrb as [Hrb ->].
  rewrite <- Hnext in Hx.
  destruct (next (node rb)) as [n|] eqn:Hn.
  - assert (next_of w1 r = Some (Some n)) as Hr1 by (apply next_of_Some; eauto).
    case_decide as Hne.
    + apply bind_Some in H as ([] & w2 & Hw2 & H).
      apply bind_Some in H as ([] & w3 & Hw3 & H). apply ret_Some in H as [-> ->].
      destruct (set_next_twice _ _ _ _ _ _ Hw2 Hw3) as (Hpar & Hrest & Hr3 & Hx3 & Hframe).
      eapply (asm_inv_link L w0 w1 _ cs _ seen x r n); try done. by right.
    + assert (r = x) as -> by (by destruct (decide (r = x)); [|destruct Hne]).
      congruence.
  - assert (next_of w1 r = Some None) as Hr1 by (apply next_of_Some; eauto).
    apply bind_Some in H as ([] & w2 & Hw2 & H).
    apply bind_Some in H as ([] & w3 & Hw3 & H). apply ret_Some in H as [-> ->].
    destruct (set_next_twice _ _ _ _ _ _ Hw2 Hw3) as (Hpar & Hrest & Hr3 & Hx3 & Hframe).
    eapply (asm_inv_link L w0 w1 _ cs _ seen x r r); try done. by left.
Qed.

(** ** The sleep threshold is not written to *)

Section threshold_frame.
Context (space0 : ptr) (thr : cpFloat).
Let I (w : world) : Prop := sleepTimeThreshold <$> w_spaces w !! space0 = Some thr.

Lemma preserves_threshold_spaces {A} (c : M A) :
  (∀ w x w', c w = Some (x, w') → w_spaces w' = w_spaces w) → preserves I c.
Proof. intros Hc w x w' H HI. unfold I. by rewrite (Hc _ _ _ H). Qed.

Lemma preserves_threshold_modify_node b f : preserves I (modify_node b f).
Proof. apply preserves_threshold_spaces. intros w [] w'. apply modify_body_spaces. Qed.

Lemma preserves_threshold_componentNodeRoot N x : preserves I (componentNodeRoot N x).
Proof.
  apply preserves_threshold_spaces. intros w r w' H.
  by apply componentNodeRoot_inv in H as (l & _ & _ & ->).
Qed.

Lemma preserves_threshold_cpSpaceActivateBody N space body :
  preserves I (cpSpaceActivateBody N space body).
Proof.
  apply preserves_bind; [apply reads_preserves, reads_load_space|intros sp].
  destruct (locked sp); [by apply preserves_modify_space_field|].
  apply preserves_bind; [by apply preserves_modify_space_field|intros _].
  by apply preserves_cpSpaceActivateBody_loops.
Qed.

Lemma preserves_threshold_componentActivate N root : preserves I (componentActivate N root).
Proof.
  apply preserves_bind; [apply reads_preserves, reads_load_body|intros r].
  destruct (negb (cpBodyIsSleeping r)); [apply preserves_ret|].
  destruct (space r) as [s|]; [|apply preserves_fail].
  apply preserves_bind; [|intros _; by apply preserves_modify_space_field].
  apply preserves_ring_loop. intros [] body.
  apply preserves_bind; [apply preserves_threshold_modify_node|intros _].
  apply preserves_threshold_cpSpaceActivateBody.
Qed.

Lemma preserves_threshold_mergeBodies N space cs rb a b :
  preserves I (mergeBodies N space cs rb a b).
Proof.
  apply preserves_bind; [apply reads_preserves, reads_load_body|intros ab].
  apply preserves_bind.
  { destruct (cpBodyIsStatic ab); [apply preserves_ret|].
    apply preserves_bind; [apply reads_preserves, reads_load_body|intros bb].
    apply preserves_ret. }
  intros [|]; [apply preserves_ret|].
  apply preserves_bind; [apply preserves_threshold_componentNodeRoot|intros ar].
  apply preserves_bind; [apply preserves_threshold_componentNodeRoot|intros br].
  apply preserves_bind; [apply reads_preserves, reads_load_body|intros arb].
  apply preserves_bind; [apply reads_preserves, reads_load_body|intros brb]. cbv zeta.
  apply preserves_bind.
  { destruct (_ || _); [|apply preserves_ret].
    apply preserves_bind; [|intros _]; apply preserves_threshold_componentActivate. }
  intros _. apply preserves_bind; [apply reads_preserves, reads_load_body|intros ab'].
  apply preserves_bind.
  { destruct (cpBodyIsRogue ab'); [|apply preserves_ret].
    apply preserves_bind; [apply preserves_threshold_modify_node|intros _].
    apply preserves_ret. }
  intros rb1. apply preserves_bind; [apply reads_preserves, reads_load_body|intros bb'].
  apply preserves_bind.
  { destruct (cpBodyIsRogue bb'); [|apply preserves_ret].
    apply preserves_bind; [apply preserves_threshold_modify_node|intros _].
    apply preserves_ret. }
  intros rb2. apply preserves_bind; [|intros _; apply preserves_ret].
  apply preserves_threshold_spaces. intros w [] w' H.
  by apply componentNodeMerge_inv in H as (? & _).
Qed.

Lemma preserves_threshold_constraints N fuel space cs rb j :
  preserves I (cpSpaceProcessComponents_constraints N fuel space cs rb j).
Proof.
  revert rb j. induction fuel as [|fuel IH]; intros rb j;
    cbn [cpSpaceProcessComponents_constraints]; [apply preserves_fail|].
  apply preserves_bind; [apply reads_preserves, reads_load_space|intros sp].
  destruct (constraints sp !! j) as [c|]; [|apply preserves_ret].
  apply preserves_bind; [apply reads_preserves, reads_load_constraint|intros con].
  apply preserves_bind; [apply preserves_threshold_mergeBodies|intros rb1]. apply IH.
Qed.

Lemma preserves_threshold_addToComponent N body cs : preserves I (addToComponent N body cs).
Proof.
  apply preserves_bind; [apply reads_preserves, reads_load_body|intros b].
  destruct (bool_decide _); [apply preserves_ret|].
  apply preserves_bind; [apply preserves_threshold_componentNodeRoot|intros root].
  apply preserves_bind; [apply reads_preserves, reads_load_body|intros r].
  destruct (next (node r)) as [n|].
  - case_decide; [|apply preserves_ret].
    apply preserves_bind; [apply preserves_threshold_modify_node|intros _].
    apply preserves_bind; [apply preserves_threshold_modify_node|intros _].
    apply preserves_ret.
  - apply preserves_bind; [apply preserves_threshold_modify_node|intros _].
    apply preserves_bind; [apply preserves_threshold_modify_node|intros _].
    apply preserves_ret.
Qed.

Lemma preserves_threshold_build N space dt :
  preserves I (cpSpaceProcessComponents_build N space dt).
Proof.
  apply preserves_bind; [apply reads_preserves, reads_load_space|intros sp]. cbv zeta.
  apply preserves_bind.
  { apply preserves_for_array. intros [] body. apply preserves_threshold_spaces.
    intros w [] w' H. by apply cpSpaceProcessComponents_idle_links in H as [_ ?]. }
  intros _. apply preserves_bind.
  { apply preserves_for_array. intros rb arb.
    apply preserves_bind; [apply reads_preserves, reads_load_arbiter|intros ar].
    apply preserves_bind; [apply reads_preserves, reads_load_shape|intros a].
    apply preserves_bind; [apply reads_preserves, reads_load_shape|intros b].
    apply preserves_bind; [apply preserves_threshold_mergeBodies|intros rb1].
    apply preserves_bind.
    { apply preserves_threshold_spaces. intros w [] w' H.
      by apply cpBodyPushArbiter_frame in H as [_ ?]. }
    intros _. apply preserves_bind; [|intros _; apply preserves_ret].
    apply preserves_threshold_spaces. intros w [] w' H.
    by apply cpBodyPushArbiter_frame in H as [_ ?]. }
  intros rb. apply preserves_bind; [apply preserves_threshold_constraints|intros rb1].
  apply preserves_bind; [apply reads_preserves, reads_load_space|intros sp'].
  apply preserves_bind; [|intros cs1]; apply preserves_for_array; intros;
    apply preserves_threshold_addToComponent.
Qed.

Lemma preserves_threshold_component N space nb root :
  preserves I (cpSpaceProcessComponents_component N space nb root).
Proof.
  apply preserves_bind; [apply reads_preserves, reads_load_space|intros sp].
  apply preserves_bind; [apply reads_preserves, reads_componentActive|intros [|]].
  - apply preserves_ring_loop. intros acc body.
    apply preserves_bind; [apply reads_preserves, reads_load_body|intros b]. cbv zeta.
    apply preserves_bind; [apply preserves_threshold_modify_node|intros _].
    apply preserves_ret.
  - apply preserves_bind.
    { apply preserves_ring_loop. intros [] body.
      by apply preserves_cpSpaceDeactivateBody_field. }
    intros _. apply preserves_bind; [by apply preserves_modify_space_field|intros _].
    apply preserves_ret.
Qed.
End threshold_frame.

(** ** The rings that ring assembly leaves *)

Lemma rest_view w w0 y nx idle sp st :
  rest <$> view_of w y = rest <$> view_of w0 y →
  view_of w y = Some (nx, idle, sp, st) → ∃ nx0, view_of w0 y = Some (nx0, idle, sp, st).
Proof.
  intros H Hv. rewrite Hv in H. destruct (view_of w0 y) as [[[[nx0 idle0] sp0] st0]|]; [|done].
  unfold rest in H. simpl in H. injection H as -> -> ->. eauto.
Qed.

Lemma asm_inv_start s w0 rb :
  build_inv s w0 rb → asm_inv (λ y, y ∈ active_list s w0 ∨ y ∈ rb) w0 w0 [] [].
Proof.
  intros Hinv. split; try done.
  - intros y p Hy Hp. destruct (next_of_view _ _ _ Hy) as (idle & sp & st & Hv).
    destruct (bi_awake _ _ _ Hinv _ _ _ _ Hv) as [_ Hpar].
    destruct (Hpar p Hp) as [? ?]. done.
  - intros y n Hy Hy'. congruence.
  - intros r Hr. by apply elem_of_nil in Hr.
  - apply NoDup_nil_2.
  - intros y Hy. by apply elem_of_nil in Hy.
Qed.

Lemma assembly_fold N (L : ptr → Prop) w0 l cs seen w cs' w' :
  (∀ x, x ∈ l → L x) →
  for_array (λ cs body, addToComponent N body cs) l cs w = Some (cs', w') →
  asm_inv L w0 w cs seen → asm_inv L w0 w' cs' (seen ++ l).
Proof.
  revert cs seen w. induction l as [|x l IH]; intros cs seen w HL H Hinv; cbn [for_array] in H.
  - apply ret_Some in H as [-> ->]. by rewrite app_nil_r.
  - apply bind_Some in H as (cs1 & w1 & Hadd & H).
    replace (seen ++ x :: l) with ((seen ++ [x]) ++ l) by (by rewrite <- app_assoc).
    apply (IH cs1 _ w1); [intros y Hy; apply HL; by right|done|].
    eapply addToComponent_asm_inv; [done|done|]. apply HL. by left.
Qed.

(** After ring assembly every entry of [components] has a ring with its
    tree, and a ring with a rogue member has a member with idle time 0. *)
Lemma assembly_kept_awake N s rb w0 cs1 w4 cs w' :
  build_inv s w0 rb →
  for_array (λ cs body, addToComponent N body cs) (active_list s w0) [] w0 = Some (cs1, w4) →
  for_array (λ cs body, addToComponent N body cs) rb cs1 w4 = Some (cs, w') →
  NoDup cs ∧ ∀ r, r ∈ cs → kept_awake w' r.
Proof.
  intros Hinv H1 H2.
  pose proof (asm_inv_start _ _ _ Hinv) as Hasm.
  apply (assembly_fold _ _ _ _ _ _ _ _ _ (λ x Hx, or_introl Hx) H1) in Hasm.
  apply (assembly_fold _ _ _ _ _ _ _ _ _ (λ x Hx, or_intror Hx) H2) in Hasm.
  simpl in Hasm. split; [by eapply ai_nodup|].
  intros r Hr. destruct (ai_rings _ _ _ _ _ Hasm r Hr) as (l & Hring & Hmem).
  exists l. split; [done|]. intros R nx idle st HR Hv.
  destruct (Hmem R HR) as [HR0 HRL].
  destruct (rest_view _ _ _ _ _ _ _ (ai_rest _ _ _ _ _ Hasm R) Hv) as (nx0 & Hv0).
  assert (R ∈ rb) as HRrb.
  { destruct HRL as [HRa|?]; [|done].
    destruct (bi_active_not_rogue _ _ _ Hinv _ _ _ _ HRa Hv0). }
  destruct (bi_rogue _ _ _ Hinv R HRrb) as (_ & z & r0 & sp & st' & Hvz & Hzl & Hzr & HRr).
  assert (r0 = r) as ->.
  { eapply root_of_det; [by eapply (ai_roots _ _ _ _ _ Hasm)|by eapply sring_root_of]. }
  pose proof (view_next_of _ _ _ _ _ _ Hvz) as Hz0.
  destruct (ai_seen _ _ _ _ _ Hasm z) as (n & Hzn); [|done|].
  { apply elem_of_app. destruct Hzl; [left|right]; done. }
  destruct (ai_ringed _ _ _ _ _ Hasm z n Hz0 Hzn) as (r' & l' & _ & Hring' & Hzl').
  assert (r' = r) as ->.
  { eapply root_of_det; [by eapply sring_root_of|by eapply (ai_roots _ _ _ _ _ Hasm)]. }
  rewrite (sring_det _ _ _ _ Hring' Hring) in Hzl'.
  pose proof (ai_rest _ _ _ _ _ Hasm z) as Hrz. rewrite Hvz in Hrz.
  destruct (view_of w' z) as [[[[nx' idle'] sp'] st'']|] eqn:Hvz'; [|done].
  unfold rest in Hrz. simpl in Hrz. injection Hrz as -> -> ->.
  exists z, nx', sp, st'. done.
Qed.

(** ** The verdicts *)

Lemma kept_awake_frame w w' r :
  (∀ l y, sring w r l → y ∈ l → w_bodies w' !! y = w_bodies w !! y) →
  kept_awake w r → kept_awake w' r.
Proof.
  intros Hsame (l & Hring & Hz).
  assert (∀ y, y ∈ l → view_of w' y = view_of w y ∧ parent_of w' y = parent_of w y) as Hv.
  { intros y Hy. unfold view_of, parent_of. by rewrite (Hsame l y Hring Hy). }
  exists l. split.
  - eapply sring_frame; [|done]. intros y Hy. destruct (Hv y Hy) as [Hvy Hpy].
    split; [|done]. by rewrite !next_of_view_of, Hvy.
  - intros R nx idle st HR HvR. destruct (Hv R HR) as [HvR' _]. rewrite HvR' in HvR.
    destruct (Hz R nx idle st HR HvR) as (z & nx' & sp & st' & Hzl & Hvz).
    exists z, nx', sp, st'. split; [done|]. by destruct (Hv z Hzl) as [-> _].
Qed.

(** The copy branch writes to the members of the ring only. *)
Lemma copy_frame l nb w nb' w' :
  for_array cpSpaceProcessComponents_copy l nb w = Some (nb', w') →
  ∀ z, z ∉ l → w_bodies w' !! z = w_bodies w !! z.
Proof.
  intros H.
  refine (for_array_inv (λ _ w1, ∀ z, z ∉ l → w_bodies w1 !! z = w_bodies w !! z)
            _ _ _ _ _ _ _ H (λ _ _, eq_refl)).
  intros acc x w1 acc1 w2 Hx Hstep HI z Hz. rewrite <- (HI z Hz).
  unfold cpSpaceProcessComponents_copy in Hstep.
  apply bind_Some in Hstep as (b & ? & Hb & Hstep). apply load_body_Some in Hb as [Hb ->].
  cbv zeta in Hstep. apply bind_Some in Hstep as ([] & w3 & Hmod & Hstep).
  apply ret_Some in Hstep as [_ ->]. apply modify_node_Some in Hmod as (b' & _ & ->).
  simpl. apply lookup_insert_ne. intros ->. done.
Qed.

Lemma copy_next acc y w1 acc1 w2 :
  cpSpaceProcessComponents_copy acc y w1 = Some (acc1, w2) →
  ∀ z, z ≠ y → next_of w2 z = next_of w1 z.
Proof.
  intros Hstep z Hz. unfold cpSpaceProcessComponents_copy in Hstep.
  apply bind_Some in Hstep as (b & ? & Hb & Hstep). apply load_body_Some in Hb as [Hb ->].
  cbv zeta in Hstep. apply bind_Some in Hstep as ([] & w3 & Hmod & Hstep).
  apply ret_Some in Hstep as [_ ->]. apply modify_node_Some in Hmod as (b' & _ & ->).
  unfold next_of. simpl. by rewrite lookup_insert_ne.
Qed.

(** Dealing with one component leaves the rings of the others as they are. *)
Lemma component_kept_awake N s nb root post w nb' w' :
  cpSpaceProcessComponents_component N s nb root w = Some (nb', w') →
  NoDup (root :: post) → (∀ r, r ∈ root :: post → kept_awake w r) →
  ∀ r, r ∈ post → kept_awake w' r.
Proof.
  intros H Hnd Hall r Hr. apply NoDup_cons in Hnd as [Hroot _].
  assert (r ≠ root) as Hne by (by intros ->).
  apply (kept_awake_frame w); [|apply Hall; by right].
  intros l y Hring Hy. unfold cpSpaceProcessComponents_component in H.
  apply bind_Some in H as (sp & ? & Hsp & H). apply load_space_Some in Hsp as [Hsp ->].
  apply bind_Some in H as (active & ? & Hact & H).
  pose proof (reads_componentActive _ _ _ _ _ _ Hact) as ->.
  destruct active.
  - destruct (Hall root) as (l0 & Hring0 & _); [by left|].
    apply (ring_loop_fold _ _ _ _ l0) in H; [|apply copy_next|exact (proj1 Hring0)].
    apply (copy_frame _ _ _ _ _ H). intros Hy0.
    by destruct (sring_disjoint _ _ _ _ _ _ Hring Hring0 Hy Hy0).
  - apply bind_Some in H as ([] & w1 & Hloop & H).
    apply bind_Some in H as ([] & w2 & Hmod & H). apply ret_Some in H as [_ ->].
    apply modify_space_Some in Hmod as (sp' & _ & ->). simpl.
    refine (preserves_ring_loop (λ w1, w_bodies w1 !! y = w_bodies w !! y)
              _ _ _ _ _ _ _ _ _ Hloop eq_refl).
    intros [] body.
    apply (preserves_cpSpaceDeactivateBody_bodies (λ bs, bs !! y = w_bodies w !! y)).
Qed.

Lemma verdict_kept_awake N s pre post nb w nb' w' :
  for_array (cpSpaceProcessComponents_component N s) pre nb w = Some (nb', w') →
  NoDup (pre ++ post) → (∀ r, r ∈ pre ++ post → kept_awake w r) →
  ∀ r, r ∈ post → kept_awake w' r.
Proof.
  revert nb w. induction pre as [|root pre IH]; intros nb w H Hnd Hall; cbn [for_array] in H.
  - by apply ret_Some in H as [-> ->].
  - apply bind_Some in H as (nb1 & w1 & Hc & H). simpl in Hnd, Hall.
    apply (IH nb1 w1 H); [by apply NoDup_cons in Hnd as [_ ?]|].
    by eapply component_kept_awake.
Qed.

(** A ring with a rogue member and a member with idle time 0 is judged
    active when the sleep threshold is above 0. *)
Lemma componentActive_kept_awake N root thr w active w' l R nx idle st :
  kept_awake w root → ring w root l → R ∈ l → view_of w R = Some (nx, idle, None, st) →
  (0 <? thr)%float = true →
  componentActive N root thr w = Some (active, w') → active = true.
Proof.
  intros (l0 & Hring0 & Hz) Hring HR Hv Hthr H. destruct active; [done|].
  apply componentActive_loop_false in H as (l1 & Hring1 & Hidle).
  pose proof (ring_from_det _ _ _ _ _ Hring Hring1) as <-.
  pose proof (ring_from_det _ _ _ _ _ Hring (proj1 Hring0)) as <-.
  destruct (Hz R nx idle st HR Hv) as (z & nx' & sp & st' & Hzl & Hvz).
  destruct (Hidle z Hzl) as (b & Hb & Hlt).
  unfold view_of in Hvz. rewrite Hb in Hvz. unfold bview in Hvz. simpl in Hvz.
  injection Hvz as _ Hi _ _. rewrite Hi in Hlt. congruence.
Qed.

(** ** What [mergeBodies] does for a rogue body *)

Lemma space_of_view w x : space <$> w_bodies w !! x = (λ v, v.1.2) <$> view_of w x.
Proof. unfold view_of. by destruct (w_bodies w !! x). Qed.

Lemma idle_of_view w x : idle_of w x = (λ v, v.1.1.2) <$> view_of w x.
Proof. unfold idle_of, view_of. by destruct (w_bodies w !! x). Qed.

Section space_of_body.
Context (x : ptr) (v : option (option ptr)).
Let I (w : world) : Prop := space <$> w_bodies w !! x = v.

Lemma preserves_space_modify_node y f : preserves I (modify_node y f).
Proof.
  intros w [] w' H HI. apply modify_node_Some in H as (b & Hb & ->). unfold I in *. simpl.
  destruct (decide (x = y)) as [->|Hne].
  - rewrite lookup_insert_eq. by rewrite Hb in HI.
  - by rewrite lookup_insert_ne.
Qed.

Lemma preserves_space_componentNodeRoot N y : preserves I (componentNodeRoot N y).
Proof.
  intros w r w' H HI. apply componentNodeRoot_inv in H as (l & _ & _ & ->).
  unfold I in *. by rewrite space_of_view, compress_view, <- space_of_view.
Qed.

Lemma preserves_space_componentActivate N root : preserves I (componentActivate N root).
Proof.
  apply preserves_bind; [apply reads_preserves, reads_load_body|intros r].
  destruct (negb (cpBodyIsSleeping r)); [apply preserves_ret|].
  destruct (space r) as [s|]; [|apply preserves_fail].
  apply preserves_bind;
    [|intros _; apply (preserves_modify_space_bodies (λ bs, space <$> bs !! x = v))].
  apply preserves_ring_loop. intros [] body.
  apply preserves_bind; [apply preserves_space_modify_node|intros _].
  apply (preserves_cpSpaceActivateBody_bodies (λ bs, space <$> bs !! x = v)).
Qed.

Lemma preserves_space_componentNodeMerge a_root b_root :
  preserves I (componentNodeMerge a_root b_root).
Proof.
  intros w [] w' H HI. apply componentNodeMerge_inv in H as (_ & _ & _ & _ & _ & Hv & _).
  unfold I in *. by rewrite space_of_view, Hv, <- space_of_view.
Qed.
End space_of_body.

Lemma componentNodeMerge_idle a_root b_root x w w' :
  componentNodeMerge a_root b_root w = Some (tt, w') → idle_of w' x = idle_of w x.
Proof.
  intros H. apply componentNodeMerge_inv in H as (_ & _ & _ & _ & _ & Hv & _).
  by rewrite !idle_of_view, Hv.
Qed.

(** When neither body is static and [mergeBodies] returns, a rogue [a] is in
    the [rogueBodies] it returns and the idle time of [b] is 0, and the same
    with [a] and [b] exchanged. *)
Lemma mergeBodies_rogue_idle N s cs rb a b w rb' w' ab bb :
  mergeBodies N s cs rb a b w = Some (rb', w') →
  w_bodies w !! a = Some ab → w_bodies w !! b = Some bb →
  cpBodyIsStatic ab = false → cpBodyIsStatic bb = false →
  (cpBodyIsRogue ab = true → a ∈ rb' ∧ idle_of w' b = Some 0%float) ∧
  (cpBodyIsRogue bb = true → b ∈ rb' ∧ idle_of w' a = Some 0%float).
Proof.
  intros H Hab Hbb Hsa Hsb. unfold mergeBodies in H.
  apply bind_Some in H as (ab0 & ? & Hab0 & H). apply load_body_Some in Hab0 as [Hab0 ->].
  assert (ab0 = ab) as -> by congruence. rewrite Hsa in H.
  apply bind_Some in H as (static & w0 & Hst & H).
  apply bind_Some in Hst as (bb0 & ? & Hbb0 & Hst). apply load_body_Some in Hbb0 as [Hbb0 ->].
  assert (bb0 = bb) as -> by congruence. rewrite Hsb in Hst.
  apply ret_Some in Hst as [-> ->].
  assert (space <$> w_bodies w !! a = Some (space ab)) as Hspa by (by rewrite Hab).
  assert (space <$> w_bodies w !! b = Some (space bb)) as Hspb by (by rewrite Hbb).
  apply bind_Some in H as (ar & w1 & Har & H).
  apply (preserves_space_componentNodeRoot a _ _ _ _ _ _ Har) in Hspa.
  apply (preserves_space_componentNodeRoot b _ _ _ _ _ _ Har) in Hspb.
  apply bind_Some in H as (br & w2 & Hbr & H).
  apply (preserves_space_componentNodeRoot a _ _ _ _ _ _ Hbr) in Hspa.
  apply (preserves_space_componentNodeRoot b _ _ _ _ _ _ Hbr) in Hspb.
  apply bind_Some in H as (arb & ? & Harb & H). apply load_body_Some in Harb as [Harb ->].
  apply bind_Some in H as (brb & ? & Hbrb & H). apply load_body_Some in Hbrb as [Hbrb ->].
  apply bind_Some in H as ([] & w4 & Hwake & H).
  assert (space <$> w_bodies w4 !! a = Some (space ab) ∧
          space <$> w_bodies w4 !! b = Some (space bb)) as [Hspa4 Hspb4].
  { destruct (_ || _).
    - apply bind_Some in Hwake as ([] & w3 & Hwa & Hwb).
      apply (preserves_space_componentActivate a _ _ _ _ _ _ Hwa) in Hspa.
      apply (preserves_space_componentActivate b _ _ _ _ _ _ Hwa) in Hspb.
      apply (preserves_space_componentActivate a _ _ _ _ _ _ Hwb) in Hspa.
      apply (preserves_space_componentActivate b _ _ _ _ _ _ Hwb) in Hspb. done.
    - by apply ret_Some in Hwake as [_ ->]. }
  apply bind_Some in H as (ab4 & ? & Hab4 & H). apply load_body_Some in Hab4 as [Hab4 ->].
  apply bind_Some in H as (rb1 & w5 & Hrogue_a & H).
  apply (mergeBodies_rogue _ _ _ _ _ _ _ Hab4) in Hrogue_a as (Hn5 & Hz5 & Hs5 & Hcase_a).
  apply bind_Some in H as (bb5 & ? & Hbb5 & H). apply load_body_Some in Hbb5 as [Hbb5 ->].
  apply bind_Some in H as (rb2 & w6 & Hrogue_b & H).
  apply (mergeBodies_rogue _ _ _ _ _ _ _ Hbb5) in Hrogue_b as (Hn6 & Hz6 & Hs6 & Hcase_b).
  apply bind_Some in H as ([] & w7 & Hmerge & H). apply ret_Some in H as [-> ->].
  assert (space ab4 = space ab) as Hsa4 by (rewrite Hab4 in Hspa4; by injection Hspa4).
  assert (space bb5 = space bb) as Hsb5.
  { destruct (Hn5 b) as [_ Hl]. rewrite (view_of_Some _ _ _ Hbb5) in Hl.
    rewrite space_of_view in Hspb4.
    destruct (view_of w4 b) as [[[[? ?] ?] ?]|]; [|done]. unfold links, bview in Hl.
    simpl in *. congruence. }
  unfold cpBodyIsRogue. rewrite !bool_decide_eq_true, <- Hsa4, <- Hsb5.
  rewrite !(componentNodeMerge_idle _ _ _ _ _ Hmerge), !idle_of_view.
  split.
  - intros Hrogue. destruct Hcase_a as [(_ & -> & nx & sp & st & Hv)|[? _]]; [|done].
    split.
    + destruct Hcase_b as [(_ & -> & _)|[_ ->]];
        rewrite ?elem_of_app, ?list_elem_of_singleton; auto.
    + by rewrite (Hz6 _ _ _ _ Hv).
  - intros Hrogue. destruct Hcase_b as [(_ & -> & nx & sp & st & Hv)|[? _]]; [|done].
    split; [|by rewrite Hv]. rewrite elem_of_app, list_elem_of_singleton. auto.
Qed.

(** ** The disjoint-set forest: [componentNodeRoot] *)

(** C9.  For a body whose chain of [node.parent] links is finite and acyclic
    ([chain w body l r]: the links from [body] pass through the bodies [l] and
    end at [r], whose parent is absent), [r] is the only such end of the chain
    and it is [body] itself when [body] has no parent; with a bound [N] above
    the length of the chain [componentNodeRoot] returns [r]; afterwards [r]
    still has no parent, every body of [l] has its parent set to [r] and the
    rest of its record as before, every other body is as before, and so is
    everything else in the store. *)
Theorem componentNodeRoot_path_compression (w : world) (body : ptr) (l : list ptr) (r : ptr) :
  chain w body l r →
  (∀ l' r', chain w body l' r' → r' = r) ∧
  (∀ b, w_bodies w !! body = Some b → parent (node b) = None → r = body) ∧
  ∀ N, length l < N →
    ∃ w', componentNodeRoot N body w = Some (r, w') ∧
      (∃ b, w_bodies w' !! r = Some b ∧ parent (node b) = None) ∧
      (∀ x b, x ∈ l → w_bodies w !! x = Some b →
         w_bodies w' !! x = Some (set_node (set_parent (Some r) (node b)) b)) ∧
      (∀ x, x ∉ l → w_bodies w' !! x = w_bodies w !! x) ∧
      w_shapes w' = w_shapes w ∧ w_arbiters w' = w_arbiters w ∧
      w_constraints w' = w_constraints w ∧ w_spaces w' = w_spaces w ∧
      w_blocks w' = w_blocks w.
Proof.
  intros Hc. split; [|split].
  - intros l' r' Hc'. by destruct (chain_det _ _ _ _ _ _ Hc' Hc).
  - intros b Hb Hp. inversion Hc; simplify_eq; done.
  - intros N HN. eexists. split; [by apply componentNodeRoot_chain|].
    simpl. repeat split; try done.
    + destruct (chain_root_parent _ _ _ _ Hc) as (b & Hb & Hp).
      exists b. split; [|done].
      rewrite compress_lookup_notin; [done|]. by eapply chain_root_not_in.
    + intros x b Hx Hb. apply compress_lookup_in; [by eapply chain_NoDup|done..].
    + intros x Hx. by apply compress_lookup_notin.
Qed.

Lemma componentNodeRoot_path_compression_witness :
  ∃ w', componentNodeRoot 3 1 chain_world = Some (3, w') ∧
        (parent ∘ node) <$> w_bodies w' !! 1 = Some (Some 3) ∧
        (parent ∘ node) <$> w_bodies w' !! 2 = Some (Some 3).
Proof.
  assert (chain chain_world 1 [1; 2] 3) as Hc.
  { eapply chain_step; [reflexivity..|].
    eapply chain_step; [reflexivity..|].
    eapply chain_root; reflexivity. }
  destruct (componentNodeRoot_path_compression _ _ _ _ Hc) as (_ & _ & H).
  destruct (H 3 ltac:(simpl; lia)) as (w' & Hrun & _ & Hin & _).
  exists w'. split; [exact Hrun|]. split.
  - rewrite (Hin 1 _ ltac:(set_solver) eq_refl). reflexivity.
  - rewrite (Hin 2 _ ltac:(set_solver) eq_refl). reflexivity.
Defined.

(** ** Activation *)

(** C4.  In a locked space [cpSpaceActivateBody] returns, and the store it
    returns differs from the one it was given only in the record of that
    space, and that record only in [rousedBodies], which has [body] appended:
    [bodies], [contactSet], [arbiters], [constraints], [activeShapes],
    [staticShapes], [sleepingComponents], the contact buffer and every body,
    shape, arbiter, constraint and heap block are as before. *)
Theorem cpSpaceActivateBody_locked (N : nat) (w : world) (space body : ptr) (sp : cpSpace) :
  w_spaces w !! space = Some sp → locked sp = true →
  ∃ w' sp',
    cpSpaceActivateBody N space body w = Some (tt, w') ∧
    w_spaces w' = <[space := sp']> (w_spaces w) ∧
    sp' = set_rousedBodies (rousedBodies sp ++ [body]) sp ∧
    rousedBodies sp' = rousedBodies sp ++ [body] ∧
    bodies sp' = bodies sp ∧ contactSet sp' = contactSet sp ∧
    arbiters sp' = arbiters sp ∧ constraints sp' = constraints sp ∧
    activeShapes sp' = activeShapes sp ∧ staticShapes sp' = staticShapes sp ∧
    sleepingComponents sp' = sleepingComponents sp ∧ locked sp' = locked sp ∧
    contactBuffer sp' = contactBuffer sp ∧ contactBufferNum sp' = contactBufferNum sp ∧
    w_bodies w' = w_bodies w ∧ w_shapes w' = w_shapes w ∧
    w_arbiters w' = w_arbiters w ∧ w_constraints w' = w_constraints w ∧
    w_blocks w' = w_blocks w.
Proof.
  intros Hsp Hlocked. do 2 eexists. split.
  - unfold cpSpaceActivateBody, bind, load_space. rewrite Hsp. simpl. rewrite Hlocked.
    unfold modify_space. rewrite Hsp. simpl. reflexivity.
  - simpl. repeat split; reflexivity.
Qed.

Lemma cpSpaceActivateBody_locked_witness :
  ∃ w', cpSpaceActivateBody 0 0 1 locked_world = Some (tt, w') ∧
        rousedBodies <$> w_spaces w' !! 0 = Some [1].
Proof.
  destruct (cpSpaceActivateBody_locked 0 locked_world 0 1 (example_space true 0.5 [] [])
              ltac:(vm_compute; reflexivity) ltac:(reflexivity))
    as (w' & sp' & Hrun & Hsp & _ & Hr & _).
  exists w'. split; [exact Hrun|].
  rewrite Hsp, lookup_insert_eq. simpl. by rewrite Hr.
Defined.



(** ** Forest building: [mergeBodies] *)

(** C7.  When [a] or [b] is static [mergeBodies] returns the array
    [rogueBodies] and the store exactly as they were given: no parent, rank or
    idle time is written, no component is woken, nothing is pushed. *)
Theorem mergeBodies_static (N : nat) (w : world) (space : ptr)
    (components rogueBodies : list ptr) (a b : ptr) (ab : cpBody) :
  w_bodies w !! a = Some ab →
  cpBodyIsStatic ab = true ∨ (∃ bb, w_bodies w !! b = Some bb ∧ cpBodyIsStatic bb = true) →
  mergeBodies N space components rogueBodies a b w = Some (rogueBodies, w).
Proof.
  intros Ha Hstatic. unfold mergeBodies, bind at 1, load_body. rewrite Ha. simpl.
  destruct (cpBodyIsStatic ab) eqn:Hab.
  - reflexivity.
  - destruct Hstatic as [|(bb & Hb & Hbb)]; [done|].
    unfold bind, load_body. rewrite Hb. simpl. by rewrite Hbb.
Qed.

Lemma mergeBodies_static_witness :
  mergeBodies 5 0 [] [] 1 2 static_world = Some ([], static_world) ∧
  mergeBodies 5 0 [] [] 2 1 static_world = Some ([], static_world).
Proof.
  split.
  - eapply (mergeBodies_static 5 static_world 0 [] [] 1 2); [vm_compute; reflexivity|].
    right. eexists. split; [vm_compute; reflexivity|reflexivity].
  - eapply (mergeBodies_static 5 static_world 0 [] [] 2 1); [vm_compute; reflexivity|].
    left. reflexivity.
Defined.

(** ** Idempotence of the explicit wake and sleep calls *)



(** Parent links under an awake root exist only while
    [cpSpaceProcessComponents] builds its forest.  In such a store
    [cpBodyActivate] is path compression: body 1 of [chain_world] has the
    awake root 3 two links up and is re-parented from 2 to 3. *)
Lemma cpBodyActivate_awake_changes_parent :
  chain chain_world 1 [1; 2] 3 ∧
  (cpBodyIsSleeping <$> w_bodies chain_world !! 3) = Some false ∧
  (∃ w', cpBodyActivate 3 1 chain_world = Some (tt, w') ∧
         (parent ∘ node) <$> w_bodies chain_world !! 1 = Some (Some 2) ∧
         (parent ∘ node) <$> w_bodies w' !! 1 = Some (Some 3)) ∧
  cpBodyActivate 3 1 chain_world ≠ Some (tt, chain_world).
Proof.
  split; [|split; [|split]].
  - eapply chain_step; [reflexivity..|].
    eapply chain_step; [reflexivity..|].
    eapply chain_root; reflexivity.
  - vm_compute. reflexivity.
  - destruct (cpBodyActivate 3 1 chain_world) as [[[] w']|] eqn:Hrun;
      [|vm_compute in Hrun; discriminate].
    exists w'. split; [done|]. split; [vm_compute; reflexivity|].
    assert (Some (tt, w') = Some (tt, w')) as E by done.
    rewrite <- Hrun in E at 1. vm_compute in E. injection E as <-. vm_compute. reflexivity.
  - intros H.
    apply (f_equal (λ o : option (unit * world),
                      match o with
                      | Some (_, w) => (parent ∘ node) <$> w_bodies w !! 1
                      | None => None
                      end)) in H.
    vm_compute in H. discriminate.
Qed.

(** ** Arbiter lists: [cpBodyPushArbiter] *)

(** Whatever side of the arbiter [body] is on, [cpBodyPushArbiter] stores the
    old head of the body's list in [nextA] and leaves [nextB] as it was. *)
Lemma cpBodyPushArbiter_writes_nextA (w : world) (body arb : ptr) (b : cpBody) (ar : cpArbiter) :
  w_bodies w !! body = Some b → w_arbiters w !! arb = Some ar →
  cpBodyIsStatic b = false → cpBodyIsRogue b = false →
  cpBodyPushArbiter body arb w =
    Some (tt, with_bodies (<[body := set_arbiterList (Some arb) b]> (w_bodies w))
                (with_arbiters (<[arb := set_arb_nextA (arbiterList b) ar]> (w_arbiters w)) w)).
Proof.
  intros Hb Har Hstatic Hrogue.
  unfold cpBodyPushArbiter, bind at 1, load_body. rewrite Hb. simpl.
  rewrite Hstatic, Hrogue. simpl.
  unfold bind, modify_arbiter, modify_body. rewrite Har. simpl. by rewrite Hb.
Qed.

(** C1 at a failing input.  In [contact_world] body 1 is the [a] side of the
    arbiters 21 and 22, whose [b] sides are bodies 2 and 3.  After
    [cpSpaceProcessComponents] the list of body 1 starts at 22, and the walk
    [arb->a->body == body ? arb->nextA : arb->nextB] from there meets 22
    alone: pushing 22 onto body 3 has overwritten the [nextA] link that led
    on to 21. *)
Theorem cpBodyPushArbiter_loses_arbiter :
  (shape_body <$> w_shapes contact_world !! 11) = Some 1 ∧
  (arb_a <$> w_arbiters contact_world !! 21) = Some 11 ∧
  (arb_a <$> w_arbiters contact_world !! 22) = Some 11 ∧
  ∃ w', cpSpaceProcessComponents 4 0 0.25 contact_world = Some (tt, w') ∧
        (arbiterList <$> w_bodies w' !! 1) = Some (Some 22) ∧
        arbiter_walk 4 1 (Some 22) w' = Some [22].
Proof.
  repeat split; try (vm_compute; reflexivity).
  destruct (cpSpaceProcessComponents 4 0 0.25 contact_world) as [[[] w']|] eqn:Hrun;
    [|vm_compute in Hrun; discriminate].
  exists w'. split; [done|].
  assert (Some (tt, w') = Some (tt, w')) as E by done.
  rewrite <- Hrun in E at 1. vm_compute in E. injection E as <-.
  split; vm_compute; reflexivity.
Qed.

(** ** The component processor: what is left in [space->bodies] *)

(** C5.  When [cpSpaceProcessComponents] returns, the new [space->bodies] has
    no body twice, and each body in it has the node
    [{absent, absent, 0, idleTime}] where [idleTime] is the idle time the body
    had when ring assembly ended.  That is also the idle time it had when its
    component was judged: no step of the component loop changes the idle time
    of any body, whatever part of [components] has been dealt with. *)
Theorem cpSpaceProcessComponents_bodies_cleared (N : nat) (space : ptr) (dt : cpFloat)
    (w w' : world) :
  cpSpaceProcessComponents N space dt w = Some (tt, w') →
  ∃ components w_mid sp',
    cpSpaceProcessComponents_build N space dt w = Some (components, w_mid) ∧
    w_spaces w' !! space = Some sp' ∧
    NoDup (bodies sp') ∧
    (∀ body, body ∈ bodies sp' →
       ∃ b b_mid, w_bodies w' !! body = Some b ∧ w_bodies w_mid !! body = Some b_mid ∧
                  node b = mkNode None None 0 (idleTime (node b_mid))) ∧
    (∀ pre post nb w_j,
       components = pre ++ post →
       for_array (cpSpaceProcessComponents_component N space) pre [] w_mid = Some (nb, w_j) →
       ∀ x, idle_of w_j x = idle_of w_mid x).
Proof.
  intros H. unfold cpSpaceProcessComponents in H. cbv zeta in H.
  apply bind_Some in H as (components & w_mid & Hbuild & H).
  apply bind_Some in H as (nb & w_end & Hverdict & H). run_inv H.
  rename x into sp_end.
  exists components, w_mid, (set_bodies nb sp_end).
  split; [done|]. split; [simpl; by rewrite lookup_insert_eq|].
  destruct (verdict_cleared _ _ _ _ _ _ _ Hverdict (NoDup_nil_2 (A:=nat))) as [Hnd Hcl].
  { intros x Hx. by apply elem_of_nil in Hx. }
  assert (∀ l nb0 w0 nb1 w1 x,
            for_array (cpSpaceProcessComponents_component N space) l nb0 w0 = Some (nb1, w1) →
            idle_of w1 x = idle_of w0 x) as Hidle.
  { intros l nb0 w0 nb1 w1 x Hl.
    refine (preserves_for_array (λ w, idle_of w x = idle_of w0 x) _ _ _ _ _ _ _ Hl eq_refl).
    intros. apply preserves_component_idle. }
  split; [done|]. split.
  - intros body Hbody. destruct (Hcl _ Hbody) as (b & Hb & Hp & Hn & Hr).
    pose proof (Hidle _ _ _ _ _ body Hverdict) as Hi. unfold idle_of in Hi.
    rewrite Hb in Hi. simpl in Hi.
    destruct (w_bodies w_mid !! body) as [b_mid|] eqn:Hmid; [|done].
    exists b, b_mid. split; [done|]. split; [done|].
    simpl in Hi. destruct (node b). simpl in *. by simplify_eq.
  - intros pre post nb_j w_j _ Hpre x. by eapply Hidle.
Qed.

Lemma cpSpaceProcessComponents_bodies_cleared_witness :
  ∃ w' sp', cpSpaceProcessComponents 4 0 0.25 contact_world = Some (tt, w') ∧
            w_spaces w' !! 0 = Some sp' ∧ NoDup (bodies sp') ∧
            ∀ body, body ∈ bodies sp' → cleared w' body.
Proof.
  destruct (cpSpaceProcessComponents 4 0 0.25 contact_world) as [[[] w']|] eqn:Hrun;
    [|vm_compute in Hrun; discriminate].
  destruct (cpSpaceProcessComponents_bodies_cleared 4 0 0.25 contact_world w' Hrun)
    as (components & w_mid & sp' & _ & Hsp' & Hnd & Hcl & _).
  exists w', sp'. split; [reflexivity|]. split; [exact Hsp'|]. split; [exact Hnd|].
  intros body Hbody. destruct (Hcl body Hbody) as (b & b_mid & Hb & _ & Hnode).
  exists b. split; [exact Hb|]. rewrite Hnode. simpl. repeat split.
Defined.

(** ** Idle time of sleeping bodies *)

(** C2 as stated fails: [resting_world] has one body at rest, a sleep
    threshold of 0.5 and no idle-speed threshold; a step of 1 makes its idle
    time 1, the component is put to sleep, and the sleeping body keeps the
    idle time 1. *)
Lemma cpSpaceProcessComponents_sleeping_idleTime_nonzero :
  ∃ w', cpSpaceProcessComponents 2 0 1 resting_world = Some (tt, w') ∧
        (sleepingComponents <$> w_spaces w' !! 0) = Some [1] ∧
        (cpBodyIsSleeping <$> w_bodies w' !! 1) = Some true ∧
        idle_of w' 1 = Some 1%float ∧
        idle_of w' 1 ≠ Some 0%float.
Proof.
  destruct (cpSpaceProcessComponents 2 0 1 resting_world) as [[[] w']|] eqn:Hrun;
    [|vm_compute in Hrun; discriminate].
  exists w'. split; [done|].
  assert (Some (tt, w') = Some (tt, w')) as E by done.
  rewrite <- Hrun in E at 1. vm_compute in E. injection E as <-.
  split; [vm_compute; reflexivity|]. split; [vm_compute; reflexivity|].
  split; [vm_compute; reflexivity|].
  vm_compute. intros [= H].
Qed.

(** C2, as the code has it.  (1) A body that [cpBodySleepWithGroup] (hence
    [cpBodySleep]) puts to sleep ends with idle time 0.  (2) When the component
    loop of [cpSpaceProcessComponents] judges the component of [root] not
    active, it appends [root] to [sleepingComponents] and leaves [newBodies]
    and every body record as they are; the component is a ring, and the idle
    time of each member is not below [sleepTimeThreshold].  (3) The idle time
    a body has when a component is judged is the one it has when
    [cpSpaceProcessComponents] returns. *)
Theorem sleeping_idleTime (N : nat) :
  (∀ w w' body group b,
     w_bodies w !! body = Some b → cpBodyIsSleeping b = false →
     cpBodySleepWithGroup N body group w = Some (tt, w') →
     idle_of w' body = Some 0%float) ∧
  (∀ space sp nb root w nb' w',
     w_spaces w !! space = Some sp →
     componentActive N root (sleepTimeThreshold sp) w = Some (false, w) →
     cpSpaceProcessComponents_component N space nb root w = Some (nb', w') →
     nb' = nb ∧ w_bodies w' = w_bodies w ∧
     (sleepingComponents <$> w_spaces w' !! space) = Some (sleepingComponents sp ++ [root]) ∧
     ∃ l, ring w root l ∧
          ∀ x, x ∈ l → ∃ b, w_bodies w' !! x = Some b ∧
                            (idleTime (node b) <? sleepTimeThreshold sp)%float = false) ∧
  (∀ space dt w w',
     cpSpaceProcessComponents N space dt w = Some (tt, w') →
     ∃ components w_mid,
       cpSpaceProcessComponents_build N space dt w = Some (components, w_mid) ∧
       ∀ pre post nb w_j,
         components = pre ++ post →
         for_array (cpSpaceProcessComponents_component N space) pre [] w_mid = Some (nb, w_j) →
         ∀ x, idle_of w' x = idle_of w_j x).
Proof.
  split; [|split].
  - intros w w' body group b Hb Hawake H. unfold cpBodySleepWithGroup in H.
    apply bind_Some in H as (b0 & ? & Hb0 & H). run_inv Hb0. simplify_eq.
    apply bind_Some in H as ([] & ? & Hassert & H).
    apply reads_cpAssert in Hassert as ->.
    destruct (space b) as [s|]; [|done].
    apply bind_Some in H as (sp & ? & Hsp & H). run_inv Hsp.
    apply bind_Some in H as ([] & ? & Hassert & H).
    apply reads_cpAssert in Hassert as ->.
    apply bind_Some in H as ([] & w0 & Hgroup & H).
    assert (w0 = w) as ->.
    { destruct group; [|by run_inv Hgroup].
      apply bind_Some in Hgroup as (gb & ? & Hgb & Hgroup). run_inv Hgb.
      by apply reads_cpAssert in Hgroup. }
    rewrite Hawake in H.
    apply bind_Some in H as ([] & w1 & Hshapes & H).
    apply bind_Some in H as ([] & w2 & Hdeact & H).
    apply bind_Some in H as ([] & w3 & Hnode & H). run_inv H.
    unfold idle_of. simpl.
    destruct group as [g|].
    + apply bind_Some in Hnode as (root & w4 & Hroot & Hnode). run_inv Hnode. simpl in *.
      destruct (decide (root = body)) as [->|Hne].
      * rewrite lookup_insert_eq in Hnode. simplify_eq. by rewrite lookup_insert_eq.
      * by rewrite lookup_insert_ne, lookup_insert_eq.
    + run_inv Hnode. simpl. by rewrite lookup_insert_eq.
  - intros space sp nb root w nb' w' Hsp Hact H.
    unfold cpSpaceProcessComponents_component in H.
    apply bind_Some in H as (sp0 & ? & Hsp0 & H). run_inv Hsp0. simplify_eq.
    unfold bind at 1 in H. rewrite Hact in H.
    apply bind_Some in H as ([] & w1 & Hloop & H). run_inv H.
    assert (w_bodies w1 = w_bodies w) as Hsame.
    { refine (preserves_ring_loop (λ w', w_bodies w' = w_bodies w) _ _ _ _ _ _ _ _ _
                Hloop eq_refl).
      intros [] body.
      apply (preserves_cpSpaceDeactivateBody_bodies (λ bs, bs = w_bodies w)). }
    assert (sleepingComponents <$> w_spaces w1 !! space = Some (sleepingComponents sp)) as Hsc.
    { refine (preserves_ring_loop
                (λ w', sleepingComponents <$> w_spaces w' !! space = Some (sleepingComponents sp))
                _ _ _ _ _ _ _ _ _ Hloop _); [|by rewrite Hsp].
      intros [] body. unfold cpSpaceProcessComponents_deactivate.
      by apply (preserves_cpSpaceDeactivateBody_field sleepingComponents). }
    split; [done|]. split; [done|]. split.
    + simpl. rewrite lookup_insert_eq. simpl. rewrite Hrun in Hsc. simpl in Hsc.
      injection Hsc as Hsc. unfold cpArrayPush. by rewrite Hsc.
    + destruct (componentActive_loop_false _ _ _ _ _ _ Hact) as (l & Hl & Hall).
      exists l. split; [done|]. simpl. by rewrite Hsame.
  - intros space dt w w' H. unfold cpSpaceProcessComponents in H. cbv zeta in H.
    apply bind_Some in H as (components & w_mid & Hbuild & H).
    apply bind_Some in H as (nb & w_end & Hverdict & H). run_inv H.
    exists components, w_mid. split; [done|].
    assert (∀ l nb0 w0 nb1 w1 x,
              for_array (cpSpaceProcessComponents_component N space) l nb0 w0 = Some (nb1, w1) →
              idle_of w1 x = idle_of w0 x) as Hidle.
    { intros l nb0 w0 nb1 w1 y Hl.
      refine (preserves_for_array (λ w, idle_of w y = idle_of w0 y) _ _ _ _ _ _ _ Hl eq_refl).
      intros. apply preserves_component_idle. }
    intros pre post nb_j w_j _ Hpre y.
    rewrite (Hidle _ _ _ _ _ y Hpre). unfold idle_of at 1. simpl.
    apply (Hidle _ _ _ _ _ y Hverdict).
Qed.

Lemma sleeping_idleTime_witness :
  (∃ w', cpBodySleep 2 1 awake_world = Some (tt, w') ∧ idle_of w' 1 = Some 0%float) ∧
  (∃ components w_mid nb' w',
     cpSpaceProcessComponents_build 2 0 1 resting_world = Some (components, w_mid) ∧
     cpSpaceProcessComponents_component 2 0 [] 1 w_mid = Some (nb', w') ∧
     (sleepingComponents <$> w_spaces w' !! 0) = Some [1] ∧
     ∃ l, ring w_mid 1 l) ∧
  (∃ w', cpSpaceProcessComponents 2 0 1 resting_world = Some (tt, w') ∧
         ∃ w_mid, idle_of w' 1 = idle_of w_mid 1).
Proof.
  split; [|split].
  - destruct (cpBodySleep 2 1 awake_world) as [[[] w']|] eqn:Hrun;
      [|vm_compute in Hrun; discriminate].
    exists w'. split; [reflexivity|].
    eapply (proj1 (sleeping_idleTime 2) awake_world w' 1 None);
      [vm_compute; reflexivity|reflexivity|exact Hrun].
  - destruct (cpSpaceProcessComponents_build 2 0 1 resting_world)
      as [[components w_mid]|] eqn:Hbuild; [|vm_compute in Hbuild; discriminate].
    assert (Some (components, w_mid) = Some (components, w_mid)) as E by reflexivity.
    rewrite <- Hbuild in E at 1. vm_compute in E. injection E as Hc Hw.
    destruct (cpSpaceProcessComponents_component 2 0 [] 1 w_mid) as [[nb' w']|] eqn:Hrun;
      [|rewrite <- Hw in Hrun; vm_compute in Hrun; discriminate].
    exists components, w_mid, nb', w'. split; [reflexivity|]. split; [exact Hrun|].
    destruct (proj1 (proj2 (sleeping_idleTime 2)) 0 (example_space false 0.5 [1] []) [] 1
                w_mid nb' w' ltac:(rewrite <- Hw; vm_compute; reflexivity)
                ltac:(rewrite <- Hw; vm_compute; reflexivity) Hrun)
      as (_ & _ & Hsc & l & Hl & _).
    split; [exact Hsc|]. exists l. exact Hl.
  - destruct (cpSpaceProcessComponents 2 0 1 resting_world) as [[[] w']|] eqn:Hrun;
      [|vm_compute in Hrun; discriminate].
    exists w'. split; [reflexivity|].
    destruct (proj2 (proj2 (sleeping_idleTime 2)) 0 1%float resting_world w' Hrun)
      as (components & w_mid & Hbuild & Hidle).
    exists w_mid. apply (Hidle [] components [] w_mid eq_refl eq_refl).
Defined.

(** ** Rogue bodies and the verdict *)

Lemma rogue_world_bodies thr x b :
  w_bodies (rogue_world thr) !! x = Some b →
  (x = 1 ∧ b = example_body (Some 0) (Some 11) (mkNode None None 0 0)) ∨
  (x = 2 ∧ b = example_body None (Some 12) (mkNode None None 0 0)).
Proof.
  unfold rogue_world. simpl. destruct (decide (x = 1)) as [->|H1].
  { rewrite lookup_insert_eq. intros [= <-]. by left. }
  rewrite lookup_insert_ne by done. destruct (decide (x = 2)) as [->|H2].
  { rewrite lookup_insert_eq. intros [= <-]. by right. }
  rewrite lookup_insert_ne by done. by rewrite lookup_empty.
Qed.

(** [rogue_world] is a store as [cpSpaceProcessComponents] expects it. *)
Lemma rogue_world_build_inv thr : build_inv 0 (rogue_world thr) [].
Proof.
  assert (∀ x v, view_of (rogue_world thr) x = Some v →
            (x = 1 ∧ v = (None, 0%float, Some 0, false)) ∨
            (x = 2 ∧ v = (None, 0%float, None, false))) as Hview.
  { intros x v. unfold view_of.
    destruct (w_bodies (rogue_world thr) !! x) as [b|] eqn:Hb; [|done].
    intros [= <-]. apply rogue_world_bodies in Hb as [[-> ->]|[-> ->]]; [left|right]; done. }
  assert (∀ x q, parent_of (rogue_world thr) x = Some q → q = None) as Hparent.
  { intros x q. unfold parent_of.
    destruct (w_bodies (rogue_world thr) !! x) as [b|] eqn:Hb; [|done].
    intros [= <-]. apply rogue_world_bodies in Hb as [[-> ->]|[-> ->]]; done. }
  assert (active_list 0 (rogue_world thr) = [1]) as Hlist by reflexivity.
  split.
  - reflexivity.
  - intros x nx idle st. rewrite Hlist. intros ->%list_elem_of_singleton Hv.
    apply Hview in Hv as [[_ [=]]|[[=] _]].
  - intros x idle sp st Hv. split.
    + intros _ Hsp. rewrite Hlist. apply list_elem_of_singleton.
      apply Hview in Hv as [[-> _]|[_ [= _ -> _]]]; done.
    + intros p Hp. by apply Hparent in Hp.
  - intros x n idle sp st Hv. apply Hview in Hv as [[_ [=]]|[_ [=]]].
  - intros R HR. by apply elem_of_nil in HR.
Qed.

(** C6 as stated fails when the sleep threshold is 0.  In [rogue_world 0] the
    ring of component 1 holds body 1 and the rogue body 2; mergeBodies has
    set the idle time of body 1 to 0, and 0 is not below the threshold: the
    component is judged not active, its root goes to [sleepingComponents] and
    the rogue body is left with a ring link like any sleeping body. *)
Lemma cpSpaceProcessComponents_rogue_component_sleeps :
  ∃ w_mid w',
    cpSpaceProcessComponents_build 3 0 1 (rogue_world 0) = Some ([1], w_mid) ∧
    ring w_mid 1 [1; 2] ∧
    cpBodyIsRogue <$> w_bodies w_mid !! 2 = Some true ∧
    idle_of w_mid 1 = Some 0%float ∧
    componentActive 3 1 0 w_mid = Some (false, w_mid) ∧
    cpSpaceProcessComponents 3 0 1 (rogue_world 0) = Some (tt, w') ∧
    sleepingComponents <$> w_spaces w' !! 0 = Some [1] ∧
    bodies <$> w_spaces w' !! 0 = Some [] ∧
    cpBodyIsSleeping <$> w_bodies w' !! 2 = Some true.
Proof.
  destruct (cpSpaceProcessComponents_build 3 0 1 (rogue_world 0)) as [[cs w_mid]|] eqn:Hbuild;
    [|vm_compute in Hbuild; discriminate].
  assert (Some (cs, w_mid) = Some (cs, w_mid)) as E by reflexivity.
  rewrite <- Hbuild in E at 1. vm_compute in E. injection E as Hcs Hmid.
  destruct (cpSpaceProcessComponents 3 0 1 (rogue_world 0)) as [[[] w']|] eqn:Hrun;
    [|vm_compute in Hrun; discriminate].
  assert (Some (tt, w') = Some (tt, w')) as E by reflexivity.
  rewrite <- Hrun in E at 1. vm_compute in E. injection E as Hw'.
  exists w_mid, w'. rewrite <- Hcs. split; [reflexivity|].
  rewrite <- Hmid, <- Hw'. split.
  { eapply ring_more; [vm_compute; reflexivity|reflexivity|done|].
    eapply ring_last; [vm_compute; reflexivity|reflexivity]. }
  repeat split; vm_compute; reflexivity.
Qed.

(** The condition on the store matters as well.  In [orphan_world] the sleep
    threshold is 0.5, but body 1, whose idle time [mergeBodies] sets to 0, is
    not in [space->bodies] and is not the root of its tree, so ring assembly
    never reaches it: the ring of the rogue body 2 is [2] alone, its idle
    time 1 is not below the threshold, and the component is put to sleep. *)
Lemma cpSpaceProcessComponents_orphan_component_sleeps :
  ¬ build_inv 0 orphan_world [] ∧
  ∃ w_mid w',
    cpSpaceProcessComponents_build 3 0 1 orphan_world = Some ([2], w_mid) ∧
    ring w_mid 2 [2] ∧
    cpBodyIsRogue <$> w_bodies w_mid !! 2 = Some true ∧
    idle_of w_mid 1 = Some 0%float ∧
    componentActive 3 2 0.5 w_mid = Some (false, w_mid) ∧
    cpSpaceProcessComponents 3 0 1 orphan_world = Some (tt, w') ∧
    sleepingComponents <$> w_spaces w' !! 0 = Some [2].
Proof.
  split.
  { intros Hinv.
    destruct (bi_awake _ _ _ Hinv 1 0%float (Some 0) false) as [Hin _]; [reflexivity|].
    specialize (Hin eq_refl ltac:(discriminate)). by apply elem_of_nil in Hin. }
  destruct (cpSpaceProcessComponents_build 3 0 1 orphan_world) as [[cs w_mid]|] eqn:Hbuild;
    [|vm_compute in Hbuild; discriminate].
  assert (Some (cs, w_mid) = Some (cs, w_mid)) as E by reflexivity.
  rewrite <- Hbuild in E at 1. vm_compute in E. injection E as Hcs Hmid.
  destruct (cpSpaceProcessComponents 3 0 1 orphan_world) as [[[] w']|] eqn:Hrun;
    [|vm_compute in Hrun; discriminate].
  assert (Some (tt, w') = Some (tt, w')) as E by reflexivity.
  rewrite <- Hrun in E at 1. vm_compute in E. injection E as Hw'.
  exists w_mid, w'. rewrite <- Hcs. split; [reflexivity|].
  rewrite <- Hmid, <- Hw'. split.
  { eapply ring_last; [vm_compute; reflexivity|reflexivity]. }
  repeat split; vm_compute; reflexivity.
Qed.

(** The copy branch of the component loop writes to bodies only. *)
Lemma copy_loop_frame N root body nb w nb' w' :
  ring_loop N cpSpaceProcessComponents_copy root body nb w = Some (nb', w') →
  w_spaces w' = w_spaces w ∧ w_shapes w' = w_shapes w ∧ w_arbiters w' = w_arbiters w ∧
  w_constraints w' = w_constraints w ∧ w_blocks w' = w_blocks w.
Proof.
  intros H.
  refine (preserves_ring_loop
            (λ w1, w_spaces w1 = w_spaces w ∧ w_shapes w1 = w_shapes w ∧
                   w_arbiters w1 = w_arbiters w ∧ w_constraints w1 = w_constraints w ∧
                   w_blocks w1 = w_blocks w) _ _ _ _ _ _ _ _ _ H _); [|done].
  intros acc y w1 acc1 w2 Hstep HI. unfold cpSpaceProcessComponents_copy in Hstep.
  apply bind_Some in Hstep as (b & ? & Hb & Hstep). apply load_body_Some in Hb as [Hb ->].
  cbv zeta in Hstep. apply bind_Some in Hstep as ([] & w3 & Hmod & Hstep).
  apply ret_Some in Hstep as [_ ->]. apply modify_node_Some in Hmod as (b' & _ & ->). done.
Qed.

(** C6, as the code has it.  (1) Whenever [mergeBodies] returns for two
    bodies neither of which is static, a rogue one among them is in the
    [rogueBodies] it returns and the idle time of the other one is 0.
    (2) Take a store as [cpSpaceProcessComponents] expects it ([build_inv]
    with no rogue body collected yet: the space is unlocked, its bodies are
    not rogue, awake bodies that are dynamic and not rogue are in
    [space->bodies], sleeping bodies are of this space and on the ring of
    their tree) and a sleep threshold above 0.  Then in a run that
    returns, whenever the component loop comes to a root whose ring has a
    rogue member, [componentActive] answers true: the step for that component
    is the copy branch, which calls [cpSpaceDeactivateBody] on nothing,
    returns, and leaves the spaces (hence [sleepingComponents]), shapes,
    arbiters, constraints and heap blocks as they are. *)
Theorem cpSpaceProcessComponents_rogue_dominance (N : nat) (s : ptr) :
  (∀ cs rb a b ab bb w rb' w',
     w_bodies w !! a = Some ab → w_bodies w !! b = Some bb →
     cpBodyIsStatic ab = false → cpBodyIsStatic bb = false →
     mergeBodies N s cs rb a b w = Some (rb', w') →
     (cpBodyIsRogue ab = true → a ∈ rb' ∧ idle_of w' b = Some 0%float) ∧
     (cpBodyIsRogue bb = true → b ∈ rb' ∧ idle_of w' a = Some 0%float)) ∧
  (∀ dt thr w w',
     build_inv s w [] →
     sleepTimeThreshold <$> w_spaces w !! s = Some thr →
     (0 <? thr)%float = true →
     cpSpaceProcessComponents N s dt w = Some (tt, w') →
     ∃ components w_mid,
       cpSpaceProcessComponents_build N s dt w = Some (components, w_mid) ∧
       ∀ pre root post nb w_j l R b,
         components = pre ++ root :: post →
         for_array (cpSpaceProcessComponents_component N s) pre [] w_mid = Some (nb, w_j) →
         ring w_j root l → R ∈ l → w_bodies w_j !! R = Some b → cpBodyIsRogue b = true →
         componentActive N root thr w_j = Some (true, w_j) ∧
         cpSpaceProcessComponents_component N s nb root w_j =
           ring_loop N cpSpaceProcessComponents_copy root root nb w_j ∧
         ∃ nb' w_j',
           cpSpaceProcessComponents_component N s nb root w_j = Some (nb', w_j') ∧
           w_spaces w_j' = w_spaces w_j ∧ w_shapes w_j' = w_shapes w_j ∧
           w_arbiters w_j' = w_arbiters w_j ∧ w_constraints w_j' = w_constraints w_j ∧
           w_blocks w_j' = w_blocks w_j).
Proof.
  split.
  { intros cs rb a b ab bb w rb' w' Hab Hbb Hsa Hsb H. by eapply mergeBodies_rogue_idle. }
  intros dt thr w w' Hinv Hthr Hpos H. unfold cpSpaceProcessComponents in H. cbv zeta in H.
  apply bind_Some in H as (components & w_mid & Hbuild & H).
  apply bind_Some in H as (nb_end & w_end & Hverdict & _).
  exists components, w_mid. split; [done|].
  intros pre root post nb w_j l R b -> Hpre Hring HR Hb Hrogue.
  destruct (cpSpaceProcessComponents_build_forest _ _ _ _ _ _ Hbuild Hinv)
    as (rb & w3 & cs1 & w4 & Hinv3 & Hadd1 & Hadd2).
  destruct (assembly_kept_awake _ _ _ _ _ _ _ _ Hinv3 Hadd1 Hadd2) as [Hnd Hkept].
  pose proof (verdict_kept_awake _ _ _ _ _ _ _ _ Hpre Hnd Hkept root
                ltac:(by left)) as Hroot.
  assert (sleepTimeThreshold <$> w_spaces w_j !! s = Some thr) as Hthr_j.
  { refine (preserves_for_array
              (λ w1, sleepTimeThreshold <$> w_spaces w1 !! s = Some thr)
              _ _ _ _ _ _ _ Hpre _).
    - intros. apply preserves_threshold_component.
    - by eapply (preserves_threshold_build s thr). }
  rewrite for_array_app, Hpre in Hverdict. cbn [for_array] in Hverdict.
  apply bind_Some in Hverdict as (nb1 & w1 & Hc & _).
  pose proof Hc as Hc'. unfold cpSpaceProcessComponents_component in Hc'.
  apply bind_Some in Hc' as (sp & ? & Hsp & Hc'). apply load_space_Some in Hsp as [Hsp ->].
  rewrite Hsp in Hthr_j. injection Hthr_j as Hthr_j. rewrite Hthr_j in Hc'.
  apply bind_Some in Hc' as (active & ? & Hact & Hc').
  pose proof (reads_componentActive _ _ _ _ _ _ Hact) as ->.
  assert (active = true) as ->.
  { unfold cpBodyIsRogue in Hrogue. apply bool_decide_eq_true in Hrogue.
    apply (componentActive_kept_awake N root thr w_j active w_j l R
             (next (node b)) (idleTime (node b)) (isStatic b)); try done.
    unfold view_of. rewrite Hb. simpl. unfold bview. by rewrite Hrogue. }
  split; [done|]. split.
  { unfold cpSpaceProcessComponents_component, bind at 1, load_space.
    rewrite Hsp. simpl. rewrite Hthr_j. unfold bind at 1. by rewrite Hact. }
  exists nb1, w1. split; [done|]. by eapply copy_loop_frame.
Qed.

Lemma cpSpaceProcessComponents_rogue_dominance_witness :
  (∃ rb' w1,
     mergeBodies 3 0 [] [] 1 2 (rogue_world 0.5) = Some (rb', w1) ∧
     2 ∈ rb' ∧ idle_of w1 1 = Some 0%float) ∧
  ∃ w_mid,
    cpSpaceProcessComponents_build 3 0 1 (rogue_world 0.5) = Some ([1], w_mid) ∧
    ring w_mid 1 [1; 2] ∧
    cpBodyIsRogue <$> w_bodies w_mid !! 2 = Some true ∧
    componentActive 3 1 0.5 w_mid = Some (true, w_mid) ∧
    ∃ nb' w', cpSpaceProcessComponents_component 3 0 [] 1 w_mid = Some (nb', w') ∧
              w_spaces w' = w_spaces w_mid.
Proof.
  split.
  { destruct (mergeBodies 3 0 [] [] 1 2 (rogue_world 0.5)) as [[rb' w1]|] eqn:Hrun;
      [|vm_compute in Hrun; discriminate].
    destruct (proj1 (cpSpaceProcessComponents_rogue_dominance 3 0) [] [] 1 2
                (example_body (Some 0) (Some 11) (mkNode None None 0 0))
                (example_body None (Some 12) (mkNode None None 0 0))
                (rogue_world 0.5) rb' w1
                ltac:(vm_compute; reflexivity) ltac:(vm_compute; reflexivity)
                eq_refl eq_refl Hrun) as [_ Hb].
    exists rb', w1. split; [reflexivity|]. exact (Hb eq_refl). }
  destruct (cpSpaceProcessComponents 3 0 1 (rogue_world 0.5)) as [[[] w']|] eqn:Hrun;
    [|vm_compute in Hrun; discriminate].
  destruct (proj2 (cpSpaceProcessComponents_rogue_dominance 3 0) 1%float 0.5%float
              (rogue_world 0.5) w'
              (rogue_world_build_inv 0.5) ltac:(reflexivity) ltac:(reflexivity) Hrun)
    as (cs & w_mid & Hbuild & Hall).
  assert (Some (cs, w_mid) = Some (cs, w_mid)) as E by reflexivity.
  rewrite <- Hbuild in E at 1. vm_compute in E. injection E as Hcs Hmid.
  exists w_mid. rewrite <- Hcs in Hbuild, Hall. split; [exact Hbuild|].
  assert (ring w_mid 1 [1; 2]) as Hring.
  { rewrite <- Hmid.
    eapply ring_more; [vm_compute; reflexivity|reflexivity|discriminate|].
    eapply ring_last; [vm_compute; reflexivity|reflexivity]. }
  split; [exact Hring|].
  assert (w_bodies w_mid !! 2
          = Some (example_body None (Some 12) (mkNode (Some 1) (Some 1) 0 0))) as Hb.
  { rewrite <- Hmid. vm_compute. reflexivity. }
  split; [rewrite Hb; reflexivity|].
  destruct (Hall [] 1 [] [] w_mid [1; 2] 2 _ eq_refl eq_refl Hring
              ltac:(right; left) Hb eq_refl)
    as (Hact & _ & nb' & w_j' & Hstep & Hsp & _).
  split; [exact Hact|]. exists nb', w_j'. split; [exact Hstep|exact Hsp].
Defined.

(** * Further properties of the engine *)

(** ** The disjoint-set forest *)

(** After path compression the chain of [x] has at most one link. *)
Lemma compress_chain w x l r :
  chain w x l r →
  chain (with_bodies (compress r l (w_bodies w)) w) x (if decide (x = r) then [] else [x]) r.
Proof.
  intros Hc.
  assert (parent_of (with_bodies (compress r l (w_bodies w)) w) r = Some None) as Hr.
  { rewrite compress_parent_of, decide_False by (by eapply chain_root_not_in).
    by eapply chain_root_parent_of. }
  case_decide as Hx; [subst; by apply chain_root'|].
  apply (chain_step' _ _ r); [|by apply chain_root'].
  rewrite compress_parent_of.
  inversion Hc as [? b Hb Hp|? b p l' ? Hb Hp Hc']; simplify_eq.
  rewrite decide_True by (by left).
  assert (parent_of w x = Some (Some p)) as -> by (apply parent_of_Some; eauto). done.
Qed.

(** X1.  [componentNodeRoot] is idempotent: when it has returned the root [r]
    of [x], calling it again on [x], or on [r], returns [r] and writes
    nothing. *)
Theorem componentNodeRoot_twice (N : nat) (x r : ptr) (w w' : world) :
  componentNodeRoot N x w = Some (r, w') →
  componentNodeRoot N x w' = Some (r, w') ∧ componentNodeRoot N r w' = Some (r, w').
Proof.
  intros H. apply componentNodeRoot_inv in H as (l & Hc & Hlen & ->).
  pose proof (compress_chain _ _ _ _ Hc) as Hc'.
  assert (0 < N) as HN by lia.
  split.
  - rewrite (componentNodeRoot_chain _ _ _ _ N Hc').
    + rewrite (compress_short _ _ _ _ Hc') by (case_decide; simpl; lia).
      by rewrite with_bodies_id.
    + case_decide as Hx; [simpl; lia|]. simpl.
      destruct Hc as [|? ? ? l0]; [done|simpl in Hlen; lia].
  - pose proof (chain_root_chain _ _ _ _ Hc') as Hr.
    rewrite (componentNodeRoot_chain _ _ _ _ N Hr) by (simpl; lia).
    rewrite (compress_short _ _ _ _ Hr) by (simpl; lia). by rewrite with_bodies_id.
Qed.

Lemma componentNodeRoot_twice_witness :
  ∃ w', componentNodeRoot 3 1 chain_world = Some (3, w') ∧
        componentNodeRoot 3 1 w' = Some (3, w') ∧ componentNodeRoot 3 3 w' = Some (3, w').
Proof.
  destruct (componentNodeRoot 3 1 chain_world) as [[r w']|] eqn:Hrun;
    [|vm_compute in Hrun; discriminate].
  assert (r = 3) as ->.
  { assert (Some r = Some 3) as E; [|by injection E].
    change (Some r) with (fst <$> Some (r, w')). rewrite <- Hrun. vm_compute. reflexivity. }
  exists w'. split; [reflexivity|]. exact (componentNodeRoot_twice 3 1 3 chain_world w' Hrun).
Defined.

(** X2.  [componentNodeMerge] on two roots returns and leaves one of them,
    [r], as the root of both trees: every body that was under either root is
    under [r], every other tree keeps its root, and merging a root with
    itself writes nothing. *)
Theorem componentNodeMerge_unites (a b : ptr) (w : world) :
  parent_of w a = Some None → parent_of w b = Some None →
  ∃ w' r,
    componentNodeMerge a b w = Some (tt, w') ∧
    (r = a ∨ r = b) ∧ parent_of w' r = Some None ∧
    (∀ y, root_of w y a ∨ root_of w y b → root_of w' y r) ∧
    (∀ y ry, root_of w y ry → ry ≠ a → ry ≠ b → root_of w' y ry) ∧
    (a = b → w' = w).
Proof.
  intros Ha Hb.
  assert (∃ w', componentNodeMerge a b w = Some (tt, w') ∧ (a = b → w' = w)) as (w' & Hrun & Hsame).
  { apply parent_of_Some in Ha as (ba & Hba & _). apply parent_of_Some in Hb as (bb & Hbb & _).
    unfold componentNodeMerge, bind at 1, load_body. rewrite Hba. simpl.
    unfold bind at 1, load_body. rewrite Hbb. simpl.
    destruct (rank (node ba) <? rank (node bb))%Z eqn:Hlt.
    { unfold modify_node, modify_body. rewrite Hba. simpl. eexists. split; [done|].
      intros ->. assert (ba = bb) as -> by congruence. lia. }
    destruct (rank (node ba) >? rank (node bb))%Z eqn:Hgt.
    { unfold modify_node, modify_body. rewrite Hbb. simpl. eexists. split; [done|].
      intros ->. assert (ba = bb) as -> by congruence. lia. }
    case_decide as Hne; [|eexists; split; done].
    unfold bind, modify_node, modify_body. rewrite Hbb. simpl.
    rewrite lookup_insert_ne by done. rewrite Hba. simpl. eexists. split; done. }
  exists w'. pose proof Hrun as Hinv.
  apply componentNodeMerge_inv in Hinv as (_ & _ & _ & _ & _ & _ & Hmerge).
  destruct Hmerge as [[-> Hp]|(child & par & Hcp & Hne & Hchild & Hp)].
  - assert (∀ y ry, root_of w y ry → root_of w' y ry) as Hroots.
    { intros y ry [l Hc]. exists l. eapply chain_frame; [|done]. intros z _. apply Hp. }
    exists b. split; [done|]. split; [by left|]. split; [by rewrite Hp|].
    split; [intros y [?|?]; by apply Hroots|]. split; [|by apply Hsame].
    intros y ry Hy _ _. by apply Hroots.
  - assert (parent_of w child = Some None ∧ parent_of w par = Some None) as [Hc0 Hp0].
    { destruct Hcp as [[-> ->]|[-> ->]]; done. }
    pose proof (λ y ry, link_root_of w w' child par y ry Hne Hc0 Hp0 Hchild Hp) as Hlink.
    exists par. split; [done|]. split; [destruct Hcp as [[_ ->]|[_ ->]]; auto|].
    split; [by rewrite Hp|]. split; [|split].
    + intros y Hy.
      assert (∃ ry, root_of w y ry ∧ (ry = child ∨ ry = par)) as (ry & Hry & Hcase).
      { destruct Hy as [Hy|Hy], Hcp as [[-> ->]|[-> ->]]; eauto. }
      specialize (Hlink y ry Hry). destruct Hcase as [-> | ->].
      * by rewrite decide_True in Hlink.
      * by rewrite decide_False in Hlink by done.
    + intros y ry Hy Hya Hyb. specialize (Hlink y ry Hy).
      rewrite decide_False in Hlink; [done|]. destruct Hcp as [[-> ->]|[-> ->]]; done.
    + intros ->. destruct Hcp as [[-> ->]|[-> ->]]; done.
Qed.

Lemma componentNodeMerge_unites_witness :
  ∃ w' r,
    componentNodeMerge 1 2 awake_pair = Some (tt, w') ∧
    (r = 1 ∨ r = 2) ∧ parent_of w' r = Some None ∧
    (∀ y, root_of awake_pair y 1 ∨ root_of awake_pair y 2 → root_of w' y r) ∧
    (∀ y ry, root_of awake_pair y ry → ry ≠ 1 → ry ≠ 2 → root_of w' y ry) ∧
    (1 = 2 → w' = awake_pair).
Proof. exact (componentNodeMerge_unites 1 2 awake_pair eq_refl eq_refl). Defined.

(** ** [componentActive] *)

Lemma componentActive_loop_ring N root thr x l w :
  ring_from w root x l → length l ≤ N →
  componentActive_loop N thr root x w =
    Some (existsb (λ y, default false ((λ i, (i <? thr)%float) <$> idle_of w y)) l, w).
Proof.
  intros Hring. revert N. induction Hring as [x b Hb Hn|x b y l Hb Hn Hy Hl IH]; intros N HN;
    (destruct N as [|N]; [simpl in HN; lia|]); cbn [componentActive_loop existsb];
    unfold bind at 1, load_body; rewrite Hb; simpl; unfold idle_of; rewrite Hb; simpl;
    destruct (idleTime (node b) <? thr)%float; simpl; try done; rewrite Hn.
  - by rewrite decide_True.
  - rewrite decide_False by done. apply IH. simpl in HN. lia.
Qed.

(** X3.  On a ring [componentActive] returns, writes nothing, and answers
    whether some member of the ring has an idle time below the threshold. *)
Theorem componentActive_ring (N : nat) (root : ptr) (thr : cpFloat) (w : world)
    (l : list ptr) :
  ring w root l → length l ≤ N →
  componentActive N root thr w =
    Some (existsb (λ y, default false ((λ i, (i <? thr)%float) <$> idle_of w y)) l, w).
Proof. apply componentActive_loop_ring. Qed.

Lemma componentActive_ring_witness :
  componentActive 1 1 0.5 locked_world = Some (true, locked_world) ∧
  componentActive 1 1 0 locked_world = Some (false, locked_world).
Proof.
  assert (ring locked_world 1 [1]) as Hring.
  { eapply ring_last; [vm_compute; reflexivity|reflexivity]. }
  split.
  - rewrite (componentActive_ring 1 1 0.5 locked_world [1] Hring (le_n 1)). reflexivity.
  - rewrite (componentActive_ring 1 1 0 locked_world [1] Hring (le_n 1)). reflexivity.
Defined.

(** ** Putting bodies to sleep *)

(** X4.  [cpBodySleepWithGroup] stops at its assertions: it does not return
    for a static body, for a rogue body, for a body of a locked space, or
    with a group that is not sleeping. *)
Theorem cpBodySleepWithGroup_rejects (N : nat) (body : ptr) (group : option ptr) (w : world)
    (b : cpBody) :
  w_bodies w !! body = Some b →
  cpBodyIsStatic b = true ∨ cpBodyIsRogue b = true ∨
  (∃ s sp, space b = Some s ∧ w_spaces w !! s = Some sp ∧ locked sp = true) ∨
  (∃ g gb, group = Some g ∧ w_bodies w !! g = Some gb ∧ cpBodyIsSleeping gb = false) →
  cpBodySleepWithGroup N body group w = None.
Proof.
  intros Hb Hcase.
  destruct (cpBodySleepWithGroup N body group w) as [[[] w']|] eqn:H; [exfalso|done].
  unfold cpBodySleepWithGroup in H.
  apply bind_Some in H as (b0 & ? & Hb0 & H). apply load_body_Some in Hb0 as [Hb0 ->].
  assert (b0 = b) as -> by congruence.
  apply bind_Some in H as ([] & ? & Hassert & H).
  destruct (cpBodyIsStatic b) eqn:Hst; [done|].
  destruct (cpBodyIsRogue b) eqn:Hrg; [done|].
  apply ret_Some in Hassert as [_ ->].
  destruct (space b) as [s|] eqn:Hs; [|done].
  apply bind_Some in H as (sp & ? & Hsp & H). apply load_space_Some in Hsp as [Hsp ->].
  apply bind_Some in H as ([] & ? & Hassert & H).
  destruct (locked sp) eqn:Hlk; [done|]. apply ret_Some in Hassert as [_ ->].
  apply bind_Some in H as ([] & ? & Hgroup & _).
  destruct Hcase as [?|[?|[(s' & sp' & Hs' & Hsp' & Hlk')|(g & gb & -> & Hg & Hsl)]]];
    [done..|congruence|].
  apply bind_Some in Hgroup as (gb0 & ? & Hgb & Hassert).
  apply load_body_Some in Hgb as [Hgb ->]. assert (gb0 = gb) as -> by congruence.
  by rewrite Hsl in Hassert.
Qed.

Lemma cpBodySleepWithGroup_rejects_witness :
  cpBodySleepWithGroup 3 2 None static_world = None ∧
  cpBodySleepWithGroup 3 2 None (rogue_world 0.5) = None ∧
  cpBodySleepWithGroup 3 1 None locked_world = None ∧
  cpBodySleepWithGroup 3 1 (Some 2) awake_pair = None.
Proof.
  split; [|split; [|split]].
  - eapply (cpBodySleepWithGroup_rejects 3 2 None static_world); [vm_compute; reflexivity|].
    left. reflexivity.
  - eapply (cpBodySleepWithGroup_rejects 3 2 None (rogue_world 0.5));
      [vm_compute; reflexivity|]. right. left. reflexivity.
  - eapply (cpBodySleepWithGroup_rejects 3 1 None locked_world); [vm_compute; reflexivity|].
    right. right. left. do 2 eexists. split; [reflexivity|]. split; reflexivity.
  - eapply (cpBodySleepWithGroup_rejects 3 1 (Some 2) awake_pair); [vm_compute; reflexivity|].
    right. right. right. do 2 eexists. split; [reflexivity|]. split; reflexivity.
Defined.

(** ** What putting a body to sleep writes *)

(** [cpBodySleepWithGroup] up to where it links the body: the assertions have
    passed, the shapes have been refreshed and the body deactivated, which
    leaves the body records, the lock, [space->bodies] and
    [sleepingComponents] as they were. *)
Lemma cpBodySleepWithGroup_inv N body group w w' b s sp :
  w_bodies w !! body = Some b → cpBodyIsSleeping b = false →
  space b = Some s → w_spaces w !! s = Some sp →
  cpBodySleepWithGroup N body group w = Some (tt, w') →
  locked sp = false ∧
  ∃ w1 sp1,
    w_bodies w1 = w_bodies w ∧ w_spaces w1 !! s = Some sp1 ∧
    locked sp1 = false ∧ bodies sp1 = bodies sp ∧
    sleepingComponents sp1 = sleepingComponents sp ∧
    (match group with
     | Some group =>
         let* root := componentNodeRoot N group in
         let* r := load_body root in
         modify_node body (λ _, mkNode (Some root) (next (node r)) 0 0);;
         modify_node root (set_next (Some body))
     | None =>
         modify_node body (λ _, mkNode None (Some body) 0 0);;
         modify_space s (λ s, set_sleepingComponents (cpArrayPush (sleepingComponents s) body) s)
     end;;
     modify_space s (λ s, set_bodies (cpArrayDeleteObj (bodies s) body) s)) w1 = Some (tt, w').
Proof.
  intros Hb Hawake Hs Hsp H. unfold cpBodySleepWithGroup in H.
  apply bind_Some in H as (b0 & ? & Hb0 & H). apply load_body_Some in Hb0 as [Hb0 ->].
  assert (b0 = b) as -> by congruence.
  apply bind_Some in H as ([] & ? & Hassert & H). apply reads_cpAssert in Hassert as ->.
  rewrite Hs in H.
  apply bind_Some in H as (sp0 & ? & Hsp0 & H). apply load_space_Some in Hsp0 as [Hsp0 ->].
  assert (sp0 = sp) as -> by congruence.
  apply bind_Some in H as ([] & ? & Hassert & H).
  destruct (locked sp) eqn:Hlk; [done|]. apply ret_Some in Hassert as [_ ->].
  split; [done|].
  apply bind_Some in H as ([] & w0 & Hgroup & H).
  assert (w0 = w) as ->.
  { destruct group as [g|]; [|by apply ret_Some in Hgroup as [_ ->]].
    apply bind_Some in Hgroup as (gb & ? & Hgb & Hassert).
    apply load_body_Some in Hgb as [_ ->]. by apply reads_cpAssert in Hassert. }
  rewrite Hawake in H.
  apply bind_Some in H as ([] & w1 & Hshapes & H).
  apply bind_Some in H as ([] & w2 & Hdeact & H).
  assert (w_bodies w1 = w_bodies w ∧ w_spaces w1 = w_spaces w) as [Hb1 Hs1].
  { refine (preserves_for_each (λ w1, w_bodies w1 = w_bodies w ∧ w_spaces w1 = w_spaces w)
              _ _ _ _ _ _ _ _ _ Hshapes (conj eq_refl eq_refl)).
    - intros x. apply reads_preserves, reads_shape_link.
    - intros x wa [] wb Hstep HI. unfold cpBodySleepWithGroup_shape, cpShapeUpdate in Hstep.
      apply modify_shape_Some in Hstep as (sh & _ & ->). done. }
  assert (w_bodies w2 = w_bodies w) as Hb2.
  { rewrite <- Hb1.
    exact (preserves_cpSpaceDeactivateBody_bodies (λ bs, bs = w_bodies w1) _ _ _ _ _ _
             Hdeact eq_refl). }
  assert ((λ s, (locked s, bodies s, sleepingComponents s)) <$> w_spaces w2 !! s
          = Some (locked sp, bodies sp, sleepingComponents sp)) as Hs2.
  { refine (preserves_cpSpaceDeactivateBody_field
              (λ s, (locked s, bodies s, sleepingComponents s)) s _ _ _ _ _ _ _ N s body
              _ _ _ Hdeact _); try done.
    by rewrite Hs1, Hsp. }
  destruct (w_spaces w2 !! s) as [sp2|] eqn:Hsp2; [|done].
  simpl in Hs2. injection Hs2 as Hlk2 Hbs2 Hsc2.
  exists w2, sp2. rewrite Hlk2. done.
Qed.

Lemma cpBodySleep_component_inv N body s w w' b sp :
  w_bodies w !! body = Some b → cpBodyIsSleeping b = false →
  space b = Some s → w_spaces w !! s = Some sp →
  cpBodySleep N body w = Some (tt, w') →
  w_bodies w' = <[body := set_node (mkNode None (Some body) 0 0) b]> (w_bodies w) ∧
  sring w' body [body] ∧
  ∃ sp', w_spaces w' !! s = Some sp' ∧ locked sp' = false ∧
         bodies sp' = cpArrayDeleteObj (bodies sp) body ∧
         sleepingComponents sp' = sleepingComponents sp ++ [body].
Proof.
  intros Hb Hawake Hs Hsp H. unfold cpBodySleep in H.
  destruct (cpBodySleepWithGroup_inv _ _ _ _ _ _ _ _ Hb Hawake Hs Hsp H)
    as (_ & w1 & sp1 & Hb1 & Hsp1 & Hlk1 & Hbs1 & Hsc1 & Htail).
  apply bind_Some in Htail as ([] & w3 & Hlink & Htail).
  apply bind_Some in Hlink as ([] & w2 & Hnode & Hpush).
  apply modify_node_Some in Hnode as (b1 & Hb1' & ->).
  apply modify_space_Some in Hpush as (sp2 & Hsp2 & ->).
  apply modify_space_Some in Htail as (sp3 & Hsp3 & ->).
  simpl in *. rewrite Hb1, Hb in Hb1'. injection Hb1' as <-.
  rewrite Hsp1 in Hsp2. injection Hsp2 as <-.
  rewrite lookup_insert_eq in Hsp3. injection Hsp3 as <-.
  split; [by rewrite Hb1|]. split.
  - split; [|split].
    + eapply ring_last; [simpl; apply lookup_insert_eq|done].
    + unfold parent_of. simpl. by rewrite lookup_insert_eq.
    + intros y Hy Hne. by apply list_elem_of_singleton in Hy.
  - eexists. split; [apply lookup_insert_eq|]. simpl. by rewrite Hbs1, Hsc1.
Qed.

(** X5.  When [cpBodySleep] returns for an awake body it has made the body a
    sleeping component of its own: the body is given the node
    [{absent, itself, 0, 0}] and so is a ring with its tree, no other body
    record changes, the body is appended to [sleepingComponents] and its
    first occurrence is taken out of [space->bodies]. *)
Theorem cpBodySleep_component (N : nat) (body s : ptr) (w w' : world) (b : cpBody)
    (sp : cpSpace) :
  w_bodies w !! body = Some b → cpBodyIsSleeping b = false →
  space b = Some s → w_spaces w !! s = Some sp →
  cpBodySleep N body w = Some (tt, w') →
  w_bodies w' = <[body := set_node (mkNode None (Some body) 0 0) b]> (w_bodies w) ∧
  sring w' body [body] ∧
  ∃ sp', w_spaces w' !! s = Some sp' ∧ locked sp' = false ∧
         bodies sp' = cpArrayDeleteObj (bodies sp) body ∧
         sleepingComponents sp' = sleepingComponents sp ++ [body].
Proof. apply cpBodySleep_component_inv. Qed.

Lemma cpBodySleep_component_witness :
  ∃ w', cpBodySleep 2 1 resting_world = Some (tt, w') ∧
        sring w' 1 [1] ∧
        bodies <$> w_spaces w' !! 0 = Some [] ∧
        sleepingComponents <$> w_spaces w' !! 0 = Some [1].
Proof.
  destruct (cpBodySleep 2 1 resting_world) as [[[] w']|] eqn:Hrun;
    [|vm_compute in Hrun; discriminate].
  destruct (cpBodySleep_component 2 1 0 resting_world w'
              (example_body (Some 0) (Some 11) (mkNode None None 0 0))
              (example_space false 0.5 [1] [])
              ltac:(vm_compute; reflexivity) eq_refl eq_refl ltac:(vm_compute; reflexivity)
              Hrun) as (_ & Hring & sp' & Hsp' & _ & Hbs & Hsc).
  exists w'. split; [reflexivity|]. split; [exact Hring|].
  rewrite Hsp'. simpl. rewrite Hbs, Hsc. split; reflexivity.
Defined.

(** Putting a body to sleep in the group of a sleeping body. *)
Lemma cpBodySleepWithGroup_joins_inv (N : nat) (body g s r : ptr) (l : list ptr)
    (w w' : world) (b : cpBody) (sp : cpSpace) :
  w_bodies w !! body = Some b → cpBodyIsSleeping b = false →
  space b = Some s → w_spaces w !! s = Some sp →
  sring w r l → g ∈ l →
  cpBodySleepWithGroup N body (Some g) w = Some (tt, w') →
  ∃ br t,
    w_bodies w !! r = Some br ∧ l = r :: t ∧
    w_bodies w' =
      <[r := set_node (set_next (Some body) (node br)) br]>
        (<[body := set_node (mkNode (Some r) (next (node br)) 0 0) b]> (w_bodies w)) ∧
    sring w' r (r :: body :: t) ∧
    ∃ sp', w_spaces w' !! s = Some sp' ∧ locked sp' = false ∧
           bodies sp' = cpArrayDeleteObj (bodies sp) body ∧
           sleepingComponents sp' = sleepingComponents sp.
Proof.
  intros Hb Hawake Hs Hsp Hring Hg H.
  destruct (cpBodySleepWithGroup_inv _ _ _ _ _ _ _ _ Hb Hawake Hs Hsp H)
    as (_ & w1 & sp1 & Hb1 & Hsp1 & Hlk1 & Hbs1 & Hsc1 & Htail).
  assert (next_of w body = Some None) as Hbn.
  { apply next_of_Some. exists b. split; [done|]. unfold cpBodyIsSleeping in Hawake.
    apply bool_decide_eq_false in Hawake. destruct (next (node b)); [by destruct Hawake|done]. }
  assert (body ∉ l) as Hbl.
  { intros Hin. destruct (sring_next _ _ _ _ Hring Hin) as (? & ?). congruence. }
  assert (sring w1 r l) as Hring1.
  { eapply sring_frame; [|done]. intros y _. unfold next_of, parent_of. by rewrite Hb1. }
  apply bind_Some in Htail as ([] & w4 & Hlink & Htail).
  apply bind_Some in Hlink as (root & w2 & Hfind & Hlink).
  apply componentNodeRoot_inv in Hfind as (lg & Hc & _ & ->).
  pose proof (sring_root_of _ _ _ _ Hring1 Hg) as Hgr.
  assert (root = r) as -> by (eapply root_of_det; [by eexists|done]).
  assert (length lg ≤ 1) as Hlen.
  { assert (chain w1 g (if decide (g = r) then [] else [g]) r) as Hc'.
    { destruct Hring1 as (_ & Hr0 & Hpar). case_decide as Hne; [subst; by apply chain_root'|].
      apply (chain_step' _ _ r); [by apply Hpar|by apply chain_root']. }
    destruct (chain_det _ _ _ _ _ _ Hc Hc') as [-> _]. case_decide; simpl; lia. }
  rewrite (compress_short _ _ _ _ Hc Hlen), with_bodies_id in Hlink.
  apply bind_Some in Hlink as (br & ? & Hbr & Hlink). apply load_body_Some in Hbr as [Hbr ->].
  apply bind_Some in Hlink as ([] & w3 & Hnode & Hroot).
  apply modify_node_Some in Hnode as (b1 & Hb1' & ->).
  apply modify_node_Some in Hroot as (br' & Hbr' & ->).
  apply modify_space_Some in Htail as (sp3 & Hsp3 & ->).
  simpl in *. rewrite Hb1 in Hb1', Hbr, Hbr'. rewrite Hb in Hb1'. injection Hb1' as <-.
  assert (body ≠ r) as Hne by (intros ->; by apply Hbl, (sring_root_in w1)).
  rewrite lookup_insert_ne in Hbr' by done. rewrite Hbr in Hbr'. injection Hbr' as <-.
  rewrite Hsp1 in Hsp3. injection Hsp3 as <-.
  destruct (ring_from_head _ _ _ _ (proj1 Hring)) as [t ->].
  exists br, t. split; [done|]. split; [done|]. split; [by rewrite Hb1|]. split.
  - assert (next_of w r = Some (Some (default r (next (node br))))) as Hrn.
    { destruct (sring_next _ _ _ _ Hring (sring_root_in _ _ _ Hring)) as (n & Hn).
      rewrite Hn. apply next_of_Some in Hn as (br0 & Hbr0 & Hn).
      assert (br0 = br) as -> by congruence. by rewrite Hn. }
    assert (next (node br) = Some (default r (next (node br)))) as Hnbr.
    { apply next_of_Some in Hrn as (br0 & Hbr0 & Hn). congruence. }
    split; [|split].
    + apply (ring_splice w _ r body (default r (next (node br))) t); [exact (proj1 Hring)|done..| | |].
      * unfold next_of. simpl. by rewrite lookup_insert_eq.
      * unfold next_of. simpl. rewrite lookup_insert_ne by done.
        rewrite Hb1, lookup_insert_eq. simpl. by rewrite <- Hnbr.
      * intros y Hyb Hyr. unfold next_of. simpl.
        rewrite !lookup_insert_ne by done. by rewrite Hb1.
    + unfold parent_of. simpl. rewrite lookup_insert_eq. simpl.
      destruct Hring as (_ & Hr0 & _). apply parent_of_Some in Hr0 as (br0 & Hbr0 & Hp0).
      congruence.
    + intros y Hy Hyr. apply elem_of_cons in Hy as [->|Hy]; [done|].
      unfold parent_of. simpl. rewrite lookup_insert_ne by done.
      apply elem_of_cons in Hy as [->|Hy].
      * by rewrite Hb1, lookup_insert_eq.
      * rewrite Hb1, lookup_insert_ne by (intros ->; apply Hbl; by right).
        destruct Hring as (_ & _ & Hpar). apply Hpar; [by right|done].
  - eexists. split; [apply lookup_insert_eq|]. simpl. by rewrite Hbs1, Hsc1.
Qed.

(** X6.  When [cpBodySleepWithGroup] returns for an awake body and a group
    that is on the ring with tree of [r], it has spliced the body into that
    ring right after [r] and made [r] its parent: the ring is again a ring
    with its tree, only the records of the body and of [r] change,
    [sleepingComponents] stays and the first occurrence of the body is taken
    out of [space->bodies]. *)
Theorem cpBodySleepWithGroup_joins (N : nat) (body g s r : ptr) (l : list ptr)
    (w w' : world) (b : cpBody) (sp : cpSpace) :
  w_bodies w !! body = Some b → cpBodyIsSleeping b = false →
  space b = Some s → w_spaces w !! s = Some sp →
  sring w r l → g ∈ l →
  cpBodySleepWithGroup N body (Some g) w = Some (tt, w') →
  ∃ br t,
    w_bodies w !! r = Some br ∧ l = r :: t ∧
    w_bodies w' =
      <[r := set_node (set_next (Some body) (node br)) br]>
        (<[body := set_node (mkNode (Some r) (next (node br)) 0 0) b]> (w_bodies w)) ∧
    sring w' r (r :: body :: t) ∧
    ∃ sp', w_spaces w' !! s = Some sp' ∧ locked sp' = false ∧
           bodies sp' = cpArrayDeleteObj (bodies sp) body ∧
           sleepingComponents sp' = sleepingComponents sp.
Proof. apply cpBodySleepWithGroup_joins_inv. Qed.

Lemma cpBodySleepWithGroup_joins_witness :
  ∃ w', cpBodySleepWithGroup 3 2 (Some 1) group_world = Some (tt, w') ∧
        sring w' 1 [1; 2] ∧
        bodies <$> w_spaces w' !! 0 = Some [] ∧
        sleepingComponents <$> w_spaces w' !! 0 = Some [1].
Proof.
  destruct (cpBodySleepWithGroup 3 2 (Some 1) group_world) as [[[] w']|] eqn:Hrun;
    [|vm_compute in Hrun; discriminate].
  assert (sring group_world 1 [1]) as Hring.
  { split; [eapply ring_last; [vm_compute; reflexivity|reflexivity]|].
    split; [reflexivity|]. intros y Hy Hne. by apply list_elem_of_singleton in Hy. }
  destruct (cpBodySleepWithGroup_joins 3 2 1 0 1 [1] group_world w'
              (example_body (Some 0) None (mkNode None None 0 0))
              (mkSpace false [2] [] [1] [] [] ∅ ∅ ∅ ∅ 0 0 0.5 (cpv 0 (-10)))
              ltac:(vm_compute; reflexivity) eq_refl eq_refl ltac:(vm_compute; reflexivity)
              Hring ltac:(left) Hrun)
    as (br & t & _ & Ht & _ & Hring' & sp' & Hsp' & _ & Hbs & Hsc).
  injection Ht as <-.
  exists w'. split; [reflexivity|]. split; [exact Hring'|].
  rewrite Hsp'. simpl. rewrite Hbs, Hsc. split; reflexivity.
Defined.

(** ** Waking a component *)

Section activate_field.
Context {B : Type} (g : cpSpace → B) (space0 : ptr) (v : B).
Context (g_bodies : ∀ S x, g (set_bodies x S) = g S).
Context (g_rousedBodies : ∀ S x, g (set_rousedBodies x S) = g S).
Context (g_activeShapes : ∀ S x, g (set_activeShapes x S) = g S).
Context (g_staticShapes : ∀ S x, g (set_staticShapes x S) = g S).
Context (g_contactSet : ∀ S x, g (set_contactSet x S) = g S).
Context (g_constraints : ∀ S x, g (set_constraints x S) = g S).
Context (g_contactBuffer : ∀ S x, g (set_contactBuffer x S) = g S).
Context (g_contactBufferNum : ∀ S x, g (set_contactBufferNum x S) = g S).
Let I (w : world) : Prop := g <$> w_spaces w !! space0 = Some v.

Lemma preserves_cpSpaceActivateBody_field N space body :
  preserves I (cpSpaceActivateBody N space body).
Proof using All.
  apply preserves_bind; [apply reads_preserves, reads_load_space|intros sp].
  destruct (locked sp); [by apply preserves_modify_space_field|].
  apply preserves_bind; [by apply preserves_modify_space_field|intros _].
  by apply preserves_cpSpaceActivateBody_loops.
Qed.

Lemma preserves_componentActivate_step_field N space acc body :
  preserves I (componentActivate_step N space acc body).
Proof using All.
  apply preserves_bind; [|intros _; apply preserves_cpSpaceActivateBody_field].
  intros w [] w' H HI. unfold I. by rewrite (modify_body_spaces _ _ _ _ _ H).
Qed.
End activate_field.

(** [componentActivate] on the root of a ring, in an unlocked space: every
    member gets the node [{absent, absent, 0, 0}] and is appended to
    [space->bodies] in ring order, and the root leaves
    [sleepingComponents]. *)
Lemma componentActivate_ring N s r l w w' br sp :
  w_bodies w !! r = Some br → space br = Some s → ring w r l →
  w_spaces w !! s = Some sp → locked sp = false →
  componentActivate N r w = Some (tt, w') →
  (∀ y, y ∈ l → ∃ b, w_bodies w !! y = Some b ∧
                     w_bodies w' !! y = Some (set_node (mkNode None None 0 0) b)) ∧
  (∀ y, y ∉ l → w_bodies w' !! y = w_bodies w !! y) ∧
  ∃ sp', w_spaces w' !! s = Some sp' ∧ locked sp' = false ∧
         bodies sp' = bodies sp ++ l ∧
         sleepingComponents sp' = cpArrayDeleteObj (sleepingComponents sp) r.
Proof.
  intros Hbr Hs Hring Hsp Hlk H. unfold componentActivate in H.
  apply bind_Some in H as (b & ? & Hb & H). apply load_body_Some in Hb as [Hb ->].
  assert (b = br) as -> by congruence.
  assert (cpBodyIsSleeping br = true) as Hsleep.
  { destruct (ring_from_next _ _ _ _ _ Hring (ring_root_in _ _ _ Hring)) as (n & Hn).
    apply next_of_Some in Hn as (b0 & Hb0 & Hn). assert (b0 = br) as -> by congruence.
    unfold cpBodyIsSleeping. rewrite Hn. by apply bool_decide_eq_true. }
  rewrite Hsleep, Hs in H. simpl in H.
  apply bind_Some in H as ([] & w1 & Hloop & H).
  apply modify_space_Some in H as (sp1 & Hsp1 & ->).
  assert (locked <$> w_spaces w !! s = Some false) as Hlk0 by (by rewrite Hsp; simpl; rewrite Hlk).
  assert (sleepingComponents <$> w_spaces w1 !! s = Some (sleepingComponents sp)) as Hsc.
  { refine (preserves_ring_loop
              (λ w, sleepingComponents <$> w_spaces w !! s = Some (sleepingComponents sp))
              _ _ _ _ _ _ _ _ _ Hloop _); [|by rewrite Hsp].
    intros acc body. by apply preserves_componentActivate_step_field. }
  apply (ring_loop_fold _ _ _ _ l) in Hloop; [| |done].
  2:{ clear. intros [] y w1 [] w2 Hstep z Hz. unfold componentActivate_step in Hstep.
      apply bind_Some in Hstep as ([] & w3 & Hnode & Hstep).
      apply modify_node_Some in Hnode as (b & Hb & ->).
      pose proof (preserves_cpSpaceActivateBody_bodies (λ bs, bs = _) _ _ _ _ _ _
                    Hstep eq_refl) as E.
      unfold next_of. rewrite E. simpl. by rewrite lookup_insert_ne. }
  destruct (componentActivate_fold _ _ _ _ _ Hloop (ring_from_NoDup _ _ _ _ Hring) Hlk0)
    as (Hin & Hout & Hlk1 & Hl1).
  split; [done|]. split; [done|].
  eexists. split; [simpl; apply lookup_insert_eq|]. simpl.
  rewrite Hsp1 in Hlk1, Hsc. simpl in Hlk1, Hsc.
  unfold active_list in Hl1. rewrite Hsp1, Hsp in Hl1. simpl in Hl1.
  injection Hlk1 as ->. injection Hsc as ->. by rewrite Hl1.
Qed.

(** Waking a member of a ring. *)
Lemma cpBodyActivate_wakes_component_inv (N : nat) (x r s : ptr) (l : list ptr)
    (w w' : world) (br : cpBody) (sp : cpSpace) :
  sring w r l → x ∈ l →
  w_bodies w !! r = Some br → space br = Some s →
  w_spaces w !! s = Some sp → locked sp = false →
  cpBodyActivate N x w = Some (tt, w') →
  (∀ y, y ∈ l → ∃ b, w_bodies w !! y = Some b ∧
                     w_bodies w' !! y = Some (set_node (mkNode None None 0 0) b)) ∧
  (∀ y, y ∉ l → w_bodies w' !! y = w_bodies w !! y) ∧
  ∃ sp', w_spaces w' !! s = Some sp' ∧ locked sp' = false ∧
         bodies sp' = bodies sp ++ l ∧
         sleepingComponents sp' = cpArrayDeleteObj (sleepingComponents sp) r.
Proof.
  intros Hring Hx Hbr Hs Hsp Hlk H. unfold cpBodyActivate in H.
  apply bind_Some in H as (root & w1 & Hfind & H).
  apply componentNodeRoot_inv in Hfind as (lx & Hc & _ & ->).
  assert (chain w x (if decide (x = r) then [] else [x]) r) as Hc'.
  { destruct Hring as (_ & Hr0 & Hpar). case_decide as Hne; [subst; by apply chain_root'|].
    apply (chain_step' _ _ r); [by apply Hpar|by apply chain_root']. }
  destruct (chain_det _ _ _ _ _ _ Hc Hc') as [-> ->].
  rewrite (compress_short _ _ _ _ Hc'), with_bodies_id in H by (case_decide; simpl; lia).
  exact (componentActivate_ring _ _ _ _ _ _ _ _ Hbr Hs (proj1 Hring) Hsp Hlk H).
Qed.

(** X7.  Waking one member wakes its whole component.  When [cpBodyActivate]
    returns for a body on the ring with tree of [r], in the unlocked space of
    [r], every member of the ring has the node [{absent, absent, 0, 0}] and
    the rest of its record as before, no other body record has changed, the
    members have been appended to [space->bodies] in ring order, and [r] has
    been taken out of [sleepingComponents]. *)
Theorem cpBodyActivate_wakes_component (N : nat) (x r s : ptr) (l : list ptr)
    (w w' : world) (br : cpBody) (sp : cpSpace) :
  sring w r l → x ∈ l →
  w_bodies w !! r = Some br → space br = Some s →
  w_spaces w !! s = Some sp → locked sp = false →
  cpBodyActivate N x w = Some (tt, w') →
  (∀ y, y ∈ l → ∃ b, w_bodies w !! y = Some b ∧
                     w_bodies w' !! y = Some (set_node (mkNode None None 0 0) b)) ∧
  (∀ y, y ∉ l → w_bodies w' !! y = w_bodies w !! y) ∧
  ∃ sp', w_spaces w' !! s = Some sp' ∧ locked sp' = false ∧
         bodies sp' = bodies sp ++ l ∧
         sleepingComponents sp' = cpArrayDeleteObj (sleepingComponents sp) r.
Proof. apply cpBodyActivate_wakes_component_inv. Qed.

Lemma cpBodyActivate_wakes_component_witness :
  ∃ w', cpBodyActivate 3 1 group_world = Some (tt, w') ∧
        node <$> w_bodies w' !! 1 = Some (mkNode None None 0 0) ∧
        bodies <$> w_spaces w' !! 0 = Some [2; 1] ∧
        sleepingComponents <$> w_spaces w' !! 0 = Some [].
Proof.
  destruct (cpBodyActivate 3 1 group_world) as [[[] w']|] eqn:Hrun;
    [|vm_compute in Hrun; discriminate].
  assert (sring group_world 1 [1]) as Hring.
  { split; [eapply ring_last; [vm_compute; reflexivity|reflexivity]|].
    split; [reflexivity|]. intros y Hy Hne. by apply list_elem_of_singleton in Hy. }
  destruct (cpBodyActivate_wakes_component 3 1 1 0 [1] group_world w'
              (example_body (Some 0) None (mkNode None (Some 1) 0 0))
              (mkSpace false [2] [] [1] [] [] ∅ ∅ ∅ ∅ 0 0 0.5 (cpv 0 (-10)))
              Hring ltac:(left) ltac:(vm_compute; reflexivity) eq_refl
              ltac:(vm_compute; reflexivity) eq_refl Hrun)
    as (Hin & _ & sp' & Hsp' & _ & Hbs & Hsc).
  exists w'. split; [reflexivity|]. split.
  - destruct (Hin 1 ltac:(left)) as (b & Hb & ->).
    assert (Some b = Some (example_body (Some 0) None (mkNode None (Some 1) 0 0))) as E.
    { rewrite <- Hb. vm_compute. reflexivity. }
    injection E as ->. reflexivity.
  - rewrite Hsp'. simpl. rewrite Hbs, Hsc. split; reflexivity.
Defined.

Lemma cpArrayDeleteObj_app_fresh arr x :
  x ∉ arr → cpArrayDeleteObj (arr ++ [x]) x = arr.
Proof.
  induction arr as [|y arr IH]; intros Hx; simpl.
  - by rewrite decide_True.
  - apply not_elem_of_cons in Hx as [Hne Hx].
    rewrite decide_False by done. by rewrite IH.
Qed.

(** X8.  Sleep, then wake.  When [cpBodySleep] and then [cpBodyActivate]
    return for an awake body that is not in [sleepingComponents], the body
    has the node [{absent, absent, 0, 0}] and the rest of its record as
    before, no other body record has changed, [sleepingComponents] is as
    before, and in [space->bodies] the first occurrence of the body has moved
    to the end. *)
Theorem cpBodySleep_cpBodyActivate (N : nat) (body s : ptr) (w w1 w2 : world) (b : cpBody)
    (sp : cpSpace) :
  w_bodies w !! body = Some b → cpBodyIsSleeping b = false →
  space b = Some s → w_spaces w !! s = Some sp →
  body ∉ sleepingComponents sp →
  cpBodySleep N body w = Some (tt, w1) →
  cpBodyActivate N body w1 = Some (tt, w2) →
  w_bodies w2 = <[body := set_node (mkNode None None 0 0) b]> (w_bodies w) ∧
  ∃ sp2, w_spaces w2 !! s = Some sp2 ∧ locked sp2 = false ∧
         bodies sp2 = cpArrayDeleteObj (bodies sp) body ++ [body] ∧
         sleepingComponents sp2 = sleepingComponents sp.
Proof.
  intros Hb Hawake Hs Hsp Hfresh Hsleep Hwake.
  destruct (cpBodySleep_component_inv N body s w w1 b sp Hb Hawake Hs Hsp Hsleep)
    as (Hb1 & Hring & sp1 & Hsp1 & Hlk1 & Hbs1 & Hsc1).
  assert (w_bodies w1 !! body = Some (set_node (mkNode None (Some body) 0 0) b)) as Hbody1.
  { rewrite Hb1. apply lookup_insert_eq. }
  destruct (componentActivate_ring N s body [body] w1 w2 _ sp1 Hbody1 Hs (proj1 Hring) Hsp1 Hlk1)
    as (Hin & Hout & sp2 & Hsp2 & Hlk2 & Hbs2 & Hsc2).
  { unfold cpBodyActivate in Hwake.
    apply bind_Some in Hwake as (root & w' & Hfind & H).
    apply componentNodeRoot_inv in Hfind as (lx & Hc & _ & ->).
    assert (chain w1 body [] body) as Hc'.
    { apply chain_root'. by destruct Hring as (_ & ? & _). }
    destruct (chain_det _ _ _ _ _ _ Hc Hc') as [-> ->].
    by rewrite (compress_short _ _ _ _ Hc'), with_bodies_id in H by (simpl; lia). }
  split.
  - apply map_eq. intros y. destruct (decide (y = body)) as [->|Hne].
    + destruct (Hin body ltac:(left)) as (b1 & Hb1' & ->).
      rewrite Hbody1 in Hb1'. injection Hb1' as <-. by rewrite lookup_insert_eq.
    + rewrite (Hout y) by (by intros ->%list_elem_of_singleton).
      by rewrite Hb1, !lookup_insert_ne.
  - exists sp2. split; [done|]. split; [done|].
    rewrite Hbs2, Hsc2, Hbs1, Hsc1. split; [done|]. by apply cpArrayDeleteObj_app_fresh.
Qed.

Lemma cpBodySleep_cpBodyActivate_witness :
  ∃ w1 w2, cpBodySleep 2 1 resting_world = Some (tt, w1) ∧
           cpBodyActivate 2 1 w1 = Some (tt, w2) ∧
           w_bodies w2 = w_bodies resting_world ∧
           bodies <$> w_spaces w2 !! 0 = Some [1] ∧
           sleepingComponents <$> w_spaces w2 !! 0 = Some [].
Proof.
  destruct (cpBodySleep 2 1 resting_world) as [[[] w1]|] eqn:Hsleep;
    [|vm_compute in Hsleep; discriminate].
  assert (Some (tt, w1) = Some (tt, w1)) as E by reflexivity.
  rewrite <- Hsleep in E at 1. vm_compute in E. injection E as Hw1.
  destruct (cpBodyActivate 2 1 w1) as [[[] w2]|] eqn:Hwake;
    [|rewrite <- Hw1 in Hwake; vm_compute in Hwake; discriminate].
  destruct (cpBodySleep_cpBodyActivate 2 1 0 resting_world w1 w2
              (example_body (Some 0) (Some 11) (mkNode None None 0 0))
              (example_space false 0.5 [1] [])
              ltac:(vm_compute; reflexivity) eq_refl eq_refl ltac:(vm_compute; reflexivity)
              ltac:(apply not_elem_of_nil) Hsleep Hwake)
    as (Hb2 & sp2 & Hsp2 & _ & Hbs & Hsc).
  exists w1, w2. split; [reflexivity|]. split; [exact Hwake|]. split.
  - rewrite Hb2. apply map_eq. intros y. destruct (decide (y = 1)) as [->|Hne].
    + rewrite lookup_insert_eq. reflexivity.
    + rewrite lookup_insert_ne by done. reflexivity.
  - rewrite Hsp2. simpl. rewrite Hbs, Hsc. split; reflexivity.
Defined.

(** ** The shape indexes across sleep and wake *)

Lemma shape_keys_cons w x l sh :
  w_shapes w !! x = Some sh → shape_keys w (x :: l) = {[ (hashid sh, x) ]} ∪ shape_keys w l.
Proof. intros H. unfold shape_keys. simpl. rewrite H. simpl. done. Qed.

Lemma shape_keys_shapes w w' l : w_shapes w' = w_shapes w → shape_keys w' l = shape_keys w l.
Proof. intros H. unfold shape_keys. by rewrite H. Qed.

Lemma shape_keys_nil w : shape_keys w [] = ∅.
Proof. done. Qed.

Lemma set_shapes_id sp A S :
  A = activeShapes sp → S = staticShapes sp →
  set_staticShapes S (set_activeShapes A sp) = sp ∧
  set_activeShapes A (set_staticShapes S sp) = sp.
Proof. destruct sp. by intros -> ->. Qed.

(** The shape loop of [cpSpaceDeactivateBody] over the shapes [l]. *)
Lemma deactivate_shapes_fold s l w w' sp :
  for_array (λ _ x, cpSpaceDeactivateBody_shape s x) l tt w = Some (tt, w') →
  w_spaces w !! s = Some sp →
  w_shapes w' = w_shapes w ∧
  w_spaces w' =
    <[s := set_staticShapes (staticShapes sp ∪ shape_keys w l)
             (set_activeShapes (activeShapes sp ∖ shape_keys w l) sp)]> (w_spaces w).
Proof.
  revert w sp. induction l as [|x l IH]; intros w sp H Hsp; cbn [for_array] in H.
  - apply ret_Some in H as [_ ->]. split; [done|].
    rewrite shape_keys_nil.
    destruct (set_shapes_id sp (activeShapes sp ∖ ∅) (staticShapes sp ∪ ∅)) as [-> _];
      [first [apply difference_empty_L|apply union_empty_r_L]..|]. by rewrite insert_id.
  - apply bind_Some in H as ([] & w1 & Hstep & H).
    unfold cpSpaceDeactivateBody_shape in Hstep.
    apply bind_Some in Hstep as (sh & ? & Hsh & Hstep). apply load_shape_Some in Hsh as [Hsh ->].
    apply bind_Some in Hstep as ([] & w0 & Hrem & Hins).
    apply modify_space_Some in Hrem as (sp0 & Hsp0 & ->).
    apply modify_space_Some in Hins as (sp1 & Hsp1 & ->).
    simpl in *. rewrite Hsp in Hsp0. injection Hsp0 as <-.
    rewrite lookup_insert_eq in Hsp1. injection Hsp1 as <-.
    destruct (IH _ _ H ltac:(simpl; apply lookup_insert_eq)) as [Hshapes Hspaces].
    simpl in *. split; [done|]. rewrite Hspaces, !insert_insert_eq.
    rewrite (shape_keys_shapes w) by done. rewrite (shape_keys_cons _ _ _ _ Hsh).
    f_equal. unfold cpSpatialIndexRemove, cpSpatialIndexInsert.
    destruct sp. unfold set_staticShapes, set_activeShapes. simpl.
    f_equal; first [apply difference_difference_l_L|symmetry; apply (assoc_L (∪))].
Qed.

(** The shape loop of [cpSpaceActivateBody] over the shapes [l]. *)
Lemma activate_shapes_fold s l w w' sp :
  for_array (λ _ x, cpSpaceActivateBody_shape s x) l tt w = Some (tt, w') →
  w_spaces w !! s = Some sp →
  w_shapes w' = w_shapes w ∧
  w_spaces w' =
    <[s := set_activeShapes (activeShapes sp ∪ shape_keys w l)
             (set_staticShapes (staticShapes sp ∖ shape_keys w l) sp)]> (w_spaces w).
Proof.
  revert w sp. induction l as [|x l IH]; intros w sp H Hsp; cbn [for_array] in H.
  - apply ret_Some in H as [_ ->]. split; [done|].
    rewrite shape_keys_nil.
    destruct (set_shapes_id sp (activeShapes sp ∪ ∅) (staticShapes sp ∖ ∅)) as [_ ->];
      [first [apply difference_empty_L|apply union_empty_r_L]..|]. by rewrite insert_id.
  - apply bind_Some in H as ([] & w1 & Hstep & H).
    unfold cpSpaceActivateBody_shape in Hstep.
    apply bind_Some in Hstep as (sh & ? & Hsh & Hstep). apply load_shape_Some in Hsh as [Hsh ->].
    apply bind_Some in Hstep as ([] & w0 & Hrem & Hins).
    apply modify_space_Some in Hrem as (sp0 & Hsp0 & ->).
    apply modify_space_Some in Hins as (sp1 & Hsp1 & ->).
    simpl in *. rewrite Hsp in Hsp0. injection Hsp0 as <-.
    rewrite lookup_insert_eq in Hsp1. injection Hsp1 as <-.
    destruct (IH _ _ H ltac:(simpl; apply lookup_insert_eq)) as [Hshapes Hspaces].
    simpl in *. split; [done|]. rewrite Hspaces, !insert_insert_eq.
    rewrite (shape_keys_shapes w) by done. rewrite (shape_keys_cons _ _ _ _ Hsh).
    f_equal. unfold cpSpatialIndexRemove, cpSpatialIndexInsert.
    destruct sp. unfold set_staticShapes, set_activeShapes. simpl.
    f_equal; first [apply difference_difference_l_L|symmetry; apply (assoc_L (∪))].
Qed.

(** What the arbiter and constraint loops of sleep and wake leave alone. *)
Section contact_loops_frame.
Context {B : Type} (g : cpSpace → B) (space0 : ptr) (v : B).
Context (g_contactSet : ∀ S x, g (set_contactSet x S) = g S).
Context (g_arbiters : ∀ S x, g (set_arbiters x S) = g S).
Context (g_constraints : ∀ S x, g (set_constraints x S) = g S).
Context (g_contactBuffer : ∀ S x, g (set_contactBuffer x S) = g S).
Context (g_contactBufferNum : ∀ S x, g (set_contactBufferNum x S) = g S).
Let I (w : world) : Prop := g <$> w_spaces w !! space0 = Some v.

Lemma preserves_deactivate_arbiters_field N space body cur :
  preserves I (for_each N (arbiter_link body) (cpSpaceDeactivateBody_arbiter space body) cur).
Proof using g_contactSet g_arbiters g_contactBuffer.
  apply preserves_for_each; [intros; apply reads_preserves, reads_arbiter_link|].
  intros arb. apply preserves_bind;
    [apply reads_preserves, reads_arbiter_primary|intros [|]]; [|apply preserves_ret].
  apply preserves_bind; [apply reads_preserves, reads_load_arbiter|intros ar]. cbv zeta.
  apply preserves_bind; [by apply preserves_modify_space_field|intros _].
  apply preserves_bind; [by apply preserves_modify_space_field|intros _].
  apply preserves_bind; [apply reads_preserves, reads_load_arbiter|intros ar']. cbv zeta.
  apply preserves_bind.
  { intros w u w' H HI. unfold I. by rewrite (cpmalloc_spaces _ _ _ _ H). }
  intros saved. apply preserves_bind; [by apply preserves_memcpy_field|intros _].
  intros w u w' H HI. unfold I. by rewrite (modify_arbiter_spaces _ _ _ _ _ H).
Qed.

Lemma preserves_activate_arbiters_field N space body cur :
  preserves I (for_each N (arbiter_link body) (cpSpaceActivateBody_arbiter space body) cur).
Proof using g_contactSet g_contactBuffer g_contactBufferNum.
  apply preserves_for_each; [intros; apply reads_preserves, reads_arbiter_link|].
  intros arb. apply preserves_bind;
    [apply reads_preserves, reads_arbiter_primary|intros [|]]; [|apply preserves_ret].
  apply preserves_bind; [apply reads_preserves, reads_load_arbiter|intros ar]. cbv zeta.
  apply preserves_bind; [apply reads_preserves, reads_cpContactBufferGetArray|intros buf].
  apply preserves_bind.
  { intros w u w' H HI. unfold I. by rewrite (modify_arbiter_spaces _ _ _ _ _ H). }
  intros _. apply preserves_bind; [by apply preserves_memcpy_field|intros _].
  apply preserves_bind; [by apply preserves_modify_space_field|intros _].
  apply preserves_bind; [by apply preserves_modify_space_field|intros _].
  intros w u w' H HI. unfold I. by rewrite (cpfree_spaces _ _ _ _ H).
Qed.

Lemma preserves_deactivate_constraints_field N space body cur :
  preserves I
    (for_each N (constraint_link body) (cpSpaceDeactivateBody_constraint space body) cur).
Proof using g_constraints.
  apply preserves_for_each; [intros; apply reads_preserves, reads_constraint_link|].
  intros c. apply preserves_bind;
    [apply reads_preserves, reads_constraint_primary|intros [|]]; [|apply preserves_ret].
  by apply preserves_modify_space_field.
Qed.

Lemma preserves_activate_constraints_field N space body cur :
  preserves I
    (for_each N (constraint_link body) (cpSpaceActivateBody_constraint space body) cur).
Proof using g_constraints.
  apply preserves_for_each; [intros; apply reads_preserves, reads_constraint_link|].
  intros c. apply preserves_bind;
    [apply reads_preserves, reads_constraint_primary|intros [|]]; [|apply preserves_ret].
  by apply preserves_modify_space_field.
Qed.
End contact_loops_frame.

(** The part of a space record that the arbiter and constraint loops of
    sleep and wake do not write to. *)
Lemma shape_part_frame (sp sp' : cpSpace) :
  (locked sp', bodies sp', rousedBodies sp', sleepingComponents sp',
   activeShapes sp', staticShapes sp', idleSpeedThreshold sp', sleepTimeThreshold sp',
   gravity sp')
  = (locked sp, bodies sp, rousedBodies sp, sleepingComponents sp,
     activeShapes sp, staticShapes sp, idleSpeedThreshold sp, sleepTimeThreshold sp,
     gravity sp) →
  locked sp' = locked sp ∧ bodies sp' = bodies sp ∧ rousedBodies sp' = rousedBodies sp ∧
  sleepingComponents sp' = sleepingComponents sp ∧
  activeShapes sp' = activeShapes sp ∧ staticShapes sp' = staticShapes sp ∧
  idleSpeedThreshold sp' = idleSpeedThreshold sp ∧
  sleepTimeThreshold sp' = sleepTimeThreshold sp ∧ gravity sp' = gravity sp.
Proof. intros [= -> -> -> -> -> -> -> -> ->]. done. Qed.

Lemma deactivate_shapes_linked N space cur w w' :
  for_each N shape_link (cpSpaceDeactivateBody_shape space) cur w = Some (tt, w') →
  ∃ l, linked shape_link w cur l ∧
       for_array (λ _ x, cpSpaceDeactivateBody_shape space x) l tt w = Some (tt, w').
Proof.
  apply for_each_linked; [intros; apply reads_shape_link|].
  intros x z w1 w2 [] Hstep. unfold cpSpaceDeactivateBody_shape in Hstep.
  apply bind_Some in Hstep as (sh & ? & Hsh & Hstep). apply load_shape_Some in Hsh as [Hsh ->].
  apply bind_Some in Hstep as ([] & w0 & Hrem & Hins).
  apply modify_space_Some in Hrem as (sp0 & Hsp0 & ->).
  apply modify_space_Some in Hins as (sp1 & Hsp1 & ->).
  unfold shape_link, bind, load_shape. simpl. by destruct (w_shapes w1 !! z).
Qed.

Lemma activate_shapes_linked N space cur w w' :
  for_each N shape_link (cpSpaceActivateBody_shape space) cur w = Some (tt, w') →
  ∃ l, linked shape_link w cur l ∧
       for_array (λ _ x, cpSpaceActivateBody_shape space x) l tt w = Some (tt, w').
Proof.
  apply for_each_linked; [intros; apply reads_shape_link|].
  intros x z w1 w2 [] Hstep. unfold cpSpaceActivateBody_shape in Hstep.
  apply bind_Some in Hstep as (sh & ? & Hsh & Hstep). apply load_shape_Some in Hsh as [Hsh ->].
  apply bind_Some in Hstep as ([] & w0 & Hrem & Hins).
  apply modify_space_Some in Hrem as (sp0 & Hsp0 & ->).
  apply modify_space_Some in Hins as (sp1 & Hsp1 & ->).
  unfold shape_link, bind, load_shape. simpl. by destruct (w_shapes w1 !! z).
Qed.

(** What [cpSpaceDeactivateBody] does to the space record. *)
Lemma cpSpaceDeactivateBody_shapes_inv (N : nat) (s body : ptr) (w w' : world) (b : cpBody)
    (sp : cpSpace) :
  w_bodies w !! body = Some b → w_spaces w !! s = Some sp →
  cpSpaceDeactivateBody N s body w = Some (tt, w') →
  ∃ l sp',
    linked shape_link w (shapeList b) l ∧ w_spaces w' !! s = Some sp' ∧
    activeShapes sp' = activeShapes sp ∖ shape_keys w l ∧
    staticShapes sp' = staticShapes sp ∪ shape_keys w l ∧
    w_bodies w' = w_bodies w ∧
    locked sp' = locked sp ∧ bodies sp' = bodies sp ∧ rousedBodies sp' = rousedBodies sp ∧
    sleepingComponents sp' = sleepingComponents sp ∧
    idleSpeedThreshold sp' = idleSpeedThreshold sp ∧
    sleepTimeThreshold sp' = sleepTimeThreshold sp ∧ gravity sp' = gravity sp.
Proof.
  intros Hb Hsp H.
  pose proof (preserves_cpSpaceDeactivateBody_bodies (λ bs, bs = w_bodies w) _ _ _ _ _ _
                H eq_refl) as Hbodies.
  unfold cpSpaceDeactivateBody in H.
  apply bind_Some in H as (b0 & ? & Hb0 & H). apply load_body_Some in Hb0 as [Hb0 ->].
  assert (b0 = b) as -> by congruence.
  apply bind_Some in H as ([] & w1 & Hshapes & H).
  apply deactivate_shapes_linked in Hshapes as (l & Hl & Hfold).
  destruct (deactivate_shapes_fold _ _ _ _ _ Hfold Hsp) as [_ Hs1].
  apply bind_Some in H as (b1 & ? & Hb1 & H). apply load_body_Some in Hb1 as [_ ->].
  apply bind_Some in H as ([] & w2 & Harbs & H).
  apply bind_Some in H as (b2 & ? & Hb2 & Hcons). apply load_body_Some in Hb2 as [_ ->].
  match type of Hs1 with _ = <[_ := ?x]> _ => set (sp1 := x) in * end.
  assert (w_spaces w1 !! s = Some sp1) as Hsp1 by (rewrite Hs1; apply lookup_insert_eq).
  set (g := λ S : cpSpace,
         (locked S, bodies S, rousedBodies S, sleepingComponents S, activeShapes S,
          staticShapes S, idleSpeedThreshold S, sleepTimeThreshold S, gravity S)).
  assert (g <$> w_spaces w' !! s = Some (g sp1)) as Hg.
  { refine (preserves_deactivate_constraints_field g s _ _ _ _ _ _ _ _ _ Hcons _); [done|].
    refine (preserves_deactivate_arbiters_field g s _ _ _ _ _ _ _ _ _ _ _ Harbs _);
      [done..|]. by rewrite Hsp1. }
  destruct (w_spaces w' !! s) as [sp'|]; [|done]. simpl in Hg.
  assert (g sp' = g sp1) as Hg' by congruence.
  apply shape_part_frame in Hg' as (? & ? & ? & ? & ? & ? & ? & ? & ?).
  exists l, sp'. split; [done|]. split; [done|]. repeat (split; [done|]). done.
Qed.

(** X9.  When [cpSpaceDeactivateBody] returns it has moved the shapes of the
    body, the ones the walk over [body->shapeList] meets, from the active
    index to the static index, each under its [hashid].  It has written to no
    body record, and in the space record it has left the lock,
    [space->bodies], [rousedBodies], [sleepingComponents] and the thresholds
    as they were. *)
Theorem cpSpaceDeactivateBody_shapes (N : nat) (s body : ptr) (w w' : world) (b : cpBody)
    (sp : cpSpace) :
  w_bodies w !! body = Some b → w_spaces w !! s = Some sp →
  cpSpaceDeactivateBody N s body w = Some (tt, w') →
  ∃ l sp',
    linked shape_link w (shapeList b) l ∧ w_spaces w' !! s = Some sp' ∧
    activeShapes sp' = activeShapes sp ∖ shape_keys w l ∧
    staticShapes sp' = staticShapes sp ∪ shape_keys w l ∧
    w_bodies w' = w_bodies w ∧
    locked sp' = locked sp ∧ bodies sp' = bodies sp ∧ rousedBodies sp' = rousedBodies sp ∧
    sleepingComponents sp' = sleepingComponents sp ∧
    idleSpeedThreshold sp' = idleSpeedThreshold sp ∧
    sleepTimeThreshold sp' = sleepTimeThreshold sp ∧ gravity sp' = gravity sp.
Proof. apply cpSpaceDeactivateBody_shapes_inv. Qed.

Lemma cpSpaceDeactivateBody_shapes_witness :
  ∃ w' sp', cpSpaceDeactivateBody 2 0 1 touching_world = Some (tt, w') ∧
            w_spaces w' !! 0 = Some sp' ∧
            (12%Z, 12) ∈ activeShapes sp' ∧ ((11%Z, 11) ∉ activeShapes sp') ∧
            (11%Z, 11) ∈ staticShapes sp'.
Proof.
  destruct (cpSpaceDeactivateBody 2 0 1 touching_world) as [[[] w']|] eqn:Hrun;
    [|vm_compute in Hrun; discriminate].
  destruct (cpSpaceDeactivateBody_shapes 2 0 1 touching_world w'
              (mkBody 1 0 zero_vect zero_vect false (Some 11) (Some 21) None (Some 0)
                 (mkNode None None 0 0))
              (mkSpace false [1; 2] [] [] [21] [] {[ (11%Z, 11); (12%Z, 12) ]} ∅
                 {[ CP_HASH_PAIR 11 12 := 21 ]} {[ 0 := mkContact 1 2 3 4 ]} 1
                 0 0.5 (cpv 0 (-10)))
              ltac:(vm_compute; reflexivity) ltac:(vm_compute; reflexivity) Hrun)
    as (l & sp' & Hl & Hsp' & Ha & Hs & _).
  assert (l = [11]) as ->.
  { eapply linked_det; [exact Hl|].
    eapply linked_cons; [vm_compute; reflexivity|apply linked_nil]. }
  exists w', sp'. split; [reflexivity|]. split; [exact Hsp'|].
  rewrite Ha, Hs, elem_of_union, !elem_of_difference. cbn [activeShapes staticShapes].
  assert ((11%Z, 11) ∈ shape_keys touching_world [11]) as Hin
    by (apply elem_of_list_to_set; left).
  split; [split; [apply elem_of_union; right; apply elem_of_singleton; reflexivity|]|];
    [|split; [|right; exact Hin]].
  - intros Hk. apply elem_of_list_to_set, list_elem_of_singleton in Hk. discriminate.
  - intros [_ Hk]. exact (Hk Hin).
Defined.

(** What [cpSpaceActivateBody] does to the record of an unlocked space. *)
Lemma cpSpaceActivateBody_shapes_inv (N : nat) (s body : ptr) (w w' : world) (b : cpBody)
    (sp : cpSpace) :
  w_bodies w !! body = Some b → w_spaces w !! s = Some sp → locked sp = false →
  cpSpaceActivateBody N s body w = Some (tt, w') →
  ∃ l sp',
    linked shape_link w (shapeList b) l ∧ w_spaces w' !! s = Some sp' ∧
    staticShapes sp' = staticShapes sp ∖ shape_keys w l ∧
    activeShapes sp' = activeShapes sp ∪ shape_keys w l ∧
    bodies sp' = bodies sp ++ [body] ∧
    w_bodies w' = w_bodies w ∧
    locked sp' = false ∧ rousedBodies sp' = rousedBodies sp ∧
    sleepingComponents sp' = sleepingComponents sp ∧ arbiters sp' = arbiters sp ∧
    idleSpeedThreshold sp' = idleSpeedThreshold sp ∧
    sleepTimeThreshold sp' = sleepTimeThreshold sp ∧ gravity sp' = gravity sp.
Proof.
  intros Hb Hsp Hlk H.
  pose proof (preserves_cpSpaceActivateBody_bodies (λ bs, bs = w_bodies w) _ _ _ _ _ _
                H eq_refl) as Hbodies.
  unfold cpSpaceActivateBody in H.
  apply bind_Some in H as (sp0 & ? & Hsp0 & H). apply load_space_Some in Hsp0 as [Hsp0 ->].
  assert (sp0 = sp) as -> by congruence. rewrite Hlk in H.
  apply bind_Some in H as ([] & w0 & Hpush & H).
  apply modify_space_Some in Hpush as (sp0 & Hsp0' & ->).
  assert (sp0 = sp) as -> by congruence.
  apply bind_Some in H as (b0 & ? & Hb0 & H). apply load_body_Some in Hb0 as [Hb0 ->].
  simpl in Hb0. assert (b0 = b) as -> by congruence.
  apply bind_Some in H as ([] & w1 & Hshapes & H).
  apply activate_shapes_linked in Hshapes as (l & Hl & Hfold).
  destruct (activate_shapes_fold _ _ _ _ _ Hfold ltac:(simpl; apply lookup_insert_eq))
    as [_ Hs1].
  apply bind_Some in H as (b1 & ? & Hb1 & H). apply load_body_Some in Hb1 as [_ ->].
  apply bind_Some in H as ([] & w2 & Harbs & H).
  apply bind_Some in H as (b2 & ? & Hb2 & Hcons). apply load_body_Some in Hb2 as [_ ->].
  match type of Hs1 with _ = <[_ := ?x]> _ => set (sp1 := x) in * end.
  assert (w_spaces w1 !! s = Some sp1) as Hsp1 by (rewrite Hs1; apply lookup_insert_eq).
  set (g := λ S : cpSpace,
         (locked S, bodies S, rousedBodies S, sleepingComponents S, activeShapes S,
          staticShapes S, idleSpeedThreshold S, sleepTimeThreshold S, gravity S)).
  assert (g <$> w_spaces w' !! s = Some (g sp1)) as Hg.
  { refine (preserves_activate_constraints_field g s _ _ _ _ _ _ _ _ _ Hcons _); [done|].
    refine (preserves_activate_arbiters_field g s _ _ _ _ _ _ _ _ _ _ _ Harbs _);
      [done..|]. by rewrite Hsp1. }
  assert (arbiters <$> w_spaces w' !! s = Some (arbiters sp1)) as Harb.
  { refine (preserves_activate_constraints_field arbiters s _ _ _ _ _ _ _ _ _ Hcons _);
      [done|].
    refine (preserves_activate_arbiters_field arbiters s _ _ _ _ _ _ _ _ _ _ _ Harbs _);
      [done..|]. by rewrite Hsp1. }
  destruct (w_spaces w' !! s) as [sp'|]; [|done]. simpl in Hg, Harb.
  assert (g sp' = g sp1) as Hg' by congruence. injection Harb as Harb.
  apply shape_part_frame in Hg' as (? & ? & ? & ? & ? & ? & ? & ? & ?).
  exists l, sp'. split.
  { eapply linked_stable; [|exact Hl]. intros z.
    unfold shape_link, bind, load_shape. simpl. by destruct (w_shapes w !! z). }
  split; [done|]. repeat (split; [assumption|]).
  split; [by transitivity (locked sp1)|]. repeat (split; [assumption|]).
  assumption.
Qed.

(** X10.  When [cpSpaceActivateBody] returns in an unlocked space it has
    moved the shapes of the body from the static index to the active index
    and appended the body to [space->bodies].  It has written to no body
    record, and in the space record it has left the lock, [rousedBodies],
    [sleepingComponents], [arbiters] and the thresholds as they were. *)
Theorem cpSpaceActivateBody_shapes (N : nat) (s body : ptr) (w w' : world) (b : cpBody)
    (sp : cpSpace) :
  w_bodies w !! body = Some b → w_spaces w !! s = Some sp → locked sp = false →
  cpSpaceActivateBody N s body w = Some (tt, w') →
  ∃ l sp',
    linked shape_link w (shapeList b) l ∧ w_spaces w' !! s = Some sp' ∧
    staticShapes sp' = staticShapes sp ∖ shape_keys w l ∧
    activeShapes sp' = activeShapes sp ∪ shape_keys w l ∧
    bodies sp' = bodies sp ++ [body] ∧
    w_bodies w' = w_bodies w ∧
    locked sp' = false ∧ rousedBodies sp' = rousedBodies sp ∧
    sleepingComponents sp' = sleepingComponents sp ∧ arbiters sp' = arbiters sp ∧
    idleSpeedThreshold sp' = idleSpeedThreshold sp ∧
    sleepTimeThreshold sp' = sleepTimeThreshold sp ∧ gravity sp' = gravity sp.
Proof. apply cpSpaceActivateBody_shapes_inv. Qed.

Lemma cpSpaceActivateBody_shapes_witness :
  ∃ w' sp', cpSpaceActivateBody 1 0 1 awake_world = Some (tt, w') ∧
            w_spaces w' !! 0 = Some sp' ∧
            (11%Z, 11) ∈ activeShapes sp' ∧ bodies sp' = [1; 1].
Proof.
  destruct (cpSpaceActivateBody 1 0 1 awake_world) as [[[] w']|] eqn:Hrun;
    [|vm_compute in Hrun; discriminate].
  destruct (cpSpaceActivateBody_shapes 1 0 1 awake_world w'
              (example_body (Some 0) (Some 11) (mkNode None None 0 0))
              (example_space false 0.5 [1] [])
              ltac:(vm_compute; reflexivity) ltac:(vm_compute; reflexivity) eq_refl Hrun)
    as (l & sp' & Hl & Hsp' & _ & Ha & Hbs & _).
  assert (l = [11]) as ->.
  { eapply linked_det; [exact Hl|].
    eapply linked_cons; [vm_compute; reflexivity|apply linked_nil]. }
  exists w', sp'. split; [reflexivity|]. split; [exact Hsp'|].
  rewrite Ha, Hbs. split; [|reflexivity].
  apply elem_of_union. right. apply elem_of_list_to_set. left.
Defined.

(** ** Sleep and wake give the shape indexes back *)

Lemma preserves_cpSpaceDeactivateBody_shapes v N space body :
  preserves (λ w, w_shapes w = v) (cpSpaceDeactivateBody N space body).
Proof.
  assert (∀ s f, preserves (λ w, w_shapes w = v) (modify_space s f)) as Hsp.
  { intros s f w [] w' H HI. apply modify_space_Some in H as (sp & _ & ->). done. }
  apply preserves_bind; [apply reads_preserves, reads_load_body|intros b].
  apply preserves_bind.
  { apply preserves_for_each; [intros; apply reads_preserves, reads_shape_link|].
    intros sh. apply preserves_bind; [apply reads_preserves, reads_load_shape|intros ?].
    apply preserves_bind; [apply Hsp|intros _; apply Hsp]. }
  intros _. apply preserves_bind; [apply reads_preserves, reads_load_body|intros b'].
  apply preserves_bind.
  { apply preserves_for_each; [intros; apply reads_preserves, reads_arbiter_link|].
    intros arb w [] w' H HI.
    apply cpSpaceDeactivateBody_arbiter_same_graph in H as (_ & Hs & _). congruence. }
  intros _. apply preserves_bind; [apply reads_preserves, reads_load_body|intros b''].
  apply preserves_for_each; [intros; apply reads_preserves, reads_constraint_link|].
  intros c. apply preserves_bind;
    [apply reads_preserves, reads_constraint_primary|intros [|]]; [apply Hsp|apply preserves_ret].
Qed.

(** X13.  Sleep and wake give the shape indexes back.  When the shapes of a
    body are in the active index and not in the static index of an unlocked
    space, and [cpSpaceDeactivateBody] and then [cpSpaceActivateBody] return
    for the body, both indexes are as they were; the body has been appended
    to [space->bodies] and no body record has changed. *)
Theorem cpSpaceDeactivateBody_cpSpaceActivateBody_shapes (N : nat) (s body : ptr)
    (w w1 w2 : world) (b : cpBody) (sp : cpSpace) (l : list ptr) :
  w_bodies w !! body = Some b → w_spaces w !! s = Some sp → locked sp = false →
  linked shape_link w (shapeList b) l →
  shape_keys w l ⊆ activeShapes sp → shape_keys w l ## staticShapes sp →
  cpSpaceDeactivateBody N s body w = Some (tt, w1) →
  cpSpaceActivateBody N s body w1 = Some (tt, w2) →
  ∃ sp2, w_spaces w2 !! s = Some sp2 ∧
         activeShapes sp2 = activeShapes sp ∧ staticShapes sp2 = staticShapes sp ∧
         bodies sp2 = bodies sp ++ [body] ∧ w_bodies w2 = w_bodies w.
Proof.
  intros Hb Hsp Hlk Hl Hin Hout Hdown Hup.
  pose proof (preserves_cpSpaceDeactivateBody_shapes _ _ _ _ _ _ _ Hdown eq_refl) as Hshapes.
  destruct (cpSpaceDeactivateBody_shapes_inv _ _ _ _ _ _ _ Hb Hsp Hdown)
    as (l1 & sp1 & Hl1 & Hsp1 & Ha1 & Hs1 & Hbodies1 & Hlk1 & Hbs1 & _).
  pose proof (linked_det _ _ _ _ _ Hl1 Hl) as ->.
  assert (w_bodies w1 !! body = Some b) as Hb1 by (by rewrite Hbodies1).
  destruct (cpSpaceActivateBody_shapes_inv _ _ _ _ _ _ _ Hb1 Hsp1 ltac:(congruence) Hup)
    as (l2 & sp2 & Hl2 & Hsp2 & Hs2 & Ha2 & Hbs2 & Hbodies2 & _).
  assert (l2 = l) as ->.
  { eapply linked_det; [exact Hl2|]. eapply linked_stable; [|exact Hl]. intros z.
    unfold shape_link, bind, load_shape. rewrite Hshapes. by destruct (w_shapes w !! z). }
  assert (shape_keys w1 l = shape_keys w l) as Hkeys.
  { unfold shape_keys. by rewrite Hshapes. }
  exists sp2. split; [done|]. rewrite Ha2, Hs2, Ha1, Hs1, Hkeys, Hbs2, Hbs1.
  split; [|split; [|split; [done|congruence]]].
  - rewrite difference_union_L. rewrite (comm_L (∪)). by apply subseteq_union_1_L.
  - rewrite difference_union_distr_l_L, difference_diag_L, union_empty_r_L.
    apply difference_disjoint_L. by symmetry.
Qed.

Lemma cpSpaceDeactivateBody_cpSpaceActivateBody_shapes_witness :
  ∃ w1 w2 sp2,
    cpSpaceDeactivateBody 2 0 1 touching_world = Some (tt, w1) ∧
    cpSpaceActivateBody 2 0 1 w1 = Some (tt, w2) ∧
    w_spaces w2 !! 0 = Some sp2 ∧
    activeShapes sp2 = {[ (11%Z, 11); (12%Z, 12) ]} ∧ staticShapes sp2 = ∅.
Proof.
  destruct (cpSpaceDeactivateBody 2 0 1 touching_world) as [[[] w1]|] eqn:Hdown;
    [|vm_compute in Hdown; discriminate].
  destruct (cpSpaceActivateBody 2 0 1 w1) as [[[] w2]|] eqn:Hup.
  2: { exfalso. revert Hup. vm_compute in Hdown. injection Hdown as <-.
       vm_compute. discriminate. }
  assert (linked shape_link touching_world (Some 11) [11]) as Hl.
  { eapply linked_cons; [vm_compute; reflexivity|apply linked_nil]. }
  assert (shape_keys touching_world [11] ⊆ {[ (11%Z, 11); (12%Z, 12) ]}) as Hin.
  { intros k Hk. apply elem_of_list_to_set, list_elem_of_singleton in Hk as ->.
    apply elem_of_union. left. by apply elem_of_singleton. }
  assert (shape_keys touching_world [11] ## (∅ : gset (cpHashValue * ptr))) as Hout.
  { intros k Hk Hk'. by apply elem_of_empty in Hk'. }
  destruct (cpSpaceDeactivateBody_cpSpaceActivateBody_shapes 2 0 1 touching_world w1 w2
              (mkBody 1 0 zero_vect zero_vect false (Some 11) (Some 21) None (Some 0)
                 (mkNode None None 0 0))
              (mkSpace false [1; 2] [] [] [21] [] {[ (11%Z, 11); (12%Z, 12) ]} ∅
                 {[ CP_HASH_PAIR 11 12 := 21 ]} {[ 0 := mkContact 1 2 3 4 ]} 1
                 0 0.5 (cpv 0 (-10)))
              [11]
              ltac:(vm_compute; reflexivity) ltac:(vm_compute; reflexivity) eq_refl
              Hl Hin Hout Hdown Hup)
    as (sp2 & Hsp2 & Ha & Hs & _).
  exists w1, w2, sp2. split; [reflexivity|]. split; [exact Hup|]. split; [exact Hsp2|].
  split; [exact Ha|exact Hs].
Defined.

(** ** The component loop of [cpSpaceProcessComponents], ring by ring *)

(** The copy branch over a ring: every member keeps its idle time and loses
    its links and rank, and the members that are not rogue are appended to
    [newBodies]. *)
Lemma copy_fold l nb w nb' w' :
  for_array cpSpaceProcessComponents_copy l nb w = Some (nb', w') → NoDup l →
  (∀ y, y ∈ l → ∃ b, w_bodies w !! y = Some b ∧
      w_bodies w' !! y = Some (set_node (mkNode None None 0 (idleTime (node b))) b) ∧
      (space b ≠ None → y ∈ nb')) ∧
  (∀ y, y ∈ nb → y ∈ nb') ∧
  (∀ y, y ∈ nb' → y ∈ nb ∨ y ∈ l).
Proof.
  revert nb w. induction l as [|x l IH]; intros nb w H Hnd; cbn [for_array] in H.
  - apply ret_Some in H as [-> ->]. split; [|split]; [|done|by left].
    intros y Hy. by apply elem_of_nil in Hy.
  - apply bind_Some in H as (nb1 & w1 & Hstep & H).
    apply NoDup_cons in Hnd as [Hx Hnd].
    pose proof (copy_frame _ _ _ _ _ H x Hx) as Hxw'.
    destruct (IH _ _ H Hnd) as (Hmem & Hmono & Hfrom).
    unfold cpSpaceProcessComponents_copy in Hstep.
    apply bind_Some in Hstep as (b & ? & Hb & Hstep). apply load_body_Some in Hb as [Hb ->].
    cbv zeta in Hstep. apply bind_Some in Hstep as ([] & w2 & Hmod & Hstep).
    apply ret_Some in Hstep as [-> ->].
    apply modify_node_Some in Hmod as (b' & Hb' & ->). assert (b' = b) as -> by congruence.
    simpl in *. split; [|split].
    + intros y [->|Hy]%elem_of_cons.
      * exists b. split; [done|]. rewrite Hxw', lookup_insert_eq. split; [done|].
        intros Hsp. apply Hmono. unfold cpBodyIsRogue.
        rewrite bool_decide_eq_false_2 by done. simpl. unfold cpArrayPush.
        apply elem_of_app. right. by left.
      * destruct (Hmem y Hy) as (by' & Hby & Hby' & Hin).
        rewrite lookup_insert_ne in Hby by (intros ->; done). by exists by'.
    + intros y Hy. apply Hmono. destruct (negb (cpBodyIsRogue b)); [|done].
      apply elem_of_app. by left.
    + intros y Hy. destruct (Hfrom y Hy) as [Hy1|Hy1]; [|right; by right].
      destruct (negb (cpBodyIsRogue b)); [|by left].
      apply elem_of_app in Hy1 as [?|Hy2]; [by left|].
      apply list_elem_of_singleton in Hy2 as ->. right. by left.
Qed.

(** A component judged active has a member whose idle time is below the
    threshold. *)
Lemma componentActive_loop_true N threshold root body w w' l :
  componentActive_loop N threshold root body w = Some (true, w') →
  ring_from w root body l →
  ∃ z b, z ∈ l ∧ w_bodies w !! z = Some b ∧ (idleTime (node b) <? threshold)%float = true.
Proof.
  revert body l. induction N as [|N IH]; intros body l H Hring;
    cbn [componentActive_loop] in H; [done|].
  apply bind_Some in H as (b & ? & Hb & H). apply load_body_Some in Hb as [Hb ->].
  cbv zeta in H.
  destruct (idleTime (node b) <? threshold)%float eqn:Hidle.
  { exists body, b. split; [|done]. destruct (ring_from_head _ _ _ _ Hring) as [l' ->].
    by left. }
  destruct (next (node b)) as [body'|] eqn:Hnext; [|done].
  case_decide as Hroot; [by apply ret_Some in H as [[=] _]|].
  inversion Hring as [? b0 Hb0 Hn|? b0 y l0 Hb0 Hn Hy Hl]; simplify_eq.
  destruct (IH _ _ H Hl) as (z & bz & Hz & Hbz & Hlt).
  exists z, bz. split; [by right|done].
Qed.

(** One round of the component loop on a ring [l]: either the ring has a
    member below the threshold and is copied, or every member is at or above
    the threshold, no body record is written to and the root is appended to
    [sleepingComponents]. *)
Lemma component_outcome N s thr nb root l w nb' w' :
  cpSpaceProcessComponents_component N s nb root w = Some (nb', w') →
  sleepTimeThreshold <$> w_spaces w !! s = Some thr →
  ring w root l →
  (∀ y, y ∉ l → w_bodies w' !! y = w_bodies w !! y) ∧
  (∀ y, y ∈ nb → y ∈ nb') ∧
  (∀ y, y ∈ sleeping_list s w → y ∈ sleeping_list s w') ∧
  (((∀ y, y ∈ l → ∃ b, w_bodies w !! y = Some b ∧
        w_bodies w' !! y = Some (set_node (mkNode None None 0 (idleTime (node b))) b) ∧
        (space b ≠ None → y ∈ nb')) ∧
    (∃ z b, z ∈ l ∧ w_bodies w !! z = Some b ∧ (idleTime (node b) <? thr)%float = true))
   ∨
   ((∀ y, y ∈ l → ∃ b, w_bodies w !! y = Some b ∧
        (idleTime (node b) <? thr)%float = false) ∧
    w_bodies w' = w_bodies w ∧ root ∈ sleeping_list s w' ∧ nb' = nb)).
Proof.
  intros H Hthr Hring. unfold cpSpaceProcessComponents_component in H.
  apply bind_Some in H as (sp & ? & Hsp & H). apply load_space_Some in Hsp as [Hsp ->].
  rewrite Hsp in Hthr. injection Hthr as Hthr. rewrite Hthr in H.
  apply bind_Some in H as (active & ? & Hact & H).
  pose proof (reads_componentActive _ _ _ _ _ _ Hact) as ->.
  destruct active.
  - pose proof (copy_loop_frame _ _ _ _ _ _ _ H) as (Hspaces & _).
    apply (ring_loop_fold _ _ _ _ l) in H; [|apply copy_next|done].
    destruct (copy_fold _ _ _ _ _ H (ring_from_NoDup _ _ _ _ Hring)) as (Hmem & Hmono & _).
    split; [by eapply copy_frame|]. split; [done|]. split.
    { unfold sleeping_list. by rewrite Hspaces. }
    left. split; [done|]. by eapply componentActive_loop_true.
  - apply bind_Some in H as ([] & w1 & Hloop & H).
    apply bind_Some in H as ([] & w2 & Hpush & H). apply ret_Some in H as [-> ->].
    assert (w_bodies w1 = w_bodies w) as Hbodies.
    { refine (preserves_ring_loop (λ w', w_bodies w' = w_bodies w) _ _ _ _ _ _ _ _ _
                Hloop eq_refl).
      intros [] body.
      apply (preserves_cpSpaceDeactivateBody_bodies (λ bs, bs = w_bodies w)). }
    assert (sleepingComponents <$> w_spaces w1 !! s = Some (sleepingComponents sp)) as Hsc.
    { refine (preserves_ring_loop
                (λ w', sleepingComponents <$> w_spaces w' !! s = Some (sleepingComponents sp))
                _ _ _ _ _ _ _ _ _ Hloop _); [|by rewrite Hsp].
      intros [] body. by apply preserves_cpSpaceDeactivateBody_field. }
    apply modify_space_Some in Hpush as (sp1 & Hsp1 & ->).
    rewrite Hsp1 in Hsc. injection Hsc as Hsc.
    assert (sleeping_list s (with_spaces
              (<[s := set_sleepingComponents (cpArrayPush (sleepingComponents sp1) root) sp1]>
                 (w_spaces w1)) w1) = sleeping_list s w ++ [root]) as Hlist.
    { unfold sleeping_list. simpl. rewrite lookup_insert_eq, Hsp. simpl. by rewrite Hsc. }
    split; [intros y _; simpl; by rewrite Hbodies|]. split; [done|]. split.
    { intros y Hy. rewrite Hlist. apply elem_of_app. by left. }
    right. split; [|split; [done|split; [|done]]].
    + destruct (componentActive_loop_false _ _ _ _ _ _ Hact) as (l' & Hring' & Hall).
      by rewrite (ring_from_det _ _ _ _ _ Hring Hring').
    + rewrite Hlist. apply elem_of_app. right. by left.
Qed.

Lemma sring_bodies_frame w w' r l :
  (∀ y, y ∈ l → w_bodies w' !! y = w_bodies w !! y) → sring w r l → sring w' r l.
Proof.
  intros Hsame. apply sring_frame. intros y Hy. unfold next_of, parent_of.
  by rewrite (Hsame y Hy).
Qed.

(** The component loop over rings that are apart: every ring is either
    copied or put to sleep as a whole, and bodies on none of the rings are
    not written to. *)
Lemma verdict_outcome N s thr cs nb w nb' w' :
  for_array (cpSpaceProcessComponents_component N s) cs nb w = Some (nb', w') →
  sleepTimeThreshold <$> w_spaces w !! s = Some thr →
  NoDup cs → (∀ r, r ∈ cs → ∃ l, sring w r l) →
  (∀ y, (∀ r l, r ∈ cs → sring w r l → y ∉ l) → w_bodies w' !! y = w_bodies w !! y) ∧
  (∀ y, y ∈ nb → y ∈ nb') ∧
  (∀ y, y ∈ sleeping_list s w → y ∈ sleeping_list s w') ∧
  ∀ r l, r ∈ cs → sring w r l →
    ((∀ y, y ∈ l → ∃ b, w_bodies w !! y = Some b ∧
         w_bodies w' !! y = Some (set_node (mkNode None None 0 (idleTime (node b))) b) ∧
         (space b ≠ None → y ∈ nb')) ∧
     (∃ z b, z ∈ l ∧ w_bodies w !! z = Some b ∧ (idleTime (node b) <? thr)%float = true))
    ∨
    ((∀ y, y ∈ l → ∃ b, w_bodies w !! y = Some b ∧ w_bodies w' !! y = Some b ∧
         (idleTime (node b) <? thr)%float = false) ∧
     r ∈ sleeping_list s w').
Proof.
  revert nb w. induction cs as [|root cs IH]; intros nb w H Hthr Hnd Hrings;
    cbn [for_array] in H.
  { apply ret_Some in H as [-> ->]. split; [done|]. split; [done|]. split; [done|].
    intros r l Hr. by apply elem_of_nil in Hr. }
  apply bind_Some in H as (nb1 & w1 & Hstep & H).
  apply NoDup_cons in Hnd as [Hroot Hnd].
  destruct (Hrings root ltac:(by left)) as (l0 & Hl0).
  destruct (component_outcome _ _ _ _ _ _ _ _ _ Hstep Hthr (proj1 Hl0))
    as (Hframe1 & Hmono1 & Hsl1 & Hout1).
  assert (∀ r l y, r ∈ cs → sring w r l → y ∈ l → y ∉ l0) as Hapart.
  { intros r l y Hr Hl Hy Hy0.
    destruct (sring_disjoint _ _ _ _ _ _ Hl Hl0 Hy Hy0) as [-> _]. done. }
  assert (∀ r l, r ∈ cs → sring w r l → sring w1 r l) as Hkeep.
  { intros r l Hr Hl. eapply sring_bodies_frame; [|done].
    intros y Hy. apply Hframe1. by eapply Hapart. }
  assert (∀ r l, r ∈ cs → sring w1 r l → sring w r l) as Hback.
  { intros r l Hr Hl. destruct (Hrings r ltac:(by right)) as (l' & Hl').
    by rewrite (sring_det _ _ _ _ Hl (Hkeep _ _ Hr Hl')). }
  assert (sleepTimeThreshold <$> w_spaces w1 !! s = Some thr) as Hthr1.
  { by eapply (preserves_threshold_component s thr). }
  destruct (IH nb1 w1 H Hthr1 Hnd) as (Hframe & Hmono & Hsl & Hout).
  { intros r Hr. destruct (Hrings r ltac:(by right)) as (l & Hl). exists l. by apply Hkeep. }
  split; [|split; [|split]].
  - intros y Hy. rewrite Hframe.
    + apply Hframe1. apply (Hy root l0); [by left|done].
    + intros r l Hr Hl. apply (Hy r l); [by right|by apply Hback].
  - intros y Hy. by apply Hmono, Hmono1.
  - intros y Hy. by apply Hsl, Hsl1.
  - intros r l [->|Hr]%elem_of_cons Hl.
    + rewrite (sring_det _ _ _ _ Hl Hl0).
      assert (∀ y, y ∈ l0 → w_bodies w' !! y = w_bodies w1 !! y) as Hlater.
      { intros y Hy. apply Hframe. intros r l' Hr Hl' Hy'.
        by apply (Hapart r l' y Hr (Hback _ _ Hr Hl') Hy'). }
      destruct Hout1 as [[Hmem Hz]|(Hall & Hbodies & Hin & ->)]; [left|right].
      * split; [|done]. intros y Hy. destruct (Hmem y Hy) as (b & Hb & Hb1 & Hnb).
        exists b. rewrite (Hlater y Hy). split; [done|]. split; [done|].
        intros Hsp. by apply Hmono, Hnb.
      * split; [|by apply Hsl]. intros y Hy. destruct (Hall y Hy) as (b & Hb & Hidle).
        exists b. rewrite (Hlater y Hy), Hbodies. done.
    + assert (∀ y, y ∈ l → w_bodies w1 !! y = w_bodies w !! y) as Hearlier.
      { intros y Hy. apply Hframe1. by eapply Hapart. }
      destruct (Hout r l Hr (Hkeep _ _ Hr Hl)) as [[Hmem (z & bz & Hz & Hbz & Hlt)]|[Hall Hin]];
        [left|right].
      * split.
        -- intros y Hy. destruct (Hmem y Hy) as (b & Hb & Hb' & Hnb).
           exists b. by rewrite <- (Hearlier y Hy).
        -- exists z, bz. by rewrite <- (Hearlier z Hz).
      * split; [|done]. intros y Hy. destruct (Hall y Hy) as (b & Hb & Hb' & Hidle).
        exists b. by rewrite <- (Hearlier y Hy).
Qed.

(** ** What the forest-building phases keep *)

(** Any property of the store that the writes of forest building keep is
    kept by [mergeBodies], by the arbiter loop and by the constraint loop. *)
Section build_frame.
Context (I : world → Prop).
Context (I_parent : ∀ y p, preserves I (modify_node y (set_parent p))).
Context (I_rank : ∀ y, preserves I (modify_node y (λ n, set_rank (rank n + 1) n))).
Context (I_idle : ∀ y, preserves I (modify_node y (set_idleTime 0))).
Context (I_wake : ∀ y, preserves I (modify_node y (λ _, mkNode None None 0 0))).
Context (I_activate : ∀ N s y, preserves I (cpSpaceActivateBody N s y)).
Context (I_sleeping :
  ∀ s f, preserves I (modify_space s (λ sp, set_sleepingComponents (f sp) sp))).
Context (I_push : ∀ body arb, preserves I (cpBodyPushArbiter body arb)).

Lemma preserves_build_componentNodeRoot N y : preserves I (componentNodeRoot N y).
Proof using I_parent.
  revert y. induction N as [|N IH]; intros y; cbn [componentNodeRoot]; [apply preserves_fail|].
  apply preserves_bind; [apply reads_preserves, reads_load_body|intros b].
  destruct (parent (node b)) as [p|]; [|apply preserves_ret].
  apply preserves_bind; [apply IH|intros r].
  apply preserves_bind; [apply I_parent|intros _; apply preserves_ret].
Qed.

Lemma preserves_build_componentNodeMerge a b : preserves I (componentNodeMerge a b).
Proof using I_parent I_rank.
  apply preserves_bind; [apply reads_preserves, reads_load_body|intros ab].
  apply preserves_bind; [apply reads_preserves, reads_load_body|intros bb].
  destruct (_ <? _)%Z; [apply I_parent|].
  destruct (_ >? _)%Z; [apply I_parent|].
  case_decide; [|apply preserves_ret].
  apply preserves_bind; [apply I_parent|intros _; apply I_rank].
Qed.

Lemma preserves_build_componentActivate N root : preserves I (componentActivate N root).
Proof using I_wake I_activate I_sleeping.
  apply preserves_bind; [apply reads_preserves, reads_load_body|intros r].
  destruct (negb (cpBodyIsSleeping r)); [apply preserves_ret|].
  destruct (space r) as [s|]; [|apply preserves_fail].
  apply preserves_bind;
    [|intros _; apply (I_sleeping s (λ sp, cpArrayDeleteObj (sleepingComponents sp) root))].
  apply preserves_ring_loop. intros [] body.
  apply preserves_bind; [apply I_wake|intros _; apply I_activate].
Qed.

Lemma preserves_build_mergeBodies N space cs rb a b :
  preserves I (mergeBodies N space cs rb a b).
Proof using I_parent I_rank I_idle I_wake I_activate I_sleeping.
  apply preserves_bind; [apply reads_preserves, reads_load_body|intros ab].
  apply preserves_bind.
  { destruct (cpBodyIsStatic ab); [apply preserves_ret|].
    apply preserves_bind; [apply reads_preserves, reads_load_body|intros bb].
    apply preserves_ret. }
  intros [|]; [apply preserves_ret|].
  apply preserves_bind; [apply preserves_build_componentNodeRoot|intros ar].
  apply preserves_bind; [apply preserves_build_componentNodeRoot|intros br].
  apply preserves_bind; [apply reads_preserves, reads_load_body|intros arb].
  apply preserves_bind; [apply reads_preserves, reads_load_body|intros brb]. cbv zeta.
  apply preserves_bind.
  { destruct (_ || _); [|apply preserves_ret].
    apply preserves_bind; [|intros _]; apply preserves_build_componentActivate. }
  intros _. apply preserves_bind; [apply reads_preserves, reads_load_body|intros ab'].
  apply preserves_bind.
  { destruct (cpBodyIsRogue ab'); [|apply preserves_ret].
    apply preserves_bind; [apply I_idle|intros _; apply preserves_ret]. }
  intros rb1. apply preserves_bind; [apply reads_preserves, reads_load_body|intros bb'].
  apply preserves_bind.
  { destruct (cpBodyIsRogue bb'); [|apply preserves_ret].
    apply preserves_bind; [apply I_idle|intros _; apply preserves_ret]. }
  intros rb2. apply preserves_bind; [|intros _; apply preserves_ret].
  apply preserves_build_componentNodeMerge.
Qed.

Lemma preserves_build_arbiter N space cs rb arb :
  preserves I (cpSpaceProcessComponents_arbiter N space cs rb arb).
Proof using All.
  apply preserves_bind; [apply reads_preserves, reads_load_arbiter|intros ar].
  apply preserves_bind; [apply reads_preserves, reads_load_shape|intros a].
  apply preserves_bind; [apply reads_preserves, reads_load_shape|intros b].
  apply preserves_bind; [apply preserves_build_mergeBodies|intros rb1].
  apply preserves_bind; [apply I_push|intros _].
  apply preserves_bind; [apply I_push|intros _; apply preserves_ret].
Qed.

Lemma preserves_build_constraints N fuel space cs rb j :
  preserves I (cpSpaceProcessComponents_constraints N fuel space cs rb j).
Proof using I_parent I_rank I_idle I_wake I_activate I_sleeping.
  revert rb j. induction fuel as [|fuel IH]; intros rb j;
    cbn [cpSpaceProcessComponents_constraints]; [apply preserves_fail|].
  apply preserves_bind; [apply reads_preserves, reads_load_space|intros sp].
  destruct (constraints sp !! j) as [c|]; [|apply preserves_ret].
  apply preserves_bind; [apply reads_preserves, reads_load_constraint|intros con].
  apply preserves_bind; [apply preserves_build_mergeBodies|intros rb1]. apply IH.
Qed.
End build_frame.

(** A property of the record of one body that the node and arbiter-list
    writes of forest building keep. *)
Section body_frame.
Context (x : ptr) (P : cpBody → Prop).
Context (P_parent : ∀ b p, P b → P (set_node (set_parent p (node b)) b)).
Context (P_rank : ∀ b k, P b → P (set_node (set_rank k (node b)) b)).
Context (P_idle : ∀ b, P b → P (set_node (set_idleTime 0 (node b)) b)).
Context (P_wake : ∀ b, P b → P (set_node (mkNode None None 0 0) b)).
Context (P_arbiters : ∀ b a, P b → P (set_arbiterList a b)).
Let I (w : world) : Prop := ∃ b, w_bodies w !! x = Some b ∧ P b.

Lemma preserves_body_modify_body y f :
  (∀ b, P b → P (f b)) → preserves I (modify_body y f).
Proof.
  intros Hf w [] w' H (b & Hb & HP). apply modify_body_Some in H as (b' & Hb' & ->).
  unfold I. simpl. destruct (decide (x = y)) as [->|Hne].
  - rewrite lookup_insert_eq. exists (f b'). split; [done|]. apply Hf.
    by assert (b' = b) as -> by congruence.
  - rewrite lookup_insert_ne by done. by exists b.
Qed.

Lemma preserves_body_cpBodyPushArbiter body arb : preserves I (cpBodyPushArbiter body arb).
Proof using P_arbiters.
  apply preserves_bind; [apply reads_preserves, reads_load_body|intros b].
  destruct (_ && _); [|apply preserves_ret].
  apply preserves_bind.
  - apply (preserves_modify_arbiter_bodies (λ bs, ∃ b, bs !! x = Some b ∧ P b)).
  - intros _. apply preserves_body_modify_body. intros b0. apply P_arbiters.
Qed.

Lemma preserves_body_phases N s w1 rb1 w3 rb l :
  I w1 →
  (∃ w2, for_array (cpSpaceProcessComponents_arbiter N s []) l [] w1 = Some (rb1, w2) ∧
         cpSpaceProcessComponents_constraints N N s [] rb1 0 w2 = Some (rb, w3)) →
  I w3.
Proof using All.
  intros HI (w2 & Harb & Hcon).
  assert (∀ y f, (∀ b, P b → P (set_node (f (node b)) b)) → preserves I (modify_node y f))
    as Hnode by (intros y f Hf; by apply preserves_body_modify_body).
  assert (∀ N s y, preserves I (cpSpaceActivateBody N s y)) as Hact.
  { intros. apply (preserves_cpSpaceActivateBody_bodies (λ bs, ∃ b, bs !! x = Some b ∧ P b)). }
  assert (∀ s f, preserves I (modify_space s (λ sp, set_sleepingComponents (f sp) sp)))
    as Hsl.
  { intros. apply (preserves_modify_space_bodies (λ bs, ∃ b, bs !! x = Some b ∧ P b)). }
  refine (preserves_build_constraints I _ _ _ _ _ _ _ _ _ _ _ _ _ _ _ Hcon _);
    [intros; apply Hnode; intros; by apply P_parent
    |intros; apply Hnode; intros; by apply P_rank
    |intros; apply Hnode; intros; by apply P_idle
    |intros; apply Hnode; intros; by apply P_wake
    |done|done|].
  refine (preserves_for_array I _ _ _ _ _ _ _ Harb HI).
  intros acc arb. apply preserves_build_arbiter;
    [intros; apply Hnode; intros; by apply P_parent
    |intros; apply Hnode; intros; by apply P_rank
    |intros; apply Hnode; intros; by apply P_idle
    |intros; apply Hnode; intros; by apply P_wake
    |done|done|apply preserves_body_cpBodyPushArbiter].
Qed.
End body_frame.

(** [space->bodies] only grows while the forest is built. *)
Section listed_frame.
Context (x s : ptr).
Let I (w : world) : Prop := x ∈ active_list s w.

Lemma preserves_listed_field {A} (c : M A) :
  (∀ v, preserves (λ w, bodies <$> w_spaces w !! s = Some v) c) → preserves I c.
Proof.
  intros Hc w u w' H HI. unfold I, active_list in *.
  destruct (w_spaces w !! s) as [sp|] eqn:Hsp; [|by apply elem_of_nil in HI].
  rewrite (Hc (bodies sp) w u w' H); [done|by rewrite Hsp].
Qed.

Lemma preserves_listed_spaces {A} (c : M A) :
  (∀ w u w', c w = Some (u, w') → w_spaces w' = w_spaces w) → preserves I c.
Proof. intros Hc w u w' H HI. unfold I, active_list. by rewrite (Hc _ _ _ H). Qed.

Lemma preserves_listed_cpSpaceActivateBody N space y :
  preserves I (cpSpaceActivateBody N space y).
Proof.
  apply preserves_bind; [apply reads_preserves, reads_load_space|intros sp].
  destruct (locked sp).
  { apply preserves_listed_field. intros v. by apply preserves_modify_space_field. }
  apply preserves_bind.
  - intros w [] w' H HI. apply modify_space_Some in H as (sp0 & Hsp0 & ->).
    unfold I, active_list in *. simpl. destruct (decide (space = s)) as [->|Hne].
    + rewrite lookup_insert_eq. rewrite Hsp0 in HI. simpl in *.
      apply elem_of_app. by left.
    + by rewrite lookup_insert_ne.
  - intros _. apply preserves_listed_field. intros v.
    by apply preserves_cpSpaceActivateBody_loops.
Qed.

Lemma preserves_listed_phases N w1 rb1 w3 rb l :
  I w1 →
  (∃ w2, for_array (cpSpaceProcessComponents_arbiter N s []) l [] w1 = Some (rb1, w2) ∧
         cpSpaceProcessComponents_constraints N N s [] rb1 0 w2 = Some (rb, w3)) →
  I w3.
Proof.
  intros HI (w2 & Harb & Hcon).
  assert (∀ y f, preserves I (modify_node y f)) as Hnode.
  { intros. apply preserves_listed_spaces. intros w [] w'. apply modify_body_spaces. }
  assert (∀ s0 f, preserves I (modify_space s0 (λ sp, set_sleepingComponents (f sp) sp)))
    as Hsl.
  { intros. apply preserves_listed_field. intros v. by apply preserves_modify_space_field. }
  refine (preserves_build_constraints I _ _ _ _ _ _ _ _ _ _ _ _ _ _ _ Hcon _);
    [done|done|done|done|intros; apply preserves_listed_cpSpaceActivateBody|done|].
  refine (preserves_for_array I _ _ _ _ _ _ _ Harb HI).
  intros acc arb. apply preserves_build_arbiter;
    [done|done|done|done|intros; apply preserves_listed_cpSpaceActivateBody|done|].
  intros body arb0. apply preserves_listed_spaces. intros w [] w' H.
  by apply cpBodyPushArbiter_frame in H as [_ ?].
Qed.
End listed_frame.

(** The phases of [cpSpaceProcessComponents_build], one by one. *)
Lemma cpSpaceProcessComponents_build_phases N s dt w cs w' :
  cpSpaceProcessComponents_build N s dt w = Some (cs, w') →
  build_inv s w [] →
  ∃ sp w1 rb1 w2 rb w3 cs1 w4,
    w_spaces w !! s = Some sp ∧
    for_array (cpSpaceProcessComponents_idle
                 (if truthy (idleSpeedThreshold sp)
                  then idleSpeedThreshold sp * idleSpeedThreshold sp
                  else cpvdot (gravity sp) (gravity sp) * dt * dt)%float dt)
      (bodies sp) tt w = Some (tt, w1) ∧
    same_links w w1 ∧ w_spaces w1 = w_spaces w ∧
    for_array (cpSpaceProcessComponents_arbiter N s []) (arbiters sp) [] w1 = Some (rb1, w2) ∧
    cpSpaceProcessComponents_constraints N N s [] rb1 0 w2 = Some (rb, w3) ∧
    build_inv s w3 rb ∧
    for_array (λ cs body, addToComponent N body cs) (active_list s w3) [] w3 = Some (cs1, w4) ∧
    for_array (λ cs body, addToComponent N body cs) rb cs1 w4 = Some (cs, w').
Proof.
  intros H Hinv. unfold cpSpaceProcessComponents_build in H.
  apply bind_Some in H as (sp & ? & Hsp & H). apply load_space_Some in Hsp as [Hsp ->].
  cbv zeta in H.
  apply bind_Some in H as ([] & w1 & Hidle & H).
  apply bind_Some in H as (rb1 & w2 & Harb & H).
  apply bind_Some in H as (rb & w3 & Hcon & H).
  apply bind_Some in H as (sp3 & ? & Hsp3 & H). apply load_space_Some in Hsp3 as [Hsp3 ->].
  apply bind_Some in H as (cs1 & w4 & Hadd1 & Hadd2).
  assert (same_links w w1 ∧ w_spaces w1 = w_spaces w) as [Hn Hs].
  { refine (for_array_inv (λ _ w1, same_links w w1 ∧ w_spaces w1 = w_spaces w)
              _ _ _ _ _ _ _ Hidle (conj (same_links_refl w) eq_refl)).
    intros [] x wa [] wb _ Hstep [Hn Hs].
    apply cpSpaceProcessComponents_idle_links in Hstep as [Hn' Hs'].
    split; [by eapply same_links_trans|congruence]. }
  exists sp, w1, rb1, w2, rb, w3, cs1, w4.
  split; [done|]. split; [done|]. split; [done|]. split; [done|]. split; [done|].
  split; [done|]. split; [|split; [|done]].
  - assert (build_inv s w1 []) as Hinv1.
    { apply (build_inv_links s w);
        [done|done|unfold active_list; by rewrite Hs|by rewrite Hs|done]. }
    assert (build_inv s w2 rb1) as Hinv2.
    { refine (for_array_inv (λ rb w, build_inv s w rb) _ _ _ _ _ _ _ Harb Hinv1).
      intros ? ? ? ? ? _. apply cpSpaceProcessComponents_arbiter_build_inv. }
    by eapply cpSpaceProcessComponents_constraints_build_inv.
  - unfold active_list. by rewrite Hsp3.
Qed.

Lemma rest_idle_of w w0 y :
  rest <$> view_of w y = rest <$> view_of w0 y → idle_of w y = idle_of w0 y.
Proof.
  rewrite !idle_of_view. destruct (view_of w y) as [[[[? ?] ?] ?]|],
    (view_of w0 y) as [[[[? ?] ?] ?]|]; simpl; intros [=]; by subst.
Qed.

Lemma rest_space_of w w0 y :
  rest <$> view_of w y = rest <$> view_of w0 y →
  space <$> w_bodies w !! y = space <$> w_bodies w0 !! y.
Proof.
  rewrite !space_of_view. destruct (view_of w y) as [[[[? ?] ?] ?]|],
    (view_of w0 y) as [[[[? ?] ?] ?]|]; simpl; intros [=]; by subst.
Qed.

(** Ring assembly and the component loop, from a store that forest building
    has left: a body of [space->bodies] that is awake there ends in a group
    that is copied as a whole or put to sleep as a whole. *)
Lemma cpSpaceProcessComponents_tail N s thr rb w3 cs1 w4 cs w_mid nb w_end x :
  build_inv s w3 rb →
  for_array (λ cs body, addToComponent N body cs) (active_list s w3) [] w3 = Some (cs1, w4) →
  for_array (λ cs body, addToComponent N body cs) rb cs1 w4 = Some (cs, w_mid) →
  for_array (cpSpaceProcessComponents_component N s) cs [] w_mid = Some (nb, w_end) →
  sleepTimeThreshold <$> w_spaces w_mid !! s = Some thr →
  x ∈ active_list s w3 → next_of w3 x = Some None →
  (∀ y, idle_of w_end y = idle_of w3 y) ∧
  ∃ l, x ∈ l ∧
    ((x ∈ nb ∧
      (∀ y, y ∈ l → cleared w_end y ∧
                    (space <$> w_bodies w_end !! y ≠ Some None → y ∈ nb)) ∧
      (∃ z i, z ∈ l ∧ idle_of w_end z = Some i ∧ (i <? thr)%float = true))
     ∨
     (∃ r, r ∈ sleeping_list s w_end ∧ sring w_end r l ∧
           ∀ y, y ∈ l → (y ∉ nb) ∧ ∃ i, idle_of w_end y = Some i ∧ (i <? thr)%float = false)).
Proof.
  intros Hinv H1 H2 Hverdict Hthr Hx Hawake.
  pose proof (asm_inv_start _ _ _ Hinv) as Hasm.
  apply (assembly_fold _ _ _ _ _ _ _ _ _ (λ x Hx, or_introl Hx) H1) in Hasm.
  apply (assembly_fold _ _ _ _ _ _ _ _ _ (λ x Hx, or_intror Hx) H2) in Hasm.
  simpl in Hasm.
  assert (∀ y, idle_of w_end y = idle_of w_mid y) as Hidle.
  { intros y.
    refine (preserves_for_array (λ w, idle_of w y = idle_of w_mid y) _ _ _ _ _ _ _
              Hverdict eq_refl).
    intros acc r. apply preserves_component_idle. }
  split.
  { intros y. rewrite Hidle. apply rest_idle_of, (ai_rest _ _ _ _ _ Hasm). }
  destruct (ai_seen _ _ _ _ _ Hasm x) as (n & Hn); [apply elem_of_app; by left|done|].
  destruct (ai_ringed _ _ _ _ _ Hasm x n Hawake Hn) as (r & l & Hr & Hring & Hxl).
  destruct (verdict_outcome _ _ _ _ _ _ _ _ Hverdict Hthr (ai_nodup _ _ _ _ _ Hasm))
    as (_ & _ & _ & Hout).
  { intros r0 Hr0. destruct (ai_rings _ _ _ _ _ Hasm r0 Hr0) as (l0 & Hl0 & _). by exists l0. }
  destruct (verdict_cleared _ _ _ _ _ _ _ Hverdict (NoDup_nil_2)) as [_ Hcleared].
  { intros y Hy. by apply elem_of_nil in Hy. }
  exists l. split; [done|].
  destruct (Hout r l Hr Hring) as [[Hmem (z & bz & Hz & Hbz & Hlt)]|[Hall Hin]]; [left|right].
  - split; [|split].
    + destruct (Hmem x Hxl) as (b & Hb & _ & Hnb). apply Hnb. intros Hsp.
      pose proof (rest_space_of _ _ _ (ai_rest _ _ _ _ _ Hasm x)) as Hs. rewrite Hb in Hs.
      destruct (w_bodies w3 !! x) as [b3|] eqn:Hb3; [|done]. simpl in Hs.
      injection Hs as Hs.
      apply (bi_active_not_rogue _ _ _ Hinv x (next (node b3)) (idleTime (node b3))
               (isStatic b3) Hx).
      unfold view_of, bview. rewrite Hb3. simpl. by rewrite <- Hs, Hsp.
    + intros y Hy. destruct (Hmem y Hy) as (b & Hb & Hb' & Hnb). split.
      * by exists (set_node (mkNode None None 0 (idleTime (node b))) b).
      * rewrite Hb'. simpl. intros Hsp. apply Hnb. intros Hsp'. by rewrite Hsp' in Hsp.
    + exists z, (idleTime (node bz)). split; [done|]. split; [|done].
      rewrite Hidle. unfold idle_of. by rewrite Hbz.
  - exists r. split; [done|].
    assert (sring w_end r l) as Hring'.
    { eapply sring_bodies_frame; [|done]. intros y Hy.
      destruct (Hall y Hy) as (b & Hb & Hb' & _). congruence. }
    split; [done|]. intros y Hy. split.
    + intros Hnb. destruct (Hcleared y Hnb) as (b & Hb & _ & Hnext & _).
      destruct (sring_next _ _ _ _ Hring' Hy) as (ny & Hny).
      apply next_of_Some in Hny as (b' & Hb' & Hny). congruence.
    + destruct (Hall y Hy) as (b & Hb & Hb' & Hge). exists (idleTime (node b)).
      split; [|done]. unfold idle_of. by rewrite Hb'.
Qed.

(** ** [cpSpaceProcessComponents]: awake bodies stay awake or fall asleep in groups *)

(** X11.  Take a store as [cpSpaceProcessComponents] expects it and a body of
    [space->bodies] that is awake.  When the call returns the body belongs to
    a group [l] of bodies that has been treated as a whole.  Either the group
    is awake: the body is in the new [space->bodies], every member has no
    parent, no ring link and rank 0, every member that is not rogue is in
    [space->bodies], and some member has an idle time below
    [sleepTimeThreshold].  Or the group sleeps: it is a ring with its tree
    whose root is in [sleepingComponents], no member is in [space->bodies],
    and no member has an idle time below the threshold. *)
Theorem cpSpaceProcessComponents_groups (N : nat) (s : ptr) (dt thr : cpFloat)
    (w w' : world) (x : ptr) :
  build_inv s w [] →
  sleepTimeThreshold <$> w_spaces w !! s = Some thr →
  x ∈ active_list s w → next_of w x = Some None →
  cpSpaceProcessComponents N s dt w = Some (tt, w') →
  ∃ l, x ∈ l ∧
    ((x ∈ active_list s w' ∧
      (∀ y, y ∈ l → cleared w' y ∧
                    (space <$> w_bodies w' !! y ≠ Some None → y ∈ active_list s w')) ∧
      (∃ z i, z ∈ l ∧ idle_of w' z = Some i ∧ (i <? thr)%float = true))
     ∨
     (∃ r, r ∈ sleeping_list s w' ∧ sring w' r l ∧
           ∀ y, y ∈ l → (y ∉ active_list s w') ∧
                        ∃ i, idle_of w' y = Some i ∧ (i <? thr)%float = false)).
Proof.
  intros Hinv Hthr Hx Hawake H. unfold cpSpaceProcessComponents in H. cbv zeta in H.
  apply bind_Some in H as (cs & w_mid & Hbuild & H).
  apply bind_Some in H as (nb & w_end & Hverdict & H).
  apply modify_space_Some in H as (sp_end & Hsp_end & ->).
  pose proof (preserves_threshold_build s thr _ _ _ _ _ _ Hbuild Hthr) as Hthr_mid.
  destruct (cpSpaceProcessComponents_build_phases _ _ _ _ _ _ Hbuild Hinv)
    as (sp & w1 & rb1 & w2 & rb & w3 & cs1 & w4 & Hsp & Hidle & Hlinks & Hspaces & Harb &
        Hcon & Hinv3 & Hadd1 & Hadd2).
  assert (x ∈ active_list s w3) as Hx3.
  { eapply (preserves_listed_phases x s); [|by eauto].
    unfold active_list. by rewrite Hspaces. }
  assert (next_of w3 x = Some None) as Hawake3.
  { assert (∃ b, w_bodies w3 !! x = Some b ∧ next (node b) = None) as (b & Hb & Hn).
    { eapply (preserves_body_phases x (λ b, next (node b) = None)); try done; [|by eauto].
      apply next_of_Some. by rewrite (same_links_next_of _ _ _ Hlinks). }
    apply next_of_Some. eauto. }
  destruct (cpSpaceProcessComponents_tail _ _ _ _ _ _ _ _ _ _ _ _ Hinv3 Hadd1 Hadd2 Hverdict
              Hthr_mid Hx3 Hawake3) as (_ & l & Hxl & Hcase).
  assert (active_list s (with_spaces (<[s := set_bodies nb sp_end]> (w_spaces w_end)) w_end)
          = nb) as Hlist.
  { unfold active_list. simpl. by rewrite lookup_insert_eq. }
  assert (sleeping_list s (with_spaces (<[s := set_bodies nb sp_end]> (w_spaces w_end)) w_end)
          = sleeping_list s w_end) as Hsl.
  { unfold sleeping_list. simpl. by rewrite lookup_insert_eq, Hsp_end. }
  exists l. split; [done|]. rewrite Hlist, Hsl.
  destruct Hcase as [Hcopied|(r & Hr & Hring & Hall)]; [by left|right].
  exists r. split; [done|]. split; [|done].
  eapply sring_bodies_frame; [|done]. done.
Qed.

Lemma cpSpaceProcessComponents_groups_witness :
  ∃ w' l, cpSpaceProcessComponents 3 0 1 (rogue_world 0.5) = Some (tt, w') ∧ 1 ∈ l ∧
          (1 ∈ active_list 0 w' ∨ ∃ r, r ∈ sleeping_list 0 w' ∧ sring w' r l).
Proof.
  destruct (cpSpaceProcessComponents 3 0 1 (rogue_world 0.5)) as [[[] w']|] eqn:Hrun;
    [|vm_compute in Hrun; discriminate].
  destruct (cpSpaceProcessComponents_groups 3 0 1 0.5 (rogue_world 0.5) w' 1
              (rogue_world_build_inv 0.5) eq_refl ltac:(by left) eq_refl Hrun)
    as (l & Hl & [(Hin & _)|(r & Hr & Hring & _)]).
  - exists w', l. split; [reflexivity|]. split; [exact Hl|]. left. exact Hin.
  - exists w', l. split; [reflexivity|]. split; [exact Hl|]. right. exists r.
    split; [exact Hr|exact Hring].
Defined.

(** ** A body that moves is not put to sleep *)

(** One round of the idle phase, seen from the body [x] of mass [m0] and
    kinetic energy [ke0] above the threshold: the body stays awake, and its
    idle time is 0 from its own round on. *)
Lemma cpSpaceProcessComponents_idle_moving dvsq dt x m0 ke0 (z : bool) y w w' :
  ((if truthy dvsq then m0 * dvsq else 0) <? ke0)%float = true →
  cpSpaceProcessComponents_idle dvsq dt tt y w = Some (tt, w') →
  (∃ b, w_bodies w !! x = Some b ∧ m b = m0 ∧ kineticEnergy b = ke0 ∧
        next (node b) = None ∧ (z = true → idleTime (node b) = 0%float)) →
  ∃ b, w_bodies w' !! x = Some b ∧ m b = m0 ∧ kineticEnergy b = ke0 ∧
       next (node b) = None ∧
       (z || bool_decide (y = x) = true → idleTime (node b) = 0%float).
Proof.
  intros Hke H (b & Hb & Hm & Hk & Hn & Hz). unfold cpSpaceProcessComponents_idle in H.
  apply bind_Some in H as (by0 & ? & Hby & H). apply load_body_Some in Hby as [Hby ->].
  cbv zeta in H. apply bind_Some in H as ([] & w1 & H1 & H2).
  apply modify_node_Some in H1 as (b1 & Hb1 & ->).
  apply modify_body_Some in H2 as (b2 & Hb2 & ->). simpl in *.
  destruct (decide (y = x)) as [->|Hne].
  - rewrite lookup_insert_eq in Hb2. injection Hb2 as <-.
    assert (b1 = b) as -> by congruence. assert (by0 = b) as -> by congruence.
    rewrite lookup_insert_eq. eexists. split; [done|]. simpl.
    split; [done|]. split; [done|]. split; [done|]. intros _.
    unfold cpBodyKineticEnergy. by rewrite Hm, Hk, Hke.
  - rewrite !lookup_insert_ne by done. exists b.
    split; [done|]. split; [done|]. split; [done|]. split; [done|].
    rewrite bool_decide_eq_false_2 by done. rewrite orb_false_r. done.
Qed.

Lemma cpSpaceProcessComponents_idle_loop_moving dvsq dt x m0 ke0 l (z : bool) w w' :
  ((if truthy dvsq then m0 * dvsq else 0) <? ke0)%float = true →
  for_array (cpSpaceProcessComponents_idle dvsq dt) l tt w = Some (tt, w') →
  (∃ b, w_bodies w !! x = Some b ∧ m b = m0 ∧ kineticEnergy b = ke0 ∧
        next (node b) = None ∧ (z = true → idleTime (node b) = 0%float)) →
  ∃ b, w_bodies w' !! x = Some b ∧ m b = m0 ∧ kineticEnergy b = ke0 ∧
       next (node b) = None ∧
       (z || bool_decide (x ∈ l) = true → idleTime (node b) = 0%float).
Proof.
  intros Hke. revert z w. induction l as [|y l IH]; intros z w H HQ; cbn [for_array] in H.
  - apply ret_Some in H as [_ ->]. destruct HQ as (b & Hb & Hm & Hk & Hn & Hz).
    exists b. repeat (split; [done|]). intros Hor. apply Hz.
    rewrite bool_decide_eq_false_2 in Hor by (by intros ?%elem_of_nil).
    by rewrite orb_false_r in Hor.
  - apply bind_Some in H as ([] & w1 & Hstep & H).
    pose proof (cpSpaceProcessComponents_idle_moving _ _ _ _ _ _ _ _ _ Hke Hstep HQ) as HQ1.
    destruct (IH _ _ H HQ1) as (b & Hb & Hm & Hk & Hn & Hz).
    exists b. repeat (split; [done|]). intros Hor. apply Hz.
    apply orb_true_iff in Hor as [->|Hin]; [done|].
    apply bool_decide_eq_true in Hin. apply elem_of_cons in Hin as [->|Hin].
    + rewrite bool_decide_eq_true_2 by done. by rewrite orb_true_r.
    + rewrite (bool_decide_eq_true_2 (x ∈ l)) by done. by rewrite orb_true_r.
Qed.

(** X12.  Take a store as [cpSpaceProcessComponents] expects it, with a sleep
    threshold above 0, and an awake body of [space->bodies] whose kinetic
    energy is above the idle threshold the call computes for it.  When the
    call returns the body is in the new [space->bodies] and its node is
    [{absent, absent, 0, 0}]: it has not been put to sleep and its idle time
    has been reset. *)
Theorem cpSpaceProcessComponents_moving_awake (N : nat) (s : ptr) (dt : cpFloat)
    (w w' : world) (x : ptr) (b : cpBody) (sp : cpSpace) :
  build_inv s w [] →
  w_spaces w !! s = Some sp → (0 <? sleepTimeThreshold sp)%float = true →
  x ∈ bodies sp → w_bodies w !! x = Some b → next (node b) = None →
  (idle_thresh sp dt (m b) <? cpBodyKineticEnergy b)%float = true →
  cpSpaceProcessComponents N s dt w = Some (tt, w') →
  x ∈ active_list s w' ∧
  ∃ b', w_bodies w' !! x = Some b' ∧ node b' = mkNode None None 0 0.
Proof.
  intros Hinv Hsp Hpos Hx Hb Hawake Hke H. unfold cpSpaceProcessComponents in H.
  cbv zeta in H.
  apply bind_Some in H as (cs & w_mid & Hbuild & H).
  apply bind_Some in H as (nb & w_end & Hverdict & H).
  apply modify_space_Some in H as (sp_end & Hsp_end & ->).
  assert (sleepTimeThreshold <$> w_spaces w_mid !! s = Some (sleepTimeThreshold sp))
    as Hthr_mid.
  { apply (preserves_threshold_build s _ _ _ _ _ _ _ Hbuild). by rewrite Hsp. }
  destruct (cpSpaceProcessComponents_build_phases _ _ _ _ _ _ Hbuild Hinv)
    as (sp0 & w1 & rb1 & w2 & rb & w3 & cs1 & w4 & Hsp0 & Hidle & Hlinks & Hspaces & Harb &
        Hcon & Hinv3 & Hadd1 & Hadd2).
  assert (sp0 = sp) as -> by congruence.
  assert (x ∈ active_list s w3) as Hx3.
  { eapply (preserves_listed_phases x s); [|by eauto].
    unfold active_list. by rewrite Hspaces, Hsp. }
  destruct (cpSpaceProcessComponents_idle_loop_moving _ _ x (m b) (kineticEnergy b) _ false
              _ _ Hke Hidle) as (b1 & Hb1 & _ & _ & Hn1 & Hz1).
  { exists b. by repeat (split; [done|]). }
  rewrite bool_decide_eq_true_2 in Hz1 by done. specialize (Hz1 eq_refl).
  assert (∃ b3, w_bodies w3 !! x = Some b3 ∧
                next (node b3) = None ∧ idleTime (node b3) = 0%float)
    as (b3 & Hb3 & Hn3 & Hz3).
  { eapply (preserves_body_phases x (λ b, next (node b) = None ∧ idleTime (node b) = 0%float));
      [by intros ? ? []|by intros ? ? []|by intros ? []|done|by intros ? ? []
      |by exists b1|by eauto]. }
  destruct (cpSpaceProcessComponents_tail _ _ _ _ _ _ _ _ _ _ _ x Hinv3 Hadd1 Hadd2 Hverdict
              Hthr_mid Hx3) as (Hidle_end & l & Hxl & Hcase).
  { apply next_of_Some. eauto. }
  assert (idle_of w_end x = Some 0%float) as Hzero.
  { rewrite Hidle_end. unfold idle_of. rewrite Hb3. simpl. by rewrite Hz3. }
  destruct Hcase as [(Hin & Hmem & _)|(r & _ & _ & Hall)].
  - split; [unfold active_list; simpl; by rewrite lookup_insert_eq|].
    destruct (Hmem x Hxl) as [(b' & Hb' & Hp & Hn & Hr) _].
    exists b'. split; [done|]. unfold idle_of in Hzero. rewrite Hb' in Hzero.
    injection Hzero as Hzero. destruct (node b'). simpl in *. by subst.
  - destruct (Hall x Hxl) as (_ & i & Hi & Hge). rewrite Hzero in Hi.
    injection Hi as <-. congruence.
Qed.

(** [moving_world] is a store as [cpSpaceProcessComponents] expects it. *)
Lemma moving_world_build_inv : build_inv 0 moving_world [].
Proof.
  assert (∀ x b, w_bodies moving_world !! x = Some b →
            x = 1 ∧ b = mkBody 1 500 zero_vect zero_vect false None None None (Some 0)
                          (mkNode None None 0 0.75)) as Hbodies.
  { intros x b. unfold moving_world. simpl. destruct (decide (x = 1)) as [->|H1].
    - rewrite lookup_insert_eq. by intros [= <-].
    - rewrite lookup_insert_ne by done. by rewrite lookup_empty. }
  assert (∀ x v, view_of moving_world x = Some v →
            x = 1 ∧ v = (None, 0.75%float, Some 0, false)) as Hview.
  { intros x v. unfold view_of.
    destruct (w_bodies moving_world !! x) as [b|] eqn:Hb; [|done].
    intros [= <-]. by apply Hbodies in Hb as [-> ->]. }
  assert (active_list 0 moving_world = [1]) as Hlist by reflexivity.
  split.
  - reflexivity.
  - intros x nx idle st _ Hv. by apply Hview in Hv as [_ [=]].
  - intros x idle sp st Hv. apply Hview in Hv as [-> _]. split.
    + intros _ _. rewrite Hlist. by left.
    + intros p Hp. unfold parent_of in Hp.
      destruct (w_bodies moving_world !! 1) as [b|] eqn:Hb; [|done].
      by apply Hbodies in Hb as [_ ->].
  - intros x n idle sp st Hv. by apply Hview in Hv as [_ [=]].
  - intros R HR. by apply elem_of_nil in HR.
Qed.

Lemma cpSpaceProcessComponents_moving_awake_witness :
  ∃ w', cpSpaceProcessComponents 2 0 1 moving_world = Some (tt, w') ∧
        1 ∈ active_list 0 w' ∧
        node <$> w_bodies w' !! 1 = Some (mkNode None None 0 0).
Proof.
  destruct (cpSpaceProcessComponents 2 0 1 moving_world) as [[[] w']|] eqn:Hrun;
    [|vm_compute in Hrun; discriminate].
  destruct (cpSpaceProcessComponents_moving_awake 2 0 1 moving_world w' 1
              (mkBody 1 500 zero_vect zero_vect false None None None (Some 0)
                 (mkNode None None 0 0.75))
              (example_space false 0.5 [1] [])
              moving_world_build_inv eq_refl eq_refl ltac:(by left) eq_refl eq_refl
              ltac:(vm_compute; reflexivity) Hrun) as (Hin & b' & Hb' & Hnode).
  exists w'. split; [reflexivity|]. split; [exact Hin|]. rewrite Hb'. simpl.
  by rewrite Hnode.
Defined.

(** ** [mergeBodies] as the union of a union-find forest *)

(** Merging two roots leaves one of them as the root of both trees. *)
Lemma componentNodeMerge_roots a b w w' :
  componentNodeMerge a b w = Some (tt, w') →
  parent_of w a = Some None → parent_of w b = Some None →
  ∃ r, (r = a ∨ r = b) ∧ parent_of w' r = Some None ∧
       (∀ y, root_of w y a ∨ root_of w y b → root_of w' y r) ∧
       (∀ y ry, root_of w y ry → ry ≠ a → ry ≠ b → root_of w' y ry).
Proof.
  intros Hrun Ha Hb.
  apply componentNodeMerge_inv in Hrun as (_ & _ & _ & _ & _ & _ & Hmerge).
  destruct Hmerge as [[-> Hp]|(child & par & Hcp & Hne & Hchild & Hp)].
  - assert (∀ y ry, root_of w y ry → root_of w' y ry) as Hroots.
    { intros y ry [l Hc]. exists l. eapply chain_frame; [|done]. intros z _. apply Hp. }
    exists b. split; [by left|]. split; [by rewrite Hp|].
    split; [intros y [?|?]; by apply Hroots|]. intros y ry Hy _ _. by apply Hroots.
  - assert (parent_of w child = Some None ∧ parent_of w par = Some None) as [Hc0 Hp0].
    { destruct Hcp as [[-> ->]|[-> ->]]; done. }
    pose proof (λ y ry, link_root_of w w' child par y ry Hne Hc0 Hp0 Hchild Hp) as Hlink.
    exists par. split; [destruct Hcp as [[_ ->]|[_ ->]]; auto|].
    split; [by rewrite Hp|]. split.
    + intros y Hy.
      assert (∃ ry, root_of w y ry ∧ (ry = child ∨ ry = par)) as (ry & Hry & Hcase).
      { destruct Hy as [Hy|Hy], Hcp as [[-> ->]|[-> ->]]; eauto. }
      specialize (Hlink y ry Hry). destruct Hcase as [-> | ->].
      * by rewrite decide_True in Hlink.
      * by rewrite decide_False in Hlink by done.
    + intros y ry Hy Hya Hyb. specialize (Hlink y ry Hy).
      rewrite decide_False in Hlink; [done|]. destruct Hcp as [[-> ->]|[-> ->]]; done.
Qed.

(** Looking up a root keeps every root, every view and the root's missing
    parent. *)
Lemma componentNodeRoot_roots N x w r w' :
  componentNodeRoot N x w = Some (r, w') →
  root_of w x r ∧ parent_of w' r = Some None ∧
  (∀ y ry, root_of w y ry → root_of w' y ry) ∧
  (∀ y, view_of w' y = view_of w y) ∧
  (∀ y, parent_of w y = Some None → parent_of w' y = Some None).
Proof.
  intros H. apply componentNodeRoot_inv in H as (l & Hc & _ & ->).
  split; [by exists l|]. split; [|split; [|split]].
  - rewrite compress_parent_of, decide_False by (apply (chain_root_not_in _ _ _ _ Hc)).
    by eapply chain_root_parent_of.
  - intros y ry. by apply (compress_root_of _ x).
  - intros y. apply compress_view.
  - intros y Hy. rewrite compress_parent_of. case_decide as Hin; [|done].
    destruct (chain_member_has_parent _ _ _ _ _ Hc Hin Hy).
Qed.

(** X14.  [mergeBodies] is the union of the forest.  When it returns for two
    bodies that are not static and whose roots [ra] and [rb] are awake, one
    of the two roots, [r], is the root of everything that was under either:
    in particular [a] and [b] are in one tree afterwards.  Every other tree
    keeps its root. *)
Theorem mergeBodies_unites (N : nat) (s : ptr) (cs rogueBodies : list ptr) (a b : ptr)
    (w : world) (rogueBodies' : list ptr) (w' : world) (ab bb : cpBody) (ra rb : ptr) :
  w_bodies w !! a = Some ab → w_bodies w !! b = Some bb →
  cpBodyIsStatic ab = false → cpBodyIsStatic bb = false →
  root_of w a ra → root_of w b rb →
  next_of w ra = Some None → next_of w rb = Some None →
  mergeBodies N s cs rogueBodies a b w = Some (rogueBodies', w') →
  ∃ r, (r = ra ∨ r = rb) ∧ parent_of w' r = Some None ∧
       root_of w' a r ∧ root_of w' b r ∧
       (∀ y, root_of w y ra ∨ root_of w y rb → root_of w' y r) ∧
       (∀ y ry, root_of w y ry → ry ≠ ra → ry ≠ rb → root_of w' y ry).
Proof.
  intros Hab Hbb Hsa Hsb Hra Hrb Hna Hnb H. unfold mergeBodies in H.
  apply bind_Some in H as (ab0 & ? & Hab0 & H). apply load_body_Some in Hab0 as [Hab0 ->].
  assert (ab0 = ab) as -> by congruence. rewrite Hsa in H.
  apply bind_Some in H as (static & w0 & Hst & H).
  apply bind_Some in Hst as (bb0 & ? & Hbb0 & Hst). apply load_body_Some in Hbb0 as [Hbb0 ->].
  assert (bb0 = bb) as -> by congruence. rewrite Hsb in Hst.
  apply ret_Some in Hst as [-> ->].
  (* the two roots *)
  apply bind_Some in H as (ar & w1 & Har & H).
  apply componentNodeRoot_roots in Har as (Hra0 & Hpa1 & Hroots1 & Hv1 & Hp1).
  pose proof (root_of_det _ _ _ _ Hra0 Hra) as ->.
  apply bind_Some in H as (br & w2 & Hbr & H).
  apply componentNodeRoot_roots in Hbr as (Hrb1 & Hpb2 & Hroots2 & Hv2 & Hp2).
  pose proof (root_of_det _ _ _ _ Hrb1 (Hroots1 _ _ Hrb)) as ->.
  assert (∀ y, next_of w2 y = next_of w y) as Hnext2.
  { intros y. by rewrite !next_of_view_of, Hv2, Hv1. }
  (* nothing sleeps *)
  apply bind_Some in H as (arb & ? & Harb & H). apply load_body_Some in Harb as [Harb ->].
  apply bind_Some in H as (brb & ? & Hbrb & H). apply load_body_Some in Hbrb as [Hbrb ->].
  assert (cpBodyIsSleeping arb = false) as Hsla.
  { rewrite <- Hnext2 in Hna. apply next_of_Some in Hna as (b0 & Hb0 & Hn0).
    assert (b0 = arb) as -> by congruence. unfold cpBodyIsSleeping. rewrite Hn0.
    by apply bool_decide_eq_false_2; intros ?. }
  assert (cpBodyIsSleeping brb = false) as Hslb.
  { rewrite <- Hnext2 in Hnb. apply next_of_Some in Hnb as (b0 & Hb0 & Hn0).
    assert (b0 = brb) as -> by congruence. unfold cpBodyIsSleeping. rewrite Hn0.
    by apply bool_decide_eq_false_2; intros ?. }
  cbv zeta in H. rewrite Hsla, Hslb in H. simpl in H.
  apply bind_Some in H as ([] & w4 & Hwake & H). apply ret_Some in Hwake as [_ ->].
  (* rogue bodies and idle times *)
  apply bind_Some in H as (ab4 & ? & Hab4 & H). apply load_body_Some in Hab4 as [Hab4 ->].
  apply bind_Some in H as (rb1 & w5 & Hrogue_a & H).
  apply (mergeBodies_rogue _ _ _ _ _ _ _ Hab4) in Hrogue_a as (Hn5 & _ & _ & _).
  apply bind_Some in H as (bb5 & ? & Hbb5 & H). apply load_body_Some in Hbb5 as [Hbb5 ->].
  apply bind_Some in H as (rb2 & w6 & Hrogue_b & H).
  apply (mergeBodies_rogue _ _ _ _ _ _ _ Hbb5) in Hrogue_b as (Hn6 & _ & _ & _).
  apply bind_Some in H as ([] & w7 & Hmerge & H). apply ret_Some in H as [-> ->].
  pose proof (same_links_trans _ _ _ Hn5 Hn6) as Hn.
  assert (∀ y ry, root_of w y ry → root_of w6 y ry) as Hroots6.
  { intros y ry Hy. by apply (same_links_root_of w2 w6), Hroots2, Hroots1. }
  destruct (componentNodeMerge_roots _ _ _ _ Hmerge) as (r & Hr & Hpr & Hunder & Hother).
  { destruct (Hn ra) as [-> _]. by apply Hp2. }
  { destruct (Hn rb) as [-> _]. done. }
  exists r. split; [done|]. split; [done|].
  split; [apply Hunder; left; by apply Hroots6|].
  split; [apply Hunder; right; by apply Hroots6|]. split.
  - intros y [Hy|Hy]; apply Hunder; [left|right]; by apply Hroots6.
  - intros y ry Hy Ha Hb. apply Hother; [by apply Hroots6|done|done].
Qed.

Lemma mergeBodies_unites_witness :
  ∃ rb' w' r, mergeBodies 2 0 [] [] 1 2 awake_pair = Some (rb', w') ∧
              root_of w' 1 r ∧ root_of w' 2 r.
Proof.
  destruct (mergeBodies 2 0 [] [] 1 2 awake_pair) as [[rb' w']|] eqn:Hrun;
    [|vm_compute in Hrun; discriminate].
  assert (∀ x, x = 1 ∨ x = 2 → root_of awake_pair x x) as Hroot.
  { intros x Hx. exists []. apply chain_root'. destruct Hx as [-> | ->]; reflexivity. }
  destruct (mergeBodies_unites 2 0 [] [] 1 2 awake_pair rb' w'
              (example_body (Some 0) None (mkNode None None 0 0))
              (example_body (Some 0) None (mkNode None None 0 0)) 1 2
              ltac:(vm_compute; reflexivity) ltac:(vm_compute; reflexivity) eq_refl eq_refl
              (Hroot 1 (or_introl eq_refl)) (Hroot 2 (or_intror eq_refl)) eq_refl eq_refl Hrun)
    as (r & _ & _ & H1 & H2 & _).
  exists rb', w', r. split; [reflexivity|]. split; [exact H1|exact H2].
Defined.

(** ** [addToComponent] puts a body on the ring of its root *)

(** X15.  [addToComponent] leaves a body that has a ring link alone.  For a
    body without one it looks up the root [r] of the body, which compresses
    the path, and puts the body on the ring of [r]: when [r] had no ring
    link, [r] is appended to [components] and the ring is [r] alone or [r]
    and the body; when [r] had one, [components] stays and the body comes
    right after [r] on the ring.  Idle times, spaces and static flags are not
    written to. *)
Theorem addToComponent_joins (N : nat) (x : ptr) (cs : list ptr) (w : world)
    (cs' : list ptr) (w' : world) :
  addToComponent N x cs w = Some (cs', w') →
  (∀ n, next_of w x = Some (Some n) → cs' = cs ∧ w' = w) ∧
  (next_of w x = Some None →
   ∃ r, root_of w x r ∧ parent_of w' r = Some None ∧
        (x ≠ r → parent_of w' x = Some (Some r)) ∧
        (∀ y, rest <$> view_of w' y = rest <$> view_of w y) ∧
        (∀ y, y ≠ x → y ≠ r → next_of w' y = next_of w y) ∧
        (next_of w r = Some None →
         cs' = cs ++ [r] ∧ ring w' r (if decide (x = r) then [r] else [r; x])) ∧
        (∀ n, next_of w r = Some (Some n) →
         cs' = cs ∧ ∀ t, ring w r (r :: t) → ring w' r (r :: x :: t))).
Proof.
  intros H. unfold addToComponent in H.
  apply bind_Some in H as (b & ? & Hb & H). apply load_body_Some in Hb as [Hb ->].
  case_bool_decide as Hsleep.
  { apply ret_Some in H as [-> ->]. split; [done|]. intros Hx.
    apply next_of_Some in Hx as (b' & Hb' & Hn). by assert (b' = b) as -> by congruence. }
  split.
  { intros n Hx. apply next_of_Some in Hx as (b' & Hb' & Hn).
    assert (b' = b) as -> by congruence. congruence. }
  intros Hx.
  apply bind_Some in H as (r & w1 & Hfind & H).
  pose proof Hfind as Hchain. apply componentNodeRoot_inv in Hchain as (l & Hc & _ & Hw1).
  apply componentNodeRoot_roots in Hfind as (Hroot & Hpr & _ & Hv1 & _).
  assert (∀ y, next_of w1 y = next_of w y) as Hnext1.
  { intros y. by rewrite !next_of_view_of, Hv1. }
  assert (x ≠ r → parent_of w1 x = Some (Some r)) as Hpx.
  { intros Hne. rewrite Hw1, compress_parent_of.
    assert (x ∈ l) as Hxl by (inversion Hc; subst; [done|by left]).
    rewrite decide_True by done. unfold parent_of. by rewrite Hb. }
  apply bind_Some in H as (rb & ? & Hrb & H). apply load_body_Some in Hrb as [Hrb ->].
  exists r. split; [done|].
  destruct (next (node rb)) as [n|] eqn:Hn.
  - assert (next_of w r = Some (Some n)) as Hr.
    { rewrite <- Hnext1. apply next_of_Some. eauto. }
    assert (r ≠ x) as Hne by (intros ->; congruence).
    rewrite decide_True in H by done.
    apply bind_Some in H as ([] & w2 & Hw2 & H).
    apply bind_Some in H as ([] & w3 & Hw3 & H). apply ret_Some in H as [-> ->].
    destruct (set_next_twice _ _ _ _ _ _ Hw2 Hw3) as (Hpar & Hrest & Hr3 & Hx3 & Hframe).
    split; [by rewrite Hpar|]. split; [intros ?; rewrite Hpar; by apply Hpx|].
    split; [intros y; by rewrite Hrest, Hv1|].
    split; [intros y ? ?; by rewrite Hframe, Hnext1|].
    split; [intros Hr0; congruence|].
    intros n' Hr'. split; [done|]. intros t Hring.
    apply (ring_splice w1 _ r x n t).
    + eapply ring_from_frame; [|done]. intros y _. apply Hnext1.
    + by rewrite Hnext1.
    + intros Hin. destruct (ring_from_next _ _ _ _ _ Hring Hin) as (nx & Hnx). congruence.
    + done.
    + by apply Hx3.
    + done.
  - assert (next_of w r = Some None) as Hr.
    { rewrite <- Hnext1. apply next_of_Some. eauto. }
    apply bind_Some in H as ([] & w2 & Hw2 & H).
    apply bind_Some in H as ([] & w3 & Hw3 & H). apply ret_Some in H as [-> ->].
    destruct (set_next_twice _ _ _ _ _ _ Hw2 Hw3) as (Hpar & Hrest & Hr3 & Hx3 & Hframe).
    split; [by rewrite Hpar|]. split; [intros ?; rewrite Hpar; by apply Hpx|].
    split; [intros y; by rewrite Hrest, Hv1|].
    split; [intros y ? ?; by rewrite Hframe, Hnext1|].
    split; [|intros n Hr'; congruence].
    intros _. split; [done|]. case_decide as Hxr.
    + subst x. by apply ring_last'.
    + apply (ring_more' _ _ _ x); [done|done|]. apply ring_last'. by apply Hx3.
Qed.

Lemma addToComponent_joins_witness :
  ∃ cs1 w1 cs2 w2,
    addToComponent 2 1 [] awake_pair = Some (cs1, w1) ∧ cs1 = [1] ∧ ring w1 1 [1] ∧
    addToComponent 2 1 cs1 w1 = Some (cs2, w2) ∧ cs2 = cs1 ∧ w2 = w1.
Proof.
  destruct (addToComponent 2 1 [] awake_pair) as [[cs1 w1]|] eqn:H1;
    [|vm_compute in H1; discriminate].
  destruct (addToComponent_joins 2 1 [] awake_pair cs1 w1 H1) as [_ Hjoin].
  destruct (Hjoin eq_refl) as (r & Hroot & _ & _ & _ & _ & Hnew & _).
  assert (r = 1) as ->.
  { apply (root_of_det awake_pair 1); [done|]. exists []. by apply chain_root'. }
  destruct (Hnew eq_refl) as [Hcs Hring]. simpl in Hcs, Hring.
  destruct (addToComponent 2 1 cs1 w1) as [[cs2 w2]|] eqn:H2.
  2: { exfalso. revert H2. vm_compute in H1. injection H1 as <- <-. vm_compute. discriminate. }
  destruct (addToComponent_joins 2 1 cs1 w1 cs2 w2 H2) as [Hstay _].
  destruct (ring_from_next _ _ _ _ 1 Hring ltac:(by left)) as (n & Hn).
  destruct (Hstay n Hn) as [Hcs2 Hw2].
  exists cs1, w1, cs2, w2. split; [reflexivity|]. split; [exact Hcs|].
  split; [exact Hring|]. split; [exact H2|]. split; [exact Hcs2|exact Hw2].
Defined.

(** ** [cpSpaceProcessComponents] keeps the invariant between steps *)

Lemma cpSpaceProcessComponents_arbiter_parents_listed N s cs rb arb w rb' w' :
  cpSpaceProcessComponents_arbiter N s cs rb arb w = Some (rb', w') →
  build_inv s w rb → parents_listed s w rb → parents_listed s w' rb'.
Proof.
  intros H Hinv HPL. unfold cpSpaceProcessComponents_arbiter in H.
  apply bind_Some in H as (ar & ? & Har & H). apply load_arbiter_Some in Har as [Har ->].
  apply bind_Some in H as (a & ? & Ha & H). apply load_shape_Some in Ha as [Ha ->].
  apply bind_Some in H as (b & ? & Hb & H). apply load_shape_Some in Hb as [Hb ->].
  apply bind_Some in H as (rb1 & w1 & Hmerge & H).
  apply bind_Some in H as ([] & w2 & Hpa & H).
  apply bind_Some in H as ([] & w3 & Hpb & H). apply ret_Some in H as [-> ->].
  pose proof (mergeBodies_parents_listed _ _ _ _ _ _ _ _ _ Hmerge Hinv HPL) as HPL1.
  apply cpBodyPushArbiter_frame in Hpa as [Hn2 Hs2].
  apply cpBodyPushArbiter_frame in Hpb as [Hn3 Hs3].
  apply same_nodes_links in Hn2 as [Hl2 _]. apply same_nodes_links in Hn3 as [Hl3 _].
  apply (parents_listed_links s w1 w3 rb1 rb1); [by eapply same_links_trans| |done|done].
  unfold active_list. by rewrite Hs3, Hs2.
Qed.

Lemma cpSpaceProcessComponents_constraints_parents_listed N fuel s cs rb j w rb' w' :
  cpSpaceProcessComponents_constraints N fuel s cs rb j w = Some (rb', w') →
  build_inv s w rb → parents_listed s w rb → parents_listed s w' rb'.
Proof.
  revert rb j w. induction fuel as [|fuel IH]; intros rb j w H Hinv HPL;
    cbn [cpSpaceProcessComponents_constraints] in H; [done|].
  apply bind_Some in H as (sp & ? & Hsp & H). apply load_space_Some in Hsp as [Hsp ->].
  destruct (constraints sp !! j) as [c|]; [|by apply ret_Some in H as [-> ->]].
  apply bind_Some in H as (con & ? & Hc & H). apply load_constraint_Some in Hc as [Hc ->].
  apply bind_Some in H as (rb1 & w1 & Hmerge & H).
  eapply IH; [done| |].
  - by eapply mergeBodies_build_inv.
  - by eapply mergeBodies_parents_listed.
Qed.

(** After forest building, an awake body with a parent is in [space->bodies]
    or in [rogueBodies]. *)
Lemma cpSpaceProcessComponents_phases_parents_listed N s l w1 rb1 w2 rb w3 :
  build_inv s w1 [] → parents_listed s w1 [] →
  for_array (cpSpaceProcessComponents_arbiter N s []) l [] w1 = Some (rb1, w2) →
  cpSpaceProcessComponents_constraints N N s [] rb1 0 w2 = Some (rb, w3) →
  parents_listed s w3 rb.
Proof.
  intros Hinv1 HPL1 Harb Hcon.
  assert (build_inv s w2 rb1 ∧ parents_listed s w2 rb1) as [Hinv2 HPL2].
  { refine (for_array_inv (λ rb w, build_inv s w rb ∧ parents_listed s w rb)
              _ _ _ _ _ _ _ Harb (conj Hinv1 HPL1)).
    intros acc x wa acc' wb _ Hstep [Hinv HPL]. split.
    - by eapply cpSpaceProcessComponents_arbiter_build_inv.
    - by eapply cpSpaceProcessComponents_arbiter_parents_listed. }
  by eapply cpSpaceProcessComponents_constraints_parents_listed.
Qed.

(** Every entry of [newBodies] is a body that is not rogue. *)
Lemma ring_loop_copy_listed N root body nb w nb' w' :
  ring_loop N cpSpaceProcessComponents_copy root body nb w = Some (nb', w') →
  (∀ x, x ∈ nb → ∃ b, w_bodies w !! x = Some b ∧ space b ≠ None) →
  ∀ x, x ∈ nb' → ∃ b, w_bodies w' !! x = Some b ∧ space b ≠ None.
Proof.
  revert body nb w. induction N as [|N IH]; intros body nb w H Hsp;
    cbn [ring_loop] in H; [done|].
  apply bind_Some in H as (b & ? & Hb & H). apply load_body_Some in Hb as [Hb ->].
  apply bind_Some in H as (nb1 & w1 & Hcopy & H). cbv zeta in H.
  destruct (next (node b)) as [body'|] eqn:Hnext; [|done].
  unfold cpSpaceProcessComponents_copy in Hcopy.
  apply bind_Some in Hcopy as (b0 & ? & Hb0 & Hcopy). apply load_body_Some in Hb0 as [Hb0 ->].
  assert (b0 = b) as -> by congruence. cbv zeta in Hcopy.
  apply bind_Some in Hcopy as ([] & w2 & Hmod & Hcopy). apply ret_Some in Hcopy as [-> ->].
  apply modify_node_Some in Hmod as (b1 & Hb1 & ->). assert (b1 = b) as -> by congruence.
  match type of H with (if _ then ret ?l else _) ?w0 = _ =>
    assert (∀ x, x ∈ l → ∃ b, w_bodies w0 !! x = Some b ∧ space b ≠ None) as Hsp1 end.
  { intros x Hx. simpl. destruct (decide (x = body)) as [->|Hne].
    - rewrite lookup_insert_eq. eexists. split; [done|]. simpl.
      unfold cpBodyIsRogue in Hx. case_bool_decide as Hrogue; [|done]. simpl in Hx.
      destruct (Hsp _ Hx) as (b' & Hb' & Hne). by assert (b' = b) as -> by congruence.
    - rewrite lookup_insert_ne by done. apply Hsp.
      destruct (negb _); [|done]. unfold cpArrayPush in Hx.
      apply elem_of_app in Hx as [?|Hx]; [done|].
      by apply list_elem_of_singleton in Hx. }
  case_decide.
  - apply ret_Some in H as [-> ->]. done.
  - by eapply IH.
Qed.

Lemma verdict_listed N s cs nb w nb' w' :
  for_array (cpSpaceProcessComponents_component N s) cs nb w = Some (nb', w') →
  (∀ x, x ∈ nb → ∃ b, w_bodies w !! x = Some b ∧ space b ≠ None) →
  ∀ x, x ∈ nb' → ∃ b, w_bodies w' !! x = Some b ∧ space b ≠ None.
Proof.
  revert nb w. induction cs as [|root cs IH]; intros nb w H Hsp; cbn [for_array] in H.
  { by apply ret_Some in H as [-> ->]. }
  apply bind_Some in H as (nb1 & w1 & Hc & H). apply (IH _ _ H). clear IH H.
  unfold cpSpaceProcessComponents_component in Hc.
  apply bind_Some in Hc as (sp & ? & Hsp0 & Hc). apply load_space_Some in Hsp0 as [Hsp0 ->].
  apply bind_Some in Hc as (active & ? & Hact & Hc).
  pose proof (reads_componentActive _ _ _ _ _ _ Hact) as ->.
  destruct active; [by eapply ring_loop_copy_listed|].
  apply bind_Some in Hc as ([] & w2 & Hloop & Hc).
  apply bind_Some in Hc as ([] & w3 & Hpush & Hc). apply ret_Some in Hc as [-> ->].
  apply modify_space_Some in Hpush as (sp2 & _ & ->). simpl.
  assert (w_bodies w2 = w_bodies w) as ->; [|done].
  refine (preserves_ring_loop (λ w', w_bodies w' = w_bodies w) _ _ _ _ _ _ _ _ _
            Hloop eq_refl).
  intros [] body. apply (preserves_cpSpaceDeactivateBody_bodies (λ bs, bs = w_bodies w)).
Qed.

(** A property of the store that the writes of [cpSpaceProcessComponents]
    keep is kept by the call. *)
Section process_frame.
Context (I : world → Prop).
Context (I_node : ∀ y f, preserves I (modify_node y f)).
Context (I_arbiterList : ∀ y a, preserves I (modify_body y (set_arbiterList a))).
Context (I_arbiter : ∀ a f, preserves I (modify_arbiter a f)).
Context (I_activate : ∀ N s y, preserves I (cpSpaceActivateBody N s y)).
Context (I_deactivate : ∀ N s y, preserves I (cpSpaceDeactivateBody N s y)).
Context (I_sleeping :
  ∀ s f, preserves I (modify_space s (λ sp, set_sleepingComponents (f sp) sp))).
Context (I_bodies : ∀ s l, preserves I (modify_space s (set_bodies l))).

Lemma preserves_process_addToComponent N body cs : preserves I (addToComponent N body cs).
Proof using I_node.
  apply preserves_bind; [apply reads_preserves, reads_load_body|intros b].
  destruct (bool_decide _); [apply preserves_ret|].
  apply preserves_bind; [by apply preserves_build_componentNodeRoot|intros root].
  apply preserves_bind; [apply reads_preserves, reads_load_body|intros r].
  destruct (next (node r)) as [n|].
  - case_decide; [|apply preserves_ret].
    apply preserves_bind; [apply I_node|intros _].
    apply preserves_bind; [apply I_node|intros _; apply preserves_ret].
  - apply preserves_bind; [apply I_node|intros _].
    apply preserves_bind; [apply I_node|intros _; apply preserves_ret].
Qed.

Lemma preserves_process_build N s dt : preserves I (cpSpaceProcessComponents_build N s dt).
Proof using I_node I_arbiterList I_arbiter I_activate I_sleeping.
  assert (∀ body arb, preserves I (cpBodyPushArbiter body arb)) as Hpush.
  { intros body arb. apply preserves_bind; [apply reads_preserves, reads_load_body|intros b].
    destruct (_ && _); [|apply preserves_ret].
    apply preserves_bind; [apply I_arbiter|intros _; apply I_arbiterList]. }
  apply preserves_bind; [apply reads_preserves, reads_load_space|intros sp]. cbv zeta.
  apply preserves_bind.
  { apply preserves_for_array. intros [] body.
    apply preserves_bind; [apply reads_preserves, reads_load_body|intros b]. cbv zeta.
    apply preserves_bind; [apply I_node|intros _; apply I_arbiterList]. }
  intros _. apply preserves_bind.
  { apply preserves_for_array. intros rb arb. by apply preserves_build_arbiter. }
  intros rb1. apply preserves_bind; [by apply preserves_build_constraints|intros rb].
  apply preserves_bind; [apply reads_preserves, reads_load_space|intros sp3].
  apply preserves_bind; apply preserves_for_array || intros cs1;
    [intros; apply preserves_process_addToComponent|].
  apply preserves_for_array. intros. apply preserves_process_addToComponent.
Qed.

Lemma preserves_process_component N s nb root :
  preserves I (cpSpaceProcessComponents_component N s nb root).
Proof using I_node I_deactivate I_sleeping.
  apply preserves_bind; [apply reads_preserves, reads_load_space|intros sp].
  apply preserves_bind; [apply reads_preserves, reads_componentActive|intros [|]].
  - apply preserves_ring_loop. intros acc body.
    apply preserves_bind; [apply reads_preserves, reads_load_body|intros b]. cbv zeta.
    apply preserves_bind; [apply I_node|intros _; apply preserves_ret].
  - apply preserves_bind.
    { apply preserves_ring_loop. intros [] body. apply I_deactivate. }
    intros _. apply preserves_bind; [|intros _; apply preserves_ret].
    apply (I_sleeping s (λ sp, cpArrayPush (sleepingComponents sp) root)).
Qed.

Lemma preserves_process N s dt : preserves I (cpSpaceProcessComponents N s dt).
Proof using All.
  unfold cpSpaceProcessComponents. cbv zeta.
  apply preserves_bind; [apply preserves_process_build|intros cs].
  apply preserves_bind; [|intros nb; apply I_bodies].
  apply preserves_for_array. intros. apply preserves_process_component.
Qed.
End process_frame.

(** The call writes neither to the lock nor to any [body->space]. *)
Lemma cpSpaceProcessComponents_unlocked N s dt w w' :
  cpSpaceProcessComponents N s dt w = Some (tt, w') →
  locked <$> w_spaces w !! s = Some false → locked <$> w_spaces w' !! s = Some false.
Proof.
  assert (∀ {A} (c : M A), (∀ w u w', c w = Some (u, w') → w_spaces w' = w_spaces w) →
            preserves (λ w, locked <$> w_spaces w !! s = Some false) c) as Hspaces.
  { intros A c Hc w0 u w1 H HI. by rewrite (Hc _ _ _ H). }
  apply (preserves_process (λ w, locked <$> w_spaces w !! s = Some false)).
  - intros. apply Hspaces. intros w0 [] w1. apply modify_body_spaces.
  - intros. apply Hspaces. intros w0 [] w1. apply modify_body_spaces.
  - intros. apply Hspaces. intros w0 [] w1. apply modify_arbiter_spaces.
  - intros. by apply preserves_cpSpaceActivateBody_field.
  - intros. by apply preserves_cpSpaceDeactivateBody_field.
  - intros. by apply preserves_modify_space_field.
  - intros. by apply preserves_modify_space_field.
Qed.

Lemma cpSpaceProcessComponents_space_of N s dt w w' x :
  cpSpaceProcessComponents N s dt w = Some (tt, w') →
  space <$> w_bodies w' !! x = space <$> w_bodies w !! x.
Proof.
  intros H.
  refine (preserves_process (λ w0, space <$> w_bodies w0 !! x = space <$> w_bodies w !! x)
            _ _ _ _ _ _ _ _ _ _ _ _ _ H eq_refl).
  - intros. apply preserves_space_modify_node.
  - intros y a w0 [] w1 H0 HI. apply modify_body_Some in H0 as (b & Hb & ->). simpl.
    destruct (decide (x = y)) as [->|Hne].
    + rewrite lookup_insert_eq. by rewrite Hb in HI.
    + by rewrite lookup_insert_ne.
  - intros. apply (preserves_modify_arbiter_bodies (λ bs, space <$> bs !! x = _)).
  - intros. apply (preserves_cpSpaceActivateBody_bodies (λ bs, space <$> bs !! x = _)).
  - intros. apply (preserves_cpSpaceDeactivateBody_bodies (λ bs, space <$> bs !! x = _)).
  - intros. apply (preserves_modify_space_bodies (λ bs, space <$> bs !! x = _)).
  - intros. apply (preserves_modify_space_bodies (λ bs, space <$> bs !! x = _)).
Qed.

(** Ring assembly gives no parent to a body that has none. *)
Lemma addToComponent_parentless N x cs w cs' w' y :
  addToComponent N x cs w = Some (cs', w') →
  parent_of w y = Some None → parent_of w' y = Some None.
Proof.
  intros H Hy. unfold addToComponent in H.
  apply bind_Some in H as (b & ? & Hb & H). apply load_body_Some in Hb as [Hb ->].
  destruct (bool_decide _); [by apply ret_Some in H as [_ ->]|].
  apply bind_Some in H as (r & w1 & Hfind & H).
  apply componentNodeRoot_roots in Hfind as (_ & _ & _ & _ & Hkeep). apply Hkeep in Hy.
  apply bind_Some in H as (rb & ? & Hrb & H). apply load_body_Some in Hrb as [Hrb ->].
  destruct (next (node rb)) as [n|].
  - case_decide; [|by apply ret_Some in H as [_ ->]].
    apply bind_Some in H as ([] & w2 & Hw2 & H).
    apply bind_Some in H as ([] & w3 & Hw3 & H). apply ret_Some in H as [_ ->].
    destruct (set_next_twice _ _ _ _ _ _ Hw2 Hw3) as (Hpar & _). by rewrite Hpar.
  - apply bind_Some in H as ([] & w2 & Hw2 & H).
    apply bind_Some in H as ([] & w3 & Hw3 & H). apply ret_Some in H as [_ ->].
    destruct (set_next_twice _ _ _ _ _ _ Hw2 Hw3) as (Hpar & _). by rewrite Hpar.
Qed.

(** Ring assembly does not write to a body that was asleep when it began. *)
Lemma addToComponent_sleeping_frame N L w0 cs seen x w cs' w' y n :
  addToComponent N x cs w = Some (cs', w') → asm_inv L w0 w cs seen →
  next_of w0 y = Some (Some n) → w_bodies w' !! y = w_bodies w !! y.
Proof.
  intros H Hinv Hy. unfold addToComponent in H.
  apply bind_Some in H as (b & ? & Hb & H). apply load_body_Some in Hb as [Hb ->].
  case_bool_decide as Hsleep; [by apply ret_Some in H as [_ ->]|].
  assert (next_of w x = Some None) as Hx by (apply next_of_Some; eauto).
  pose proof (ai_awake _ _ _ _ _ Hinv x Hx) as Hx0.
  apply bind_Some in H as (r & w1 & Hfind & H).
  apply componentNodeRoot_inv in Hfind as (l & Hc & _ & ->).
  pose proof (asm_chain _ _ _ _ _ _ _ _ Hinv Hx0 Hc) as Hawake.
  assert (y ∉ l) as Hyl by (intros Hin; destruct (Hawake y (or_introl Hin)); congruence).
  assert (y ≠ r) as Hyr by (intros ->; destruct (Hawake r (or_intror eq_refl)); congruence).
  assert (y ≠ x) as Hyx by (intros ->; congruence).
  apply bind_Some in H as (rb & ? & Hrb & H). apply load_body_Some in Hrb as [Hrb ->].
  assert (∀ n0 w2 w3, modify_node x (set_next (Some n0))
                        (with_bodies (compress r l (w_bodies w)) w) = Some (tt, w2) →
                      modify_node r (set_next (Some x)) w2 = Some (tt, w3) →
                      w_bodies w3 !! y = w_bodies w !! y) as Hlink.
  { intros n0 w2 w3 Hw2 Hw3. apply modify_node_Some in Hw2 as (b1 & _ & ->).
    apply modify_node_Some in Hw3 as (b2 & _ & ->). simpl.
    rewrite !lookup_insert_ne by done. by apply compress_lookup_notin. }
  destruct (next (node rb)) as [n0|].
  - case_decide.
    + apply bind_Some in H as ([] & w2 & Hw2 & H).
      apply bind_Some in H as ([] & w3 & Hw3 & H). apply ret_Some in H as [_ ->]. eauto.
    + apply ret_Some in H as [_ ->]. simpl. by apply compress_lookup_notin.
  - apply bind_Some in H as ([] & w2 & Hw2 & H).
    apply bind_Some in H as ([] & w3 & Hw3 & H). apply ret_Some in H as [_ ->]. eauto.
Qed.

Lemma assembly_frames N (L : ptr → Prop) w0 l cs seen w cs' w' :
  (∀ x, x ∈ l → L x) →
  for_array (λ cs body, addToComponent N body cs) l cs w = Some (cs', w') →
  asm_inv L w0 w cs seen →
  (∀ y, parent_of w y = Some None → parent_of w' y = Some None) ∧
  (∀ y n, next_of w0 y = Some (Some n) → w_bodies w' !! y = w_bodies w !! y).
Proof.
  revert cs seen w. induction l as [|x l IH]; intros cs seen w HL H Hinv; cbn [for_array] in H.
  - by apply ret_Some in H as [-> ->].
  - apply bind_Some in H as (cs1 & w1 & Hadd & H).
    destruct (IH cs1 (seen ++ [x]) w1) as [Hp Hs]; [intros y Hy; apply HL; by right|done| |].
    { eapply addToComponent_asm_inv; [done|done|]. apply HL. by left. }
    split.
    + intros y Hy. by eapply Hp, addToComponent_parentless.
    + intros y n Hy. rewrite (Hs y n Hy). by eapply addToComponent_sleeping_frame.
Qed.

(** Where every body stands when the component loop is over, by what it was
    when ring assembly began: a sleeping body is as it was; an awake body
    has been copied, or put to sleep on a ring, or was on no ring and is a
    static or rogue body without parent. *)
Lemma cpSpaceProcessComponents_exit_cases N s thr rb w3 cs1 w4 cs w_mid nb w_end :
  build_inv s w3 rb → parents_listed s w3 rb →
  for_array (λ cs body, addToComponent N body cs) (active_list s w3) [] w3 = Some (cs1, w4) →
  for_array (λ cs body, addToComponent N body cs) rb cs1 w4 = Some (cs, w_mid) →
  for_array (cpSpaceProcessComponents_component N s) cs [] w_mid = Some (nb, w_end) →
  sleepTimeThreshold <$> w_spaces w_mid !! s = Some thr → (0 <? thr)%float = true →
  (∀ x n, next_of w3 x = Some (Some n) → w_bodies w_end !! x = w_bodies w3 !! x) ∧
  (∀ x, next_of w3 x = None → w_bodies w_end !! x = None) ∧
  (∀ x, next_of w3 x = Some None →
     (∃ b, w_bodies w_end !! x = Some b ∧ next (node b) = None ∧ parent (node b) = None ∧
           ((isStatic b = true ∨ space b = None) ∨ x ∈ nb)) ∨
     (∃ r l b n, r ∈ sleeping_list s w_end ∧ sring w_end r l ∧ x ∈ l ∧
                 w_bodies w_end !! x = Some b ∧ next (node b) = Some n ∧ space b ≠ None)).
Proof.
  intros Hinv HPL H1 H2 Hverdict Hthr Hpos.
  pose proof (asm_inv_start _ _ _ Hinv) as Hasm0.
  pose proof (assembly_fold _ _ _ _ _ _ _ _ _ (λ x Hx, or_introl Hx) H1 Hasm0) as Hasm1.
  pose proof (assembly_fold _ _ _ _ _ _ _ _ _ (λ x Hx, or_intror Hx) H2 Hasm1) as Hasm.
  destruct (assembly_frames _ _ _ _ _ _ _ _ _ (λ x Hx, or_introl Hx) H1 Hasm0) as [Hp1 Hs1].
  destruct (assembly_frames _ _ _ _ _ _ _ _ _ (λ x Hx, or_intror Hx) H2 Hasm1) as [Hp2 Hs2].
  simpl in Hasm.
  destruct (assembly_kept_awake _ _ _ _ _ _ _ _ Hinv H1 H2) as [Hnd Hkept].
  destruct (verdict_outcome _ _ _ _ _ _ _ _ Hverdict Hthr Hnd)
    as (Hframe & _ & _ & Hout).
  { intros r0 Hr0. destruct (ai_rings _ _ _ _ _ Hasm r0 Hr0) as (l0 & Hl0 & _). by exists l0. }
  assert (∀ y r l, r ∈ cs → sring w_mid r l → y ∈ l →
            next_of w3 y = Some None ∧ (y ∈ active_list s w3 ∨ y ∈ rb)) as Hmembers.
  { intros y r l Hr Hl Hy. destruct (ai_rings _ _ _ _ _ Hasm r Hr) as (l' & Hl' & Hall).
    rewrite (sring_det _ _ _ _ Hl Hl') in Hy. by apply Hall. }
  assert (∀ y, idle_of w_end y = idle_of w3 y) as Hidle.
  { intros y. transitivity (idle_of w_mid y).
    - refine (preserves_for_array (λ w, idle_of w y = idle_of w_mid y) _ _ _ _ _ _ _
                Hverdict eq_refl).
      intros acc r. apply preserves_component_idle.
    - apply rest_idle_of, (ai_rest _ _ _ _ _ Hasm). }
  split; [|split].
  - intros x n Hx. rewrite Hframe.
    + rewrite (Hs2 x n Hx). by apply (Hs1 x n).
    + intros r l Hr Hl Hxl. destruct (Hmembers x r l Hr Hl Hxl). congruence.
  - intros x Hx. specialize (Hidle x). unfold idle_of, next_of in *.
    destruct (w_bodies w3 !! x); [done|]. by destruct (w_bodies w_end !! x).
  - intros x Hx.
    destruct (decide (x ∈ active_list s w3 ++ rb)) as [Hseen|Hunseen].
    + destruct (ai_seen _ _ _ _ _ Hasm x Hseen Hx) as (n & Hn).
      destruct (ai_ringed _ _ _ _ _ Hasm x n Hx Hn) as (r & l & Hr & Hring & Hxl).
      destruct (Hout r l Hr Hring) as [[Hmem _]|[Hall Hin]]; [left|right].
      * destruct (Hmem x Hxl) as (b & Hb & Hb' & Hnb). eexists. split; [done|]. simpl.
        split; [done|]. split; [done|].
        destruct (space b) eqn:Hsp; [right; by apply Hnb|left; by right].
      * assert (sring w_end r l) as Hring'.
        { eapply sring_bodies_frame; [|done]. intros y Hy.
          destruct (Hall y Hy) as (b & Hb & Hb' & _). congruence. }
        destruct (Hall x Hxl) as (b & Hb & Hb' & _).
        apply next_of_Some in Hn as (b0 & Hb0 & Hn). assert (b0 = b) as -> by congruence.
        exists r, l, b, n. split; [done|].
        split; [done|]. split; [done|]. split; [done|]. split; [done|].
        intros Hsp. destruct (Hkept r Hr) as (l' & Hl' & Hz).
        rewrite <- (sring_det _ _ _ _ Hring Hl') in Hz.
        destruct (Hz x (Some n) (idleTime (node b)) (isStatic b) Hxl)
          as (z & nx' & sp' & st' & Hzl & Hvz).
        { unfold view_of, bview. rewrite Hb. simpl. by rewrite Hn, Hsp. }
        destruct (Hall z Hzl) as (bz & Hbz & _ & Hge).
        unfold view_of, bview in Hvz. rewrite Hbz in Hvz. simpl in Hvz.
        injection Hvz as _ Hz0 _ _. rewrite Hz0 in Hge. congruence.
    + assert ((x ∉ active_list s w3) ∧ (x ∉ rb)) as [Hxa Hxr].
      { split; intros ?; apply Hunseen, elem_of_app; auto. }
      apply next_of_Some in Hx as Hb3. destruct Hb3 as (b3 & Hb3 & Hn3).
      assert (parent_of w3 x = Some None) as Hp3.
      { apply parent_of_Some. exists b3. split; [done|].
        destruct (parent (node b3)) as [p|] eqn:Hp; [|done].
        destruct (HPL x p Hx) as [?|?]; [apply parent_of_Some; eauto|done|done]. }
      assert (∀ r l, r ∈ cs → sring w_mid r l → x ∉ l) as Hnoring.
      { intros r l Hr Hl Hxl. destruct (Hmembers x r l Hr Hl Hxl) as [_ [?|?]]; done. }
      pose proof (ai_rest _ _ _ _ _ Hasm x) as Hrest.
      unfold view_of in Hrest. rewrite Hb3 in Hrest.
      destruct (w_bodies w_mid !! x) as [b|] eqn:Hb; [|done]. simpl in Hrest.
      unfold rest, bview in Hrest. simpl in Hrest. injection Hrest as Hi Hsp Hst.
      left. exists b. rewrite (Hframe x Hnoring). split; [done|]. split; [|split].
      * destruct (next (node b)) as [n|] eqn:Hn; [|done].
        destruct (ai_ringed _ _ _ _ _ Hasm x n Hx) as (r & l & Hr & Hring & Hxl);
          [apply next_of_Some; eauto|].
        destruct (Hnoring r l Hr Hring Hxl).
      * pose proof (Hp2 x (Hp1 x Hp3)) as Hp. apply parent_of_Some in Hp as (b' & Hb' & Hp).
        by assert (b' = b) as -> by congruence.
      * left. destruct (isStatic b) eqn:Hstatic; [by left|right].
        destruct (space b) as [sb|] eqn:Hspace; [|done].
        destruct (bi_awake _ _ _ Hinv x (idleTime (node b3)) (space b3) (isStatic b3))
          as [Hlisted _].
        { unfold view_of, bview. rewrite Hb3. simpl. by rewrite Hn3. }
        destruct Hxa. apply Hlisted; [congruence|]. rewrite <- Hsp. done.
Qed.

(** X16.  [cpSpaceProcessComponents] keeps the invariant between steps.  Take
    a store with one space [s], unlocked, where awake bodies have no parent,
    awake bodies that are dynamic and not rogue are exactly listed in
    [space->bodies], once each, sleeping bodies belong to [s] and are on the
    ring of their tree, and the sleep threshold is above 0.  When the call
    returns the store is such a store again: the next call may start from
    it. *)
Theorem cpSpaceProcessComponents_step_inv (N : nat) (s : ptr) (dt thr : cpFloat)
    (w w' : world) :
  step_inv s w →
  sleepTimeThreshold <$> w_spaces w !! s = Some thr → (0 <? thr)%float = true →
  cpSpaceProcessComponents N s dt w = Some (tt, w') →
  step_inv s w' ∧ sleepTimeThreshold <$> w_spaces w' !! s = Some thr.
Proof.
  intros Hstep Hthr Hpos Hrun. pose proof (si_build _ _ Hstep) as Hinv.
  pose proof (cpSpaceProcessComponents_unlocked _ _ _ _ _ Hrun (bi_unlocked _ _ _ Hinv))
    as Hlock.
  pose proof (λ x, cpSpaceProcessComponents_space_of _ _ _ _ _ x Hrun) as Hspace.
  pose proof Hrun as H. unfold cpSpaceProcessComponents in H. cbv zeta in H.
  apply bind_Some in H as (cs & w_mid & Hbuild & H).
  apply bind_Some in H as (nb & w_end & Hverdict & H).
  apply modify_space_Some in H as (sp_end & Hsp_end & Hw').
  pose proof (preserves_threshold_build s thr _ _ _ _ _ _ Hbuild Hthr) as Hthr_mid.
  assert (sleepTimeThreshold <$> w_spaces w_end !! s = Some thr) as Hthr_end.
  { refine (preserves_for_array (λ w1, sleepTimeThreshold <$> w_spaces w1 !! s = Some thr)
              _ _ _ _ _ _ _ Hverdict Hthr_mid).
    intros. apply preserves_threshold_component. }
  destruct (cpSpaceProcessComponents_build_phases _ _ _ _ _ _ Hbuild Hinv)
    as (sp & w1 & rb1 & w2 & rb & w3 & cs1 & w4 & Hsp & Hidle & Hlinks & Hspaces & Harb &
        Hcon & Hinv3 & Hadd1 & Hadd2).
  assert (parents_listed s w3 rb) as HPL3.
  { apply (cpSpaceProcessComponents_phases_parents_listed N s (arbiters sp) w1 rb1 w2); try done.
    - apply (build_inv_links s w);
        [done|done|unfold active_list; by rewrite Hspaces|by rewrite Hspaces|done].
    - intros x p Hx Hp. rewrite (same_links_next_of _ _ _ Hlinks) in Hx.
      destruct (Hlinks x) as [Hp' _]. rewrite Hp', (si_parentless _ _ Hstep x Hx) in Hp.
      done. }
  destruct (cpSpaceProcessComponents_exit_cases _ _ _ _ _ _ _ _ _ _ _ Hinv3 HPL3 Hadd1 Hadd2
              Hverdict Hthr_mid Hpos) as (Hasleep & Habsent & Hawake).
  destruct (verdict_cleared _ _ _ _ _ _ _ Hverdict NoDup_nil_2) as [Hnodup Hcleared].
  { intros y Hy. by apply elem_of_nil in Hy. }
  assert (∀ x, x ∈ nb → ∃ b, w_bodies w_end !! x = Some b ∧ space b ≠ None) as Hlisted.
  { apply (verdict_listed _ _ _ _ _ _ _ Hverdict). intros y Hy. by apply elem_of_nil in Hy. }
  assert (w_bodies w' = w_bodies w_end) as Hbodies by (by rewrite Hw').
  assert (active_list s w' = nb) as Hlist.
  { rewrite Hw'. unfold active_list. simpl. by rewrite lookup_insert_eq. }
  assert (∀ x, view_of w' x = view_of w_end x) as Hview.
  { intros x. unfold view_of. by rewrite Hbodies. }
  assert (∀ x, parent_of w' x = parent_of w_end x) as Hparent.
  { intros x. unfold parent_of. by rewrite Hbodies. }
  assert (∀ r l, sring w_end r l → sring w' r l) as Hrings.
  { intros r l. apply sring_bodies_frame. intros y _. by rewrite Hbodies. }
  assert (∀ x b, w_bodies w_end !! x = Some b → space b = None ∨ space b = Some s) as Hone.
  { intros x b Hb. specialize (Hspace x). rewrite Hbodies, Hb in Hspace.
    destruct (w_bodies w !! x) as [b0|] eqn:Hb0; [|done]. simpl in Hspace.
    injection Hspace as ->. by eapply (si_space _ _ Hstep). }
  (* awake bodies when the call is over *)
  assert (∀ x b, w_bodies w_end !! x = Some b → next (node b) = None →
            parent (node b) = None ∧ (isStatic b = false → space b ≠ None → x ∈ nb))
    as Hexit_awake.
  { intros x b Hb Hn. destruct (next_of w3 x) as [[n|]|] eqn:Hx3.
    - rewrite (Hasleep x n Hx3) in Hb. apply next_of_Some in Hx3 as (b' & Hb' & Hn').
      congruence.
    - destruct (Hawake x Hx3)
        as [(b' & Hb' & _ & Hp & Hcase)|(r & l & b' & n & _ & _ & _ & Hb' & Hn' & _)].
      + assert (b' = b) as -> by congruence. split; [done|]. intros Hst Hnr.
        destruct Hcase as [[?|?]|?]; [congruence|done|done].
      + congruence.
    - rewrite (Habsent x Hx3) in Hb. done. }
  split; [|by rewrite Hw'; simpl; rewrite lookup_insert_eq; rewrite Hsp_end in Hthr_end].
  split.
  - split.
    + done.
    + intros x nx idle st Hx Hv. rewrite Hlist in Hx. rewrite Hview in Hv.
      destruct (Hlisted x Hx) as (b & Hb & Hsp'). unfold view_of, bview in Hv.
      rewrite Hb in Hv. simpl in Hv. by injection Hv as _ _ ? _.
    + intros x idle sp0 st Hv. rewrite Hview in Hv. unfold view_of, bview in Hv.
      destruct (w_bodies w_end !! x) as [b|] eqn:Hb; [|done]. simpl in Hv.
      injection Hv as Hn Hi Hs0 Hst. destruct (Hexit_awake x b Hb Hn) as [Hp Hin].
      split.
      * intros -> Hsp0. rewrite Hlist. apply Hin; [done|by rewrite Hs0].
      * intros p Hp'. rewrite Hparent in Hp'. unfold parent_of in Hp'.
        rewrite Hb in Hp'. simpl in Hp'. congruence.
    + intros x n idle sp0 st Hv. rewrite Hview in Hv. unfold view_of, bview in Hv.
      destruct (w_bodies w_end !! x) as [b|] eqn:Hb; [|done]. simpl in Hv.
      injection Hv as Hn Hi Hs0 Hst. destruct (next_of w3 x) as [[n3|]|] eqn:Hx3.
      * pose proof (Hasleep x n3 Hx3) as Hsame.
        destruct (bi_sleeping _ _ _ Hinv3 x n idle sp0 st) as (-> & r & l & Hring & Hxl).
        { unfold view_of, bview. rewrite <- Hsame, Hb. simpl. congruence. }
        split; [done|]. exists r, l. split; [|done].
        apply Hrings. eapply sring_bodies_frame; [|done]. intros y Hy.
        destruct (sring_next _ _ _ _ Hring Hy) as (ny & Hny). by apply (Hasleep y ny).
      * destruct (Hawake x Hx3)
          as [(b' & Hb' & Hn' & _)|(r & l & b' & n' & _ & Hring & Hxl & Hb' & _ & Hsp')].
        { congruence. }
        assert (b' = b) as -> by congruence.
        split; [|exists r, l; split; [by apply Hrings|done]].
        destruct (Hone x b Hb) as [?|?]; [done|congruence].
      * rewrite (Habsent x Hx3) in Hb. done.
    + intros R HR. by apply elem_of_nil in HR.
  - intros x Hx. apply next_of_Some in Hx as (b & Hb & Hn). rewrite Hbodies in Hb.
    destruct (Hexit_awake x b Hb Hn) as [Hp _]. apply parent_of_Some. exists b.
    by rewrite Hbodies.
  - intros x b Hb. rewrite Hbodies in Hb. by apply (Hone x b).
  - intros x Hx. rewrite Hlist in Hx. destruct (Hcleared x Hx) as (b & Hb & _ & Hn & _).
    apply next_of_Some. exists b. by rewrite Hbodies.
  - by rewrite Hlist.
Qed.

(** [rogue_world] is a store between two steps. *)
Lemma rogue_world_step_inv thr : step_inv 0 (rogue_world thr).
Proof.
  split.
  - apply rogue_world_build_inv.
  - intros x Hx. apply next_of_Some in Hx as (b & Hb & _). apply parent_of_Some.
    exists b. split; [done|]. by apply rogue_world_bodies in Hb as [[-> ->]|[-> ->]].
  - intros x b Hb. apply rogue_world_bodies in Hb as [[-> ->]|[-> ->]]; [by right|by left].
  - intros x Hx. apply list_elem_of_singleton in Hx as ->. reflexivity.
  - apply NoDup_singleton.
Qed.

Lemma cpSpaceProcessComponents_step_inv_witness :
  ∃ w1 w2, cpSpaceProcessComponents 3 0 1 (rogue_world 0.5) = Some (tt, w1) ∧
           cpSpaceProcessComponents 3 0 1 w1 = Some (tt, w2) ∧
           step_inv 0 w1 ∧ step_inv 0 w2.
Proof.
  destruct (cpSpaceProcessComponents 3 0 1 (rogue_world 0.5)) as [[[] w1]|] eqn:H1;
    [|vm_compute in H1; discriminate].
  destruct (cpSpaceProcessComponents 3 0 1 w1) as [[[] w2]|] eqn:H2.
  2: { exfalso. revert H2. vm_compute in H1. injection H1 as <-. vm_compute. discriminate. }
  destruct (cpSpaceProcessComponents_step_inv 3 0 1 0.5 (rogue_world 0.5) w1
              (rogue_world_step_inv 0.5) eq_refl eq_refl H1) as [Hinv1 Hthr1].
  destruct (cpSpaceProcessComponents_step_inv 3 0 1 0.5 w1 w2 Hinv1 Hthr1 eq_refl H2)
    as [Hinv2 _].
  exists w1, w2. split; [reflexivity|]. split; [exact H2|]. split; [exact Hinv1|exact Hinv2].
Defined.

(** ** [cpBodySleepWithGroup] and [cpBodyActivate] keep the invariant between steps *)

Lemma elem_of_cpArrayDeleteObj arr obj x : x ∈ cpArrayDeleteObj arr obj → x ∈ arr.
Proof.
  induction arr as [|y arr IH]; simpl; [done|]. case_decide.
  - intros Hx. by right.
  - intros [->|Hx]%elem_of_cons; [by left|right; by apply IH].
Qed.

Lemma elem_of_cpArrayDeleteObj_ne arr obj x :
  x ∈ arr → x ≠ obj → x ∈ cpArrayDeleteObj arr obj.
Proof.
  induction arr as [|y arr IH]; simpl; [done|]. intros [->|Hx]%elem_of_cons Hne.
  - rewrite decide_False by done. by left.
  - case_decide; [done|]. right. by apply IH.
Qed.

Lemma NoDup_cpArrayDeleteObj arr obj :
  NoDup arr → NoDup (cpArrayDeleteObj arr obj) ∧ obj ∉ cpArrayDeleteObj arr obj.
Proof.
  induction arr as [|y arr IH]; simpl; intros Hnd.
  - split; [done|]. by intros ?%elem_of_nil.
  - apply NoDup_cons in Hnd as [Hy Hnd]. case_decide as Heq.
    + subst y. done.
    + destruct (IH Hnd) as [Hnd' Hobj]. split.
      * apply NoDup_cons. split; [|done]. intros Hin. by apply Hy, (elem_of_cpArrayDeleteObj _ obj).
      * intros [->|Hin]%elem_of_cons; done.
Qed.

(** The checks at the head of [cpBodySleepWithGroup]. *)
Lemma cpBodySleepWithGroup_checks N body group w w' :
  cpBodySleepWithGroup N body group w = Some (tt, w') →
  ∃ b s sp,
    w_bodies w !! body = Some b ∧ isStatic b = false ∧ space b = Some s ∧
    w_spaces w !! s = Some sp ∧ locked sp = false ∧
    (∀ g, group = Some g → ∃ gb, w_bodies w !! g = Some gb ∧ cpBodyIsSleeping gb = true) ∧
    (cpBodyIsSleeping b = true → w' = w).
Proof.
  intros H. unfold cpBodySleepWithGroup in H.
  apply bind_Some in H as (b & ? & Hb & H). apply load_body_Some in Hb as [Hb ->].
  apply bind_Some in H as ([] & ? & Hassert & H).
  pose proof (reads_cpAssert _ _ _ _ Hassert) as ->.
  unfold cpAssert in Hassert.
  destruct (negb (cpBodyIsStatic b) && negb (cpBodyIsRogue b)) eqn:Hok; [|done].
  apply andb_true_iff in Hok as [Hstatic Hrogue]. apply negb_true_iff in Hstatic.
  destruct (space b) as [s|] eqn:Hs; [|done].
  apply bind_Some in H as (sp & ? & Hsp & H). apply load_space_Some in Hsp as [Hsp ->].
  apply bind_Some in H as ([] & ? & Hassert2 & H).
  pose proof (reads_cpAssert _ _ _ _ Hassert2) as ->.
  unfold cpAssert in Hassert2. destruct (locked sp) eqn:Hlk; [done|].
  apply bind_Some in H as ([] & w0 & Hgroup & H).
  assert (w0 = w ∧ ∀ g, group = Some g →
            ∃ gb, w_bodies w !! g = Some gb ∧ cpBodyIsSleeping gb = true) as [-> Hg].
  { destruct group as [g|]; [|apply ret_Some in Hgroup as [_ ->]; by split].
    apply bind_Some in Hgroup as (gb & ? & Hgb & Hassert3).
    apply load_body_Some in Hgb as [Hgb ->].
    pose proof (reads_cpAssert _ _ _ _ Hassert3) as ->. split; [done|].
    intros g' [= <-]. exists gb. split; [done|]. unfold cpAssert in Hassert3.
    by destruct (cpBodyIsSleeping gb). }
  exists b, s, sp. repeat (split; [done|]). intros Hsleep. rewrite Hsleep in H.
  by apply ret_Some in H as [_ ->].
Qed.

(** Putting an awake body of [space->bodies] on a ring of sleeping bodies and
    taking it out of [space->bodies] keeps the invariant between steps. *)
Lemma step_inv_sleep s w w' body b r l' :
  step_inv s w →
  w_bodies w !! body = Some b → next (node b) = None → space b = Some s →
  sring w' r l' → body ∈ l' →
  (∀ z, z ∈ l' → z ≠ body → ∃ l, sring w r l ∧ z ∈ l ∧ ∀ y, y ∈ l → y ∈ l') →
  (∀ y, y ∉ l' → w_bodies w' !! y = w_bodies w !! y) →
  (∀ y, space <$> w_bodies w' !! y = space <$> w_bodies w !! y) →
  active_list s w' = cpArrayDeleteObj (active_list s w) body →
  locked <$> w_spaces w' !! s = Some false →
  step_inv s w'.
Proof.
  intros Hstep Hb Hawake Hs Hring Hbody Hold Hframe Hspace Hlist Hlock.
  pose proof (si_build _ _ Hstep) as Hinv.
  assert (∀ y, next_of w' y = Some None → (y ∉ l') ∧ w_bodies w' !! y = w_bodies w !! y)
    as Hawake'.
  { intros y Hy.
    assert (y ∉ l') as Hyl.
    { intros Hin. destruct (sring_next _ _ _ _ Hring Hin) as (n & Hn). congruence. }
    split; [done|by apply Hframe]. }
  assert (∀ r0 l0 y, sring w r0 l0 → y ∈ l0 → y ∉ l' → sring w' r0 l0) as Hrings.
  { intros r0 l0 y Hl0 Hy Hyl. eapply sring_bodies_frame; [|done]. intros z Hz.
    apply Hframe. intros Hzl.
    assert (z ≠ body) as Hzb.
    { intros ->. destruct (sring_next _ _ _ _ Hl0 Hz) as (n & Hn).
      apply next_of_Some in Hn as (b' & Hb' & Hn). congruence. }
    destruct (Hold z Hzl Hzb) as (l & Hl & Hzl0 & Hsub).
    destruct (sring_disjoint _ _ _ _ _ _ Hl0 Hl Hz Hzl0) as [_ ->]. by apply Hyl, Hsub. }
  destruct (NoDup_cpArrayDeleteObj _ body (si_nodup _ _ Hstep)) as [Hnd Hgone].
  split; [split|..].
  - done.
  - intros x nx idle st Hx Hv. rewrite Hlist in Hx. apply elem_of_cpArrayDeleteObj in Hx.
    pose proof (si_listed_awake _ _ Hstep x Hx) as Hxn.
    apply next_of_Some in Hxn as (bx & Hbx & Hn).
    apply (bi_active_not_rogue _ _ _ Hinv x (next (node bx)) (idleTime (node bx))
             (isStatic bx) Hx).
    unfold view_of, bview in *. rewrite Hbx. simpl. specialize (Hspace x).
    rewrite Hbx in Hspace. destruct (w_bodies w' !! x) as [bx'|]; [|done].
    simpl in *. injection Hv as _ _ Hsp _. injection Hspace as Hspace. congruence.
  - intros x idle sp st Hv. destruct (Hawake' x (view_next_of _ _ _ _ _ _ Hv)) as [Hxl Hsame].
    assert (view_of w x = Some (None, idle, sp, st)) as Hv0.
    { unfold view_of in *. by rewrite <- Hsame. }
    destruct (bi_awake _ _ _ Hinv _ _ _ _ Hv0) as [Hin _]. split.
    + intros Hst Hsp. rewrite Hlist. apply elem_of_cpArrayDeleteObj_ne; [by apply Hin|].
      by intros ->.
    + intros p Hp. unfold parent_of in Hp. rewrite Hsame in Hp.
      pose proof (si_parentless _ _ Hstep x (view_next_of _ _ _ _ _ _ Hv0)) as Hq.
      unfold parent_of in Hq. congruence.
  - intros x n idle sp st Hv. destruct (decide (x ∈ l')) as [Hxl|Hxl].
    + split; [|by exists r, l'].
      destruct (decide (x = body)) as [->|Hne].
      * specialize (Hspace body). unfold view_of, bview in Hv. rewrite Hb in Hspace.
        destruct (w_bodies w' !! body) as [b'|]; [|done]. simpl in *.
        injection Hv as _ _ Hsp _. injection Hspace as Hspace. congruence.
      * destruct (Hold x Hxl Hne) as (l & Hl & Hxl0 & _).
        destruct (sring_next _ _ _ _ Hl Hxl0) as (n0 & Hn0).
        destruct (next_of_view _ _ _ Hn0) as (idle0 & sp0 & st0 & Hv0).
        destruct (bi_sleeping _ _ _ Hinv _ _ _ _ _ Hv0) as [-> _].
        specialize (Hspace x). unfold view_of, bview in Hv, Hv0.
        destruct (w_bodies w' !! x) as [b'|]; [|done].
        destruct (w_bodies w !! x) as [b0|]; [|done]. simpl in *.
        injection Hv as _ _ Hsp _. injection Hv0 as _ _ Hsp0 _. injection Hspace as Hspace.
        congruence.
    + assert (view_of w x = Some (Some n, idle, sp, st)) as Hv0.
      { unfold view_of in *. by rewrite <- (Hframe x Hxl). }
      destruct (bi_sleeping _ _ _ Hinv _ _ _ _ _ Hv0) as (Hsp & r0 & l0 & Hl0 & Hx0).
      split; [done|]. exists r0, l0. split; [by eapply Hrings|done].
  - intros R HR. by apply elem_of_nil in HR.
  - intros x Hx. destruct (Hawake' x Hx) as [_ Hsame]. unfold parent_of. rewrite Hsame.
    apply (si_parentless _ _ Hstep). unfold next_of in *. by rewrite <- Hsame.
  - intros x bx Hbx. specialize (Hspace x). rewrite Hbx in Hspace.
    destruct (w_bodies w !! x) as [b0|] eqn:Hb0; [|done]. simpl in Hspace.
    injection Hspace as ->. by apply (si_space _ _ Hstep x b0).
  - intros x Hx. rewrite Hlist in Hx.
    assert (x ≠ body) as Hne by (by intros ->).
    apply elem_of_cpArrayDeleteObj in Hx.
    pose proof (si_listed_awake _ _ Hstep x Hx) as Hxn.
    assert (x ∉ l') as Hxl.
    { intros Hin. destruct (Hold x Hin Hne) as (l & Hl & Hxl0 & _).
      destruct (sring_next _ _ _ _ Hl Hxl0) as (n & Hn). congruence. }
    unfold next_of. by rewrite (Hframe x Hxl).
  - by rewrite Hlist.
Qed.

(** X17.  [cpBodySleepWithGroup], and so [cpBodySleep], keeps the invariant
    between steps: when it returns from a store that satisfies it, with or
    without a group, the store satisfies it again. *)
Theorem cpBodySleepWithGroup_step_inv (N : nat) (s body : ptr) (group : option ptr)
    (w w' : world) :
  step_inv s w → cpBodySleepWithGroup N body group w = Some (tt, w') → step_inv s w'.
Proof.
  intros Hstep H.
  destruct (cpBodySleepWithGroup_checks _ _ _ _ _ H)
    as (b & s0 & sp & Hb & Hstatic & Hs & Hsp & Hlk & Hgroup & Hasleep).
  assert (s0 = s) as -> by (destruct (si_space _ _ Hstep body b Hb); congruence).
  destruct (cpBodyIsSleeping b) eqn:Hsleep; [by rewrite (Hasleep eq_refl)|].
  assert (next (node b) = None) as Hn.
  { unfold cpBodyIsSleeping in Hsleep. apply bool_decide_eq_false in Hsleep.
    destruct (next (node b)); [by destruct Hsleep|done]. }
  assert (active_list s w = bodies sp) as Hlist0 by (unfold active_list; by rewrite Hsp).
  destruct group as [g|].
  - destruct (Hgroup g eq_refl) as (gb & Hgb & Hgsleep).
    unfold cpBodyIsSleeping in Hgsleep. apply bool_decide_eq_true in Hgsleep.
    destruct (next (node gb)) as [ng|] eqn:Hng; [|done].
    destruct (bi_sleeping _ _ _ (si_build _ _ Hstep) g ng (idleTime (node gb)) (space gb)
                (isStatic gb)) as (_ & r & l & Hring & Hgl).
    { unfold view_of, bview. rewrite Hgb. simpl. by rewrite Hng. }
    destruct (cpBodySleepWithGroup_joins_inv _ _ _ _ _ _ _ _ _ _ Hb Hsleep Hs Hsp Hring Hgl H)
      as (br & t & Hbr & -> & Hbodies & Hring' & sp' & Hsp' & Hlk' & Hbs' & _).
    assert (body ≠ r) as Hne.
    { intros ->. destruct (sring_next _ _ _ _ Hring (sring_root_in _ _ _ Hring)) as (n & Hnr).
      apply next_of_Some in Hnr as (b' & Hb' & Hnr). congruence. }
    apply (step_inv_sleep s w w' body b r (r :: body :: t)); try done.
    + right. by left.
    + intros z Hz Hzb. exists (r :: t). split; [done|]. split.
      * apply elem_of_cons in Hz as [->|Hz]; [by left|].
        apply elem_of_cons in Hz as [->|Hz]; [done|by right].
      * intros y [->|Hy]%elem_of_cons; [by left|right; by right].
    + intros y Hy. rewrite Hbodies. rewrite !lookup_insert_ne; [done| |].
      * intros ->. apply Hy. right. by left.
      * intros ->. apply Hy. by left.
    + intros y. rewrite Hbodies. destruct (decide (y = r)) as [->|Hyr].
      { rewrite lookup_insert_eq, Hbr. done. }
      rewrite lookup_insert_ne by done. destruct (decide (y = body)) as [->|Hyb].
      { rewrite lookup_insert_eq, Hb. done. }
      by rewrite lookup_insert_ne.
    + unfold active_list at 1. rewrite Hsp'. simpl. by rewrite Hbs', Hlist0.
    + by rewrite Hsp'; simpl; rewrite Hlk'.
  - destruct (cpBodySleep_component_inv _ _ _ _ _ _ _ Hb Hsleep Hs Hsp H)
      as (Hbodies & Hring' & sp' & Hsp' & Hlk' & Hbs' & _).
    apply (step_inv_sleep s w w' body b body [body]); try done.
    + by left.
    + intros z Hz Hzb. by apply list_elem_of_singleton in Hz.
    + intros y Hy. rewrite Hbodies. rewrite lookup_insert_ne; [done|].
      intros ->. apply Hy. by left.
    + intros y. rewrite Hbodies. destruct (decide (y = body)) as [->|Hyb].
      { rewrite lookup_insert_eq, Hb. done. }
      by rewrite lookup_insert_ne.
    + unfold active_list at 1. rewrite Hsp'. simpl. by rewrite Hbs', Hlist0.
    + by rewrite Hsp'; simpl; rewrite Hlk'.
Qed.

(** [awake_pair] is a store between two steps. *)
Lemma awake_pair_step_inv : step_inv 0 awake_pair.
Proof.
  assert (∀ x b, w_bodies awake_pair !! x = Some b →
            (x = 1 ∨ x = 2) ∧ b = example_body (Some 0) None (mkNode None None 0 0)) as Hbodies.
  { intros x b. unfold awake_pair. simpl. destruct (decide (x = 1)) as [->|H1].
    { rewrite lookup_insert_eq. intros [= <-]. auto. }
    rewrite lookup_insert_ne by done. destruct (decide (x = 2)) as [->|H2].
    { rewrite lookup_insert_eq. intros [= <-]. auto. }
    rewrite lookup_insert_ne by done. by rewrite lookup_empty. }
  assert (∀ x v, view_of awake_pair x = Some v →
            (x = 1 ∨ x = 2) ∧ v = (None, 0%float, Some 0, false)) as Hview.
  { intros x v. unfold view_of. destruct (w_bodies awake_pair !! x) as [b|] eqn:Hb; [|done].
    intros [= <-]. by apply Hbodies in Hb as [? ->]. }
  assert (∀ x, next_of awake_pair x = Some None → parent_of awake_pair x = Some None)
    as Hparent.
  { intros x Hx. apply next_of_Some in Hx as (b & Hb & _). apply parent_of_Some.
    exists b. split; [done|]. by apply Hbodies in Hb as [_ ->]. }
  assert (active_list 0 awake_pair = [1; 2]) as Hlist by reflexivity.
  split; [split|..].
  - reflexivity.
  - intros x nx idle st _ Hv. by apply Hview in Hv as [_ [=]].
  - intros x idle sp st Hv. split.
    + intros _ _. rewrite Hlist. apply Hview in Hv as [[-> | ->] _]; [by left|right; by left].
    + intros p Hp. rewrite (Hparent x (view_next_of _ _ _ _ _ _ Hv)) in Hp. done.
  - intros x n idle sp st Hv. by apply Hview in Hv as [_ [=]].
  - intros R HR. by apply elem_of_nil in HR.
  - done.
  - intros x b Hb. apply Hbodies in Hb as [_ ->]. by right.
  - intros x Hx. rewrite Hlist in Hx.
    apply elem_of_cons in Hx as [->|Hx]; [reflexivity|].
    apply list_elem_of_singleton in Hx as ->. reflexivity.
  - rewrite Hlist. apply NoDup_cons. split; [|apply NoDup_singleton].
    by intros ?%list_elem_of_singleton.
Qed.

Lemma cpBodySleepWithGroup_step_inv_witness :
  ∃ w1 w2, cpBodySleepWithGroup 2 1 None awake_pair = Some (tt, w1) ∧
           cpBodySleepWithGroup 2 2 (Some 1) w1 = Some (tt, w2) ∧
           step_inv 0 w1 ∧ step_inv 0 w2.
Proof.
  destruct (cpBodySleepWithGroup 2 1 None awake_pair) as [[[] w1]|] eqn:H1;
    [|vm_compute in H1; discriminate].
  destruct (cpBodySleepWithGroup 2 2 (Some 1) w1) as [[[] w2]|] eqn:H2.
  2: { exfalso. revert H2. vm_compute in H1. injection H1 as <-. vm_compute. discriminate. }
  pose proof (cpBodySleepWithGroup_step_inv 2 0 1 None awake_pair w1 awake_pair_step_inv H1)
    as Hinv1.
  pose proof (cpBodySleepWithGroup_step_inv 2 0 2 (Some 1) w1 w2 Hinv1 H2) as Hinv2.
  exists w1, w2. split; [reflexivity|]. split; [exact H2|]. split; [exact Hinv1|exact Hinv2].
Defined.




(** ** Idle times advance by [dt] or are reset *)

(** The idle phase on an array without repetitions: a body of the array gets
    the idle time the source computes for it, any other body keeps its own. *)
Lemma cpSpaceProcessComponents_idle_loop dvsq dt l w w' x b :
  for_array (cpSpaceProcessComponents_idle dvsq dt) l tt w = Some (tt, w') →
  NoDup l → w_bodies w !! x = Some b →
  ∃ b', w_bodies w' !! x = Some b' ∧
        idleTime (node b') =
          if decide (x ∈ l)
          then (if ((if truthy dvsq then m b * dvsq else 0) <? cpBodyKineticEnergy b)%float
                then 0%float else (idleTime (node b) + dt)%float)
          else idleTime (node b).
Proof.
  revert w b. induction l as [|y l IH]; intros w b H Hnd Hb; cbn [for_array] in H.
  { apply ret_Some in H as [_ ->]. exists b. split; [done|].
    rewrite decide_False; [done|]. by intros ?%elem_of_nil. }
  apply bind_Some in H as ([] & w1 & Hstep & H). apply NoDup_cons in Hnd as [Hy Hnd].
  unfold cpSpaceProcessComponents_idle in Hstep.
  apply bind_Some in Hstep as (by0 & ? & Hby & Hstep).
  apply load_body_Some in Hby as [Hby ->]. cbv zeta in Hstep.
  apply bind_Some in Hstep as ([] & w0 & Hnode & Hlist).
  apply modify_node_Some in Hnode as (b1 & Hb1 & ->).
  apply modify_body_Some in Hlist as (b2 & Hb2 & ->). simpl in *.
  destruct (decide (x = y)) as [->|Hne].
  - rewrite lookup_insert_eq in Hb2. injection Hb2 as <-.
    assert (b1 = b) as -> by congruence. assert (by0 = b) as -> by congruence.
    destruct (IH _ _ H Hnd ltac:(simpl; apply lookup_insert_eq)) as (b' & Hb' & Hidle).
    exists b'. split; [done|]. rewrite Hidle. rewrite decide_False by done.
    rewrite decide_True by (by left). done.
  - destruct (IH _ b H Hnd) as (b' & Hb' & Hidle).
    { simpl. by rewrite !lookup_insert_ne. }
    exists b'. split; [done|]. rewrite Hidle.
    destruct (decide (x ∈ l)) as [Hin|Hin].
    + rewrite decide_True by (by right). done.
    + rewrite decide_False; [done|]. by intros [?|?]%elem_of_cons.
Qed.

Lemma preserves_idle_modify_node x v y f :
  (∀ n, idleTime (f n) = idleTime n) →
  preserves (λ w, idle_of w x = v) (modify_node y f).
Proof.
  intros Hf w [] w' H HI. apply modify_node_Some in H as (b & Hb & ->).
  unfold idle_of in *. simpl. destruct (decide (x = y)) as [->|Hne].
  - rewrite lookup_insert_eq. rewrite Hb in HI. simpl in *. by rewrite Hf.
  - by rewrite lookup_insert_ne.
Qed.

(** Ring assembly does not write to idle times. *)
Lemma preserves_idle_addToComponent x v N body cs :
  preserves (λ w, idle_of w x = v) (addToComponent N body cs).
Proof.
  apply preserves_bind; [apply reads_preserves, reads_load_body|intros b].
  destruct (bool_decide _); [apply preserves_ret|].
  apply preserves_bind.
  { apply preserves_build_componentNodeRoot. intros. by apply preserves_idle_modify_node. }
  intros root. apply preserves_bind; [apply reads_preserves, reads_load_body|intros r].
  destruct (next (node r)) as [n|].
  - case_decide; [|apply preserves_ret].
    apply preserves_bind; [by apply preserves_idle_modify_node|intros _].
    apply preserves_bind; [by apply preserves_idle_modify_node|intros _; apply preserves_ret].
  - apply preserves_bind; [by apply preserves_idle_modify_node|intros _].
    apply preserves_bind; [by apply preserves_idle_modify_node|intros _; apply preserves_ret].
Qed.

(** X19.  Idle times advance by [dt] or are reset.  When
    [cpSpaceProcessComponents] returns for a space whose [bodies] array has
    no repetitions, the idle time of a body is 0, or it is what the idle
    phase computes: for a body of [space->bodies], 0 when its kinetic energy
    is above the idle threshold and the old idle time plus [dt] otherwise;
    for any other body, the old idle time. *)
Theorem cpSpaceProcessComponents_idle_times (N : nat) (s : ptr) (dt : cpFloat)
    (w w' : world) (sp : cpSpace) (x : ptr) (b : cpBody) :
  w_spaces w !! s = Some sp → NoDup (bodies sp) → w_bodies w !! x = Some b →
  cpSpaceProcessComponents N s dt w = Some (tt, w') →
  idle_of w' x = Some 0%float ∨
  idle_of w' x =
    Some (if decide (x ∈ bodies sp)
          then (if (idle_thresh sp dt (m b) <? cpBodyKineticEnergy b)%float
                then 0%float else (idleTime (node b) + dt)%float)
          else idleTime (node b)).
Proof.
  intros Hsp Hnd Hb H. unfold cpSpaceProcessComponents in H. cbv zeta in H.
  apply bind_Some in H as (cs & w_mid & Hbuild & H).
  apply bind_Some in H as (nb & w_end & Hverdict & H).
  apply modify_space_Some in H as (sp_end & Hsp_end & ->).
  unfold cpSpaceProcessComponents_build in Hbuild.
  apply bind_Some in Hbuild as (sp0 & ? & Hsp0 & Hbuild).
  apply load_space_Some in Hsp0 as [Hsp0 ->]. assert (sp0 = sp) as -> by congruence.
  cbv zeta in Hbuild.
  apply bind_Some in Hbuild as ([] & w1 & Hidle & Hbuild).
  apply bind_Some in Hbuild as (rb1 & w2 & Harb & Hbuild).
  apply bind_Some in Hbuild as (rb & w3 & Hcon & Hbuild).
  apply bind_Some in Hbuild as (sp3 & ? & Hsp3 & Hbuild).
  apply load_space_Some in Hsp3 as [Hsp3 ->].
  apply bind_Some in Hbuild as (cs1 & w4 & Hadd1 & Hadd2).
  destruct (cpSpaceProcessComponents_idle_loop _ _ _ _ _ x b Hidle Hnd Hb)
    as (b1 & Hb1 & Hidle1).
  set (v := if decide (x ∈ bodies sp)
            then (if (idle_thresh sp dt (m b) <? cpBodyKineticEnergy b)%float
                  then 0%float else (idleTime (node b) + dt)%float)
            else idleTime (node b)) in *.
  assert (∃ b3, w_bodies w3 !! x = Some b3 ∧
                (idleTime (node b3) = 0%float ∨ idleTime (node b3) = v))
    as (b3 & Hb3 & Hcase).
  { eapply (preserves_body_phases x
              (λ b, idleTime (node b) = 0%float ∨ idleTime (node b) = v));
      [done|done|by left|by left|done|exists b1; split; [done|by right]|by eauto]. }
  assert (idle_of w_end x = idle_of w3 x) as Hframe.
  { transitivity (idle_of w_mid x).
    - refine (preserves_for_array (λ w, idle_of w x = idle_of w_mid x) _ _ _ _ _ _ _
                Hverdict eq_refl).
      intros acc r. apply preserves_component_idle.
    - transitivity (idle_of w4 x).
      + refine (preserves_for_array (λ w, idle_of w x = idle_of w4 x) _ _ _ _ _ _ _
                  Hadd2 eq_refl).
        intros acc r. apply preserves_idle_addToComponent.
      + refine (preserves_for_array (λ w, idle_of w x = idle_of w3 x) _ _ _ _ _ _ _
                  Hadd1 eq_refl).
        intros acc r. apply preserves_idle_addToComponent. }
  assert (idle_of (with_spaces (<[s := set_bodies nb sp_end]> (w_spaces w_end)) w_end) x
          = idle_of w3 x) as -> by exact Hframe.
  unfold idle_of. rewrite Hb3. simpl. destruct Hcase as [-> | ->]; [by left|by right].
Qed.

Lemma cpSpaceProcessComponents_idle_times_witness :
  ∃ w', cpSpaceProcessComponents 2 0 1 resting_world = Some (tt, w') ∧
        (idle_of w' 1 = Some 0%float ∨ idle_of w' 1 = Some 1%float).
Proof.
  destruct (cpSpaceProcessComponents 2 0 1 resting_world) as [[[] w']|] eqn:Hrun;
    [|vm_compute in Hrun; discriminate].
  destruct (cpSpaceProcessComponents_idle_times 2 0 1 resting_world w'
              (example_space false 0.5 [1] []) 1
              (example_body (Some 0) (Some 11) (mkNode None None 0 0))
              ltac:(vm_compute; reflexivity) (NoDup_singleton 1) ltac:(vm_compute; reflexivity)
              Hrun) as [Hzero|Hidle].
  - exists w'. split; [reflexivity|]. left. exact Hzero.
  - exists w'. split; [reflexivity|]. right. rewrite Hidle. vm_compute. reflexivity.
Defined.

(** ** A body at rest that nothing touches falls asleep *)

(** The graph of contacts and constraints is not written to while the
    forest is built. *)
Section graph_frame.
Context (G : gmap ptr cpShape * gmap ptr cpConstraint * gmap ptr (ptr * ptr)).
Let I (w : world) : Prop := touch_graph w = G.

Lemma preserves_graph_bodies_spaces_blocks {A} (c : M A) :
  (∀ w u w', c w = Some (u, w') →
     w_shapes w' = w_shapes w ∧ w_constraints w' = w_constraints w ∧
     w_arbiters w' = w_arbiters w) →
  preserves I c.
Proof.
  intros Hc w u w' H HI. destruct (Hc _ _ _ H) as (Hs & Hk & Ha).
  unfold I, touch_graph in *. by rewrite Hs, Hk, Ha.
Qed.

Lemma preserves_graph_modify_body y f : preserves I (modify_body y f).
Proof.
  apply preserves_graph_bodies_spaces_blocks. intros w [] w' H.
  by apply modify_body_Some in H as (b & _ & ->).
Qed.

Lemma preserves_graph_modify_space s f : preserves I (modify_space s f).
Proof.
  apply preserves_graph_bodies_spaces_blocks. intros w [] w' H.
  by apply modify_space_Some in H as (sp & _ & ->).
Qed.

Lemma preserves_graph_modify_arbiter a f :
  (∀ ar, arb_ends (f ar) = arb_ends ar) → preserves I (modify_arbiter a f).
Proof.
  intros Hf w [] w' H HI. apply modify_arbiter_Some in H as (ar & Har & ->).
  unfold I, touch_graph in *. simpl. rewrite fmap_insert, Hf.
  rewrite insert_id; [done|]. by rewrite lookup_fmap, Har.
Qed.

Lemma preserves_graph_write_contacts dst cs : preserves I (write_contacts dst cs).
Proof.
  destruct dst as [|sp off|blk]; simpl.
  - case_decide; [apply preserves_ret|apply preserves_fail].
  - apply preserves_graph_modify_space.
  - apply preserves_graph_bodies_spaces_blocks. intros w [] w' H.
    destruct (w_blocks w !! blk); simpl in H; [|done]. by injection H as <-.
Qed.

Lemma preserves_graph_cpSpaceActivateBody N space body :
  preserves I (cpSpaceActivateBody N space body).
Proof.
  apply preserves_bind; [apply reads_preserves, reads_load_space|intros sp].
  destruct (locked sp); [apply preserves_graph_modify_space|].
  apply preserves_bind; [apply preserves_graph_modify_space|intros _].
  apply preserves_bind; [apply reads_preserves, reads_load_body|intros b].
  apply preserves_bind.
  { apply preserves_for_each; [intros; apply reads_preserves, reads_shape_link|].
    intros sh. apply preserves_bind; [apply reads_preserves, reads_load_shape|intros ?].
    apply preserves_bind; [|intros _]; apply preserves_graph_modify_space. }
  intros _. apply preserves_bind; [apply reads_preserves, reads_load_body|intros b'].
  apply preserves_bind.
  { apply preserves_for_each; [intros; apply reads_preserves, reads_arbiter_link|].
    intros arb. apply preserves_bind;
      [apply reads_preserves, reads_arbiter_primary|intros [|]]; [|apply preserves_ret].
    apply preserves_bind; [apply reads_preserves, reads_load_arbiter|intros ar]. cbv zeta.
    apply preserves_bind; [apply reads_preserves, reads_cpContactBufferGetArray|intros buf].
    apply preserves_bind; [by apply preserves_graph_modify_arbiter|intros _].
    apply preserves_bind.
    { apply preserves_bind; [apply reads_preserves, reads_read_contacts|intros cs].
      apply preserves_graph_write_contacts. }
    intros _. apply preserves_bind; [apply preserves_graph_modify_space|intros _].
    apply preserves_bind; [apply preserves_graph_modify_space|intros _].
    apply preserves_graph_bodies_spaces_blocks. intros w [] w' H.
    destruct (contacts ar) as [|? ?|blk]; simpl in H.
    - by apply ret_Some in H as [_ ->].
    - done.
    - destruct (w_blocks w !! blk); simpl in H; [|done]. by injection H as <-. }
  intros _. apply preserves_bind; [apply reads_preserves, reads_load_body|intros b''].
  apply preserves_for_each; [intros; apply reads_preserves, reads_constraint_link|].
  intros c. apply preserves_bind;
    [apply reads_preserves, reads_constraint_primary|intros [|]];
    [apply preserves_graph_modify_space|apply preserves_ret].
Qed.

Lemma preserves_graph_mergeBodies N space cs rb a b :
  preserves I (mergeBodies N space cs rb a b).
Proof.
  apply preserves_build_mergeBodies; intros;
    try apply preserves_graph_modify_body; try apply preserves_graph_modify_space.
  apply preserves_graph_cpSpaceActivateBody.
Qed.

Lemma preserves_graph_cpBodyPushArbiter body arb : preserves I (cpBodyPushArbiter body arb).
Proof.
  apply preserves_bind; [apply reads_preserves, reads_load_body|intros b].
  destruct (_ && _); [|apply preserves_ret].
  apply preserves_bind; [by apply preserves_graph_modify_arbiter|intros _].
  apply preserves_graph_modify_body.
Qed.
Lemma preserves_graph_arbiter N space cs rb arb :
  preserves I (cpSpaceProcessComponents_arbiter N space cs rb arb).
Proof.
  apply preserves_build_arbiter; intros;
    try apply preserves_graph_modify_body; try apply preserves_graph_modify_space.
  - apply preserves_graph_cpSpaceActivateBody.
  - apply preserves_graph_cpBodyPushArbiter.
Qed.

Lemma preserves_graph_constraints N fuel space cs rb j :
  preserves I (cpSpaceProcessComponents_constraints N fuel space cs rb j).
Proof.
  apply preserves_build_constraints; intros;
    try apply preserves_graph_modify_body; try apply preserves_graph_modify_space.
  apply preserves_graph_cpSpaceActivateBody.
Qed.

Lemma preserves_graph_idle dvsq dt body :
  preserves I (cpSpaceProcessComponents_idle dvsq dt tt body).
Proof.
  apply preserves_bind; [apply reads_preserves, reads_load_body|intros b]. cbv zeta.
  apply preserves_bind; [|intros _]; apply preserves_graph_modify_body.
Qed.
End graph_frame.

Lemma free_body_graph w w' x : touch_graph w' = touch_graph w → free_body w x → free_body w' x.
Proof.
  unfold touch_graph. intros [= Hs Hk Ha] [Harb Hcon]. split.
  - intros arb ar' sh shp Har' Hsh Hshp.
    assert (arb_ends <$> w_arbiters w !! arb = Some (arb_ends ar')) as Hends.
    { rewrite <- lookup_fmap, <- Ha, lookup_fmap. by rewrite Har'. }
    destruct (w_arbiters w !! arb) as [ar|] eqn:Har; [|done]. simpl in Hends.
    injection Hends as Ha_ Hb_. rewrite Hs in Hshp.
    apply (Harb arb ar sh shp Har); [|done]. destruct Hsh as [-> | ->]; auto.
  - intros c con Hc. rewrite Hk in Hc. by apply (Hcon c con).
Qed.

(** A chain that is not empty ends at a body that is the parent of another. *)
Lemma chain_root_has_child w a l r :
  chain w a l r → l ≠ [] → ∃ z, parent_of w z = Some (Some r).
Proof.
  induction 1 as [x b Hb Hp|x b y l r Hb Hp Hc IH]; intros Hl; [done|].
  destruct l as [|y' l'].
  - inversion Hc; subst. exists x. apply parent_of_Some. eauto.
  - by apply IH.
Qed.

(** Looking up a root neither finds nor changes a body that is a tree of
    its own, unless the lookup starts there. *)
Lemma componentNodeRoot_lone N a w r w' x :
  componentNodeRoot N a w = Some (r, w') → lone w x →
  (a ≠ x → r ≠ x) ∧ lone w' x ∧ ∀ y, view_of w' y = view_of w y.
Proof.
  intros H [Hpx Hnone]. apply componentNodeRoot_inv in H as (l & Hc & _ & ->).
  assert (l ≠ [] → r ≠ x) as Hr.
  { intros Hl ->. destruct (chain_root_has_child _ _ _ _ Hc Hl) as (z & Hz).
    by apply (Hnone z). }
  split; [|split; [split|]].
  - intros Ha. destruct l as [|? ?]; [|by apply Hr]. inversion Hc; by subst.
  - rewrite compress_parent_of. case_decide as Hin; [|done].
    exfalso. by apply (chain_member_has_parent _ _ _ _ _ Hc Hin).
  - intros y. rewrite compress_parent_of. case_decide as Hin; [|apply Hnone].
    destruct (parent_of w y); simpl; [|done]. intros [= ->].
    apply Hr; [|done]. intros ->. by apply elem_of_nil in Hin.
  - intros y. apply compress_view.
Qed.

(** Waking a ring leaves an awake body that is a tree of its own as it is. *)
Lemma componentActivate_lone N s rb r w w' x :
  componentActivate N r w = Some (tt, w') →
  build_inv s w rb → parent_of w r = Some None →
  next_of w x = Some None → lone w x →
  lone w' x ∧ view_of w' x = view_of w x.
Proof.
  intros H Hinv Hr Hx [Hpx Hnone].
  destruct (componentActivate_inv _ _ _ _ _ _ H Hinv Hr)
    as [[_ ->]|(l & Hring & [Hin Hout] & _ & _)]; [done|].
  assert (x ∉ l) as Hxl.
  { intros Hxl. destruct (sring_next _ _ _ _ Hring Hxl) as (n & Hn). congruence. }
  destruct (Hout x Hxl) as [Hv Hp]. split; [split|done].
  - by rewrite Hp.
  - intros y. destruct (decide (y ∈ l)) as [Hy|Hy].
    + destruct (Hin y Hy) as (? & ? & ? & ? & _ & _ & ->). done.
    + destruct (Hout y Hy) as [_ ->]. apply Hnone.
Qed.

Lemma modify_node_idle_frame y v w w' x :
  modify_node y (set_idleTime v) w = Some (tt, w') → y ≠ x →
  (∀ z, parent_of w' z = parent_of w z) ∧ view_of w' x = view_of w x.
Proof.
  intros H Hy. apply modify_body_Some in H as (b & Hb & ->). split.
  - intros z. unfold parent_of. simpl. destruct (decide (z = y)) as [->|Hz].
    + rewrite lookup_insert_eq, Hb. by destruct b as [? ? ? ? ? ? ? ? ? []].
    + by rewrite lookup_insert_ne.
  - unfold view_of. simpl. by rewrite lookup_insert_ne.
Qed.

(** [mergeBodies] on two other bodies leaves an awake body that is a tree of
    its own as it is. *)
Lemma mergeBodies_lone N s cs rb a b w rb' w' x :
  mergeBodies N s cs rb a b w = Some (rb', w') → build_inv s w rb →
  a ≠ x → b ≠ x → next_of w x = Some None → lone w x →
  lone w' x ∧ view_of w' x = view_of w x.
Proof.
  intros H Hinv Ha Hb Hx Hlone. unfold mergeBodies in H.
  apply bind_Some in H as (ab & ? & Hab & H). apply load_body_Some in Hab as [Hab ->].
  apply bind_Some in H as (static & w0 & Hst & H).
  assert (w0 = w) as ->.
  { destruct (cpBodyIsStatic ab).
    - by apply ret_Some in Hst as [_ ->].
    - apply bind_Some in Hst as (bb & ? & Hbb & Hst). apply load_body_Some in Hbb as [_ ->].
      by apply ret_Some in Hst as [_ ->]. }
  destruct static; [by apply ret_Some in H as [_ ->]|].
  (* the two roots *)
  apply bind_Some in H as (ar & w1 & Har & H).
  destruct (componentNodeRoot_lone _ _ _ _ _ x Har Hlone) as (Har_x & Hlone1 & Hv1).
  apply componentNodeRoot_build_inv with (s := s) (rb := rb) in Har
    as (Hinv1 & _ & Hra1 & Hpa1 & _ & _ & _); [|done].
  apply bind_Some in H as (br & w2 & Hbr & H).
  destruct (componentNodeRoot_lone _ _ _ _ _ x Hbr Hlone1) as (Hbr_x & Hlone2 & Hv2).
  apply componentNodeRoot_build_inv with (s := s) (rb := rb) in Hbr
    as (Hinv2 & _ & Hrb2 & Hpb2 & _ & _ & Hroots2); [|done].
  apply Hroots2 in Hra1 as Hra2.
  assert (parent_of w2 ar = Some None) as Hpa2.
  { destruct Hra2 as [l Hc]. by eapply chain_root_parent_of. }
  specialize (Har_x Ha). specialize (Hbr_x Hb).
  assert (view_of w2 x = view_of w x) as Hview2 by (by rewrite Hv2, Hv1).
  assert (next_of w2 x = Some None) as Hx2.
  { rewrite next_of_view_of, Hview2, <- next_of_view_of. done. }
  (* waking what sleeps *)
  apply bind_Some in H as (arb & ? & Harb & H). apply load_body_Some in Harb as [Harb ->].
  apply bind_Some in H as (brb & ? & Hbrb & H). apply load_body_Some in Hbrb as [Hbrb ->].
  apply bind_Some in H as ([] & w4 & Hwake & H).
  assert (lone w4 x ∧ view_of w4 x = view_of w2 x) as [Hlone4 Hview4].
  { destruct (cpBodyIsSleeping arb || cpBodyIsSleeping brb).
    - apply bind_Some in Hwake as ([] & w3 & Hwa & Hwb).
      destruct (componentActivate_lone _ _ _ _ _ _ x Hwa Hinv2 Hpa2 Hx2 Hlone2)
        as [Hlone3 Hview3].
      apply componentActivate_anchor with (s := s) (rb := rb) in Hwa
        as (Hinv3 & _ & Hroots3 & _); [|done..].
      assert (next_of w3 x = Some None) as Hx3.
      { rewrite next_of_view_of, Hview3, <- next_of_view_of. done. }
      destruct (componentActivate_lone _ _ _ _ _ _ x Hwb Hinv3 (Hroots3 _ Hpb2) Hx3 Hlone3)
        as [Hlone4 Hview4].
      split; [done|]. by rewrite Hview4.
    - by apply ret_Some in Hwake as [_ ->]. }
  (* rogue bodies and idle times *)
  apply bind_Some in H as (ab4 & ? & Hab4 & H). apply load_body_Some in Hab4 as [Hab4 ->].
  apply bind_Some in H as (rb1 & w5 & Hrogue_a & H).
  assert ((∀ z, parent_of w5 z = parent_of w4 z) ∧ view_of w5 x = view_of w4 x)
    as [Hp5 Hview5].
  { destruct (cpBodyIsRogue ab4).
    - apply bind_Some in Hrogue_a as ([] & w5' & Hidle & Hret).
      apply ret_Some in Hret as [_ ->]. by apply (modify_node_idle_frame b 0%float).
    - by apply ret_Some in Hrogue_a as [_ ->]. }
  apply bind_Some in H as (bb5 & ? & Hbb5 & H). apply load_body_Some in Hbb5 as [Hbb5 ->].
  apply bind_Some in H as (rb2 & w6 & Hrogue_b & H).
  assert ((∀ z, parent_of w6 z = parent_of w5 z) ∧ view_of w6 x = view_of w5 x)
    as [Hp6 Hview6].
  { destruct (cpBodyIsRogue bb5).
    - apply bind_Some in Hrogue_b as ([] & w6' & Hidle & Hret).
      apply ret_Some in Hret as [_ ->]. by apply (modify_node_idle_frame a 0%float).
    - by apply ret_Some in Hrogue_b as [_ ->]. }
  apply bind_Some in H as ([] & w7 & Hmerge & H). apply ret_Some in H as [_ ->].
  destruct (componentNodeMerge_inv _ _ _ _ Hmerge)
    as (_ & _ & _ & _ & _ & Hview7 & Hcase).
  destruct Hlone4 as [Hpx4 Hnone4].
  split; [|by rewrite Hview7, Hview6, Hview5, Hview4, Hview2].
  destruct Hcase as [[_ Hsame]|(child & par & Hwho & _ & Hchild & Hothers)].
  - split; [by rewrite Hsame, Hp6, Hp5|]. intros y. rewrite Hsame, Hp6, Hp5. apply Hnone4.
  - assert (child ≠ x ∧ par ≠ x) as [Hcx Hpx].
    { destruct Hwho as [[-> ->]|[-> ->]]; done. }
    split.
    + rewrite Hothers by done. by rewrite Hp6, Hp5.
    + intros y. destruct (decide (y = child)) as [->|Hy].
      * rewrite Hchild. congruence.
      * rewrite Hothers by done. rewrite Hp6, Hp5. apply Hnone4.
Qed.

Lemma same_nodes_lone w w' x : same_nodes w w' → lone w x → lone w' x.
Proof.
  intros Hn [Hp Hnone]. split.
  - by destruct (Hn x) as [_ ->].
  - intros y. destruct (Hn y) as [_ ->]. apply Hnone.
Qed.

Lemma same_links_lone w w' x : same_links w w' → lone w x → lone w' x.
Proof.
  intros Hn [Hp Hnone]. split.
  - by destruct (Hn x) as [-> _].
  - intros y. destruct (Hn y) as [-> _]. apply Hnone.
Qed.

(** What forest building keeps of a store for a body [x] that nothing
    touches: the invariant of forest building, [x] awake with the idle time
    [i], and [x] a tree of its own. *)
Section rest_frame.
Context (s x : ptr) (i : cpFloat).
Let J (rb : list ptr) (w : world) : Prop :=
  build_inv s w rb ∧ free_body w x ∧
  next_of w x = Some None ∧ idle_of w x = Some i ∧ lone w x.

Lemma view_next_idle w w' :
  view_of w' x = view_of w x →
  next_of w' x = next_of w x ∧ idle_of w' x = idle_of w x.
Proof. intros Hv. by rewrite !next_of_view_of, !idle_of_view, Hv. Qed.

Lemma cpSpaceProcessComponents_arbiter_rest N cs rb arb w rb' w' :
  cpSpaceProcessComponents_arbiter N s cs rb arb w = Some (rb', w') → J rb w → J rb' w'.
Proof.
  intros H (Hinv & Hfree & Hnx & Hidle & Hlone).
  pose proof (cpSpaceProcessComponents_arbiter_build_inv _ _ _ _ _ _ _ _ H Hinv) as Hinv'.
  pose proof (preserves_graph_arbiter (touch_graph w) _ _ _ _ _ _ _ _ H eq_refl) as Hgraph.
  split; [done|]. split; [by apply (free_body_graph w)|].
  unfold cpSpaceProcessComponents_arbiter in H.
  apply bind_Some in H as (ar & ? & Har & H). apply load_arbiter_Some in Har as [Har ->].
  apply bind_Some in H as (a & ? & Ha & H). apply load_shape_Some in Ha as [Ha ->].
  apply bind_Some in H as (b & ? & Hb & H). apply load_shape_Some in Hb as [Hb ->].
  apply bind_Some in H as (rb1 & w1 & Hmerge & H).
  apply bind_Some in H as ([] & w2 & Hpa & H).
  apply bind_Some in H as ([] & w3 & Hpb & H). apply ret_Some in H as [_ ->].
  destruct (mergeBodies_lone _ _ _ _ _ _ _ _ _ x Hmerge Hinv) as [Hlone1 Hview1];
    [by apply (proj1 Hfree arb ar (arb_a ar) a); auto
    |by apply (proj1 Hfree arb ar (arb_b ar) b); auto|done|done|].
  apply cpBodyPushArbiter_frame in Hpa as [Hn2 _].
  apply cpBodyPushArbiter_frame in Hpb as [Hn3 _].
  pose proof (same_nodes_trans _ _ _ Hn2 Hn3) as Hn.
  assert (view_of w3 x = view_of w x) as Hview.
  { destruct (Hn x) as [-> _]. done. }
  destruct (view_next_idle _ _ Hview) as [-> ->].
  split; [done|]. split; [done|]. by apply (same_nodes_lone w1).
Qed.

Lemma cpSpaceProcessComponents_constraints_rest N fuel cs rb j w rb' w' :
  cpSpaceProcessComponents_constraints N fuel s cs rb j w = Some (rb', w') →
  J rb w → J rb' w'.
Proof.
  revert rb j w. induction fuel as [|fuel IH]; intros rb j w H HJ;
    cbn [cpSpaceProcessComponents_constraints] in H; [done|].
  apply bind_Some in H as (sp & ? & Hsp & H). apply load_space_Some in Hsp as [Hsp ->].
  destruct (constraints sp !! j) as [c|]; [|by apply ret_Some in H as [-> ->]].
  apply bind_Some in H as (con & ? & Hc & H). apply load_constraint_Some in Hc as [Hc ->].
  apply bind_Some in H as (rb1 & w1 & Hmerge & H).
  apply (IH _ _ _ H). destruct HJ as (Hinv & Hfree & Hnx & Hidle & Hlone).
  destruct (proj2 Hfree c con Hc) as [Ha Hb].
  destruct (mergeBodies_lone _ _ _ _ _ _ _ _ _ x Hmerge Hinv Ha Hb Hnx Hlone)
    as [Hlone1 Hview1].
  destruct (view_next_idle _ _ Hview1) as [Hnx1 Hidle1].
  split; [by eapply mergeBodies_build_inv|].
  split; [|split; [congruence|split; [congruence|done]]].
  apply (free_body_graph w); [|done].
  by apply (preserves_graph_mergeBodies (touch_graph w) _ _ _ _ _ _ _ _ _ Hmerge).
Qed.

Lemma cpSpaceProcessComponents_phases_rest N l w1 rb1 w2 rb w3 :
  for_array (cpSpaceProcessComponents_arbiter N s []) l [] w1 = Some (rb1, w2) →
  cpSpaceProcessComponents_constraints N N s [] rb1 0 w2 = Some (rb, w3) →
  J [] w1 → J rb w3.
Proof.
  intros Harb Hcon HJ. apply (cpSpaceProcessComponents_constraints_rest _ _ _ _ _ _ _ _ Hcon).
  refine (for_array_inv J _ _ _ _ _ _ _ Harb HJ).
  intros ? ? ? ? ? _. apply cpSpaceProcessComponents_arbiter_rest.
Qed.
End rest_frame.

(** Ring assembly keeps a tree of one body a tree of one body. *)
Lemma addToComponent_lone N body cs w cs' w' x :
  addToComponent N body cs w = Some (cs', w') → lone w x → lone w' x.
Proof.
  intros H Hlone. unfold addToComponent in H.
  apply bind_Some in H as (b & ? & Hb & H). apply load_body_Some in Hb as [Hb ->].
  destruct (bool_decide _); [by apply ret_Some in H as [_ ->]|].
  apply bind_Some in H as (r & w1 & Hfind & H).
  destruct (componentNodeRoot_lone _ _ _ _ _ x Hfind Hlone) as (_ & [Hp1 Hnone1] & _).
  apply bind_Some in H as (rb & ? & Hrb & H). apply load_body_Some in Hrb as [Hrb ->].
  assert (∀ w2 w3 n, modify_node body (set_next (Some n)) w1 = Some (tt, w2) →
            modify_node r (set_next (Some body)) w2 = Some (tt, w3) → lone w3 x) as Hlink.
  { intros w2 w3 n Hw2 Hw3.
    destruct (set_next_twice _ _ _ _ _ _ Hw2 Hw3) as (Hpar & _).
    split; [by rewrite Hpar|]. intros y. rewrite Hpar. apply Hnone1. }
  destruct (next (node rb)) as [n|].
  - case_decide; [|by apply ret_Some in H as [_ ->]].
    apply bind_Some in H as ([] & w2 & Hw2 & H).
    apply bind_Some in H as ([] & w3 & Hw3 & H). apply ret_Some in H as [_ ->]. eauto.
  - apply bind_Some in H as ([] & w2 & Hw2 & H).
    apply bind_Some in H as ([] & w3 & Hw3 & H). apply ret_Some in H as [_ ->]. eauto.
Qed.

Lemma assembly_lone N l cs w cs' w' x :
  for_array (λ cs body, addToComponent N body cs) l cs w = Some (cs', w') →
  lone w x → lone w' x.
Proof.
  intros H. refine (for_array_inv (λ _ w, lone w x) _ _ _ _ _ _ _ H).
  intros ? ? ? ? ? _. apply addToComponent_lone.
Qed.

(** The ring with its tree of a body that is a tree of its own is the body
    alone. *)
Lemma sring_lone w r l x : sring w r l → x ∈ l → lone w x → r = x ∧ l = [x].
Proof.
  intros Hring Hx [Hp Hnone].
  assert (x = r) as -> by (by eapply sring_parentless). split; [done|].
  destruct Hring as (Hr & _ & Hpar). unfold ring in Hr.
  inversion Hr as [? b Hb Hn|? b y l' Hb Hn Hy Hl]; subst; [done|].
  exfalso. apply (Hnone y). apply Hpar; [|done].
  right. destruct (ring_from_head _ _ _ _ Hl) as (l'' & ->). by left.
Qed.

(** Between engine steps an awake body is a tree of its own. *)
Lemma step_inv_lone s w x : step_inv s w → next_of w x = Some None → lone w x.
Proof.
  intros Hinv Hx. split; [by apply (si_parentless _ _ Hinv)|].
  intros y Hy. destruct (next_of w y) as [[n|]|] eqn:Hny.
  - destruct (next_of_view _ _ _ Hny) as (idle & sp & st & Hv).
    destruct (bi_sleeping _ _ _ (si_build _ _ Hinv) _ _ _ _ _ Hv) as (_ & r & l & Hring & Hyl).
    assert (r = x) as ->.
    { destruct (decide (y = r)) as [->|Hne].
      - destruct Hring as (_ & Hr & _). congruence.
      - destruct Hring as (_ & _ & Hpar). rewrite (Hpar y Hyl Hne) in Hy. congruence. }
    destruct (sring_next _ _ _ _ Hring (sring_root_in _ _ _ Hring)) as (n' & Hn'). congruence.
  - rewrite (si_parentless _ _ Hinv y Hny) in Hy. done.
  - unfold next_of, parent_of in *. by destruct (w_bodies w !! y).
Qed.

(** X20.  Between engine steps, take a body of [space->bodies] that no
    arbiter and no constraint of the store touches.  If its kinetic energy
    is not above the idle threshold and its idle time plus [dt] is not below
    [sleepTimeThreshold], a call of [cpSpaceProcessComponents] that returns
    has put it to sleep on its own: it is a ring of one body whose root is
    in [sleepingComponents], it has left [space->bodies], and its idle time
    has advanced by [dt]. *)
Theorem cpSpaceProcessComponents_rest_sleeps (N : nat) (s : ptr) (dt : cpFloat)
    (w w' : world) (x : ptr) (b : cpBody) (sp : cpSpace) :
  step_inv s w →
  w_spaces w !! s = Some sp → x ∈ bodies sp → w_bodies w !! x = Some b →
  free_body w x →
  (idle_thresh sp dt (m b) <? cpBodyKineticEnergy b)%float = false →
  (idleTime (node b) + dt <? sleepTimeThreshold sp)%float = false →
  cpSpaceProcessComponents N s dt w = Some (tt, w') →
  sring w' x [x] ∧ x ∈ sleeping_list s w' ∧ (x ∉ active_list s w') ∧
  idle_of w' x = Some (idleTime (node b) + dt)%float.
Proof.
  intros Hstep Hsp Hx Hb Hfree Hke Hlong H.
  pose proof (si_build _ _ Hstep) as Hinv.
  assert (active_list s w = bodies sp) as Hlist by (unfold active_list; by rewrite Hsp).
  assert (next_of w x = Some None) as Hawake.
  { apply (si_listed_awake _ _ Hstep). by rewrite Hlist. }
  pose proof (step_inv_lone _ _ _ Hstep Hawake) as Hlone.
  unfold cpSpaceProcessComponents in H. cbv zeta in H.
  apply bind_Some in H as (cs & w_mid & Hbuild & H).
  apply bind_Some in H as (nb & w_end & Hverdict & H).
  apply modify_space_Some in H as (sp_end & Hsp_end & ->).
  assert (sleepTimeThreshold <$> w_spaces w_mid !! s = Some (sleepTimeThreshold sp))
    as Hthr_mid.
  { apply (preserves_threshold_build s _ _ _ _ _ _ _ Hbuild). by rewrite Hsp. }
  destruct (cpSpaceProcessComponents_build_phases _ _ _ _ _ _ Hbuild Hinv)
    as (sp0 & w1 & rb1 & w2 & rb & w3 & cs1 & w4 & Hsp0 & Hidle & Hlinks & Hspaces & Harb &
        Hcon & _ & Hadd1 & Hadd2).
  assert (sp0 = sp) as -> by congruence.
  (* the idle phase *)
  destruct (cpSpaceProcessComponents_idle_loop _ _ _ _ _ x b Hidle) as (b1 & Hb1 & Hidle1);
    [rewrite <- Hlist; apply (si_nodup _ _ Hstep)|done|].
  rewrite decide_True in Hidle1 by done. unfold idle_thresh in Hke. cbv zeta in Hke.
  rewrite Hke in Hidle1.
  assert (build_inv s w1 []) as Hinv1.
  { apply (build_inv_links s w);
      [done|done|unfold active_list; by rewrite Hspaces|by rewrite Hspaces|done]. }
  assert (free_body w1 x) as Hfree1.
  { apply (free_body_graph w); [|done].
    refine (preserves_for_array (λ w1, touch_graph w1 = touch_graph w) _ _ _ _ _ _ _
              Hidle eq_refl).
    intros [] y. apply preserves_graph_idle. }
  assert (x ∈ active_list s w3) as Hx3.
  { eapply (preserves_listed_phases x s); [|by eauto].
    unfold active_list. by rewrite Hspaces, Hsp. }
  (* forest building *)
  destruct (cpSpaceProcessComponents_phases_rest s x (idleTime (node b) + dt)%float
              _ _ _ _ _ _ _ Harb Hcon)
    as (Hinv3 & _ & Hawake3 & Hidle3 & Hlone3).
  { split; [done|]. split; [done|]. split; [by rewrite (same_links_next_of w w1)|].
    split; [|by apply (same_links_lone w)]. unfold idle_of. rewrite Hb1. simpl. by rewrite Hidle1. }
  (* ring assembly *)
  pose proof (asm_inv_start _ _ _ Hinv3) as Hasm.
  apply (assembly_fold _ _ _ _ _ _ _ _ _ (λ x Hx, or_introl Hx) Hadd1) in Hasm.
  apply (assembly_fold _ _ _ _ _ _ _ _ _ (λ x Hx, or_intror Hx) Hadd2) in Hasm.
  simpl in Hasm.
  pose proof (assembly_lone _ _ _ _ _ _ x Hadd2 (assembly_lone _ _ _ _ _ _ x Hadd1 Hlone3))
    as Hlone_mid.
  destruct (ai_seen _ _ _ _ _ Hasm x) as (n & Hn); [apply elem_of_app; by left|done|].
  destruct (ai_ringed _ _ _ _ _ Hasm x n Hawake3 Hn) as (r & l & Hr & Hring & Hxl).
  destruct (sring_lone _ _ _ _ Hring Hxl Hlone_mid) as [-> ->].
  assert (idle_of w_mid x = Some (idleTime (node b) + dt)%float) as Hidle_mid.
  { rewrite <- Hidle3. apply rest_idle_of, (ai_rest _ _ _ _ _ Hasm). }
  (* the component loop *)
  destruct (verdict_outcome _ _ _ _ _ _ _ _ Hverdict Hthr_mid (ai_nodup _ _ _ _ _ Hasm))
    as (_ & _ & _ & Hout).
  { intros r0 Hr0. destruct (ai_rings _ _ _ _ _ Hasm r0 Hr0) as (l0 & Hl0 & _). by exists l0. }
  destruct (verdict_cleared _ _ _ _ _ _ _ Hverdict (NoDup_nil_2)) as [_ Hcleared].
  { intros y Hy. by apply elem_of_nil in Hy. }
  destruct (Hout x [x] Hr Hring) as [[_ (z & bz & Hz & Hbz & Hlt)]|[Hall Hin]].
  { apply list_elem_of_singleton in Hz as ->. unfold idle_of in Hidle_mid.
    rewrite Hbz in Hidle_mid. simpl in Hidle_mid. injection Hidle_mid as Hi.
    rewrite Hi in Hlt. congruence. }
  destruct (Hall x Hxl) as (bx & Hbx & Hbx' & _).
  assert (sring w_end x [x]) as Hring_end.
  { eapply sring_bodies_frame; [|done]. intros y Hy.
    apply list_elem_of_singleton in Hy as ->. congruence. }
  split; [|split; [|split]].
  - by eapply sring_bodies_frame; [|exact Hring_end].
  - unfold sleeping_list in *. simpl. rewrite lookup_insert_eq. simpl.
    by rewrite Hsp_end in Hin.
  - unfold active_list. simpl. rewrite lookup_insert_eq. simpl. intros Hnb.
    destruct (Hcleared x Hnb) as (b' & Hb' & _ & Hnext & _).
    destruct (sring_next _ _ _ _ Hring_end Hxl) as (ny & Hny).
    apply next_of_Some in Hny as (b'' & Hb'' & Hny). congruence.
  - unfold idle_of in *. simpl. by rewrite Hbx', <- Hbx.
Qed.

Lemma resting_world_step_inv : step_inv 0 resting_world.
Proof.
  assert (∀ x b, w_bodies resting_world !! x = Some b →
            x = 1 ∧ b = example_body (Some 0) (Some 11) (mkNode None None 0 0)) as Hbodies.
  { intros x b. unfold resting_world. simpl. destruct (decide (x = 1)) as [->|H1].
    - rewrite lookup_insert_eq. by intros [= <-].
    - rewrite lookup_insert_ne by done. by rewrite lookup_empty. }
  assert (∀ x v, view_of resting_world x = Some v →
            x = 1 ∧ v = (None, 0%float, Some 0, false)) as Hview.
  { intros x v. unfold view_of.
    destruct (w_bodies resting_world !! x) as [b|] eqn:Hb; [|done].
    intros [= <-]. by apply Hbodies in Hb as [-> ->]. }
  assert (active_list 0 resting_world = [1]) as Hlist by reflexivity.
  split.
  - split.
    + reflexivity.
    + intros x nx idle st _ Hv. by apply Hview in Hv as [_ [=]].
    + intros x idle sp st Hv. apply Hview in Hv as [-> _]. split.
      * intros _ _. rewrite Hlist. by left.
      * intros p Hp. unfold parent_of in Hp.
        destruct (w_bodies resting_world !! 1) as [b|] eqn:Hb; [|done].
        by apply Hbodies in Hb as [_ ->].
    + intros x n idle sp st Hv. by apply Hview in Hv as [_ [=]].
    + intros R HR. by apply elem_of_nil in HR.
  - intros x Hx. apply next_of_Some in Hx as (b & Hb & _). apply parent_of_Some.
    exists b. split; [done|]. by apply Hbodies in Hb as [_ ->].
  - intros x b Hb. apply Hbodies in Hb as [_ ->]. by right.
  - intros x Hx. rewrite Hlist in Hx. apply list_elem_of_singleton in Hx as ->. reflexivity.
  - rewrite Hlist. apply NoDup_singleton.
Qed.

Lemma cpSpaceProcessComponents_rest_sleeps_witness :
  ∃ w', cpSpaceProcessComponents 2 0 1 resting_world = Some (tt, w') ∧
        sring w' 1 [1] ∧ 1 ∈ sleeping_list 0 w' ∧ (1 ∉ active_list 0 w') ∧
        idle_of w' 1 = Some 1%float.
Proof.
  destruct (cpSpaceProcessComponents 2 0 1 resting_world) as [[[] w']|] eqn:Hrun;
    [|vm_compute in Hrun; discriminate].
  exists w'. split; [reflexivity|].
  assert (free_body resting_world 1) as Hfree.
  { split.
    - intros arb ar sh shp Har. simpl in Har. by rewrite lookup_empty in Har.
    - intros c con Hc. simpl in Hc. by rewrite lookup_empty in Hc. }
  exact (cpSpaceProcessComponents_rest_sleeps 2 0 1 resting_world w' 1
           (example_body (Some 0) (Some 11) (mkNode None None 0 0))
           (example_space false 0.5 [1] [])
           resting_world_step_inv eq_refl ltac:(by left) eq_refl Hfree
           ltac:(vm_compute; reflexivity) ltac:(vm_compute; reflexivity) Hrun).
Defined.

(** ** [sleepingComponents] lists the roots of the sleeping rings *)

(** What keeps [sleep_inv]: ring links, rings with their trees and
    [sleepingComponents] are kept. *)
Lemma sleep_inv_frame s w w' :
  (∀ y, next_of w' y = next_of w y) → (∀ r l, sring w r l → sring w' r l) →
  sleeping_list s w' = sleeping_list s w → sleep_inv s w → sleep_inv s w'.
Proof.
  intros Hnext Hrings Hlist [Hnd Hr Hl]. split.
  - by rewrite Hlist.
  - intros r Hin. rewrite Hlist in Hin. destruct (Hr r Hin) as (l & Hring). eauto.
  - intros x n Hx. rewrite Hnext in Hx. destruct (Hl x n Hx) as (r & l & Hin & Hring & Hxl).
    exists r, l. rewrite Hlist. eauto.
Qed.

Lemma sleep_inv_links s w w' :
  same_links w w' → w_spaces w' = w_spaces w → sleep_inv s w → sleep_inv s w'.
Proof.
  intros Hn Hs. apply sleep_inv_frame.
  - intros y. by apply same_links_next_of.
  - intros r l. by apply same_links_sring.
  - unfold sleeping_list. by rewrite Hs.
Qed.

(** Waking the ring of [r] and deleting [r] from [sleepingComponents]. *)
Lemma sleep_inv_wake s w w' r l :
  sleep_inv s w → sring w r l →
  (∀ y, y ∈ l → next_of w' y = Some None) →
  (∀ y, y ∉ l → next_of w' y = next_of w y ∧ parent_of w' y = parent_of w y) →
  sleeping_list s w' = cpArrayDeleteObj (sleeping_list s w) r →
  sleep_inv s w'.
Proof.
  intros [Hnd Hr Hl] Hring Hwoken Hframe Hlist.
  destruct (NoDup_cpArrayDeleteObj _ r Hnd) as [Hnd' Hgone].
  assert (∀ r' l', r' ∈ sleeping_list s w → r' ≠ r → sring w r' l' →
            r' ∈ sleeping_list s w' ∧ sring w' r' l') as Hkeep.
  { intros r' l' Hin Hne Hring'. split.
    - rewrite Hlist. by apply elem_of_cpArrayDeleteObj_ne.
    - eapply sring_frame; [|done]. intros y Hy. apply Hframe. intros Hyl.
      by destruct (sring_disjoint _ _ _ _ _ _ Hring Hring' Hyl Hy). }
  split.
  - by rewrite Hlist.
  - intros r' Hin. rewrite Hlist in Hin.
    assert (r' ≠ r) as Hne by (intros ->; done).
    apply elem_of_cpArrayDeleteObj in Hin. destruct (Hr r' Hin) as (l' & Hring').
    exists l'. by apply Hkeep.
  - intros x n Hx.
    assert (x ∉ l) as Hxl by (intros Hxl; rewrite (Hwoken x Hxl) in Hx; done).
    destruct (Hframe x Hxl) as [Hnx _]. rewrite Hnx in Hx.
    destruct (Hl x n Hx) as (r' & l' & Hin & Hring' & Hxl').
    assert (r' ≠ r) as Hne.
    { intros ->. by rewrite (sring_det _ _ _ _ Hring Hring') in Hxl. }
    exists r', l'. destruct (Hkeep r' l' Hin Hne Hring'). done.
Qed.

(** Linking two awake roots. *)
Lemma sleep_inv_merge s w w' ar br :
  componentNodeMerge ar br w = Some (tt, w') →
  next_of w ar = Some None → next_of w br = Some None →
  sleep_inv s w → sleep_inv s w'.
Proof.
  intros H Ha Hb.
  destruct (componentNodeMerge_inv _ _ _ _ H) as (Hs & _ & _ & _ & _ & Hview & Hcase).
  assert (∀ y, next_of w' y = next_of w y) as Hnext.
  { intros y. by rewrite !next_of_view_of, Hview. }
  apply sleep_inv_frame; [done| |unfold sleeping_list; by rewrite Hs].
  intros r l Hring. eapply sring_frame; [|done]. intros y Hy. split; [done|].
  destruct Hcase as [[_ Hsame]|(child & par & Hwho & _ & _ & Hothers)]; [done|].
  apply Hothers. intros ->. destruct (sring_next _ _ _ _ Hring Hy) as (n & Hn).
  destruct Hwho as [[-> _]|[-> _]]; congruence.
Qed.

Lemma componentNodeRoot_sleep_inv N s x w r w' :
  componentNodeRoot N x w = Some (r, w') → sleep_inv s w → sleep_inv s w'.
Proof.
  intros H. apply componentNodeRoot_inv in H as (l & Hc & _ & ->).
  apply sleep_inv_frame; [|intros r0 l0; by apply (compress_sring _ x)|done].
  intros y. by rewrite !next_of_view_of, compress_view.
Qed.

Lemma componentActivate_sleep_inv N s rb r w w' :
  componentActivate N r w = Some (tt, w') →
  build_inv s w rb → parent_of w r = Some None →
  sleep_inv s w → sleep_inv s w'.
Proof.
  intros H Hinv Hroot Hsl.
  destruct (componentActivate_inv _ _ _ _ _ _ H Hinv Hroot)
    as [[_ ->]|(l & Hring & [Hin Hout] & _ & _)]; [done|].
  destruct (sring_next _ _ _ _ Hring (sring_root_in _ _ _ Hring)) as (n & Hn).
  destruct (next_of_view _ _ _ Hn) as (idle & sp & st & Hv).
  destruct (bi_sleeping _ _ _ Hinv _ _ _ _ _ Hv) as (-> & _).
  unfold view_of in Hv. destruct (w_bodies w !! r) as [br|] eqn:Hbr; [|done].
  injection Hv as _ _ Hspace _.
  pose proof (bi_unlocked _ _ _ Hinv) as Hlk.
  destruct (w_spaces w !! s) as [sp0|] eqn:Hsp0; [|done]. injection Hlk as Hlk.
  destruct (componentActivate_ring _ _ _ _ _ _ _ _ Hbr Hspace (proj1 Hring) Hsp0 Hlk H)
    as (_ & _ & sp' & Hsp' & _ & _ & Hsc).
  apply (sleep_inv_wake s w w' r l); [done|done| | |].
  - intros y Hy. destruct (Hin y Hy) as (? & ? & ? & ? & _ & Hv' & _).
    by rewrite next_of_view_of, Hv'.
  - intros y Hy. destruct (Hout y Hy) as [Hv' Hp']. split; [|done].
    by rewrite !next_of_view_of, Hv'.
  - unfold sleeping_list. rewrite Hsp', Hsp0. simpl. by rewrite Hsc.
Qed.

(** [mergeBodies] keeps [sleepingComponents] and the sleeping rings in step. *)
Lemma mergeBodies_sleep_inv N s cs rb a b w rb' w' :
  mergeBodies N s cs rb a b w = Some (rb', w') → build_inv s w rb →
  sleep_inv s w → sleep_inv s w'.
Proof.
  intros H Hinv Hsl. unfold mergeBodies in H.
  apply bind_Some in H as (ab & ? & Hab & H). apply load_body_Some in Hab as [Hab ->].
  apply bind_Some in H as (static & w0 & Hst & H).
  assert (w0 = w) as ->.
  { destruct (cpBodyIsStatic ab).
    - by apply ret_Some in Hst as [_ ->].
    - apply bind_Some in Hst as (bb & ? & Hbb & Hst). apply load_body_Some in Hbb as [_ ->].
      by apply ret_Some in Hst as [_ ->]. }
  destruct static; [by apply ret_Some in H as [_ ->]|].
  apply bind_Some in H as (ar & w1 & Har & H).
  pose proof (componentNodeRoot_sleep_inv _ s _ _ _ _ Har Hsl) as Hsl1.
  apply componentNodeRoot_build_inv with (s := s) (rb := rb) in Har
    as (Hinv1 & _ & Hra1 & Hpa1 & _ & _ & _); [|done].
  apply bind_Some in H as (br & w2 & Hbr & H).
  pose proof (componentNodeRoot_sleep_inv _ s _ _ _ _ Hbr Hsl1) as Hsl2.
  apply componentNodeRoot_build_inv with (s := s) (rb := rb) in Hbr
    as (Hinv2 & _ & Hrb2 & Hpb2 & _ & _ & Hroots2); [|done].
  apply Hroots2 in Hra1 as Hra2.
  assert (parent_of w2 ar = Some None) as Hpa2.
  { destruct Hra2 as [l Hc]. by eapply chain_root_parent_of. }
  apply bind_Some in H as (arb & ? & Harb & H). apply load_body_Some in Harb as [Harb ->].
  apply bind_Some in H as (brb & ? & Hbrb & H). apply load_body_Some in Hbrb as [Hbrb ->].
  apply bind_Some in H as ([] & w4 & Hwake & H).
  assert (sleep_inv s w4 ∧ next_of w4 ar = Some None ∧ next_of w4 br = Some None)
    as (Hsl4 & Hna4 & Hnb4).
  { destruct (cpBodyIsSleeping arb || cpBodyIsSleeping brb) eqn:Hsleep.
    - apply bind_Some in Hwake as ([] & w3 & Hwa & Hwb).
      pose proof (componentActivate_sleep_inv _ _ _ _ _ _ Hwa Hinv2 Hpa2 Hsl2) as Hsl3.
      apply componentActivate_anchor with (s := s) (rb := rb) in Hwa
        as (Hinv3 & Hna3 & Hroots3 & _); [|done..].
      pose proof (componentActivate_sleep_inv _ _ _ _ _ _ Hwb Hinv3 (Hroots3 _ Hpb2) Hsl3)
        as Hsl4.
      apply componentActivate_anchor with (s := s) (rb := rb) in Hwb
        as (_ & Hnb4 & _ & _ & _ & Hkeep4 & _); [|by auto..].
      split; [done|]. split; [|done].
      destruct (Hkeep4 ar ar) as [? _]; [|done]. split; [done|]. left.
      exists []. apply chain_root'. by apply Hroots3.
    - apply ret_Some in Hwake as [_ ->]. apply orb_false_elim in Hsleep as [Hsa Hsb].
      unfold cpBodyIsSleeping in Hsa, Hsb. apply bool_decide_eq_false in Hsa, Hsb.
      split; [done|]. split; apply next_of_Some; eexists; (split; [done|]).
      + destruct (next (node arb)); [by destruct Hsa|done].
      + destruct (next (node brb)); [by destruct Hsb|done]. }
  apply bind_Some in H as (ab4 & ? & Hab4 & H). apply load_body_Some in Hab4 as [Hab4 ->].
  apply bind_Some in H as (rb1 & w5 & Hrogue_a & H).
  apply (mergeBodies_rogue _ _ _ _ _ _ _ Hab4) in Hrogue_a as (Hn5 & _ & Hs5 & _).
  apply bind_Some in H as (bb5 & ? & Hbb5 & H). apply load_body_Some in Hbb5 as [Hbb5 ->].
  apply bind_Some in H as (rb2 & w6 & Hrogue_b & H).
  apply (mergeBodies_rogue _ _ _ _ _ _ _ Hbb5) in Hrogue_b as (Hn6 & _ & Hs6 & _).
  apply bind_Some in H as ([] & w7 & Hmerge & H). apply ret_Some in H as [_ ->].
  apply (sleep_inv_merge s w6 w7 ar br Hmerge).
  - by rewrite (same_links_next_of w5 w6), (same_links_next_of w4 w5).
  - by rewrite (same_links_next_of w5 w6), (same_links_next_of w4 w5).
  - by apply (sleep_inv_links s w5), (sleep_inv_links s w4).
Qed.

Lemma cpSpaceProcessComponents_arbiter_sleep_inv N s cs rb arb w rb' w' :
  cpSpaceProcessComponents_arbiter N s cs rb arb w = Some (rb', w') →
  build_inv s w rb → sleep_inv s w → sleep_inv s w'.
Proof.
  intros H Hinv Hsl. unfold cpSpaceProcessComponents_arbiter in H.
  apply bind_Some in H as (ar & ? & Har & H). apply load_arbiter_Some in Har as [Har ->].
  apply bind_Some in H as (a & ? & Ha & H). apply load_shape_Some in Ha as [Ha ->].
  apply bind_Some in H as (b & ? & Hb & H). apply load_shape_Some in Hb as [Hb ->].
  apply bind_Some in H as (rb1 & w1 & Hmerge & H).
  apply bind_Some in H as ([] & w2 & Hpa & H).
  apply bind_Some in H as ([] & w3 & Hpb & H). apply ret_Some in H as [_ ->].
  apply cpBodyPushArbiter_frame in Hpa as [Hn2 Hs2].
  apply cpBodyPushArbiter_frame in Hpb as [Hn3 Hs3].
  apply (sleep_inv_links s w2); [by apply same_nodes_links|done|].
  apply (sleep_inv_links s w1); [by apply same_nodes_links|done|].
  by eapply mergeBodies_sleep_inv.
Qed.

Lemma cpSpaceProcessComponents_constraints_sleep_inv N fuel s cs rb j w rb' w' :
  cpSpaceProcessComponents_constraints N fuel s cs rb j w = Some (rb', w') →
  build_inv s w rb → sleep_inv s w → sleep_inv s w'.
Proof.
  revert rb j w. induction fuel as [|fuel IH]; intros rb j w H Hinv Hsl;
    cbn [cpSpaceProcessComponents_constraints] in H; [done|].
  apply bind_Some in H as (sp & ? & Hsp & H). apply load_space_Some in Hsp as [Hsp ->].
  destruct (constraints sp !! j) as [c|]; [|by apply ret_Some in H as [-> ->]].
  apply bind_Some in H as (con & ? & Hc & H). apply load_constraint_Some in Hc as [Hc ->].
  apply bind_Some in H as (rb1 & w1 & Hmerge & H).
  apply (IH _ _ _ H); [by eapply mergeBodies_build_inv|by eapply mergeBodies_sleep_inv].
Qed.

Lemma cpSpaceProcessComponents_phases_sleep_inv N s l w1 rb1 w2 rb w3 :
  build_inv s w1 [] → sleep_inv s w1 →
  for_array (cpSpaceProcessComponents_arbiter N s []) l [] w1 = Some (rb1, w2) →
  cpSpaceProcessComponents_constraints N N s [] rb1 0 w2 = Some (rb, w3) →
  sleep_inv s w3.
Proof.
  intros Hinv1 Hsl1 Harb Hcon.
  assert (build_inv s w2 rb1 ∧ sleep_inv s w2) as [Hinv2 Hsl2].
  { refine (for_array_inv (λ rb w, build_inv s w rb ∧ sleep_inv s w)
              _ _ _ _ _ _ _ Harb (conj Hinv1 Hsl1)).
    intros rb0 arb wa rb0' wb _ Hstep [Hi Hs]. split.
    - by eapply cpSpaceProcessComponents_arbiter_build_inv.
    - by eapply cpSpaceProcessComponents_arbiter_sleep_inv. }
  by eapply cpSpaceProcessComponents_constraints_sleep_inv.
Qed.

(** One round of the component loop appends the root to
    [sleepingComponents] when it puts the ring to sleep, and then writes to
    no body; otherwise it leaves the array as it is. *)
Lemma component_sleeping_list N s nb root w nb' w' :
  cpSpaceProcessComponents_component N s nb root w = Some (nb', w') →
  sleeping_list s w' = sleeping_list s w ∨
  (sleeping_list s w' = sleeping_list s w ++ [root] ∧ w_bodies w' = w_bodies w).
Proof.
  intros H. unfold cpSpaceProcessComponents_component in H.
  apply bind_Some in H as (sp & ? & Hsp & H). apply load_space_Some in Hsp as [Hsp ->].
  apply bind_Some in H as (active & ? & Hact & H).
  pose proof (reads_componentActive _ _ _ _ _ _ Hact) as ->.
  destruct active.
  - pose proof (copy_loop_frame _ _ _ _ _ _ _ H) as (Hspaces & _).
    left. unfold sleeping_list. by rewrite Hspaces.
  - apply bind_Some in H as ([] & w1 & Hloop & H).
    apply bind_Some in H as ([] & w2 & Hpush & H). apply ret_Some in H as [-> ->].
    assert (w_bodies w1 = w_bodies w) as Hbodies.
    { refine (preserves_ring_loop (λ w', w_bodies w' = w_bodies w) _ _ _ _ _ _ _ _ _
                Hloop eq_refl).
      intros [] body.
      apply (preserves_cpSpaceDeactivateBody_bodies (λ bs, bs = w_bodies w)). }
    assert (sleepingComponents <$> w_spaces w1 !! s = Some (sleepingComponents sp)) as Hsc.
    { refine (preserves_ring_loop
                (λ w', sleepingComponents <$> w_spaces w' !! s = Some (sleepingComponents sp))
                _ _ _ _ _ _ _ _ _ Hloop _); [|by rewrite Hsp].
      intros [] body. by apply preserves_cpSpaceDeactivateBody_field. }
    apply modify_space_Some in Hpush as (sp1 & Hsp1 & ->).
    rewrite Hsp1 in Hsc. injection Hsc as Hsc.
    right. split; [|done].
    unfold sleeping_list. simpl. rewrite lookup_insert_eq, Hsp. simpl. by rewrite Hsc.
Qed.

(** The component loop over rings that are apart: an entry of
    [sleepingComponents] was there before, or is the root of a ring that the
    loop has put to sleep as it was. *)
Lemma verdict_sleeping_list N s thr cs nb w nb' w' :
  for_array (cpSpaceProcessComponents_component N s) cs nb w = Some (nb', w') →
  sleepTimeThreshold <$> w_spaces w !! s = Some thr →
  NoDup cs → (∀ r, r ∈ cs → ∃ l, sring w r l) →
  (∀ r, r ∈ sleeping_list s w' →
     r ∈ sleeping_list s w ∨ (r ∈ cs ∧ ∃ l, sring w r l ∧ sring w' r l)) ∧
  (NoDup (sleeping_list s w) → (∀ r, r ∈ cs → r ∉ sleeping_list s w) →
   NoDup (sleeping_list s w')).
Proof.
  revert nb w. induction cs as [|root cs IH]; intros nb w H Hthr Hnd Hrings;
    cbn [for_array] in H.
  { apply ret_Some in H as [-> ->]. split; [by left|done]. }
  apply bind_Some in H as (nb1 & w1 & Hstep & H).
  apply NoDup_cons in Hnd as [Hroot Hnd].
  destruct (Hrings root ltac:(by left)) as (l0 & Hl0).
  destruct (component_outcome _ _ _ _ _ _ _ _ _ Hstep Hthr (proj1 Hl0)) as (Hframe1 & _).
  assert (∀ r l y, r ∈ cs → sring w r l → y ∈ l → y ∉ l0) as Hapart.
  { intros r l y Hr Hl Hy Hy0.
    destruct (sring_disjoint _ _ _ _ _ _ Hl Hl0 Hy Hy0) as [-> _]. done. }
  assert (∀ r l, r ∈ cs → sring w r l → sring w1 r l) as Hkeep.
  { intros r l Hr Hl. eapply sring_bodies_frame; [|done].
    intros y Hy. apply Hframe1. by eapply Hapart. }
  assert (∀ r l, r ∈ cs → sring w1 r l → sring w r l) as Hback.
  { intros r l Hr Hl. destruct (Hrings r ltac:(by right)) as (l' & Hl').
    by rewrite (sring_det _ _ _ _ Hl (Hkeep _ _ Hr Hl')). }
  assert (sleepTimeThreshold <$> w_spaces w1 !! s = Some thr) as Hthr1.
  { by eapply (preserves_threshold_component s thr). }
  assert (∀ r, r ∈ cs → ∃ l, sring w1 r l) as Hrings1.
  { intros r Hr. destruct (Hrings r ltac:(by right)) as (l & Hl). exists l. by apply Hkeep. }
  destruct (IH nb1 w1 H Hthr1 Hnd Hrings1) as [Hfrom Hnodup].
  destruct (verdict_outcome _ _ _ _ _ _ _ _ H Hthr1 Hnd Hrings1) as (Hframe & _).
  destruct (component_sleeping_list _ _ _ _ _ _ _ Hstep) as [Hsame|[Happ Hbodies]].
  - split.
    + intros r Hr. destruct (Hfrom r Hr) as [Hin|(Hin & l & Hl1 & Hl')].
      * left. by rewrite <- Hsame.
      * right. split; [by right|]. exists l. split; [by apply Hback|done].
    + intros Hnd0 Hfresh. apply Hnodup; [by rewrite Hsame|].
      intros r Hr. rewrite Hsame. apply Hfresh. by right.
  - split.
    + intros r Hr. destruct (Hfrom r Hr) as [Hin|(Hin & l & Hl1 & Hl')].
      * rewrite Happ in Hin. apply elem_of_app in Hin as [Hin|Hin]; [by left|].
        apply list_elem_of_singleton in Hin as ->. right. split; [by left|].
        exists l0. split; [done|]. eapply sring_bodies_frame; [|done].
        intros y Hy. rewrite Hframe; [by rewrite Hbodies|].
        intros r l Hr' Hl Hyl. eapply (Hapart r l y); [done|by apply Hback|done|done].
      * right. split; [by right|]. exists l. split; [by apply Hback|done].
    + intros Hnd0 Hfresh. apply Hnodup.
      * rewrite Happ. apply NoDup_app. split; [done|]. split; [|apply NoDup_singleton].
        intros y Hy ->%list_elem_of_singleton. apply (Hfresh root); [by left|done].
      * intros r Hr. rewrite Happ. intros [Hin|Hin]%elem_of_app.
        -- apply (Hfresh r); [by right|done].
        -- apply list_elem_of_singleton in Hin as ->. done.
Qed.

(** X21.  [cpSpaceProcessComponents] keeps [sleepingComponents] in step with
    the sleeping rings.  Take a store that satisfies the invariant between
    steps, with a sleep threshold above 0, in which [sleepingComponents]
    lists each of its entries once, every entry is the root of a ring with
    its tree and every sleeping body is on the ring of an entry.  When the
    call returns the same holds of the store it leaves. *)
Theorem cpSpaceProcessComponents_sleep_inv (N : nat) (s : ptr) (dt thr : cpFloat)
    (w w' : world) :
  step_inv s w → sleep_inv s w →
  sleepTimeThreshold <$> w_spaces w !! s = Some thr → (0 <? thr)%float = true →
  cpSpaceProcessComponents N s dt w = Some (tt, w') →
  sleep_inv s w'.
Proof.
  intros Hstep Hsl Hthr Hpos H. pose proof (si_build _ _ Hstep) as Hinv.
  unfold cpSpaceProcessComponents in H. cbv zeta in H.
  apply bind_Some in H as (cs & w_mid & Hbuild & H).
  apply bind_Some in H as (nb & w_end & Hverdict & H).
  apply modify_space_Some in H as (sp_end & Hsp_end & ->).
  pose proof (preserves_threshold_build s thr _ _ _ _ _ _ Hbuild Hthr) as Hthr_mid.
  destruct (cpSpaceProcessComponents_build_phases _ _ _ _ _ _ Hbuild Hinv)
    as (sp & w1 & rb1 & w2 & rb & w3 & cs1 & w4 & Hsp & Hidle & Hlinks & Hspaces & Harb &
        Hcon & Hinv3 & Hadd1 & Hadd2).
  assert (build_inv s w1 []) as Hinv1.
  { apply (build_inv_links s w);
      [done|done|unfold active_list; by rewrite Hspaces|by rewrite Hspaces|done]. }
  assert (parents_listed s w3 rb) as HPL3.
  { apply (cpSpaceProcessComponents_phases_parents_listed N s (arbiters sp) w1 rb1 w2);
      try done.
    intros x p Hx Hp. rewrite (same_links_next_of _ _ _ Hlinks) in Hx.
    destruct (Hlinks x) as [Hp' _]. rewrite Hp', (si_parentless _ _ Hstep x Hx) in Hp.
    done. }
  assert (sleep_inv s w3) as [Hnd3 Hrings3 Hlisted3].
  { apply (cpSpaceProcessComponents_phases_sleep_inv N s (arbiters sp) w1 rb1 w2 rb);
      [done| |done|done].
    by apply (sleep_inv_links s w). }
  destruct (cpSpaceProcessComponents_exit_cases _ _ _ _ _ _ _ _ _ _ _ Hinv3 HPL3 Hadd1 Hadd2
              Hverdict Hthr_mid Hpos) as (Hasleep & Habsent & Hawake).
  pose proof (asm_inv_start _ _ _ Hinv3) as Hasm.
  apply (assembly_fold _ _ _ _ _ _ _ _ _ (λ x Hx, or_introl Hx) Hadd1) in Hasm.
  apply (assembly_fold _ _ _ _ _ _ _ _ _ (λ x Hx, or_intror Hx) Hadd2) in Hasm.
  simpl in Hasm.
  assert (∀ r, r ∈ cs → ∃ l, sring w_mid r l) as Hrings_mid.
  { intros r0 Hr0. destruct (ai_rings _ _ _ _ _ Hasm r0 Hr0) as (l0 & Hl0 & _). by exists l0. }
  assert (sleeping_list s w_mid = sleeping_list s w3) as Hlist_mid.
  { transitivity (sleeping_list s w4).
    - refine (preserves_for_array (λ w0, sleeping_list s w0 = sleeping_list s w4)
                _ _ _ _ _ _ _ Hadd2 eq_refl).
      intros acc y. apply preserves_process_addToComponent. intros y0 f wa [] wb Hm Hwa.
      apply modify_body_spaces in Hm. unfold sleeping_list in *. by rewrite Hm.
    - refine (preserves_for_array (λ w0, sleeping_list s w0 = sleeping_list s w3)
                _ _ _ _ _ _ _ Hadd1 eq_refl).
      intros acc y. apply preserves_process_addToComponent. intros y0 f wa [] wb Hm Hwa.
      apply modify_body_spaces in Hm. unfold sleeping_list in *. by rewrite Hm. }
  destruct (verdict_sleeping_list _ _ _ _ _ _ _ _ Hverdict Hthr_mid (ai_nodup _ _ _ _ _ Hasm)
              Hrings_mid) as [Hfrom Hnodup].
  destruct (verdict_outcome _ _ _ _ _ _ _ _ Hverdict Hthr_mid (ai_nodup _ _ _ _ _ Hasm)
              Hrings_mid) as (_ & _ & Hmono & _).
  assert (∀ r l, sring w3 r l → sring w_end r l) as Hold.
  { intros r l Hring. eapply sring_bodies_frame; [|done]. intros y Hy.
    destruct (sring_next _ _ _ _ Hring Hy) as (n & Hn). by apply (Hasleep y n). }
  assert (∀ r l, sring w_end r l →
            sring (with_spaces (<[s := set_bodies nb sp_end]> (w_spaces w_end)) w_end) r l)
    as Hlast.
  { intros r l. by apply sring_bodies_frame. }
  assert (sleeping_list s (with_spaces (<[s := set_bodies nb sp_end]> (w_spaces w_end)) w_end)
          = sleeping_list s w_end) as Hlist_end.
  { unfold sleeping_list. simpl. by rewrite lookup_insert_eq, Hsp_end. }
  split.
  - rewrite Hlist_end. apply Hnodup; [by rewrite Hlist_mid|].
    intros r Hr Hin. rewrite Hlist_mid in Hin. destruct (Hrings3 r Hin) as (l & Hring).
    destruct (sring_next _ _ _ _ Hring (sring_root_in _ _ _ Hring)) as (n & Hn).
    destruct (ai_rings _ _ _ _ _ Hasm r Hr) as (l0 & Hl0 & Hall).
    destruct (Hall r (sring_root_in _ _ _ Hl0)) as [Hawake3 _]. congruence.
  - intros r Hr. rewrite Hlist_end in Hr.
    destruct (Hfrom r Hr) as [Hin|(_ & l & _ & Hl)].
    + rewrite Hlist_mid in Hin. destruct (Hrings3 r Hin) as (l & Hring). exists l. auto.
    + exists l. auto.
  - intros x n Hx.
    assert (next_of w_end x = Some (Some n)) as Hx_end by exact Hx.
    destruct (next_of w3 x) as [[n3|]|] eqn:Hx3.
    + rewrite next_of_view_of in Hx3.
      destruct (Hlisted3 x n3) as (r & l & Hin & Hring & Hxl);
        [by rewrite next_of_view_of|].
      exists r, l. split; [|split; [auto|done]].
      rewrite Hlist_end. apply Hmono. by rewrite Hlist_mid.
    + destruct (Hawake x Hx3)
        as [(b & Hb & Hn & _)|(r & l & b & n' & Hin & Hring & Hxl & _)].
      * apply next_of_Some in Hx_end as (b' & Hb' & Hn'). congruence.
      * exists r, l. rewrite Hlist_end. auto.
    + apply Habsent in Hx3. unfold next_of in Hx_end. by rewrite Hx3 in Hx_end.
Qed.

Lemma resting_world_sleep_inv : sleep_inv 0 resting_world.
Proof.
  split.
  - apply NoDup_nil_2.
  - intros r Hr. by apply elem_of_nil in Hr.
  - intros x n Hx. exfalso. unfold next_of, resting_world in Hx. simpl in Hx.
    destruct (decide (x = 1)) as [->|Hne].
    + by rewrite lookup_insert_eq in Hx.
    + by rewrite lookup_insert_ne, lookup_empty in Hx.
Qed.

Lemma cpSpaceProcessComponents_sleep_inv_witness :
  ∃ w', cpSpaceProcessComponents 2 0 1 resting_world = Some (tt, w') ∧
        sleeping_list 0 w' = [1] ∧ sleep_inv 0 w'.
Proof.
  destruct (cpSpaceProcessComponents 2 0 1 resting_world) as [[[] w']|] eqn:Hrun;
    [|vm_compute in Hrun; discriminate].
  exists w'. split; [reflexivity|]. split.
  - revert Hrun. vm_compute. intros [= <-]. reflexivity.
  - exact (cpSpaceProcessComponents_sleep_inv 2 0 1 0.5 resting_world w'
             resting_world_step_inv resting_world_sleep_inv eq_refl eq_refl Hrun).
Defined.

(** Putting an awake body on the ring [l'] of [r], new or grown by the body,
    with [r] in [sleepingComponents]. *)
Lemma sleep_inv_sleep s w w' body r l' :
  sleep_inv s w → next_of w body = Some None →
  sring w' r l' → body ∈ l' →
  (∀ z, z ∈ l' → z ≠ body → ∃ l, sring w r l ∧ z ∈ l ∧ ∀ y, y ∈ l → y ∈ l') →
  (∀ y, y ∉ l' → w_bodies w' !! y = w_bodies w !! y) →
  NoDup (sleeping_list s w') →
  (∀ y, y ∈ sleeping_list s w' ↔ y ∈ sleeping_list s w ∨ y = r) →
  sleep_inv s w'.
Proof.
  intros [Hnd Hr Hl] Hawake Hring Hbody Hold Hframe Hnd' Hlist.
  assert (∀ r0 l0, sring w r0 l0 → r0 ≠ r → sring w' r0 l0) as Hkeep.
  { intros r0 l0 Hring0 Hne. eapply sring_bodies_frame; [|done].
    intros y Hy. apply Hframe. intros Hyl.
    assert (y ≠ body) as Hyb.
    { intros ->. destruct (sring_next _ _ _ _ Hring0 Hy) as (n & Hn). congruence. }
    destruct (Hold y Hyl Hyb) as (l & Hl0 & Hyl0 & _).
    by destruct (sring_disjoint _ _ _ _ _ _ Hring0 Hl0 Hy Hyl0). }
  split; [done| |].
  - intros r0 Hin. apply Hlist in Hin. destruct (decide (r0 = r)) as [->|Hne]; [eauto|].
    destruct Hin as [Hin|?]; [|done]. destruct (Hr r0 Hin) as (l0 & Hring0). eauto.
  - intros x n Hx. destruct (decide (x ∈ l')) as [Hxl|Hxl].
    { exists r, l'. split; [apply Hlist; by right|done]. }
    unfold next_of in Hx. rewrite (Hframe x Hxl) in Hx.
    destruct (Hl x n Hx) as (r0 & l0 & Hin & Hring0 & Hxl0).
    exists r0, l0. split; [apply Hlist; by left|]. split; [|done].
    apply Hkeep; [done|]. intros ->. apply Hxl.
    assert (r ≠ body) as Hrb.
    { intros ->. destruct (sring_next _ _ _ _ Hring0 (sring_root_in _ _ _ Hring0)) as (m & Hm).
      congruence. }
    destruct (Hold r (sring_root_in _ _ _ Hring) Hrb) as (l & Hl0 & _ & Hsub).
    apply Hsub. by rewrite (sring_det _ _ _ _ Hl0 Hring0).
Qed.

(** [cpBodySleepWithGroup] keeps [sleepingComponents] in step with the
    sleeping rings. *)
Lemma cpBodySleepWithGroup_keeps_sleep_inv N s body group w w' :
  step_inv s w → sleep_inv s w →
  cpBodySleepWithGroup N body group w = Some (tt, w') → sleep_inv s w'.
Proof.
  intros Hstep Hsl H.
  destruct (cpBodySleepWithGroup_checks _ _ _ _ _ H)
    as (b & s0 & sp & Hb & Hstatic & Hs & Hsp & Hlk & Hgroup & Hasleep).
  assert (s0 = s) as -> by (destruct (si_space _ _ Hstep body b Hb); congruence).
  destruct (cpBodyIsSleeping b) eqn:Hsleep; [by rewrite (Hasleep eq_refl)|].
  assert (next (node b) = None) as Hn.
  { unfold cpBodyIsSleeping in Hsleep. apply bool_decide_eq_false in Hsleep.
    destruct (next (node b)); [by destruct Hsleep|done]. }
  assert (next_of w body = Some None) as Hawake by (apply next_of_Some; eauto).
  assert (sleeping_list s w = sleepingComponents sp) as Hlist0.
  { unfold sleeping_list. by rewrite Hsp. }
  destruct group as [g|].
  - destruct (Hgroup g eq_refl) as (gb & Hgb & Hgsleep).
    unfold cpBodyIsSleeping in Hgsleep. apply bool_decide_eq_true in Hgsleep.
    destruct (next (node gb)) as [ng|] eqn:Hng; [|done].
    destruct (sl_listed _ _ Hsl g ng) as (r & l & Hin & Hring & Hgl);
      [apply next_of_Some; eauto|].
    destruct (cpBodySleepWithGroup_joins_inv _ _ _ _ _ _ _ _ _ _ Hb Hsleep Hs Hsp Hring Hgl H)
      as (br & t & Hbr & -> & Hbodies & Hring' & sp' & Hsp' & _ & _ & Hsc').
    assert (sleeping_list s w' = sleeping_list s w) as Hlist.
    { unfold sleeping_list. rewrite Hsp', Hsp. simpl. by rewrite Hsc'. }
    assert (body ≠ r) as Hne.
    { intros ->. destruct (sring_next _ _ _ _ Hring (sring_root_in _ _ _ Hring)) as (n & Hnr).
      congruence. }
    apply (sleep_inv_sleep s w w' body r (r :: body :: t)); try done.
    + right. by left.
    + intros z Hz Hzb. exists (r :: t). split; [done|]. split.
      * apply elem_of_cons in Hz as [->|Hz]; [by left|].
        apply elem_of_cons in Hz as [->|Hz]; [done|by right].
      * intros y [->|Hy]%elem_of_cons; [by left|right; by right].
    + intros y Hy. rewrite Hbodies. rewrite !lookup_insert_ne; [done| |].
      * intros ->. apply Hy. right. by left.
      * intros ->. apply Hy. by left.
    + rewrite Hlist. apply (sl_nodup _ _ Hsl).
    + intros y. rewrite Hlist. split; [by left|]. intros [?| ->]; done.
  - destruct (cpBodySleep_component_inv _ _ _ _ _ _ _ Hb Hsleep Hs Hsp H)
      as (Hbodies & Hring' & sp' & Hsp' & _ & _ & Hsc').
    assert (sleeping_list s w' = sleeping_list s w ++ [body]) as Hlist.
    { unfold sleeping_list. rewrite Hsp', Hsp. simpl. by rewrite Hsc'. }
    assert (body ∉ sleeping_list s w) as Hfresh.
    { intros Hin. destruct (sl_rings _ _ Hsl body Hin) as (l & Hring).
      destruct (sring_next _ _ _ _ Hring (sring_root_in _ _ _ Hring)) as (n & Hnr).
      congruence. }
    apply (sleep_inv_sleep s w w' body body [body]); try done.
    + by left.
    + intros z Hz Hzb. by apply list_elem_of_singleton in Hz.
    + intros y Hy. rewrite Hbodies. rewrite lookup_insert_ne; [done|].
      intros ->. apply Hy. by left.
    + rewrite Hlist. apply NoDup_app. split; [apply (sl_nodup _ _ Hsl)|].
      split; [|apply NoDup_singleton]. by intros y Hy ->%list_elem_of_singleton.
    + intros y. rewrite Hlist, elem_of_app, list_elem_of_singleton. done.
Qed.

(** X22.  [cpBodySleepWithGroup], and so [cpBodySleep], keeps
    [sleepingComponents] in step with the sleeping rings: from a store that
    satisfies the invariant between steps and in which [sleepingComponents]
    lists every root of a sleeping ring once and nothing else, a call that
    returns, with or without a group, leaves [sleepingComponents] such a list
    again. *)
Theorem cpBodySleepWithGroup_sleep_inv (N : nat) (s body : ptr) (group : option ptr)
    (w w' : world) :
  step_inv s w → sleep_inv s w →
  cpBodySleepWithGroup N body group w = Some (tt, w') → sleep_inv s w'.
Proof. apply cpBodySleepWithGroup_keeps_sleep_inv. Qed.

Lemma awake_pair_sleep_inv : sleep_inv 0 awake_pair.
Proof.
  split.
  - apply NoDup_nil_2.
  - intros r Hr. by apply elem_of_nil in Hr.
  - intros x n Hx. exfalso. unfold next_of, awake_pair in Hx. simpl in Hx.
    destruct (decide (x = 1)) as [->|H1]; [by rewrite lookup_insert_eq in Hx|].
    rewrite lookup_insert_ne in Hx by done.
    destruct (decide (x = 2)) as [->|H2]; [by rewrite lookup_insert_eq in Hx|].
    by rewrite lookup_insert_ne, lookup_empty in Hx.
Qed.

(** [awake_pair] after body 1 has been put to sleep on its own. *)
Lemma awake_pair_asleep w1 :
  cpBodySleepWithGroup 2 1 None awake_pair = Some (tt, w1) →
  step_inv 0 w1 ∧ sleep_inv 0 w1.
Proof.
  intros H1. split.
  - destruct (cpBodySleep_component_inv 2 1 0 awake_pair w1
                (example_body (Some 0) None (mkNode None None 0 0))
                (example_space false 0.5 [1; 2] [])
                ltac:(vm_compute; reflexivity) eq_refl eq_refl ltac:(vm_compute; reflexivity) H1)
      as (Hbodies & Hring & sp' & Hsp' & Hlk' & Hbs' & _).
    apply (step_inv_sleep 0 awake_pair w1 1
             (example_body (Some 0) None (mkNode None None 0 0)) 1 [1]);
      [apply awake_pair_step_inv|vm_compute; reflexivity|reflexivity|reflexivity|exact Hring
      |by left| | | | |].
    + intros z Hz Hzb. by apply list_elem_of_singleton in Hz.
    + intros y Hy. rewrite Hbodies. rewrite lookup_insert_ne; [done|].
      intros <-. apply Hy. by left.
    + intros y. rewrite Hbodies. destruct (decide (y = 1)) as [->|Hyb].
      { rewrite lookup_insert_eq. done. }
      by rewrite lookup_insert_ne.
    + unfold active_list at 1. rewrite Hsp'. simpl. by rewrite Hbs'.
    + by rewrite Hsp'; simpl; rewrite Hlk'.
  - exact (cpBodySleepWithGroup_keeps_sleep_inv 2 0 1 None awake_pair w1
             awake_pair_step_inv awake_pair_sleep_inv H1).
Qed.

Lemma cpBodySleepWithGroup_sleep_inv_witness :
  ∃ w1 w2, cpBodySleepWithGroup 2 1 None awake_pair = Some (tt, w1) ∧
           cpBodySleepWithGroup 2 2 (Some 1) w1 = Some (tt, w2) ∧
           sleep_inv 0 w1 ∧ sleep_inv 0 w2.
Proof.
  destruct (cpBodySleepWithGroup 2 1 None awake_pair) as [[[] w1]|] eqn:H1;
    [|vm_compute in H1; discriminate].
  destruct (cpBodySleepWithGroup 2 2 (Some 1) w1) as [[[] w2]|] eqn:H2.
  2: { exfalso. revert H2. vm_compute in H1. injection H1 as <-. vm_compute. discriminate. }
  pose proof (cpBodySleepWithGroup_sleep_inv 2 0 1 None awake_pair w1
                awake_pair_step_inv awake_pair_sleep_inv H1) as Hsl1.
  pose proof (cpBodySleepWithGroup_sleep_inv 2 0 2 (Some 1) w1 w2
                (proj1 (awake_pair_asleep w1 H1)) Hsl1 H2) as Hsl2.
  exists w1, w2. split; [reflexivity|]. split; [exact H2|]. split; [exact Hsl1|exact Hsl2].
Defined.

(** X23.  [cpBodyActivate] keeps [sleepingComponents] in step with the
    sleeping rings: from a store that satisfies the invariant between steps
    and in which [sleepingComponents] lists every root of a sleeping ring
    once and nothing else, a call that returns leaves [sleepingComponents]
    such a list again. *)
Theorem cpBodyActivate_sleep_inv (N : nat) (s x : ptr) (w w' : world) :
  step_inv s w → sleep_inv s w → cpBodyActivate N x w = Some (tt, w') → sleep_inv s w'.
Proof.
  intros Hstep Hsl H. pose proof (si_build _ _ Hstep) as Hinv.
  pose proof H as Hrun. unfold cpBodyActivate in H.
  apply bind_Some in H as (root & w1 & Hfind & H).
  apply componentNodeRoot_inv in Hfind as (lx & Hc & _ & ->).
  destruct (chain_in_store _ _ _ _ Hc) as (nx & Hnx). destruct nx as [n|].
  - destruct (next_of_view _ _ _ Hnx) as (idle & sp0 & st & Hv).
    destruct (bi_sleeping _ _ _ Hinv _ _ _ _ _ Hv) as (_ & r & l & Hring & Hxl).
    destruct (sring_next _ _ _ _ Hring (sring_root_in _ _ _ Hring)) as (nr & Hnr).
    destruct (next_of_view _ _ _ Hnr) as (idle_r & sp_r & st_r & Hvr).
    destruct (bi_sleeping _ _ _ Hinv _ _ _ _ _ Hvr) as (-> & _).
    unfold view_of, bview in Hvr. destruct (w_bodies w !! r) as [br|] eqn:Hbr; [|done].
    simpl in Hvr. injection Hvr as _ _ Hsr _.
    pose proof (bi_unlocked _ _ _ Hinv) as Hlock.
    destruct (w_spaces w !! s) as [sp|] eqn:Hsp; [|done]. simpl in Hlock.
    injection Hlock as Hlock.
    destruct (cpBodyActivate_wakes_component_inv _ _ _ _ _ _ _ _ _ Hring Hxl Hbr Hsr Hsp
                Hlock Hrun) as (Hin & Hout & sp' & Hsp' & _ & _ & Hsc').
    apply (sleep_inv_wake s w w' r l); [done|done| | |].
    + intros y Hy. destruct (Hin y Hy) as (b & _ & Hb'). unfold next_of. by rewrite Hb'.
    + intros y Hy. unfold next_of, parent_of. by rewrite (Hout y Hy).
    + unfold sleeping_list. rewrite Hsp', Hsp. simpl. by rewrite Hsc'.
  - pose proof (si_parentless _ _ Hstep x Hnx) as Hp.
    destruct (chain_det _ _ _ _ _ _ Hc (chain_root' _ _ Hp)) as [-> ->].
    rewrite (compress_short _ _ _ _ Hc), with_bodies_id in H by (simpl; lia).
    unfold componentActivate in H.
    apply bind_Some in H as (b & ? & Hb & H). apply load_body_Some in Hb as [Hb ->].
    apply next_of_Some in Hnx as (b' & Hb' & Hn). assert (b' = b) as -> by congruence.
    unfold cpBodyIsSleeping in H. rewrite Hn in H.
    rewrite bool_decide_eq_false_2 in H by (by intros ?). simpl in H.
    by apply ret_Some in H as [_ ->].
Qed.

Lemma cpBodyActivate_sleep_inv_witness :
  ∃ w1 w2, cpBodySleepWithGroup 2 1 None awake_pair = Some (tt, w1) ∧
           cpBodyActivate 2 1 w1 = Some (tt, w2) ∧
           sleeping_list 0 w1 = [1] ∧ sleeping_list 0 w2 = [] ∧ sleep_inv 0 w2.
Proof.
  destruct (cpBodySleepWithGroup 2 1 None awake_pair) as [[[] w1]|] eqn:H1;
    [|vm_compute in H1; discriminate].
  destruct (cpBodyActivate 2 1 w1) as [[[] w2]|] eqn:H2.
  2: { exfalso. revert H2. vm_compute in H1. injection H1 as <-. vm_compute. discriminate. }
  destruct (awake_pair_asleep w1 H1) as [Hstep1 Hsl1].
  pose proof (cpBodyActivate_sleep_inv 2 0 1 w1 w2 Hstep1 Hsl1 H2) as Hsl2.
  exists w1, w2. split; [reflexivity|]. split; [exact H2|].
  split; [|split; [|exact Hsl2]].
  - clear -H1. revert H1. vm_compute. intros [= <-]. reflexivity.
  - clear -H1 H2. revert H2. vm_compute in H1. injection H1 as <-. vm_compute.
    intros [= <-]. reflexivity.
Defined.

(** ** What [cpSpaceProcessComponents] does not write to *)

Lemma preserves_graph_cpSpaceDeactivateBody G N space body :
  preserves (λ w, touch_graph w = G) (cpSpaceDeactivateBody N space body).
Proof.
  apply preserves_bind; [apply reads_preserves, reads_load_body|intros b].
  apply preserves_bind.
  { apply preserves_for_each; [intros; apply reads_preserves, reads_shape_link|].
    intros sh. apply preserves_bind; [apply reads_preserves, reads_load_shape|intros ?].
    apply preserves_bind; [|intros _]; apply preserves_graph_modify_space. }
  intros _. apply preserves_bind; [apply reads_preserves, reads_load_body|intros b'].
  apply preserves_bind.
  { apply preserves_for_each; [intros; apply reads_preserves, reads_arbiter_link|].
    intros arb. apply preserves_bind;
      [apply reads_preserves, reads_arbiter_primary|intros [|]]; [|apply preserves_ret].
    apply preserves_bind; [apply reads_preserves, reads_load_arbiter|intros ar]. cbv zeta.
    apply preserves_bind; [apply preserves_graph_modify_space|intros _].
    apply preserves_bind; [apply preserves_graph_modify_space|intros _].
    apply preserves_bind; [apply reads_preserves, reads_load_arbiter|intros ar']. cbv zeta.
    apply preserves_bind.
    { apply preserves_graph_bodies_spaces_blocks. intros w u w' H.
      unfold cpmalloc in H. by injection H as _ <-. }
    intros saved. apply preserves_bind.
    { apply preserves_bind; [apply reads_preserves, reads_read_contacts|intros cs].
      apply preserves_graph_write_contacts. }
    intros _. by apply preserves_graph_modify_arbiter. }
  intros _. apply preserves_bind; [apply reads_preserves, reads_load_body|intros b''].
  apply preserves_for_each; [intros; apply reads_preserves, reads_constraint_link|].
  intros c. apply preserves_bind;
    [apply reads_preserves, reads_constraint_primary|intros [|]]; [|apply preserves_ret].
  apply preserves_graph_modify_space.
Qed.

Lemma preserves_graph_process G N s dt :
  preserves (λ w, touch_graph w = G) (cpSpaceProcessComponents N s dt).
Proof.
  assert (∀ y f, preserves (λ w, touch_graph w = G) (modify_node y f)) as Hnode.
  { intros. apply preserves_graph_modify_body. }
  unfold cpSpaceProcessComponents. cbv zeta. apply preserves_bind.
  { apply preserves_bind; [apply reads_preserves, reads_load_space|intros sp]. cbv zeta.
    apply preserves_bind.
    { apply preserves_for_array. intros [] body. apply preserves_graph_idle. }
    intros _. apply preserves_bind.
    { apply preserves_for_array. intros rb arb. apply preserves_graph_arbiter. }
    intros rb1. apply preserves_bind; [apply preserves_graph_constraints|intros rb].
    apply preserves_bind; [apply reads_preserves, reads_load_space|intros sp3].
    apply preserves_bind; [|intros cs1]; apply preserves_for_array; intros;
      by apply preserves_process_addToComponent. }
  intros cs. apply preserves_bind; [|intros nb; apply preserves_graph_modify_space].
  apply preserves_for_array. intros nb root.
  apply preserves_bind; [apply reads_preserves, reads_load_space|intros sp].
  apply preserves_bind; [apply reads_preserves, reads_componentActive|intros [|]].
  - apply preserves_ring_loop. intros acc body.
    apply preserves_bind; [apply reads_preserves, reads_load_body|intros b]. cbv zeta.
    apply preserves_bind; [apply Hnode|intros _; apply preserves_ret].
  - apply preserves_bind.
    { apply preserves_ring_loop. intros [] body. apply preserves_graph_cpSpaceDeactivateBody. }
    intros _. apply preserves_bind; [|intros _; apply preserves_ret].
    apply preserves_graph_modify_space.
Qed.

(** X24.  What [cpSpaceProcessComponents] leaves alone.  When the call
    returns, the shapes and the constraints of the store are as they were,
    every arbiter is between the same two shapes, no body has been added or
    removed, and of every body only the component node and the arbiter list
    may differ: mass, kinetic energy, position, rotation, static flag, shape
    list, constraint list and space are as they were. *)
Theorem cpSpaceProcessComponents_frame (N : nat) (s : ptr) (dt : cpFloat) (w w' : world) :
  cpSpaceProcessComponents N s dt w = Some (tt, w') →
  touch_graph w' = touch_graph w ∧
  ∀ x, body_rest <$> w_bodies w' !! x = body_rest <$> w_bodies w !! x.
Proof.
  intros H. split.
  - by apply (preserves_graph_process (touch_graph w) _ _ _ _ _ _ H).
  - intros x.
    refine (preserves_process
              (λ w0, body_rest <$> w_bodies w0 !! x = body_rest <$> w_bodies w !! x)
              _ _ _ _ _ _ _ _ _ _ _ _ _ H eq_refl).
    + intros y f w0 [] w1 H0 HI. apply modify_body_Some in H0 as (b & Hb & ->). simpl.
      destruct (decide (x = y)) as [->|Hne].
      * rewrite lookup_insert_eq. by rewrite Hb in HI.
      * by rewrite lookup_insert_ne.
    + intros y a w0 [] w1 H0 HI. apply modify_body_Some in H0 as (b & Hb & ->). simpl.
      destruct (decide (x = y)) as [->|Hne].
      * rewrite lookup_insert_eq. by rewrite Hb in HI.
      * by rewrite lookup_insert_ne.
    + intros. apply (preserves_modify_arbiter_bodies (λ bs, body_rest <$> bs !! x = _)).
    + intros. apply (preserves_cpSpaceActivateBody_bodies (λ bs, body_rest <$> bs !! x = _)).
    + intros. apply (preserves_cpSpaceDeactivateBody_bodies (λ bs, body_rest <$> bs !! x = _)).
    + intros. apply (preserves_modify_space_bodies (λ bs, body_rest <$> bs !! x = _)).
    + intros. apply (preserves_modify_space_bodies (λ bs, body_rest <$> bs !! x = _)).
Qed.

Lemma cpSpaceProcessComponents_frame_witness :
  ∃ w', cpSpaceProcessComponents 3 0 1 (rogue_world 0.5) = Some (tt, w') ∧
        touch_graph w' = touch_graph (rogue_world 0.5) ∧
        ∀ x, body_rest <$> w_bodies w' !! x = body_rest <$> w_bodies (rogue_world 0.5) !! x.
Proof.
  destruct (cpSpaceProcessComponents 3 0 1 (rogue_world 0.5)) as [[[] w']|] eqn:Hrun;
    [|vm_compute in Hrun; discriminate].
  exists w'. split; [reflexivity|].
  exact (cpSpaceProcessComponents_frame 3 0 1 (rogue_world 0.5) w' Hrun).
Defined.

(** ** When [cpSpaceDeactivateBody] and [cpBodySleepWithGroup] return *)

(** A loop over an intrusive list returns when the walk meets a list no
    longer than the fuel, every round returns and keeps the links.  [P] is
    what holds before the rounds over the rest of the list. *)
Lemma for_each_returns (P : list ptr → world → Prop) N nx step cur l w :
  (∀ x, reads (nx x)) →
  linked nx w cur l → length l ≤ N → P l w →
  (∀ x l' w1, P (x :: l') w1 → linked nx w1 (Some x) (x :: l') →
     ∃ w2, step x w1 = Some (tt, w2) ∧ P l' w2 ∧
           ∀ z, fst <$> nx z w2 = fst <$> nx z w1) →
  ∃ w', for_each N nx step cur w = Some (tt, w') ∧ P [] w'.
Proof.
  intros Hreads Hl HN HP Hstep. revert cur w N Hl HN HP.
  induction l as [|x l IH]; intros cur w N Hl HN HP.
  { inversion Hl; subst. exists w. by destruct N. }
  inversion Hl as [|? y ? Hnx Htail]; subst.
  destruct N as [|N]; [simpl in HN; lia|]. cbn [for_each].
  destruct (Hstep x l w HP Hl) as (w2 & Hrun & HP2 & Hlinks).
  assert (nx x w2 = Some (y, w2)) as Hnext.
  { pose proof (Hlinks x) as Hx. rewrite Hnx in Hx.
    destruct (nx x w2) as [[y' w2']|] eqn:E; [|done]. simpl in Hx. injection Hx as ->.
    by rewrite (Hreads _ _ _ _ E). }
  destruct (IH y w2 N) as (w' & Hrun' & HP'); [by eapply linked_stable|simpl in HN; lia|done|].
  exists w'. split; [|done].
  apply bind_Some. exists tt, w2. split; [done|].
  apply bind_Some. exists y, w2. done.
Qed.

Lemma same_but_spaces_refl w : same_but_spaces w w.
Proof. by repeat split. Qed.

Lemma same_but_spaces_trans w1 w2 w3 :
  same_but_spaces w1 w2 → same_but_spaces w2 w3 → same_but_spaces w1 w3.
Proof.
  intros (Hb & Hs & Ha & Hc & Hk & Hbuf) (Hb' & Hs' & Ha' & Hc' & Hk' & Hbuf').
  repeat split; try congruence.
Qed.

Lemma same_but_spaces_is_Some w w' s :
  same_but_spaces w w' → is_Some (w_spaces w !! s) → is_Some (w_spaces w' !! s).
Proof.
  intros (_ & _ & _ & _ & _ & Hbuf) [sp Hsp]. specialize (Hbuf s). rewrite Hsp in Hbuf.
  destruct (w_spaces w' !! s); [eauto|done].
Qed.

(** A write to a space that keeps its contact buffer. *)
Lemma modify_space_returns s f w :
  (∀ sp, contactBuffer (f sp) = contactBuffer sp) → is_Some (w_spaces w !! s) →
  ∃ w', modify_space s f w = Some (tt, w') ∧ same_but_spaces w w'.
Proof.
  intros Hf [sp Hsp]. exists (with_spaces (<[s := f sp]> (w_spaces w)) w). split.
  - apply modify_space_Some. eauto.
  - repeat split. intros s'. simpl. destruct (decide (s' = s)) as [->|Hne].
    + rewrite lookup_insert_eq, Hsp. simpl. by rewrite Hf.
    + by rewrite lookup_insert_ne.
Qed.

Lemma same_but_spaces_shape_link w w' z :
  same_but_spaces w w' → fst <$> shape_link z w' = fst <$> shape_link z w.
Proof.
  intros (_ & Hs & _). unfold shape_link, bind, load_shape. rewrite Hs.
  by destruct (w_shapes w !! z).
Qed.

Lemma arbiter_link_frame w w' body z :
  w_arbiters w' = w_arbiters w →
  (∀ x, shape_body <$> w_shapes w' !! x = shape_body <$> w_shapes w !! x) →
  fst <$> arbiter_link body z w' = fst <$> arbiter_link body z w.
Proof.
  intros Ha Hs. unfold arbiter_link, bind, load_arbiter, load_shape. rewrite Ha.
  destruct (w_arbiters w !! z) as [ar|]; simpl; [|done]. specialize (Hs (arb_a ar)).
  destruct (w_shapes w' !! arb_a ar) as [sh'|], (w_shapes w !! arb_a ar) as [sh|];
    simpl in *; try done.
  injection Hs as ->. done.
Qed.

Lemma constraint_link_frame w w' body z :
  w_constraints w' = w_constraints w →
  fst <$> constraint_link body z w' = fst <$> constraint_link body z w.
Proof.
  intros Hc. unfold constraint_link, bind, load_constraint. rewrite Hc.
  by destruct (w_constraints w !! z).
Qed.

Lemma arbiter_ready_frame w w' arb :
  w_arbiters w' = w_arbiters w → w_bodies w' = w_bodies w →
  (∀ x, shape_body <$> w_shapes w' !! x = shape_body <$> w_shapes w !! x) →
  w_blocks w' = w_blocks w →
  (∀ s, contactBuffer <$> w_spaces w' !! s = contactBuffer <$> w_spaces w !! s) →
  arbiter_ready w arb → arbiter_ready w' arb.
Proof.
  intros Ha Hb Hs Hk Hbuf (ar & sh & ob & cs & Har & Hsh & Hob & Hcs).
  specialize (Hs (arb_a ar)). rewrite Hsh in Hs.
  destruct (w_shapes w' !! arb_a ar) as [sh'|] eqn:Hsh'; [|done]. injection Hs as Hs.
  exists ar, sh', ob, cs. rewrite Ha, Hb, Hs. repeat (split; [done|]).
  apply (contents_frame w); [done| |done]. intros b c _. by rewrite Hk.
Qed.

Lemma constraint_ready_frame w w' c :
  w_constraints w' = w_constraints w → w_bodies w' = w_bodies w →
  constraint_ready w c → constraint_ready w' c.
Proof. intros Hc Hb (con & ob & Hcon & Hob). exists con, ob. by rewrite Hc, Hb. Qed.

Lemma contents_read w ar cs :
  contents w ar = Some cs → read_contacts (contacts ar) (numContacts ar) w = Some (cs, w).
Proof.
  unfold contents, read_contacts. destruct (contacts ar) as [|sp off|blk]; simpl.
  - case_decide; [|done]. by intros [= <-].
  - destruct (w_spaces w !! sp) as [S|]; simpl; [|done].
    destruct (read_cells _ _ _); simpl; [|done]. by intros [= <-].
  - destruct (w_blocks w !! blk) as [cells|]; simpl; [|done].
    destruct (read_cells _ _ _); simpl; [|done]. by intros [= <-].
Qed.

(** Moving the shapes of a body to the static index returns. *)
Lemma deactivate_shapes_returns N s cur ls w :
  linked shape_link w cur ls → length ls ≤ N → is_Some (w_spaces w !! s) →
  ∃ w', for_each N shape_link (cpSpaceDeactivateBody_shape s) cur w = Some (tt, w') ∧
        same_but_spaces w w'.
Proof.
  intros Hl HN Hsp.
  apply (for_each_returns (λ _ w1, same_but_spaces w w1) N shape_link _ cur ls w);
    [apply reads_shape_link|done|done|apply same_but_spaces_refl|].
  intros x l' w1 Hsame Hlx. inversion Hlx as [|? y ? Hnx _]; subst.
  unfold shape_link, bind, load_shape in Hnx.
  destruct (w_shapes w1 !! x) as [sh|] eqn:Hsh; [|done].
  pose proof (same_but_spaces_is_Some _ _ s Hsame Hsp) as Hsp1.
  destruct (modify_space_returns s
              (λ S, set_activeShapes (cpSpatialIndexRemove (activeShapes S) x (hashid sh)) S)
              w1 ltac:(done) Hsp1) as (wa & Hwa & Hsa).
  destruct (modify_space_returns s
              (λ S, set_staticShapes (cpSpatialIndexInsert (staticShapes S) x (hashid sh)) S)
              wa ltac:(done) (same_but_spaces_is_Some _ _ s Hsa Hsp1)) as (wb & Hwb & Hsb).
  pose proof (same_but_spaces_trans _ _ _ Hsa Hsb) as Hs1.
  exists wb. split; [|split].
  - unfold cpSpaceDeactivateBody_shape. apply bind_Some. exists sh, w1.
    split; [unfold load_shape; by rewrite Hsh|].
    apply bind_Some. exists tt, wa. done.
  - by eapply same_but_spaces_trans.
  - intros z. by apply same_but_spaces_shape_link.
Qed.

(** Taking the constraints of a body off [space->constraints] returns. *)
Lemma deactivate_constraints_returns N s body cur lc w :
  linked (constraint_link body) w cur lc → length lc ≤ N → is_Some (w_spaces w !! s) →
  (∀ c, c ∈ lc → constraint_ready w c) →
  ∃ w', for_each N (constraint_link body) (cpSpaceDeactivateBody_constraint s body) cur w
        = Some (tt, w') ∧ same_but_spaces w w'.
Proof.
  intros Hl HN Hsp Hready.
  destruct (for_each_returns
              (λ l w1, same_but_spaces w w1 ∧ ∀ c, c ∈ l → constraint_ready w c)
              N (constraint_link body) (cpSpaceDeactivateBody_constraint s body) cur lc w)
    as (w' & Hrun & Hsame & _);
    [apply reads_constraint_link|done|done|split; [apply same_but_spaces_refl|done]| |eauto].
  intros x l' w1 [Hsame Hrest] _.
  destruct (Hrest x ltac:(by left)) as (con & ob & Hcon & Hob).
  destruct Hsame as (Hb & Hs & Ha & Hc & Hk & Hbuf).
  assert (∃ v, constraint_primary body x w1 = Some (v, w1)) as (v & Hprim).
  { unfold constraint_primary, bind, load_constraint, load_body. rewrite Hc, Hcon. simpl.
    case_decide; [by eexists|]. rewrite Hb, Hob. by eexists. }
  assert (same_but_spaces w w1) as Hsame by done.
  destruct v.
  - destruct (modify_space_returns s
                (λ S, set_constraints (cpArrayDeleteObj (constraints S) x) S)
                w1 ltac:(done) (same_but_spaces_is_Some _ _ s Hsame Hsp)) as (wa & Hwa & Hsa).
    exists wa. split; [|split; [split|]].
    + unfold cpSpaceDeactivateBody_constraint. apply bind_Some. exists true, w1. done.
    + by eapply same_but_spaces_trans.
    + intros c Hc'. apply Hrest. by right.
    + intros z. apply constraint_link_frame. by destruct Hsa as (_ & _ & _ & ? & _).
  - exists w1. split; [|split; [split|]]; [|done| |done].
    + unfold cpSpaceDeactivateBody_constraint. apply bind_Some. exists false, w1. done.
    + intros c Hc'. apply Hrest. by right.
Qed.

(** Saving the contacts of one arbiter of the list returns. *)
Lemma cpSpaceDeactivateBody_arbiter_returns s body x w :
  arbiter_ready w x → is_Some (w_spaces w !! s) →
  ∃ w', cpSpaceDeactivateBody_arbiter s body x w = Some (tt, w') ∧
        w_constraints w' = w_constraints w ∧ is_Some (w_spaces w' !! s).
Proof.
  intros (ar & sh & ob & cs & Har & Hsh & Hob & Hcs) [sp Hsp].
  assert (∃ v, arbiter_primary body x w = Some (v, w)) as (v & Hprim).
  { unfold arbiter_primary, bind, load_arbiter, load_shape, load_body.
    rewrite Har. simpl. rewrite Hsh. simpl.
    case_decide; [by eexists|]. rewrite Hob. by eexists. }
  unfold cpSpaceDeactivateBody_arbiter. destruct v.
  2: { exists w. split; [|by eauto]. apply bind_Some. exists false, w. done. }
  set (f1 := λ S, set_contactSet
                    (cpHashSetRemove (contactSet S) (CP_HASH_PAIR (arb_a ar) (arb_b ar))) S).
  set (f2 := λ S, set_arbiters (cpArrayDeleteObj (arbiters S) x) S).
  set (wa := with_spaces (<[s := f1 sp]> (w_spaces w)) w).
  set (wb := with_spaces (<[s := f2 (f1 sp)]> (w_spaces wa)) wa).
  set (blk := fresh (dom (w_blocks wb))).
  set (wc := with_blocks (<[blk := ∅]> (w_blocks wb)) wb).
  set (wd := with_blocks (<[blk := write_cells ∅ 0 cs]> (w_blocks wc)) wc).
  set (we := with_arbiters (<[x := set_contacts (ContactsHeap blk) ar]> (w_arbiters wd)) wd).
  exists we. split; [|split; [done|]].
  - apply bind_Some. exists true, w. split; [done|].
    apply bind_Some. exists ar, w. split; [unfold load_arbiter; by rewrite Har|]. cbv zeta.
    apply bind_Some. exists tt, wa. split; [apply modify_space_Some; eauto|].
    apply bind_Some. exists tt, wb. split.
    { apply modify_space_Some. exists (f1 sp). split; [|done]. simpl. apply lookup_insert_eq. }
    apply bind_Some. exists ar, wb. split; [unfold load_arbiter; simpl; by rewrite Har|].
    cbv zeta.
    apply bind_Some. exists (ContactsHeap blk), wc. split; [done|].
    apply bind_Some. exists tt, wd. split.
    { unfold memcpy. apply bind_Some. exists cs, wc. split.
      - apply contents_read. apply (contents_frame w); [| |done].
        + intros s'. simpl. destruct (decide (s' = s)) as [->|Hne].
          * rewrite !lookup_insert_eq, Hsp. done.
          * by rewrite !lookup_insert_ne.
        + intros b c _ Hb. simpl. rewrite lookup_insert_ne; [done|]. intros <-.
          apply (is_fresh (dom (w_blocks wb))). apply elem_of_dom. simpl. eauto.
      - simpl. rewrite lookup_insert_eq. done. }
    apply modify_arbiter_Some. exists ar. split; [simpl; done|done].
  - simpl. rewrite lookup_insert_eq. eauto.
Qed.

(** Saving the contacts of the arbiters of a body returns. *)
Lemma deactivate_arbiters_returns N s body cur la w :
  linked (arbiter_link body) w cur la → length la ≤ N → is_Some (w_spaces w !! s) →
  (∀ arb, arb ∈ la → arbiter_ready w arb) →
  ∃ w', for_each N (arbiter_link body) (cpSpaceDeactivateBody_arbiter s body) cur w
        = Some (tt, w') ∧
        w_bodies w' = w_bodies w ∧ w_shapes w' = w_shapes w ∧
        w_constraints w' = w_constraints w ∧ is_Some (w_spaces w' !! s).
Proof.
  intros Hl HN Hsp Hready.
  destruct (for_each_returns
              (λ l w1, w_bodies w1 = w_bodies w ∧ w_shapes w1 = w_shapes w ∧
                       w_constraints w1 = w_constraints w ∧ is_Some (w_spaces w1 !! s) ∧
                       NoDup l ∧ ∀ arb, arb ∈ l → arbiter_ready w1 arb)
              N (arbiter_link body) (cpSpaceDeactivateBody_arbiter s body) cur la w)
    as (w' & Hrun & Hb & Hs & Hc & Hsp' & _);
    [apply reads_arbiter_link|done|done| | |by eauto 10].
  { repeat (split; [done|]). split; [by eapply linked_NoDup|done]. }
  intros x l' w1 (Hb & Hs & Hc & Hsp1 & Hnd & Hrest) _.
  apply NoDup_cons in Hnd as [Hx Hnd].
  destruct (cpSpaceDeactivateBody_arbiter_returns s body x w1 (Hrest x ltac:(by left)) Hsp1)
    as (w2 & Hrun & Hc2 & Hsp2).
  pose proof (cpSpaceDeactivateBody_arbiter_same_graph _ _ _ _ _ Hrun) as Hgraph.
  assert (w_bodies w2 = w_bodies w1 ∧ w_shapes w2 = w_shapes w1) as [Hb2 Hs2].
  { destruct (cpSpaceDeactivateBody_arbiter_inv _ _ _ _ _ Hrun)
      as [[_ ->]|(_ & ar & cs & _ & ? & ? & _)]; done. }
  exists w2. split; [done|]. split.
  - split; [congruence|]. split; [congruence|]. split; [congruence|]. split; [done|].
    split; [done|]. intros arb Harb.
    destruct (Hrest arb ltac:(by right)) as (ar & sh & ob & cs & Har & Hsh & Hob & Hcs).
    assert (x ≠ arb) as Hne by (intros ->; done).
    destruct (preserves_deactivate_other_holds s body arb ar cs x Hne _ _ _ Hrun (conj Har Hcs))
      as [Har2 Hcs2].
    exists ar, sh, ob, cs. by rewrite Hs2, Hb2.
  - intros z. by apply same_graph_arbiter_link.
Qed.

Lemma cpSpaceDeactivateBody_total N s body w b ls la lc :
  w_bodies w !! body = Some b → is_Some (w_spaces w !! s) →
  linked shape_link w (shapeList b) ls → length ls ≤ N →
  linked (arbiter_link body) w (arbiterList b) la → length la ≤ N →
  (∀ arb, arb ∈ la → arbiter_ready w arb) →
  linked (constraint_link body) w (constraintList b) lc → length lc ≤ N →
  (∀ c, c ∈ lc → constraint_ready w c) →
  ∃ w', cpSpaceDeactivateBody N s body w = Some (tt, w') ∧
        w_bodies w' = w_bodies w ∧ is_Some (w_spaces w' !! s).
Proof.
  intros Hb Hsp Hls HNs Hla HNa Hra Hlc HNc Hrc.
  destruct (deactivate_shapes_returns N s _ ls w Hls HNs Hsp) as (w1 & Hrun1 & Hsame1).
  pose proof Hsame1 as (Hb1 & Hs1 & Ha1 & Hc1 & Hk1 & Hbuf1).
  destruct (deactivate_arbiters_returns N s body (arbiterList b) la w1)
    as (w2 & Hrun2 & Hb2 & Hs2 & Hc2 & Hsp2).
  { eapply linked_stable; [|done]. intros z. apply arbiter_link_frame; [done|].
    intros x. by rewrite Hs1. }
  { done. }
  { by eapply same_but_spaces_is_Some. }
  { intros arb Harb. apply (arbiter_ready_frame w); try done; [|by apply Hra].
    intros x. by rewrite Hs1. }
  destruct (deactivate_constraints_returns N s body (constraintList b) lc w2)
    as (w3 & Hrun3 & Hsame3).
  { eapply linked_stable; [|done]. intros z. apply constraint_link_frame. congruence. }
  { done. }
  { done. }
  { intros c Hc. apply (constraint_ready_frame w); [congruence|congruence|by apply Hrc]. }
  exists w3. split; [|split].
  - unfold cpSpaceDeactivateBody.
    apply bind_Some. exists b, w. split; [unfold load_body; by rewrite Hb|].
    apply bind_Some. exists tt, w1. split; [done|].
    apply bind_Some. exists b, w1. split; [unfold load_body; by rewrite Hb1, Hb|].
    apply bind_Some. exists tt, w2. split; [done|].
    apply bind_Some. exists b, w2. split; [unfold load_body; by rewrite Hb2, Hb1, Hb|].
    done.
  - destruct Hsame3 as (Hb3 & _). congruence.
  - by eapply same_but_spaces_is_Some.
Qed.

(** X25.  [cpSpaceDeactivateBody] returns.  Take a body of the store and a
    space of the store.  If the walks over the body's shape list, arbiter
    list and constraint list each end after at most [N] entries, every
    arbiter on the walk is in the store with its first shape, that shape's
    body and a contact array that can be read, and every constraint on the
    walk is in the store with its first body, then the call returns, and it
    has written to no body. *)
Theorem cpSpaceDeactivateBody_returns (N : nat) (s body : ptr) (w : world) (b : cpBody)
    (ls la lc : list ptr) :
  w_bodies w !! body = Some b → is_Some (w_spaces w !! s) →
  linked shape_link w (shapeList b) ls → length ls ≤ N →
  linked (arbiter_link body) w (arbiterList b) la → length la ≤ N →
  (∀ arb, arb ∈ la → arbiter_ready w arb) →
  linked (constraint_link body) w (constraintList b) lc → length lc ≤ N →
  (∀ c, c ∈ lc → constraint_ready w c) →
  ∃ w', cpSpaceDeactivateBody N s body w = Some (tt, w') ∧ w_bodies w' = w_bodies w.
Proof.
  intros Hb Hsp Hls HNs Hla HNa Hra Hlc HNc Hrc.
  destruct (cpSpaceDeactivateBody_total N s body w b ls la lc) as (w' & Hrun & Hb' & _);
    eauto.
Qed.

Lemma cpSpaceDeactivateBody_returns_witness :
  ∃ w', cpSpaceDeactivateBody 2 0 1 touching_world = Some (tt, w') ∧
        w_bodies w' = w_bodies touching_world.
Proof.
  apply (cpSpaceDeactivateBody_returns 2 0 1 touching_world
           (mkBody 1 0 zero_vect zero_vect false (Some 11) (Some 21) None (Some 0)
              (mkNode None None 0 0))
           [11] [21] []).
  - vm_compute. reflexivity.
  - eexists. vm_compute. reflexivity.
  - apply (linked_cons _ _ 11 None []); [vm_compute; reflexivity|apply linked_nil].
  - simpl. lia.
  - apply (linked_cons _ _ 21 None []); [vm_compute; reflexivity|apply linked_nil].
  - simpl. lia.
  - intros arb Harb. apply list_elem_of_singleton in Harb as ->.
    exists (mkArbiter 11 12 None None 1 (ContactsInBuffer 0 0)), (mkShape 1 None 11 None),
      (mkBody 1 0 zero_vect zero_vect false (Some 11) (Some 21) None (Some 0)
         (mkNode None None 0 0)), [mkContact 1 2 3 4].
    repeat split; vm_compute; reflexivity.
  - apply linked_nil.
  - simpl. lia.
  - intros c Hc. by apply elem_of_nil in Hc.
Defined.

(** Refreshing the cached bounding boxes of the shapes of a body returns and
    writes to the caches only. *)
Lemma update_shapes_returns N pos rot cur ls w :
  linked shape_link w cur ls → length ls ≤ N →
  ∃ w', for_each N shape_link (cpBodySleepWithGroup_shape pos rot) cur w = Some (tt, w') ∧
        w_bodies w' = w_bodies w ∧ w_arbiters w' = w_arbiters w ∧
        w_constraints w' = w_constraints w ∧ w_spaces w' = w_spaces w ∧
        w_blocks w' = w_blocks w ∧
        ∀ z, (λ sh, (shape_body sh, shape_next sh)) <$> w_shapes w' !! z =
             (λ sh, (shape_body sh, shape_next sh)) <$> w_shapes w !! z.
Proof.
  intros Hl HN.
  apply (for_each_returns
           (λ _ w1, w_bodies w1 = w_bodies w ∧ w_arbiters w1 = w_arbiters w ∧
                    w_constraints w1 = w_constraints w ∧ w_spaces w1 = w_spaces w ∧
                    w_blocks w1 = w_blocks w ∧
                    ∀ z, (λ sh, (shape_body sh, shape_next sh)) <$> w_shapes w1 !! z =
                         (λ sh, (shape_body sh, shape_next sh)) <$> w_shapes w !! z)
           N shape_link _ cur ls w); [apply reads_shape_link|done|done|done|].
  intros x l' w1 (Hb & Ha & Hc & Hs & Hk & Hskel) Hlx.
  inversion Hlx as [|? y ? Hnx _]; subst.
  unfold shape_link, bind, load_shape in Hnx.
  destruct (w_shapes w1 !! x) as [sh|] eqn:Hsh; [|done].
  exists (with_shapes (<[x := set_shape_cache (Some (pos, rot)) sh]> (w_shapes w1)) w1).
  assert (∀ z, (λ sh, (shape_body sh, shape_next sh)) <$>
                 (<[x := set_shape_cache (Some (pos, rot)) sh]> (w_shapes w1)) !! z =
               (λ sh, (shape_body sh, shape_next sh)) <$> w_shapes w1 !! z) as Hsame.
  { intros z. destruct (decide (z = x)) as [->|Hne].
    - rewrite lookup_insert_eq, Hsh. done.
    - by rewrite lookup_insert_ne. }
  split; [|split].
  - unfold cpBodySleepWithGroup_shape, cpShapeUpdate. apply modify_shape_Some. eauto.
  - repeat (split; [done|]). intros z. simpl. by rewrite Hsame.
  - intros z. unfold shape_link, bind, load_shape. simpl. specialize (Hsame z).
    destruct (<[x := _]> (w_shapes w1) !! z) as [s1|], (w_shapes w1 !! z) as [s2|];
      simpl in *; try done.
    injection Hsame as _ ->. done.
Qed.

Lemma cpBodySleepWithGroup_total N body group s w b sp ls la lc :
  w_bodies w !! body = Some b → isStatic b = false → space b = Some s →
  w_spaces w !! s = Some sp → locked sp = false →
  (∀ g, group = Some g →
     ∃ gb l r, w_bodies w !! g = Some gb ∧ next (node gb) ≠ None ∧
               chain w g l r ∧ length l < N) →
  linked shape_link w (shapeList b) ls → length ls ≤ N →
  linked (arbiter_link body) w (arbiterList b) la → length la ≤ N →
  (∀ arb, arb ∈ la → arbiter_ready w arb) →
  linked (constraint_link body) w (constraintList b) lc → length lc ≤ N →
  (∀ c, c ∈ lc → constraint_ready w c) →
  ∃ w', cpBodySleepWithGroup N body group w = Some (tt, w').
Proof.
  intros Hb Hstatic Hs Hsp Hlk Hgroup Hls HNs Hla HNa Hra Hlc HNc Hrc.
  unfold cpBodySleepWithGroup.
  assert (∀ k w', k w = Some (tt, w') →
            (match group with
             | None => ret tt
             | Some g => let* gb := load_body g in cpAssert (cpBodyIsSleeping gb)
             end;; k) w = Some (tt, w')) as Hcheck.
  { intros k w' Hk. apply bind_Some. exists tt, w. split; [|done].
    destruct group as [g|]; [|done].
    destruct (Hgroup g eq_refl) as (gb & l & r & Hgb & Hsleep & _).
    apply bind_Some. exists gb, w. split; [unfold load_body; by rewrite Hgb|].
    unfold cpBodyIsSleeping. by rewrite bool_decide_eq_true_2. }
  assert (cpAssert (negb (cpBodyIsStatic b) && negb (cpBodyIsRogue b)) w = Some (tt, w))
    as Hassert1.
  { unfold cpBodyIsStatic, cpBodyIsRogue. rewrite Hstatic, Hs.
    by rewrite bool_decide_eq_false_2. }
  assert (cpAssert (negb (locked sp)) w = Some (tt, w)) as Hassert2 by (by rewrite Hlk).
  enough (∃ w', (if cpBodyIsSleeping b then ret tt
                 else
                   for_each N shape_link (cpBodySleepWithGroup_shape (p b) (rot b))
                     (shapeList b);;
                   cpSpaceDeactivateBody N s body;;
                   match group with
                   | Some group =>
                       let* root := componentNodeRoot N group in
                       let* r := load_body root in
                       modify_node body (λ _, mkNode (Some root) (next (node r)) 0 0);;
                       modify_node root (set_next (Some body))
                   | None =>
                       modify_node body (λ _, mkNode None (Some body) 0 0);;
                       modify_space s
                         (λ s0, set_sleepingComponents
                                  (cpArrayPush (sleepingComponents s0) body) s0)
                   end;;
                   modify_space s (λ s0, set_bodies (cpArrayDeleteObj (bodies s0) body) s0))
                  w = Some (tt, w')) as (w' & Hrun).
  { exists w'. apply bind_Some. exists b, w. split; [unfold load_body; by rewrite Hb|].
    apply bind_Some. exists tt, w. split; [done|]. rewrite Hs.
    apply bind_Some. exists sp, w. split; [unfold load_space; by rewrite Hsp|].
    apply bind_Some. exists tt, w. split; [done|]. by apply Hcheck. }
  destruct (cpBodyIsSleeping b); [by exists w|].
  destruct (update_shapes_returns N (p b) (rot b) _ ls w Hls HNs)
    as (w1 & Hrun1 & Hb1 & Ha1 & Hc1 & Hs1 & Hk1 & Hskel).
  assert (∀ x, shape_body <$> w_shapes w1 !! x = shape_body <$> w_shapes w !! x) as Hsb.
  { intros x. specialize (Hskel x).
    destruct (w_shapes w1 !! x), (w_shapes w !! x); simpl in *; try done.
    by injection Hskel as -> _. }
  destruct (cpSpaceDeactivateBody_total N s body w1 b ls la lc)
    as (w2 & Hrun2 & Hb2 & sp2 & Hsp2).
  { by rewrite Hb1. }
  { rewrite Hs1. eauto. }
  { eapply linked_stable; [|done]. intros z. unfold shape_link, bind, load_shape.
    specialize (Hskel z). destruct (w_shapes w1 !! z), (w_shapes w !! z); simpl in *; try done.
    by injection Hskel as _ ->. }
  { done. }
  { eapply linked_stable; [|done]. intros z. by apply arbiter_link_frame. }
  { done. }
  { intros arb Harb. apply (arbiter_ready_frame w); try done; [|by apply Hra].
    intros s0. by rewrite Hs1. }
  { eapply linked_stable; [|done]. intros z. by apply constraint_link_frame. }
  { done. }
  { intros c Hc. apply (constraint_ready_frame w); [done|done|by apply Hrc]. }
  assert (w_bodies w2 !! body = Some b) as Hbody2 by (by rewrite Hb2, Hb1).
  assert (∃ w3, match group with
                | Some group =>
                    let* root := componentNodeRoot N group in
                    let* r := load_body root in
                    modify_node body (λ _, mkNode (Some root) (next (node r)) 0 0);;
                    modify_node root (set_next (Some body))
                | None =>
                    modify_node body (λ _, mkNode None (Some body) 0 0);;
                    modify_space s
                      (λ s0, set_sleepingComponents
                               (cpArrayPush (sleepingComponents s0) body) s0)
                end w2 = Some (tt, w3) ∧ is_Some (w_spaces w3 !! s)) as (w3 & Hrun3 & sp3 & Hsp3).
  { destruct group as [g|].
    - destruct (Hgroup g eq_refl) as (gb & l & r & Hgb & _ & Hc & Hlen).
      assert (chain w2 g l r) as Hc2.
      { eapply chain_frame; [|done]. intros y _. unfold parent_of. by rewrite Hb2, Hb1. }
      pose proof (componentNodeRoot_chain _ _ _ _ N Hc2 Hlen) as Hroot.
      set (wr := with_bodies (compress r l (w_bodies w2)) w2) in *.
      assert (∃ br, w_bodies wr !! r = Some br) as (br & Hbr).
      { destruct (chain_root_parent _ _ _ _ Hc2) as (b0 & Hb0 & _).
        unfold wr. simpl. rewrite compress_lookup, Hb0. simpl. eauto. }
      assert (∃ bb, w_bodies wr !! body = Some bb) as (bb & Hbb).
      { unfold wr. simpl. rewrite compress_lookup, Hbody2. simpl. eauto. }
      set (wm := with_bodies
                   (<[body := set_node (mkNode (Some r) (next (node br)) 0 0) bb]>
                      (w_bodies wr)) wr).
      assert (∃ br', w_bodies wm !! r = Some br') as (br' & Hbr').
      { unfold wm. simpl. destruct (decide (r = body)) as [->|Hne].
        - rewrite lookup_insert_eq. eauto.
        - rewrite lookup_insert_ne by done. eauto. }
      eexists. split.
      + apply bind_Some. exists r, wr. split; [done|].
        apply bind_Some. exists br, wr. split; [unfold load_body; by rewrite Hbr|].
        apply bind_Some. exists tt, wm. split; [apply modify_node_Some; eauto|].
        apply modify_node_Some. eauto.
      + simpl. eauto.
    - eexists. split.
      + apply bind_Some. eexists tt, _. split; [apply modify_node_Some; eauto|].
        apply modify_space_Some. simpl. eauto.
      + simpl. rewrite lookup_insert_eq. eauto. }
  eexists.
  apply bind_Some. exists tt, w1. split; [done|].
  apply bind_Some. exists tt, w2. split; [done|].
  apply bind_Some. exists tt, w3. split; [done|].
  apply modify_space_Some. eauto.
Qed.

(** X26.  [cpBodySleepWithGroup], and so [cpBodySleep], returns.  Take a body
    of the store that is not static and belongs to an unlocked space of the
    store; a group, if given, is a sleeping body whose parent chain ends
    after fewer than [N] links.  If the walks over the body's shape list,
    arbiter list and constraint list each end after at most [N] entries,
    every arbiter on the walk is in the store with its first shape, that
    shape's body and a contact array that can be read, and every constraint
    on the walk is in the store with its first body, then the call returns:
    no assertion fails, no missing object is read and no loop runs out. *)
Theorem cpBodySleepWithGroup_returns (N : nat) (body : ptr) (group : option ptr) (s : ptr)
    (w : world) (b : cpBody) (sp : cpSpace) (ls la lc : list ptr) :
  w_bodies w !! body = Some b → isStatic b = false → space b = Some s →
  w_spaces w !! s = Some sp → locked sp = false →
  (∀ g, group = Some g →
     ∃ gb l r, w_bodies w !! g = Some gb ∧ next (node gb) ≠ None ∧
               chain w g l r ∧ length l < N) →
  linked shape_link w (shapeList b) ls → length ls ≤ N →
  linked (arbiter_link body) w (arbiterList b) la → length la ≤ N →
  (∀ arb, arb ∈ la → arbiter_ready w arb) →
  linked (constraint_link body) w (constraintList b) lc → length lc ≤ N →
  (∀ c, c ∈ lc → constraint_ready w c) →
  ∃ w', cpBodySleepWithGroup N body group w = Some (tt, w').
Proof. apply cpBodySleepWithGroup_total. Qed.

Lemma cpBodySleepWithGroup_returns_witness :
  ∃ w', cpBodySleepWithGroup 2 1 None touching_world = Some (tt, w').
Proof.
  apply (cpBodySleepWithGroup_returns 2 1 None 0 touching_world
           (mkBody 1 0 zero_vect zero_vect false (Some 11) (Some 21) None (Some 0)
              (mkNode None None 0 0))
           (mkSpace false [1; 2] [] [] [21] [] {[ (11%Z, 11); (12%Z, 12) ]} ∅
              {[ CP_HASH_PAIR 11 12 := 21 ]} {[ 0 := mkContact 1 2 3 4 ]} 1
              0 0.5 (cpv 0 (-10)))
           [11] [21] []).
  - vm_compute. reflexivity.
  - reflexivity.
  - reflexivity.
  - vm_compute. reflexivity.
  - reflexivity.
  - intros g Hg. discriminate Hg.
  - apply (linked_cons _ _ 11 None []); [vm_compute; reflexivity|apply linked_nil].
  - simpl. lia.
  - apply (linked_cons _ _ 21 None []); [vm_compute; reflexivity|apply linked_nil].
  - simpl. lia.
  - intros arb Harb. apply list_elem_of_singleton in Harb as ->.
    exists (mkArbiter 11 12 None None 1 (ContactsInBuffer 0 0)), (mkShape 1 None 11 None),
      (mkBody 1 0 zero_vect zero_vect false (Some 11) (Some 21) None (Some 0)
         (mkNode None None 0 0)), [mkContact 1 2 3 4].
    repeat split; vm_compute; reflexivity.
  - apply linked_nil.
  - simpl. lia.
  - intros c Hc. by apply elem_of_nil in Hc.
Defined.

(** ** When [cpSpaceActivateBody] returns *)

(** Moving the shapes of a body to the active index returns. *)
Lemma activate_shapes_returns N s cur ls w :
  linked shape_link w cur ls → length ls ≤ N → is_Some (w_spaces w !! s) →
  ∃ w', for_each N shape_link (cpSpaceActivateBody_shape s) cur w = Some (tt, w') ∧
        same_but_spaces w w'.
Proof.
  intros Hl HN Hsp.
  apply (for_each_returns (λ _ w1, same_but_spaces w w1) N shape_link _ cur ls w);
    [apply reads_shape_link|done|done|apply same_but_spaces_refl|].
  intros x l' w1 Hsame Hlx. inversion Hlx as [|? y ? Hnx _]; subst.
  unfold shape_link, bind, load_shape in Hnx.
  destruct (w_shapes w1 !! x) as [sh|] eqn:Hsh; [|done].
  pose proof (same_but_spaces_is_Some _ _ s Hsame Hsp) as Hsp1.
  destruct (modify_space_returns s
              (λ S, set_staticShapes (cpSpatialIndexRemove (staticShapes S) x (hashid sh)) S)
              w1 ltac:(done) Hsp1) as (wa & Hwa & Hsa).
  destruct (modify_space_returns s
              (λ S, set_activeShapes (cpSpatialIndexInsert (activeShapes S) x (hashid sh)) S)
              wa ltac:(done) (same_but_spaces_is_Some _ _ s Hsa Hsp1)) as (wb & Hwb & Hsb).
  pose proof (same_but_spaces_trans _ _ _ Hsa Hsb) as Hs1.
  exists wb. split; [|split].
  - unfold cpSpaceActivateBody_shape. apply bind_Some. exists sh, w1.
    split; [unfold load_shape; by rewrite Hsh|].
    apply bind_Some. exists tt, wa. done.
  - by eapply same_but_spaces_trans.
  - intros z. by apply same_but_spaces_shape_link.
Qed.

(** Putting the constraints of a body back on [space->constraints] returns. *)
Lemma activate_constraints_returns N s body cur lc w :
  linked (constraint_link body) w cur lc → length lc ≤ N → is_Some (w_spaces w !! s) →
  (∀ c, c ∈ lc → constraint_ready w c) →
  ∃ w', for_each N (constraint_link body) (cpSpaceActivateBody_constraint s body) cur w
        = Some (tt, w') ∧ same_but_spaces w w'.
Proof.
  intros Hl HN Hsp Hready.
  destruct (for_each_returns
              (λ l w1, same_but_spaces w w1 ∧ ∀ c, c ∈ l → constraint_ready w c)
              N (constraint_link body) (cpSpaceActivateBody_constraint s body) cur lc w)
    as (w' & Hrun & Hsame & _);
    [apply reads_constraint_link|done|done|split; [apply same_but_spaces_refl|done]| |eauto].
  intros x l' w1 [Hsame Hrest] _.
  destruct (Hrest x ltac:(by left)) as (con & ob & Hcon & Hob).
  destruct Hsame as (Hb & Hs & Ha & Hc & Hk & Hbuf).
  assert (∃ v, constraint_primary body x w1 = Some (v, w1)) as (v & Hprim).
  { unfold constraint_primary, bind, load_constraint, load_body. rewrite Hc, Hcon. simpl.
    case_decide; [by eexists|]. rewrite Hb, Hob. by eexists. }
  assert (same_but_spaces w w1) as Hsame by done.
  destruct v.
  - destruct (modify_space_returns s
                (λ S, set_constraints (cpArrayPush (constraints S) x) S)
                w1 ltac:(done) (same_but_spaces_is_Some _ _ s Hsame Hsp)) as (wa & Hwa & Hsa).
    exists wa. split; [|split; [split|]].
    + unfold cpSpaceActivateBody_constraint. apply bind_Some. exists true, w1. done.
    + by eapply same_but_spaces_trans.
    + intros c Hc'. apply Hrest. by right.
    + intros z. apply constraint_link_frame. by destruct Hsa as (_ & _ & _ & ? & _).
  - exists w1. split; [|split; [split|]]; [|done| |done].
    + unfold cpSpaceActivateBody_constraint. apply bind_Some. exists false, w1. done.
    + intros c Hc'. apply Hrest. by right.
Qed.

(** Restoring the contacts of one arbiter of the list returns. *)
Lemma cpSpaceActivateBody_arbiter_returns s body x w :
  arbiter_asleep w body x → is_Some (w_spaces w !! s) →
  ∃ w', cpSpaceActivateBody_arbiter s body x w = Some (tt, w') ∧
        w_constraints w' = w_constraints w ∧ is_Some (w_spaces w' !! s).
Proof.
  intros (ar & sh & ob & Har & Hsh & Hob & Hsaved) [sp Hsp].
  assert (∃ v, arbiter_primary body x w = Some (v, w) ∧
               (v = true → shape_body sh = body ∨ isStatic ob = true)) as (v & Hprim & Hv).
  { unfold arbiter_primary, bind, load_arbiter, load_shape, load_body.
    rewrite Har. simpl. rewrite Hsh. simpl.
    case_decide; [eexists; split; [done|]; auto|]. rewrite Hob. eexists. split; [done|].
    unfold cpBodyIsStatic. auto. }
  unfold cpSpaceActivateBody_arbiter. destruct v.
  2: { exists w. split; [|by eauto]. apply bind_Some. exists false, w. done. }
  specialize (Hsaved (Hv eq_refl)).
  set (buf := ContactsInBuffer s (contactBufferNum sp)).
  set (wa := with_arbiters (<[x := set_contacts buf ar]> (w_arbiters w)) w).
  assert (∃ cs, read_contacts (contacts ar) (numContacts ar) wa = Some (cs, wa)) as (cs & Hread).
  { destruct Hsaved as [[-> ->]|(blk & cells & cs & -> & Hblk & Hcells)].
    - exists []. done.
    - exists cs. unfold read_contacts. simpl. rewrite Hblk. simpl. by rewrite Hcells. }
  set (sp1 := set_contactBuffer (write_cells (contactBuffer sp) (contactBufferNum sp) cs) sp).
  set (wb := with_spaces (<[s := sp1]> (w_spaces wa)) wa).
  set (sp2 := set_contactBufferNum (contactBufferNum sp1 + numContacts ar) sp1).
  set (wc := with_spaces (<[s := sp2]> (w_spaces wb)) wb).
  set (sp3 := set_contactSet (cpHashSetInsert (contactSet sp2)
                                (CP_HASH_PAIR (arb_a ar) (arb_b ar)) x) sp2).
  set (wd := with_spaces (<[s := sp3]> (w_spaces wc)) wc).
  assert (∃ we, cpfree (contacts ar) wd = Some (tt, we) ∧
                w_constraints we = w_constraints w ∧ is_Some (w_spaces we !! s))
    as (we & Hfree & Hc & Hs).
  { destruct Hsaved as [[E _]|(blk & cells & cs' & E & Hblk & _)]; rewrite E.
    - exists wd. split; [done|]. split; [done|]. simpl. rewrite lookup_insert_eq. eauto.
    - eexists. split; [simpl; rewrite Hblk; simpl; reflexivity|].
      split; [done|]. simpl. rewrite lookup_insert_eq. eauto. }
  exists we. split; [|done].
  apply bind_Some. exists true, w. split; [done|].
  apply bind_Some. exists ar, w. split; [unfold load_arbiter; by rewrite Har|]. cbv zeta.
  apply bind_Some. exists buf, w. split.
  { unfold cpContactBufferGetArray. apply bind_Some. exists sp, w.
    split; [unfold load_space; by rewrite Hsp|done]. }
  apply bind_Some. exists tt, wa. split; [apply modify_arbiter_Some; eauto|].
  apply bind_Some. exists tt, wb. split.
  { unfold memcpy. apply bind_Some. exists cs, wa. split; [done|].
    simpl. apply modify_space_Some. exists sp. done. }
  apply bind_Some. exists tt, wc. split.
  { unfold cpSpacePushContacts. apply modify_space_Some. exists sp1. split; [|done].
    simpl. apply lookup_insert_eq. }
  apply bind_Some. exists tt, wd. split; [|done].
  apply modify_space_Some. exists sp2. split; [|done]. simpl. apply lookup_insert_eq.
Qed.

Lemma omap_ext_in {A B} (f g : A → option B) (l : list A) :
  (∀ x, x ∈ l → f x = g x) → omap f l = omap g l.
Proof.
  induction l as [|x l IH]; intros Hfg; [done|].
  assert (omap f l = omap g l) as IH' by (apply IH; intros y Hy; apply Hfg; by right).
  simpl. rewrite (Hfg x) by (by left). destruct (g x); [f_equal|]; exact IH'.
Qed.

Lemma arbiter_asleep_frame w w' body arb :
  same_but_spaces w w' → arbiter_asleep w body arb → arbiter_asleep w' body arb.
Proof.
  intros (Hb & Hs & Ha & _ & Hk & _) (ar & sh & ob & Har & Hsh & Hob & Hsaved).
  exists ar, sh, ob. by rewrite Ha, Hs, Hb, Hk.
Qed.

(** Restoring the contacts of the arbiters of a body returns, when no two
    arbiters of the list share a saved block. *)
Lemma activate_arbiters_returns N s body cur la w :
  linked (arbiter_link body) w cur la → length la ≤ N → is_Some (w_spaces w !! s) →
  (∀ arb, arb ∈ la → arbiter_asleep w body arb) → NoDup (omap (saved_block w) la) →
  ∃ w', for_each N (arbiter_link body) (cpSpaceActivateBody_arbiter s body) cur w
        = Some (tt, w') ∧
        w_bodies w' = w_bodies w ∧ w_shapes w' = w_shapes w ∧
        w_constraints w' = w_constraints w ∧ is_Some (w_spaces w' !! s).
Proof.
  intros Hl HN Hsp Hready Hblocks.
  destruct (for_each_returns
              (λ l w1, w_bodies w1 = w_bodies w ∧ w_shapes w1 = w_shapes w ∧
                       w_constraints w1 = w_constraints w ∧ is_Some (w_spaces w1 !! s) ∧
                       NoDup l ∧ NoDup (omap (saved_block w1) l) ∧
                       ∀ arb, arb ∈ l → arbiter_asleep w1 body arb)
              N (arbiter_link body) (cpSpaceActivateBody_arbiter s body) cur la w)
    as (w' & Hrun & Hb & Hs & Hc & Hsp' & _);
    [apply reads_arbiter_link|done|done| | |by eauto 10].
  { repeat (split; [done|]). split; [by eapply linked_NoDup|done]. }
  intros x l' w1 (Hb & Hs & Hc & Hsp1 & Hnd & Hblk & Hrest) _.
  apply NoDup_cons in Hnd as [Hx Hnd].
  destruct (cpSpaceActivateBody_arbiter_returns s body x w1 (Hrest x ltac:(by left)) Hsp1)
    as (w2 & Hrun & Hc2 & Hsp2).
  pose proof (cpSpaceActivateBody_arbiter_same_graph _ _ _ _ _ Hrun) as Hgraph.
  assert (w_bodies w2 = w_bodies w1 ∧ w_shapes w2 = w_shapes w1 ∧
          (∀ arb, arb ≠ x → w_arbiters w2 !! arb = w_arbiters w1 !! arb) ∧
          (w_blocks w2 = w_blocks w1 ∨
           ∃ blk, saved_block w1 x = Some blk ∧ w_blocks w2 = delete blk (w_blocks w1)))
    as (Hb2 & Hs2 & Ha2 & Hk2).
  { destruct (cpSpaceActivateBody_arbiter_inv _ _ _ _ _ Hrun)
      as [[_ ->]|(_ & ar & sp & sp' & cs & Har & _ & _ & ? & ? & Ha & _ & _ & _ & _ & Hfree)].
    { repeat (split; [done|]). by left. }
    split; [done|]. split; [done|]. split.
    - intros arb Hne. rewrite Ha. by rewrite lookup_insert_ne.
    - destruct Hfree as [[_ ?]|(blk & Hblk' & _ & ?)]; [by left|right].
      exists blk. split; [|done]. unfold saved_block. rewrite Har. simpl. by rewrite Hblk'. }
  assert (∀ arb, arb ∈ l' → saved_block w2 arb = saved_block w1 arb) as Hsaved.
  { intros arb Harb. unfold saved_block. rewrite Ha2; [done|]. by intros ->. }
  exists w2. split; [done|]. split.
  - split; [congruence|]. split; [congruence|]. split; [congruence|]. split; [done|].
    split; [done|]. split.
    + rewrite (omap_ext_in _ (saved_block w1)) by done. simpl in Hblk.
      destruct (saved_block w1 x); [by apply NoDup_cons in Hblk as [_ ?]|done].
    + intros arb Harb.
      destruct (Hrest arb ltac:(by right)) as (ar & sh & ob & Har & Hsh & Hob & Hcase).
      exists ar, sh, ob. rewrite Ha2 by (by intros ->). rewrite Hs2, Hb2.
      repeat (split; [done|]). intros Hprim.
      destruct (Hcase Hprim) as [?|(blk' & cells & cs & Hblk' & Hcells & Hread)]; [by left|].
      right. exists blk', cells, cs. split; [done|]. split; [|done].
      destruct Hk2 as [->|(blk & Hxblk & ->)]; [done|].
      rewrite lookup_delete_ne; [done|]. intros ->.
      simpl in Hblk. rewrite Hxblk in Hblk. apply NoDup_cons in Hblk as [Hnotin _].
      apply Hnotin. apply list_elem_of_omap. exists arb. split; [done|].
      unfold saved_block. rewrite Har. simpl. by rewrite Hblk'.
  - intros z. by apply same_graph_arbiter_link.
Qed.

Lemma cpSpaceActivateBody_total N s body w b sp ls la lc :
  w_bodies w !! body = Some b → w_spaces w !! s = Some sp →
  linked shape_link w (shapeList b) ls → length ls ≤ N →
  linked (arbiter_link body) w (arbiterList b) la → length la ≤ N →
  (∀ arb, arb ∈ la → arbiter_asleep w body arb) → NoDup (omap (saved_block w) la) →
  linked (constraint_link body) w (constraintList b) lc → length lc ≤ N →
  (∀ c, c ∈ lc → constraint_ready w c) →
  ∃ w', cpSpaceActivateBody N s body w = Some (tt, w') ∧ w_bodies w' = w_bodies w ∧
        is_Some (w_spaces w' !! s).
Proof.
  intros Hb Hsp Hls HNs Hla HNa Hra Hblocks Hlc HNc Hrc.
  unfold cpSpaceActivateBody.
  destruct (locked sp) eqn:Hlk.
  { destruct (modify_space_returns s
                (λ S, set_rousedBodies (cpArrayPush (rousedBodies S) body) S) w ltac:(done)
                ltac:(eauto)) as (w' & Hrun & Hsame).
    exists w'. split; [|split; [by destruct Hsame|apply (same_but_spaces_is_Some w); eauto]].
    apply bind_Some. exists sp, w. split; [unfold load_space; by rewrite Hsp|].
    by rewrite Hlk. }
  destruct (modify_space_returns s
              (λ S, set_bodies (cpArrayPush (bodies S) body) S) w ltac:(done)
              ltac:(eauto)) as (w0 & Hrun0 & Hsame0).
  pose proof Hsame0 as (Hb0 & Hs0 & Ha0 & Hc0 & Hk0 & Hbuf0).
  assert (is_Some (w_spaces w0 !! s)) as Hsp0.
  { apply (same_but_spaces_is_Some w); eauto. }
  destruct (activate_shapes_returns N s (shapeList b) ls w0) as (w1 & Hrun1 & Hsame1);
    [|done|done|].
  { eapply linked_stable; [|done]. intros z. by apply same_but_spaces_shape_link. }
  pose proof (same_but_spaces_trans _ _ _ Hsame0 Hsame1) as Hsame01.
  pose proof Hsame01 as (Hb1 & Hs1 & Ha1 & Hc1 & Hk1 & Hbuf1).
  destruct (activate_arbiters_returns N s body (arbiterList b) la w1)
    as (w2 & Hrun2 & Hb2 & Hs2 & Hc2 & Hsp2).
  { eapply linked_stable; [|done]. intros z. apply arbiter_link_frame; [done|].
    intros x. by rewrite Hs1. }
  { done. }
  { by apply (same_but_spaces_is_Some w0). }
  { intros arb Harb. apply (arbiter_asleep_frame w); [done|by apply Hra]. }
  { rewrite (omap_ext_in _ (saved_block w)); [done|].
    intros arb _. unfold saved_block. by rewrite Ha1. }
  destruct (activate_constraints_returns N s body (constraintList b) lc w2)
    as (w3 & Hrun3 & Hsame3).
  { eapply linked_stable; [|done]. intros z. apply constraint_link_frame. congruence. }
  { done. }
  { done. }
  { intros c Hc. apply (constraint_ready_frame w); [congruence|congruence|by apply Hrc]. }
  exists w3. split.
  - apply bind_Some. exists sp, w. split; [unfold load_space; by rewrite Hsp|]. rewrite Hlk.
    apply bind_Some. exists tt, w0. split; [done|].
    apply bind_Some. exists b, w0. split; [unfold load_body; by rewrite Hb0, Hb|].
    apply bind_Some. exists tt, w1. split; [done|].
    apply bind_Some. exists b, w1. split; [unfold load_body; by rewrite Hb1, Hb|].
    apply bind_Some. exists tt, w2. split; [done|].
    apply bind_Some. exists b, w2. split; [unfold load_body; by rewrite Hb2, Hb1, Hb|].
    done.
  - split; [destruct Hsame3 as (Hb3 & _); congruence|].
    by apply (same_but_spaces_is_Some w2).
Qed.

(** X27.  [cpSpaceActivateBody] returns.  Take a body of the store and a
    space of the store.  If the walks over the body's shape list, arbiter
    list and constraint list each end after at most [N] entries, every
    arbiter on the walk is in the store with its first shape and that
    shape's body, the arbiters whose contacts the call restores have a
    contact array that is null and empty or a live heap block that can be
    read, no two arbiters of the walk share a saved block, and every
    constraint on the walk is in the store with its first body, then the
    call returns, and it has written to no body. *)
Theorem cpSpaceActivateBody_returns (N : nat) (s body : ptr) (w : world) (b : cpBody)
    (sp : cpSpace) (ls la lc : list ptr) :
  w_bodies w !! body = Some b → w_spaces w !! s = Some sp →
  linked shape_link w (shapeList b) ls → length ls ≤ N →
  linked (arbiter_link body) w (arbiterList b) la → length la ≤ N →
  (∀ arb, arb ∈ la → arbiter_asleep w body arb) → NoDup (omap (saved_block w) la) →
  linked (constraint_link body) w (constraintList b) lc → length lc ≤ N →
  (∀ c, c ∈ lc → constraint_ready w c) →
  ∃ w', cpSpaceActivateBody N s body w = Some (tt, w') ∧ w_bodies w' = w_bodies w.
Proof.
  intros Hb Hsp Hls HNs Hla HNa Hra Hblocks Hlc HNc Hrc.
  destruct (cpSpaceActivateBody_total N s body w b sp ls la lc) as (w' & Hrun & Hb' & _);
    eauto.
Qed.

Lemma cpSpaceActivateBody_returns_witness :
  ∃ w', cpSpaceActivateBody 2 0 1 saved_world = Some (tt, w') ∧
        w_bodies w' = w_bodies saved_world.
Proof.
  apply (cpSpaceActivateBody_returns 2 0 1 saved_world
           (mkBody 1 0 zero_vect zero_vect false (Some 11) (Some 21) None (Some 0)
              (mkNode None (Some 1) 0 0))
           (mkSpace false [2] [] [1] [] [] {[ (12%Z, 12) ]} {[ (11%Z, 11) ]} ∅ ∅ 0
              0 0.5 (cpv 0 (-10)))
           [11] [21] []).
  - vm_compute. reflexivity.
  - vm_compute. reflexivity.
  - apply (linked_cons _ _ 11 None []); [vm_compute; reflexivity|apply linked_nil].
  - simpl. lia.
  - apply (linked_cons _ _ 21 None []); [vm_compute; reflexivity|apply linked_nil].
  - simpl. lia.
  - intros arb Harb. apply list_elem_of_singleton in Harb as ->.
    exists (mkArbiter 11 12 None None 1 (ContactsHeap 7)), (mkShape 1 None 11 None),
      (mkBody 1 0 zero_vect zero_vect false (Some 11) (Some 21) None (Some 0)
         (mkNode None (Some 1) 0 0)).
    split; [vm_compute; reflexivity|]. split; [vm_compute; reflexivity|].
    split; [vm_compute; reflexivity|]. intros _. right.
    exists 7, {[ 0 := mkContact 1 2 3 4 ]}, [mkContact 1 2 3 4].
    split; [reflexivity|]. split; vm_compute; reflexivity.
  - vm_compute. apply NoDup_singleton.
  - apply linked_nil.
  - simpl. lia.
  - intros c Hc. by apply elem_of_nil in Hc.
Defined.

(** ** Sleep followed by wake returns *)

Lemma arbiter_primary_spec w body x ar sh ob :
  w_arbiters w !! x = Some ar → w_shapes w !! arb_a ar = Some sh →
  w_bodies w !! shape_body sh = Some ob →
  ∃ v, arbiter_primary body x w = Some (v, w) ∧
       (v = true ↔ shape_body sh = body ∨ isStatic ob = true).
Proof.
  intros Har Hsh Hob. unfold arbiter_primary, bind, load_arbiter, load_shape, load_body.
  rewrite Har. simpl. rewrite Hsh. simpl. case_decide as Hbody.
  - exists true. split; [done|]. split; [auto|done].
  - rewrite Hob. exists (isStatic ob). split; [done|]. unfold cpBodyIsStatic. split; [auto|].
    intros [?|?]; [congruence|done].
Qed.

Lemma arbiter_ready_live w arb blk :
  arbiter_ready w arb → saved_block w arb = Some blk → is_Some (w_blocks w !! blk).
Proof.
  intros (ar & sh & ob & cs & Har & _ & _ & Hcs). unfold saved_block. rewrite Har. simpl.
  destruct (contacts ar) as [| |blk'] eqn:Hc; [done|done|]. intros [= ->].
  unfold contents, read_contacts in Hcs. rewrite Hc in Hcs.
  destruct (w_blocks w !! blk); [eauto|done].
Qed.

Lemma NoDup_replace_middle {A} (l1 l2 X : list A) (y : A) :
  NoDup (l1 ++ X ++ l2) → y ∉ l1 → y ∉ l2 → NoDup (l1 ++ [y] ++ l2).
Proof.
  intros (H1 & H12 & H2)%NoDup_app Hy1 Hy2.
  apply NoDup_app in H2 as (_ & _ & H2). apply NoDup_app. split; [done|]. split.
  - intros z Hz [Hzy|Hz2]%elem_of_app.
    + apply list_elem_of_singleton in Hzy as ->. done.
    + apply (H12 z Hz). apply elem_of_app. by right.
  - simpl. apply NoDup_cons. done.
Qed.

(** What saving the contacts of one arbiter does for waking the body later. *)
Lemma deactivate_step_effect s body x w1 w2 :
  cpSpaceDeactivateBody_arbiter s body x w1 = Some (tt, w2) → arbiter_ready w1 x →
  w_bodies w2 = w_bodies w1 ∧ w_shapes w2 = w_shapes w1 ∧
  (∀ arb, arb ≠ x → w_arbiters w2 !! arb = w_arbiters w1 !! arb) ∧
  (∀ blk cells, w_blocks w1 !! blk = Some cells → w_blocks w2 !! blk = Some cells) ∧
  (∀ s0, contactBuffer <$> w_spaces w2 !! s0 = contactBuffer <$> w_spaces w1 !! s0) ∧
  arbiter_asleep w2 body x ∧
  (saved_block w2 x = saved_block w1 x ∨
   ∃ blk, saved_block w2 x = Some blk ∧ w_blocks w1 !! blk = None ∧
          is_Some (w_blocks w2 !! blk)).
Proof.
  intros Hrun (ar & sh & ob & cs & Har & Hsh & Hob & Hcs).
  destruct (arbiter_primary_spec w1 body x ar sh ob Har Hsh Hob) as (v & Hprim & Hv).
  destruct (cpSpaceDeactivateBody_arbiter_inv _ _ _ _ _ Hrun)
    as [[Hfalse ->]|(_ & ar' & cs' & Har' & Hb & Hs & Ha & Hk & Hbuf & Hlen & Hsame)].
  - repeat (split; [done|]). split; [|by left].
    exists ar, sh, ob. repeat (split; [done|]). intros Hp. apply Hv in Hp as ->.
    rewrite Hprim in Hfalse. done.
  - assert (ar' = ar) as -> by congruence.
    assert (cs' = cs) as -> by (symmetry; by apply Hsame).
    set (blk := fresh (dom (w_blocks w1))) in *.
    assert (w_blocks w1 !! blk = None) as Hfresh.
    { apply not_elem_of_dom. apply is_fresh. }
    split; [done|]. split; [done|]. split.
    { intros arb Hne. rewrite Ha. by rewrite lookup_insert_ne. }
    split.
    { intros b c Hbc. rewrite Hk. rewrite lookup_insert_ne; [done|]. intros <-. congruence. }
    split; [done|]. split.
    + exists (set_contacts (ContactsHeap blk) ar), sh, ob.
      rewrite Ha, lookup_insert_eq, Hs, Hb. repeat (split; [done|]). intros _. right.
      exists blk, (write_cells ∅ 0 cs), cs. split; [done|].
      rewrite Hk, lookup_insert_eq. split; [done|]. simpl. rewrite <- Hlen.
      apply read_write_cells.
    + right. exists blk. unfold saved_block. rewrite Ha, lookup_insert_eq. simpl.
      split; [done|]. split; [done|]. rewrite Hk, lookup_insert_eq. eauto.
Qed.

(** The arbiters of a body after their contacts have been saved: each can be
    woken, and no two of them have the same heap block.  [done] are the
    arbiters the loop has been through. *)
Lemma deactivate_arbiters_asleep_gen s body l done w1 w' :
  for_array (λ _ x, cpSpaceDeactivateBody_arbiter s body x) l tt w1 = Some (tt, w') →
  NoDup (done ++ l) →
  (∀ arb, arb ∈ done → arbiter_asleep w1 body arb) →
  (∀ arb, arb ∈ l → arbiter_ready w1 arb) →
  NoDup (omap (saved_block w1) (done ++ l)) →
  (∀ arb blk, arb ∈ done ++ l → saved_block w1 arb = Some blk →
              is_Some (w_blocks w1 !! blk)) →
  (∀ arb, arb ∈ done ++ l → arbiter_asleep w' body arb) ∧
  NoDup (omap (saved_block w') (done ++ l)).
Proof.
  revert done w1. induction l as [|x l IH]; intros done w1 H Hnd Hdone Hrest Hblocks Hlive;
    cbn [for_array] in H.
  { apply ret_Some in H as [_ ->]. rewrite app_nil_r in *. done. }
  apply bind_Some in H as ([] & w2 & Hstep & H).
  destruct (deactivate_step_effect _ _ _ _ _ Hstep (Hrest x ltac:(by left)))
    as (Hb & Hs & Ha & Hk & Hbuf & Hx & Hsaved).
  assert ((x ∉ done) ∧ (x ∉ l)) as [Hxd Hxl].
  { apply NoDup_app in Hnd as (_ & Hd & Hl). apply NoDup_cons in Hl as [Hl _]. split; [|done].
    intros Hin. apply (Hd x Hin). by left. }
  assert (∀ arb, arb ≠ x → saved_block w2 arb = saved_block w1 arb) as Hsame.
  { intros arb Hne. unfold saved_block. by rewrite Ha. }
  assert (∀ arb blk, arb ∈ done ∨ arb = x ∨ arb ∈ l → saved_block w1 arb = Some blk →
            is_Some (w_blocks w1 !! blk)) as Hlive'.
  { intros arb blk Harb. apply Hlive. apply elem_of_app.
    destruct Harb as [?|[->|?]]; [by left|right; by left|right; by right]. }
  assert (NoDup (omap (saved_block w1) done ++ omap (saved_block w1) [x] ++
                 omap (saved_block w1) l)) as Hblocks'.
  { rewrite <- !omap_app. exact Hblocks. }
  clear Hlive Hblocks.
  replace (done ++ x :: l) with ((done ++ [x]) ++ l) by (by rewrite <- app_assoc).
  apply (IH (done ++ [x]) w2 H).
  - by rewrite <- app_assoc.
  - intros arb [Harb|Harb]%elem_of_app.
    + destruct (Hdone arb Harb) as (ar & sh & ob & Har & Hsh & Hob & Hcase).
      exists ar, sh, ob. rewrite Ha by (by intros ->). rewrite Hs, Hb.
      repeat (split; [done|]). intros Hp.
      destruct (Hcase Hp) as [?|(blk & cells & cs & ? & Hblk & ?)]; [by left|right].
      exists blk, cells, cs. split; [done|]. split; [by apply Hk|done].
    + apply list_elem_of_singleton in Harb as ->. done.
  - intros arb Harb.
    destruct (Hrest arb ltac:(by right)) as (ar & sh & ob & cs & Har & Hsh & Hob & Hcs).
    exists ar, sh, ob, cs. rewrite Ha by (by intros ->). rewrite Hs, Hb.
    repeat (split; [done|]). apply (contents_frame w1); [done| |done].
    intros b c _. apply Hk.
  - rewrite <- app_assoc, !omap_app.
    rewrite (omap_ext_in (saved_block w2) (saved_block w1) done)
      by (intros arb Harb; apply Hsame; by intros ->).
    rewrite (omap_ext_in (saved_block w2) (saved_block w1) l)
      by (intros arb Harb; apply Hsame; by intros ->).
    destruct Hsaved as [Heq|(blk & Hblk & Hfresh & _)].
    + simpl. simpl in Hblocks'. by rewrite Heq.
    + simpl. rewrite Hblk.
      apply (NoDup_replace_middle _ _ (omap (saved_block w1) [x])); [done| |].
      * intros (arb & Harb & Harb')%list_elem_of_omap.
        destruct (Hlive' arb blk) as [c Hc]; [by left|done|congruence].
      * intros (arb & Harb & Harb')%list_elem_of_omap.
        destruct (Hlive' arb blk) as [c Hc]; [right; by right|done|congruence].
  - intros arb blk Harb Hblk. destruct (decide (arb = x)) as [->|Hne].
    + destruct Hsaved as [Heq|(blk' & Hblk' & _ & Hlive2)].
      * rewrite Heq in Hblk. destruct (Hlive' x blk) as [c Hc]; [right; by left|done|].
        rewrite (Hk _ _ Hc). eauto.
      * congruence.
    + rewrite Hsame in Hblk by done. destruct (Hlive' arb blk) as [c Hc]; [|done|].
      { apply elem_of_app in Harb as [[?|Hx']%elem_of_app|?]; [by left| |right; by right].
        apply list_elem_of_singleton in Hx'. done. }
      rewrite (Hk _ _ Hc). eauto.
Qed.

(** [cpSpaceDeactivateBody] returns and leaves the body ready to be woken. *)
Lemma cpSpaceDeactivateBody_asleep N s body w b ls la lc :
  w_bodies w !! body = Some b → is_Some (w_spaces w !! s) →
  linked shape_link w (shapeList b) ls → length ls ≤ N →
  linked (arbiter_link body) w (arbiterList b) la → length la ≤ N →
  (∀ arb, arb ∈ la → arbiter_ready w arb) → NoDup (omap (saved_block w) la) →
  linked (constraint_link body) w (constraintList b) lc → length lc ≤ N →
  (∀ c, c ∈ lc → constraint_ready w c) →
  ∃ w', cpSpaceDeactivateBody N s body w = Some (tt, w') ∧
        w_bodies w' = w_bodies w ∧ w_shapes w' = w_shapes w ∧
        w_constraints w' = w_constraints w ∧
        (∀ s0, is_Some (w_spaces w !! s0) → is_Some (w_spaces w' !! s0)) ∧
        linked (arbiter_link body) w' (arbiterList b) la ∧
        (∀ arb, arb ∈ la → arbiter_asleep w' body arb) ∧
        NoDup (omap (saved_block w') la).
Proof.
  intros Hb Hsp Hls HNs Hla HNa Hra Hblocks Hlc HNc Hrc.
  destruct (deactivate_shapes_returns N s _ ls w Hls HNs Hsp) as (w1 & Hrun1 & Hsame1).
  pose proof Hsame1 as (Hb1 & Hs1 & Ha1 & Hc1 & Hk1 & Hbuf1).
  assert (linked (arbiter_link body) w1 (arbiterList b) la) as Hla1.
  { eapply linked_stable; [|done]. intros z. apply arbiter_link_frame; [done|].
    intros x. by rewrite Hs1. }
  assert (∀ arb, arb ∈ la → arbiter_ready w1 arb) as Hra1.
  { intros arb Harb. apply (arbiter_ready_frame w); try done; [|by apply Hra].
    intros x. by rewrite Hs1. }
  destruct (deactivate_arbiters_returns N s body (arbiterList b) la w1)
    as (w2 & Hrun2 & Hb2 & Hs2 & Hc2 & Hsp2);
    [done|done|by eapply same_but_spaces_is_Some|done|].
  destruct (deactivate_arbiters_fold _ _ _ _ _ _ Hrun2) as (la' & Hla' & Hfold).
  rewrite <- (linked_det _ _ _ _ _ Hla1 Hla') in Hfold. clear la' Hla'.
  pose proof (preserves_same_graph_deactivate w1 s body la _ _ _ Hfold (same_graph_refl w1))
    as Hgraph.
  destruct (deactivate_arbiters_asleep_gen s body la [] w1 w2 Hfold) as [Hasleep2 Hblocks2].
  { simpl. by eapply linked_NoDup. }
  { intros arb Harb. by apply elem_of_nil in Harb. }
  { done. }
  { simpl. rewrite (omap_ext_in _ (saved_block w)); [done|].
    intros arb _. unfold saved_block. by rewrite Ha1. }
  { simpl. intros arb blk Harb. by apply arbiter_ready_live, Hra1. }
  simpl in Hasleep2, Hblocks2.
  assert (∀ s0, is_Some (w_spaces w1 !! s0) → is_Some (w_spaces w2 !! s0)) as Hspaces2.
  { intros s0.
    refine (preserves_for_array (λ w0, is_Some (w_spaces w1 !! s0) → is_Some (w_spaces w0 !! s0))
              _ _ _ _ _ _ _ Hfold (λ H, H)).
    intros [] x wa [] wb Hstep HI Hs0. specialize (HI Hs0).
    destruct (cpSpaceDeactivateBody_arbiter_inv _ _ _ _ _ Hstep)
      as [[_ ->]|(_ & ar & cs & _ & _ & _ & _ & _ & Hbuf & _)]; [done|].
    specialize (Hbuf s0). destruct HI as [S HS]. rewrite HS in Hbuf.
    destruct (w_spaces wb !! s0); [eauto|done]. }
  destruct (deactivate_constraints_returns N s body (constraintList b) lc w2)
    as (w3 & Hrun3 & Hsame3).
  { eapply linked_stable; [|done]. intros z. apply constraint_link_frame. congruence. }
  { done. }
  { done. }
  { intros c Hc. apply (constraint_ready_frame w); [congruence|congruence|by apply Hrc]. }
  pose proof Hsame3 as (Hb3 & Hs3 & Ha3 & Hc3 & Hk3 & Hbuf3).
  exists w3. split; [|split; [|split; [|split; [|split; [|split; [|split]]]]]].
  - unfold cpSpaceDeactivateBody.
    apply bind_Some. exists b, w. split; [unfold load_body; by rewrite Hb|].
    apply bind_Some. exists tt, w1. split; [done|].
    apply bind_Some. exists b, w1. split; [unfold load_body; by rewrite Hb1, Hb|].
    apply bind_Some. exists tt, w2. split; [done|].
    apply bind_Some. exists b, w2. split; [unfold load_body; by rewrite Hb2, Hb1, Hb|].
    done.
  - congruence.
  - congruence.
  - congruence.
  - intros s0 Hs0. apply (same_but_spaces_is_Some w2); [done|]. apply Hspaces2.
    by apply (same_but_spaces_is_Some w).
  - eapply linked_stable; [|exact Hla1]. intros z.
    transitivity (fst <$> arbiter_link body z w2).
    + apply arbiter_link_frame; [done|]. intros x. by rewrite Hs3.
    + by apply same_graph_arbiter_link.
  - intros arb Harb. by apply (arbiter_asleep_frame w2), Hasleep2.
  - rewrite (omap_ext_in _ (saved_block w2)); [done|].
    intros arb _. unfold saved_block. by rewrite Ha3.
Qed.

(** X28.  Putting a body's shapes, arbiters and constraints to sleep and
    waking them again returns.  Take a body and a space of the store.  If the
    walks over the body's shape list, arbiter list and constraint list each
    end after at most [N] entries, every arbiter on the walk is in the store
    with its first shape, that shape's body and a contact array that can be
    read, no two arbiters of the walk share a heap block, and every
    constraint on the walk is in the store with its first body, then
    [cpSpaceDeactivateBody] returns and [cpSpaceActivateBody] returns from
    the store it leaves; no body has been written to. *)
Theorem cpSpaceDeactivateBody_cpSpaceActivateBody_returns (N : nat) (s body : ptr)
    (w : world) (b : cpBody) (ls la lc : list ptr) :
  w_bodies w !! body = Some b → is_Some (w_spaces w !! s) →
  linked shape_link w (shapeList b) ls → length ls ≤ N →
  linked (arbiter_link body) w (arbiterList b) la → length la ≤ N →
  (∀ arb, arb ∈ la → arbiter_ready w arb) → NoDup (omap (saved_block w) la) →
  linked (constraint_link body) w (constraintList b) lc → length lc ≤ N →
  (∀ c, c ∈ lc → constraint_ready w c) →
  ∃ w1 w2, cpSpaceDeactivateBody N s body w = Some (tt, w1) ∧
           cpSpaceActivateBody N s body w1 = Some (tt, w2) ∧
           w_bodies w2 = w_bodies w.
Proof.
  intros Hb Hsp Hls HNs Hla HNa Hra Hblocks Hlc HNc Hrc.
  destruct (cpSpaceDeactivateBody_asleep N s body w b ls la lc)
    as (w1 & Hrun1 & Hb1 & Hs1 & Hc1 & Hsp1 & Hla1 & Hasleep1 & Hblocks1); try done.
  destruct (Hsp1 s Hsp) as [sp1 Hsp1'].
  destruct (cpSpaceActivateBody_total N s body w1 b sp1 ls la lc)
    as (w2 & Hrun2 & Hb2 & _); try done.
  - by rewrite Hb1.
  - eapply linked_stable; [|done]. intros z. unfold shape_link, bind, load_shape.
    rewrite Hs1. by destruct (w_shapes w !! z).
  - eapply linked_stable; [|done]. intros z. by apply constraint_link_frame.
  - intros c Hc. by apply (constraint_ready_frame w); [| |apply Hrc].
  - exists w1, w2. split; [done|]. split; [done|]. congruence.
Qed.

Lemma cpSpaceDeactivateBody_cpSpaceActivateBody_returns_witness :
  ∃ w1 w2, cpSpaceDeactivateBody 2 0 1 touching_world = Some (tt, w1) ∧
           cpSpaceActivateBody 2 0 1 w1 = Some (tt, w2) ∧
           w_bodies w2 = w_bodies touching_world.
Proof.
  apply (cpSpaceDeactivateBody_cpSpaceActivateBody_returns 2 0 1 touching_world
           (mkBody 1 0 zero_vect zero_vect false (Some 11) (Some 21) None (Some 0)
              (mkNode None None 0 0))
           [11] [21] []).
  - vm_compute. reflexivity.
  - eexists. vm_compute. reflexivity.
  - apply (linked_cons _ _ 11 None []); [vm_compute; reflexivity|apply linked_nil].
  - simpl. lia.
  - apply (linked_cons _ _ 21 None []); [vm_compute; reflexivity|apply linked_nil].
  - simpl. lia.
  - intros arb Harb. apply list_elem_of_singleton in Harb as ->.
    exists (mkArbiter 11 12 None None 1 (ContactsInBuffer 0 0)), (mkShape 1 None 11 None),
      (mkBody 1 0 zero_vect zero_vect false (Some 11) (Some 21) None (Some 0)
         (mkNode None None 0 0)), [mkContact 1 2 3 4].
    repeat split; vm_compute; reflexivity.
  - vm_compute. apply NoDup_nil_2.
  - apply linked_nil.
  - simpl. lia.
  - intros c Hc. by apply elem_of_nil in Hc.
Defined.

Lemma arbiter_asleep_static w w' body arb :
  w_arbiters w' = w_arbiters w → w_shapes w' = w_shapes w → w_blocks w' = w_blocks w →
  (∀ x, isStatic <$> w_bodies w' !! x = isStatic <$> w_bodies w !! x) →
  arbiter_asleep w body arb → arbiter_asleep w' body arb.
Proof.
  intros Ha Hs Hk Hst (ar & sh & ob & Har & Hsh & Hob & Hcase).
  specialize (Hst (shape_body sh)). rewrite Hob in Hst.
  destruct (w_bodies w' !! shape_body sh) as [ob'|] eqn:Hob'; [|done]. injection Hst as Hst.
  exists ar, sh, ob'. rewrite Ha, Hs, Hk, Hst. done.
Qed.

Lemma constraint_ready_static w w' c :
  w_constraints w' = w_constraints w →
  (∀ x, isStatic <$> w_bodies w' !! x = isStatic <$> w_bodies w !! x) →
  constraint_ready w c → constraint_ready w' c.
Proof.
  intros Hc Hst (con & ob & Hcon & Hob). specialize (Hst (con_a con)). rewrite Hob in Hst.
  destruct (w_bodies w' !! con_a con) as [ob'|] eqn:Hob'; [|done].
  exists con, ob'. by rewrite Hc.
Qed.

(** [cpBodySleep] on an awake body returns and leaves the body ready to be
    woken. *)
Lemma cpBodySleep_asleep N body s w b sp ls la lc :
  w_bodies w !! body = Some b → isStatic b = false → space b = Some s →
  next (node b) = None →
  w_spaces w !! s = Some sp → locked sp = false →
  linked shape_link w (shapeList b) ls → length ls ≤ N →
  linked (arbiter_link body) w (arbiterList b) la → length la ≤ N →
  (∀ arb, arb ∈ la → arbiter_ready w arb) → NoDup (omap (saved_block w) la) →
  linked (constraint_link body) w (constraintList b) lc → length lc ≤ N →
  (∀ c, c ∈ lc → constraint_ready w c) →
  ∃ w1 sp1,
    cpBodySleep N body w = Some (tt, w1) ∧
    w_bodies w1 = <[body := set_node (mkNode None (Some body) 0 0) b]> (w_bodies w) ∧
    w_spaces w1 !! s = Some sp1 ∧ locked sp1 = false ∧
    w_constraints w1 = w_constraints w ∧
    linked shape_link w1 (shapeList b) ls ∧
    linked (arbiter_link body) w1 (arbiterList b) la ∧
    (∀ arb, arb ∈ la → arbiter_asleep w1 body arb) ∧
    NoDup (omap (saved_block w1) la).
Proof.
  intros Hb Hstatic Hs Hawake Hsp Hlk Hls HNs Hla HNa Hra Hblocks Hlc HNc Hrc.
  assert (cpBodyIsSleeping b = false) as Hsleep.
  { unfold cpBodyIsSleeping. rewrite Hawake. apply bool_decide_eq_false_2. by intros ?. }
  destruct (update_shapes_returns N (p b) (rot b) _ ls w Hls HNs)
    as (w1 & Hrun1 & Hb1 & Ha1 & Hc1 & Hs1 & Hk1 & Hskel).
  assert (∀ x, shape_body <$> w_shapes w1 !! x = shape_body <$> w_shapes w !! x) as Hsb.
  { intros x. specialize (Hskel x).
    destruct (w_shapes w1 !! x), (w_shapes w !! x); simpl in *; try done.
    by injection Hskel as -> _. }
  assert (linked shape_link w1 (shapeList b) ls) as Hls1.
  { eapply linked_stable; [|done]. intros z. unfold shape_link, bind, load_shape.
    specialize (Hskel z). destruct (w_shapes w1 !! z), (w_shapes w !! z); simpl in *; try done.
    by injection Hskel as _ ->. }
  destruct (cpSpaceDeactivateBody_asleep N s body w1 b ls la lc)
    as (w2 & Hrun2 & Hb2 & Hs2 & Hc2 & Hsp2 & Hla2 & Hasleep2 & Hblocks2).
  { by rewrite Hb1. }
  { rewrite Hs1. eauto. }
  { done. }
  { done. }
  { eapply linked_stable; [|done]. intros z. by apply arbiter_link_frame. }
  { done. }
  { intros arb Harb. apply (arbiter_ready_frame w); try done; [|by apply Hra].
    intros s0. by rewrite Hs1. }
  { rewrite (omap_ext_in _ (saved_block w)); [done|].
    intros arb _. unfold saved_block. by rewrite Ha1. }
  { eapply linked_stable; [|done]. intros z. by apply constraint_link_frame. }
  { done. }
  { intros c Hc. apply (constraint_ready_frame w); [done|done|by apply Hrc]. }
  assert (∃ w', cpBodySleep N body w = Some (tt, w')) as (w' & Hrun).
  { destruct (Hsp2 s) as [sp2 Hsp2']; [rewrite Hs1; eauto|].
    eexists. unfold cpBodySleep, cpBodySleepWithGroup.
    apply bind_Some. exists b, w. split; [unfold load_body; by rewrite Hb|].
    apply bind_Some. exists tt, w. split.
    { unfold cpBodyIsStatic, cpBodyIsRogue. rewrite Hstatic, Hs.
      by rewrite bool_decide_eq_false_2. }
    rewrite Hs. apply bind_Some. exists sp, w. split; [unfold load_space; by rewrite Hsp|].
    apply bind_Some. exists tt, w. split; [by rewrite Hlk|].
    apply bind_Some. exists tt, w. split; [done|]. rewrite Hsleep.
    apply bind_Some. exists tt, w1. split; [done|].
    apply bind_Some. exists tt, w2. split; [done|].
    apply bind_Some. eexists tt, _. split.
    { apply bind_Some. eexists tt, _. split.
      - apply modify_node_Some. exists b. split; [by rewrite Hb2, Hb1|done].
      - apply modify_space_Some. simpl. eauto. }
    apply modify_space_Some. simpl. rewrite lookup_insert_eq. eauto. }
  destruct (cpBodySleep_component_inv _ _ _ _ _ _ _ Hb Hsleep Hs Hsp Hrun)
    as (Hbodies & _ & sp' & Hsp' & Hlk' & _).
  pose proof Hrun as Hrun'. unfold cpBodySleep, cpBodySleepWithGroup in Hrun'.
  apply bind_Some in Hrun' as (b0 & ? & Hb0 & Hrun'). apply load_body_Some in Hb0 as [Hb0 ->].
  assert (b0 = b) as -> by congruence.
  apply bind_Some in Hrun' as ([] & ? & Hassert & Hrun').
  assert (cpAssert (negb (cpBodyIsStatic b) && negb (cpBodyIsRogue b)) w = Some (tt, w))
    as Hassert1.
  { unfold cpBodyIsStatic, cpBodyIsRogue. rewrite Hstatic, Hs.
    by rewrite bool_decide_eq_false_2. }
  rewrite Hassert1 in Hassert. injection Hassert as <-. rewrite Hs in Hrun'.
  apply bind_Some in Hrun' as (sp0 & ? & Hsp0 & Hrun').
  apply load_space_Some in Hsp0 as [Hsp0 ->]. assert (sp0 = sp) as -> by congruence.
  apply bind_Some in Hrun' as ([] & ? & Hassert2 & Hrun'). rewrite Hlk in Hassert2.
  apply ret_Some in Hassert2 as [_ ->].
  apply bind_Some in Hrun' as ([] & ? & Hret & Hrun'). apply ret_Some in Hret as [_ ->].
  rewrite Hsleep in Hrun'.
  apply bind_Some in Hrun' as ([] & w1' & Hrun1' & Hrun').
  assert (w1' = w1) as -> by congruence.
  apply bind_Some in Hrun' as ([] & w2' & Hrun2' & Hrun').
  assert (w2' = w2) as -> by congruence.
  apply bind_Some in Hrun' as ([] & w3 & Hrun3 & Hrun4).
  apply bind_Some in Hrun3 as ([] & w3a & Hnode & Hpush).
  apply modify_node_Some in Hnode as (b2 & Hb2' & ->).
  apply modify_space_Some in Hpush as (spa & Hspa & ->).
  apply modify_space_Some in Hrun4 as (spb & Hspb & ->). simpl in *.
  eexists. exists sp'. split; [exact Hrun|]. split; [done|]. split; [done|]. split; [done|].
  split; [simpl; congruence|]. split; [|split; [|split]].
  - eapply linked_stable; [|exact Hls1]. intros z. unfold shape_link, bind, load_shape.
    simpl. rewrite Hs2. by destruct (w_shapes w1 !! z).
  - eapply linked_stable; [|exact Hla2]. intros z. by apply arbiter_link_frame.
  - intros arb Harb. apply (arbiter_asleep_static w2); [done|done|done| |by apply Hasleep2].
    intros x. simpl. destruct (decide (x = body)) as [->|Hne].
    + rewrite lookup_insert_eq, Hb2'. done.
    + by rewrite lookup_insert_ne.
  - rewrite (omap_ext_in _ (saved_block w2)); [done|]. intros arb _. done.
Qed.

(** X29.  [cpBodySleep] followed by [cpBodyActivate] returns.  Take an awake
    body of the store that is not static and belongs to an unlocked space of
    the store.  If the walks over its shape list, arbiter list and constraint
    list each end after at most [N] entries, with [N] at least 1, every
    arbiter on the walk is in the store with its first shape, that shape's
    body and a contact array that can be read, no two arbiters of the walk
    share a heap block, and every constraint on the walk is in the store with
    its first body, then [cpBodySleep] returns, and [cpBodyActivate] returns
    from the store it leaves. *)
Theorem cpBodySleep_cpBodyActivate_returns (N : nat) (body s : ptr) (w : world)
    (b : cpBody) (sp : cpSpace) (ls la lc : list ptr) :
  0 < N →
  w_bodies w !! body = Some b → isStatic b = false → space b = Some s →
  next (node b) = None →
  w_spaces w !! s = Some sp → locked sp = false →
  linked shape_link w (shapeList b) ls → length ls ≤ N →
  linked (arbiter_link body) w (arbiterList b) la → length la ≤ N →
  (∀ arb, arb ∈ la → arbiter_ready w arb) → NoDup (omap (saved_block w) la) →
  linked (constraint_link body) w (constraintList b) lc → length lc ≤ N →
  (∀ c, c ∈ lc → constraint_ready w c) →
  ∃ w1 w2, cpBodySleep N body w = Some (tt, w1) ∧ cpBodyActivate N body w1 = Some (tt, w2).
Proof.
  intros HN Hb Hstatic Hs Hawake Hsp Hlk Hls HNs Hla HNa Hra Hblocks Hlc HNc Hrc.
  destruct (cpBodySleep_asleep N body s w b sp ls la lc)
    as (w1 & sp1 & Hrun1 & Hbodies1 & Hsp1 & Hlk1 & Hc1 & Hls1 & Hla1 & Hasleep1 & Hblocks1);
    try done.
  set (b1 := set_node (mkNode None (Some body) 0 0) b) in *.
  assert (w_bodies w1 !! body = Some b1) as Hb1.
  { rewrite Hbodies1. apply lookup_insert_eq. }
  set (b2 := set_node (mkNode None None 0 0) b1).
  set (w2 := with_bodies (<[body := b2]> (w_bodies w1)) w1).
  assert (∀ x, isStatic <$> w_bodies w2 !! x = isStatic <$> w_bodies w !! x) as Hst.
  { intros x. unfold w2. simpl. rewrite Hbodies1.
    destruct (decide (x = body)) as [->|Hne].
    - rewrite lookup_insert_eq, Hb. done.
    - by rewrite !lookup_insert_ne. }
  destruct (cpSpaceActivateBody_total N s body w2 b2 sp1 ls la lc)
    as (w3 & Hrun3 & _ & sp3 & Hsp3).
  { unfold w2. simpl. apply lookup_insert_eq. }
  { done. }
  { eapply linked_stable; [|exact Hls1]. intros z. unfold shape_link, bind, load_shape.
    simpl. by destruct (w_shapes w1 !! z). }
  { done. }
  { eapply linked_stable; [|exact Hla1]. intros z. by apply arbiter_link_frame. }
  { done. }
  { intros arb Harb. apply (arbiter_asleep_static w1); [done|done|done| |by apply Hasleep1].
    intros x. unfold w2. simpl. destruct (decide (x = body)) as [->|Hne].
    - rewrite lookup_insert_eq, Hb1. done.
    - by rewrite lookup_insert_ne. }
  { rewrite (omap_ext_in _ (saved_block w1)); [done|]. intros arb _. done. }
  { eapply linked_stable; [|exact Hlc]. intros z. by apply constraint_link_frame. }
  { done. }
  { intros c Hc. apply (constraint_ready_static w); [done|done|by apply Hrc]. }
  exists w1. eexists. split; [done|].
  unfold cpBodyActivate. apply bind_Some. exists body, w1. split.
  { assert (chain w1 body [] body) as Hchain.
    { apply chain_root'. unfold parent_of. by rewrite Hb1. }
    rewrite (componentNodeRoot_chain _ _ _ _ N Hchain) by (simpl; lia).
    rewrite (compress_short _ _ _ _ Hchain) by (simpl; lia). by rewrite with_bodies_id. }
  unfold componentActivate. apply bind_Some. exists b1, w1.
  split; [unfold load_body; by rewrite Hb1|].
  assert (cpBodyIsSleeping b1 = true) as ->.
  { unfold cpBodyIsSleeping. by apply bool_decide_eq_true_2. }
  simpl. rewrite Hs.
  apply bind_Some. exists tt, w3. split.
  - destruct N as [|N']; [lia|]. cbn [ring_loop].
    apply bind_Some. exists b1, w1. split; [unfold load_body; by rewrite Hb1|]. cbv zeta.
    apply bind_Some. exists tt, w3. split.
    + unfold componentActivate_step. apply bind_Some. exists tt, w2. split; [|done].
      apply modify_node_Some. exists b1. done.
    + simpl. by rewrite decide_True.
  - apply modify_space_Some. exists sp3. done.
Qed.

Lemma cpBodySleep_cpBodyActivate_returns_witness :
  ∃ w1 w2, cpBodySleep 2 1 touching_world = Some (tt, w1) ∧
           cpBodyActivate 2 1 w1 = Some (tt, w2).
Proof.
  apply (cpBodySleep_cpBodyActivate_returns 2 1 0 touching_world
           (mkBody 1 0 zero_vect zero_vect false (Some 11) (Some 21) None (Some 0)
              (mkNode None None 0 0))
           (mkSpace false [1; 2] [] [] [21] [] {[ (11%Z, 11); (12%Z, 12) ]} ∅
              {[ CP_HASH_PAIR 11 12 := 21 ]} {[ 0 := mkContact 1 2 3 4 ]} 1
              0 0.5 (cpv 0 (-10)))
           [11] [21] []).
  - lia.
  - vm_compute. reflexivity.
  - reflexivity.
  - reflexivity.
  - reflexivity.
  - vm_compute. reflexivity.
  - reflexivity.
  - apply (linked_cons _ _ 11 None []); [vm_compute; reflexivity|apply linked_nil].
  - simpl. lia.
  - apply (linked_cons _ _ 21 None []); [vm_compute; reflexivity|apply linked_nil].
  - simpl. lia.
  - intros arb Harb. apply list_elem_of_singleton in Harb as ->.
    exists (mkArbiter 11 12 None None 1 (ContactsInBuffer 0 0)), (mkShape 1 None 11 None),
      (mkBody 1 0 zero_vect zero_vect false (Some 11) (Some 21) None (Some 0)
         (mkNode None None 0 0)), [mkContact 1 2 3 4].
    repeat split; vm_compute; reflexivity.
  - vm_compute. apply NoDup_nil_2.
  - apply linked_nil.
  - simpl. lia.
  - intros c Hc. by apply elem_of_nil in Hc.
Defined.

(** ** [mergeBodies] returns on awake trees *)

(** A sequence returns when its first part does and the rest returns from
    there. *)
Lemma bind_is_Some {A B} (c : M A) (k : A → M B) w x w1 :
  c w = Some (x, w1) → is_Some (k x w1) → is_Some (bind c k w).
Proof. intros Hc [[y w2] Hk]. exists (y, w2). apply bind_Some. eauto. Qed.

(** Path compression lengthens no parent chain. *)
Lemma compress_chain_length w x l r y ly ry :
  chain w x l r → chain w y ly ry →
  ∃ ly', chain (with_bodies (compress r l (w_bodies w)) w) y ly' ry ∧ length ly' ≤ length ly.
Proof.
  intros Hc Hy.
  assert (parent_of (with_bodies (compress r l (w_bodies w)) w) r = Some None) as Hr.
  { rewrite compress_parent_of, decide_False by (by eapply chain_root_not_in).
    by eapply chain_root_parent_of. }
  induction Hy as [y b Hb Hp|y b p ly ry Hb Hp Hy IH].
  - exists []. split; [|done]. apply chain_root'. rewrite compress_parent_of.
    assert (parent_of w y = Some None) as Hpy by (apply parent_of_Some; eauto).
    rewrite decide_False; [done|]. intros Hin.
    by apply (chain_member_has_parent _ _ _ _ _ Hc Hin).
  - assert (parent_of w y = Some (Some p)) as Hpy by (apply parent_of_Some; eauto).
    destruct (decide (y ∈ l)) as [Hin|Hin].
    + destruct (chain_member_chain _ _ _ _ _ Hc Hin) as (l' & Hc').
      assert (ry = r) as ->.
      { eapply root_of_det; [|by eexists]. exists (y :: ly). by econstructor. }
      exists [y]. split; [|simpl; lia]. apply (chain_step' _ _ r); [|by apply chain_root'].
      rewrite compress_parent_of, decide_True, Hpy by done. done.
    + destruct IH as (lp & Hlp & Hlen). exists (y :: lp). split; [|simpl; lia].
      apply (chain_step' _ _ p); [|done].
      by rewrite compress_parent_of, decide_False.
Qed.

(** A write to the node of a body of the store returns; when it leaves the
    ring link alone, every ring link of the store stays. *)
Lemma modify_node_keeps_next x f w :
  (∀ n, next (f n) = next n) → is_Some (next_of w x) →
  ∃ w', modify_node x f w = Some (tt, w') ∧ ∀ y, next_of w' y = next_of w y.
Proof.
  intros Hf [q Hq]. apply next_of_Some in Hq as (b & Hb & _).
  eexists. split; [apply modify_node_Some; eauto|].
  intros y. unfold next_of. simpl. destruct (decide (y = x)) as [->|Hne].
  - rewrite lookup_insert_eq, Hb. simpl. by rewrite Hf.
  - by rewrite lookup_insert_ne.
Qed.

(** Linking two bodies of the store returns and writes no ring link. *)
Lemma componentNodeMerge_keeps_next a b w :
  is_Some (next_of w a) → is_Some (next_of w b) →
  ∃ w', componentNodeMerge a b w = Some (tt, w') ∧ ∀ y, next_of w' y = next_of w y.
Proof.
  intros Ha Hb. pose proof Ha as [qa Hqa]. pose proof Hb as [qb Hqb].
  apply next_of_Some in Hqa as (ab & Hab & _). apply next_of_Some in Hqb as (bb & Hbb & _).
  unfold componentNodeMerge, bind, load_body. rewrite Hab. simpl. rewrite Hbb. simpl.
  destruct (rank (node ab) <? rank (node bb))%Z.
  { by apply modify_node_keeps_next. }
  destruct (rank (node ab) >? rank (node bb))%Z.
  { by apply modify_node_keeps_next. }
  case_decide; [|by eexists].
  destruct (modify_node_keeps_next b (set_parent (Some a)) w) as (w1 & -> & H1); [done|done|].
  destruct (modify_node_keeps_next a (λ n, set_rank (rank n + 1) n) w1) as (w2 & -> & H2);
    [done|by rewrite H1|].
  exists w2. split; [done|]. intros y. by rewrite H2, H1.
Qed.

(** The rogue-body step of [mergeBodies] returns and writes no ring link. *)
Lemma mergeBodies_rogue_keeps_next x y rb w :
  is_Some (next_of w x) → is_Some (next_of w y) →
  ∃ rb1 w1,
    (let* xb := load_body x in
     if cpBodyIsRogue xb then modify_node y (set_idleTime 0);; ret (cpArrayPush rb x)
     else ret rb) w = Some (rb1, w1) ∧
    ∀ z, next_of w1 z = next_of w z.
Proof.
  intros [qx Hx] Hy. apply next_of_Some in Hx as (xb & Hxb & _).
  unfold bind at 1. unfold load_body. rewrite Hxb.
  simpl. destruct (cpBodyIsRogue xb); [|by eexists _, _].
  destruct (modify_node_keeps_next y (set_idleTime 0) w) as (w1 & Hrun & H1); [done|done|].
  unfold bind. rewrite Hrun. simpl. by eexists _, _.
Qed.

(** X30.  [mergeBodies] returns whenever the parent chains of its two bodies
    end, within the step bound, at roots that are awake: the two root
    lookups, the rogue-body bookkeeping and the union all find the bodies
    they read. *)
Theorem mergeBodies_returns (N : nat) (s : ptr) (cs rogueBodies : list ptr) (a b : ptr)
    (w : world) (la lb : list ptr) (ra rb : ptr) :
  chain w a la ra → length la < N → chain w b lb rb → length lb < N →
  next_of w ra = Some None → next_of w rb = Some None →
  ∃ rogueBodies' w', mergeBodies N s cs rogueBodies a b w = Some (rogueBodies', w').
Proof.
  intros Ha Hla Hb Hlb Hna Hnb.
  destruct (chain_in_store _ _ _ _ Ha) as (qa & Hqa).
  destruct (chain_in_store _ _ _ _ Hb) as (qb & Hqb).
  pose proof Hqa as Hqa'. pose proof Hqb as Hqb'.
  apply next_of_Some in Hqa' as (ab & Hab & _). apply next_of_Some in Hqb' as (bb & Hbb & _).
  cut (is_Some (mergeBodies N s cs rogueBodies a b w)).
  { intros [[r w'] H]. eauto. }
  unfold mergeBodies.
  eapply bind_is_Some; [by apply load_body_Some|].
  assert (∃ st, (if cpBodyIsStatic ab then ret true
                 else let* bb := load_body b in ret (cpBodyIsStatic bb)) w = Some (st, w))
    as (st & Hst).
  { destruct (cpBodyIsStatic ab); [by eexists|].
    eexists. apply bind_Some. eexists _, _. split; [by apply load_body_Some|done]. }
  eapply bind_is_Some; [exact Hst|]. destruct st; [done|].
  (* the two roots *)
  eapply bind_is_Some; [by apply componentNodeRoot_chain|].
  set (w1 := with_bodies (compress ra la (w_bodies w)) w).
  assert (∀ y, next_of w1 y = next_of w y) as Hn1.
  { intros y. unfold w1. by rewrite !next_of_view_of, compress_view. }
  destruct (compress_chain_length _ _ _ _ _ _ _ Ha Hb) as (lb' & Hb1 & Hlb1). fold w1 in Hb1.
  eapply bind_is_Some; [apply componentNodeRoot_chain; [exact Hb1|lia]|].
  set (w2 := with_bodies (compress rb lb' (w_bodies w1)) w1).
  assert (∀ y, next_of w2 y = next_of w y) as Hn2.
  { intros y. rewrite <- Hn1. unfold w2. by rewrite !next_of_view_of, compress_view. }
  (* nothing sleeps *)
  pose proof Hna as Hna2. pose proof Hnb as Hnb2. rewrite <- Hn2 in Hna2, Hnb2.
  apply next_of_Some in Hna2 as (arb & Harb & Hsa). apply next_of_Some in Hnb2 as (brb & Hbrb & Hsb).
  eapply bind_is_Some; [by apply load_body_Some|].
  eapply bind_is_Some; [by apply load_body_Some|].
  cbv zeta. unfold cpBodyIsSleeping. rewrite Hsa, Hsb.
  rewrite bool_decide_eq_false_2 by (by intros ?). simpl orb. cbv iota.
  eapply bind_is_Some; [done|].
  (* rogue bodies and idle times *)
  destruct (mergeBodies_rogue_keeps_next a b rogueBodies w2) as (rb1 & w3 & Hrun3 & Hn3);
    [by rewrite Hn2, Hqa|by rewrite Hn2, Hqb|].
  destruct (mergeBodies_rogue_keeps_next b a rb1 w3) as (rb2 & w4 & Hrun4 & Hn4);
    [by rewrite Hn3, Hn2, Hqb|by rewrite Hn3, Hn2, Hqa|].
  destruct (componentNodeMerge_keeps_next ra rb w4) as (w5 & Hrun5 & _);
    [by rewrite Hn4, Hn3, Hn2, Hna|by rewrite Hn4, Hn3, Hn2, Hnb|].
  apply bind_Some in Hrun3 as (ab2 & ? & Hla2 & Hrun3).
  pose proof Hla2 as Hla2'. apply load_body_Some in Hla2' as [_ ->].
  apply bind_Some in Hrun4 as (bb3 & ? & Hlb3 & Hrun4).
  pose proof Hlb3 as Hlb3'. apply load_body_Some in Hlb3' as [_ ->].
  eapply bind_is_Some; [exact Hla2|].
  eapply bind_is_Some; [exact Hrun3|].
  eapply bind_is_Some; [exact Hlb3|].
  eapply bind_is_Some; [exact Hrun4|].
  eapply bind_is_Some; [exact Hrun5|]. done.
Qed.

Lemma mergeBodies_returns_witness :
  ∃ rogueBodies' w', mergeBodies 3 0 [] [] 1 2 chain_world = Some (rogueBodies', w').
Proof.
  assert (chain chain_world 2 [2] 3) as Hb.
  { eapply chain_step; [reflexivity..|]. eapply chain_root; reflexivity. }
  assert (chain chain_world 1 [1; 2] 3) as Ha.
  { eapply chain_step; [reflexivity..|]. exact Hb. }
  exact (mergeBodies_returns 3 0 [] [] 1 2 chain_world [1; 2] [2] 3 3
           Ha ltac:(simpl; lia) Hb ltac:(simpl; lia) eq_refl eq_refl).
Defined.

(** ** Contacts across sleep and wake *)

Lemma linked_stable_in nx w1 w2 cur l :
  (∀ z, z ∈ l → fst <$> nx z w2 = fst <$> nx z w1) → linked nx w1 cur l → linked nx w2 cur l.
Proof.
  intros Hst Hl. induction Hl as [|x y l Hx Hl IH]; [constructor|].
  econstructor.
  - rewrite Hst; [done|by left].
  - apply IH. intros z Hz. apply Hst. by right.
Qed.

Lemma same_graph_same_walk body l w1 w2 : same_graph w1 w2 → same_walk body l w1 w2.
Proof.
  intros Hg z _. split; [by apply same_graph_arbiter_link|].
  split; [by apply same_graph_arbiter_primary|by apply same_graph_key_of].
Qed.

Lemma same_walk_trans body l w1 w2 w3 :
  same_walk body l w1 w2 → same_walk body l w2 w3 → same_walk body l w1 w3.
Proof.
  intros H12 H23 z Hz. destruct (H12 z Hz) as (E1 & E2 & E3).
  destruct (H23 z Hz) as (F1 & F2 & F3). by rewrite F1, F2, F3.
Qed.

(** [slept] holds of a store and itself, and composes. *)
Lemma slept_refl body space arb l w sp :
  w_spaces w !! space = Some sp → locked sp = false → slept body space arb l w w.
Proof.
  intros Hsp Hlocked. split; [done|]. split; [by intros z _|]. split; [done|].
  split; [done|eauto].
Qed.

Lemma slept_trans body space arb l w1 w2 w3 :
  slept body space arb l w1 w2 → slept body space arb l w2 w3 →
  slept body space arb l w1 w3.
Proof.
  intros (Hl12 & Hw12 & Ha12 & Hk12 & _) (Hl23 & Hw23 & Ha23 & Hk23 & Hsp).
  split; [by rewrite Hl23|]. split; [by eapply same_walk_trans|].
  split; [by rewrite Ha23|]. split; [|done].
  intros ar blk Har Hblk. rewrite <- (Hk12 _ _ Har Hblk). apply (Hk23 ar); [|done].
  by rewrite Ha12.
Qed.

(** Writes that leave arbiters and blocks alone, and of bodies and shapes
    change neither the static flag, nor the arbiter list, nor the owner of a
    shape, leave alone what [slept] asks for: writes to the nodes of bodies,
    to the caches of shapes and to the arrays of spaces are of that kind. *)
Lemma slept_bookkeeping body space arb l w w' sp :
  (∀ x, isStatic <$> w_bodies w' !! x = isStatic <$> w_bodies w !! x) →
  arbiterList <$> w_bodies w' !! body = arbiterList <$> w_bodies w !! body →
  (∀ sh, shape_body <$> w_shapes w' !! sh = shape_body <$> w_shapes w !! sh) →
  w_arbiters w' = w_arbiters w → w_blocks w' = w_blocks w →
  w_spaces w' !! space = Some sp → locked sp = false →
  slept body space arb l w w'.
Proof.
  intros Hst Hlist Hsh Ha Hk Hsp Hlocked.
  split; [done|]. split; [|split; [by rewrite Ha|split; [intros; by rewrite Hk|eauto]]].
  intros z _. rewrite Ha. split; [|split; [|done]].
  - unfold arbiter_link, bind, load_arbiter, load_shape. rewrite Ha.
    destruct (w_arbiters w !! z) as [ar|]; simpl; [|done]. specialize (Hsh (arb_a ar)).
    destruct (w_shapes w' !! arb_a ar) as [s2|], (w_shapes w !! arb_a ar) as [s1|];
      simpl in *; try done.
    injection Hsh as ->. done.
  - unfold arbiter_primary, bind, load_arbiter, load_shape, load_body. rewrite Ha.
    destruct (w_arbiters w !! z) as [ar|]; simpl; [|done]. specialize (Hsh (arb_a ar)).
    destruct (w_shapes w' !! arb_a ar) as [s2|], (w_shapes w !! arb_a ar) as [s1|];
      simpl in *; try done.
    injection Hsh as ->. case_decide; [done|]. specialize (Hst (shape_body s1)).
    destruct (w_bodies w' !! shape_body s1) as [b2|], (w_bodies w !! shape_body s1) as [b1|];
      simpl in *; done.
Qed.

(** The arbiter loop of [cpSpaceDeactivateBody] runs over the walk of the
    body's arbiter list; the loops before and after it leave bodies, shapes,
    arbiters, blocks and the contact part of spaces alone. *)
Lemma cpSpaceDeactivateBody_run N space c w w' cb lc :
  cpSpaceDeactivateBody N space c w = Some (tt, w') →
  w_bodies w !! c = Some cb → linked (arbiter_link c) w (arbiterList cb) lc →
  ∃ wa wb, contact_eq w wa ∧
           for_array (λ _ x, cpSpaceDeactivateBody_arbiter space c x) lc tt wa = Some (tt, wb) ∧
           contact_eq wb w'.
Proof.
  intros H Hb Hl. unfold cpSpaceDeactivateBody in H.
  apply bind_Some in H as (b0 & ? & Hb0 & H). run_inv Hb0.
  assert (b0 = cb) as -> by congruence.
  apply bind_Some in H as ([] & wa & Hshapes & H).
  assert (contact_eq w wa) as Hca.
  { refine (preserves_shapes_contact_eq w _ _ _ _ _ _ _ _ Hshapes (contact_eq_refl w)).
    by left. }
  apply bind_Some in H as (b1 & ? & Hb1 & H). run_inv Hb1.
  assert (b1 = cb) as -> by (destruct Hca as (Hbs & _); congruence).
  apply bind_Some in H as ([] & wb & Harbs & H).
  apply bind_Some in H as (b2 & ? & Hb2 & H). run_inv Hb2.
  assert (contact_eq wb w') as Hcb.
  { refine (preserves_constraints_contact_eq wb _ _ _ _ _ _ _ _ _ H (contact_eq_refl wb)).
    by left. }
  apply deactivate_arbiters_fold in Harbs as (l' & Hl' & Hfold).
  assert (l' = lc) as ->.
  { eapply linked_det; [exact Hl'|]. eapply linked_stable; [|exact Hl].
    intros z. apply same_graph_arbiter_link. by apply contact_eq_same_graph. }
  eauto.
Qed.

Lemma cpSpaceActivateBody_run N space c w w' sp cb lc :
  cpSpaceActivateBody N space c w = Some (tt, w') →
  w_spaces w !! space = Some sp → locked sp = false →
  w_bodies w !! c = Some cb → linked (arbiter_link c) w (arbiterList cb) lc →
  ∃ wa wb, contact_eq w wa ∧
           for_array (λ _ x, cpSpaceActivateBody_arbiter space c x) lc tt wa = Some (tt, wb) ∧
           contact_eq wb w'.
Proof.
  intros H Hsp Hlocked Hb Hl. unfold cpSpaceActivateBody in H.
  apply bind_Some in H as (sp0 & ? & Hsp0 & H). run_inv Hsp0.
  assert (sp0 = sp) as -> by congruence. rewrite Hlocked in H.
  apply bind_Some in H as ([] & w0 & Hpush & H).
  assert (contact_eq w w0) as Hc0.
  { refine (contact_eq_modify_space _ _ _ _ _ _ Hpush). intros; reflexivity. }
  apply bind_Some in H as (b0 & ? & Hb0 & H). run_inv Hb0.
  apply bind_Some in H as ([] & wa & Hshapes & H).
  assert (contact_eq w wa) as Hca.
  { refine (preserves_shapes_contact_eq w _ _ _ _ _ _ _ _ Hshapes Hc0). by right. }
  apply bind_Some in H as (b1 & ? & Hb1 & H). run_inv Hb1.
  assert (b1 = cb) as -> by (destruct Hca as (Hbs & _); congruence).
  apply bind_Some in H as ([] & wb & Harbs & H).
  apply bind_Some in H as (b2 & ? & Hb2 & H). run_inv Hb2.
  assert (contact_eq wb w') as Hcb.
  { refine (preserves_constraints_contact_eq wb _ _ _ _ _ _ _ _ _ H (contact_eq_refl wb)).
    by right. }
  apply activate_arbiters_fold in Harbs as (l' & Hl' & Hfold).
  assert (l' = lc) as ->.
  { eapply linked_det; [exact Hl'|]. eapply linked_stable; [|exact Hl].
    intros z. apply same_graph_arbiter_link. by apply contact_eq_same_graph. }
  eauto.
Qed.

(** Putting an arbiter other than [arb] to sleep leaves the record of [arb]
    and its private block, a live one, as they are. *)
Lemma preserves_deactivate_other_kept space c arb ar blk cells x :
  x ≠ arb →
  preserves (λ w, w_arbiters w !! arb = Some ar ∧ w_blocks w !! blk = Some cells)
            (cpSpaceDeactivateBody_arbiter space c x).
Proof.
  intros Hne w [] w' H [Har Hblk]. apply cpSpaceDeactivateBody_arbiter_inv in H
    as [[_ ->]|(_ & ar' & cs' & Har' & _ & _ & Ha & Hk & _)]; [done|].
  split; [by rewrite Ha, lookup_insert_ne|].
  rewrite Hk, lookup_insert_ne; [done|].
  intros <-. apply (is_fresh (dom (w_blocks w))). apply elem_of_dom. eauto.
Qed.

(** Waking an arbiter other than [arb], whose block is another one, leaves
    the record of [arb] and its private block as they are; no arbiter of
    [lc] comes to point at that block. *)
Lemma preserves_activate_other_kept space c arb ar blk cells (lc : list ptr) x :
  x ≠ arb → x ∈ lc →
  preserves (λ w, (w_arbiters w !! arb = Some ar ∧ w_blocks w !! blk = Some cells) ∧
                  ∀ y ar', y ∈ lc → y ≠ arb → w_arbiters w !! y = Some ar' →
                           contacts ar' ≠ ContactsHeap blk)
            (cpSpaceActivateBody_arbiter space c x).
Proof.
  intros Hne Hx w [] w' H [[Har Hblk] Hpriv]. apply cpSpaceActivateBody_arbiter_inv in H
    as [[_ ->]|(_ & ar' & sp & sp' & cs' & Har' & _ & _ & _ & _ & Ha & _ & _ & _ & _ & Hfree)];
    [done|].
  split; [split|].
  - by rewrite Ha, lookup_insert_ne.
  - destruct Hfree as [[_ ->]|(blk' & Hblk' & _ & ->)]; [done|].
    rewrite lookup_delete_ne; [done|]. intros ->. by apply (Hpriv x ar').
  - intros y ar0 Hy Hya. rewrite Ha. destruct (decide (y = x)) as [->|Hyx].
    + rewrite lookup_insert_eq. by intros [= <-].
    + rewrite lookup_insert_ne by done. by apply Hpriv.
Qed.

(** Putting another body [c] to sleep, whose walk [lc] does not process
    [arb], leaves alone what [slept] asks for. *)
Lemma cpSpaceDeactivateBody_slept N space c w w' cb lc body arb ar blk l sp :
  cpSpaceDeactivateBody N space c w = Some (tt, w') →
  w_bodies w !! c = Some cb → linked (arbiter_link c) w (arbiterList cb) lc →
  (arb ∈ lc → fst <$> arbiter_primary c arb w = Some false) →
  w_arbiters w !! arb = Some ar → contacts ar = ContactsHeap blk →
  is_Some (w_blocks w !! blk) →
  w_spaces w !! space = Some sp → locked sp = false →
  slept body space arb l w w'.
Proof.
  intros H Hb Hl Hnot Har Hblk [cells Hcells] Hsp Hlocked.
  assert (w_bodies w' = w_bodies w) as Hbodies.
  { exact (preserves_cpSpaceDeactivateBody_bodies (λ bs, bs = w_bodies w) _ _ _ _ _ _
             H eq_refl). }
  assert (locked <$> w_spaces w' !! space = Some false) as Hlocked'.
  { refine (preserves_cpSpaceDeactivateBody_field locked space false _ _ _ _ _ _ _ _ _ _ _ _ H _);
      try done. by rewrite Hsp; simpl; rewrite Hlocked. }
  destruct (cpSpaceDeactivateBody_run _ _ _ _ _ _ _ H Hb Hl) as (wa & wb & Hca & Hfold & Hcb).
  assert ((w_arbiters wb !! arb = Some ar ∧ w_blocks wb !! blk = Some cells) ∧
          same_graph w wb) as [[Har' Hcells'] Hg].
  { refine (preserves_for_array_in
              (λ w0, (w_arbiters w0 !! arb = Some ar ∧ w_blocks w0 !! blk = Some cells) ∧
                     same_graph w w0) _ _ _ _ _ _ _ Hfold _).
    - intros [] x Hx w0 [] w0' Hstep [HK Hg0].
      pose proof (cpSpaceDeactivateBody_arbiter_same_graph _ _ _ _ _ Hstep) as Hg1.
      split; [|by eapply same_graph_trans].
      destruct (decide (x = arb)) as [->|Hne].
      + apply cpSpaceDeactivateBody_arbiter_inv in Hstep as [[_ ->]|[Hprim _]]; [done|].
        rewrite (same_graph_arbiter_primary w), (Hnot Hx) in Hprim; done.
      + by apply (preserves_deactivate_other_kept space c arb ar blk cells x Hne w0 tt w0').
    - split; [|by apply contact_eq_same_graph].
      destruct Hca as (_ & _ & Ha & Hk & _). by rewrite Ha, Hk. }
  assert (same_graph w w') as Hg'.
  { eapply same_graph_trans; [exact Hg|]. by apply contact_eq_same_graph. }
  destruct Hcb as (_ & _ & Ha & Hk & _).
  split; [by rewrite Hbodies|]. split; [by apply same_graph_same_walk|].
  split; [by rewrite Ha, Har', Har|]. split.
  - intros ar0 blk0 Har0 Hblk0. assert (ar0 = ar) as -> by congruence.
    assert (blk0 = blk) as -> by congruence. by rewrite Hk, Hcells', Hcells.
  - destruct (w_spaces w' !! space) as [sp'|]; [|done]. simpl in Hlocked'.
    exists sp'. split; [done|congruence].
Qed.

(** Waking another body [c], whose walk [lc] does not process [arb] and has
    no arbiter that points at the private block of [arb], leaves alone what
    [slept] asks for. *)
Lemma cpSpaceActivateBody_slept N space c w w' cb lc body arb ar blk l sp :
  cpSpaceActivateBody N space c w = Some (tt, w') →
  w_bodies w !! c = Some cb → linked (arbiter_link c) w (arbiterList cb) lc →
  (arb ∈ lc → fst <$> arbiter_primary c arb w = Some false) →
  w_arbiters w !! arb = Some ar → contacts ar = ContactsHeap blk →
  is_Some (w_blocks w !! blk) →
  (∀ y ar', y ∈ lc → y ≠ arb → w_arbiters w !! y = Some ar' →
            contacts ar' ≠ ContactsHeap blk) →
  w_spaces w !! space = Some sp → locked sp = false →
  slept body space arb l w w'.
Proof.
  intros H Hb Hl Hnot Har Hblk [cells Hcells] Hpriv Hsp Hlocked.
  assert (w_bodies w' = w_bodies w) as Hbodies.
  { exact (preserves_cpSpaceActivateBody_bodies (λ bs, bs = w_bodies w) _ _ _ _ _ _
             H eq_refl). }
  assert (locked <$> w_spaces w' !! space = Some false) as Hlocked'.
  { refine (preserves_cpSpaceActivateBody_field locked space false _ _ _ _ _ _ _ _ _ _ _ _ _ _ H _);
      try done. by rewrite Hsp; simpl; rewrite Hlocked. }
  destruct (cpSpaceActivateBody_run _ _ _ _ _ _ _ _ H Hsp Hlocked Hb Hl)
    as (wa & wb & Hca & Hfold & Hcb).
  assert (((w_arbiters wb !! arb = Some ar ∧ w_blocks wb !! blk = Some cells) ∧
           ∀ y ar', y ∈ lc → y ≠ arb → w_arbiters wb !! y = Some ar' →
                    contacts ar' ≠ ContactsHeap blk) ∧
          same_graph w wb) as [[[Har' Hcells'] _] Hg].
  { refine (preserves_for_array_in
              (λ w0, ((w_arbiters w0 !! arb = Some ar ∧ w_blocks w0 !! blk = Some cells) ∧
                      ∀ y ar', y ∈ lc → y ≠ arb → w_arbiters w0 !! y = Some ar' →
                               contacts ar' ≠ ContactsHeap blk) ∧
                     same_graph w w0) _ _ _ _ _ _ _ Hfold _).
    - intros [] x Hx w0 [] w0' Hstep [HK Hg0].
      pose proof (cpSpaceActivateBody_arbiter_same_graph _ _ _ _ _ Hstep) as Hg1.
      split; [|by eapply same_graph_trans].
      destruct (decide (x = arb)) as [->|Hne].
      + apply cpSpaceActivateBody_arbiter_inv in Hstep as [[_ ->]|[Hprim _]]; [done|].
        rewrite (same_graph_arbiter_primary w), (Hnot Hx) in Hprim; done.
      + by apply (preserves_activate_other_kept space c arb ar blk cells lc x Hne Hx w0 tt w0').
    - split; [|by apply contact_eq_same_graph].
      destruct Hca as (_ & _ & Ha & Hk & _).
      split; [by rewrite Ha, Hk|]. intros y ar' Hy Hya. rewrite Ha. by apply Hpriv. }
  assert (same_graph w w') as Hg'.
  { eapply same_graph_trans; [exact Hg|]. by apply contact_eq_same_graph. }
  destruct Hcb as (_ & _ & Ha & Hk & _).
  split; [by rewrite Hbodies|]. split; [by apply same_graph_same_walk|].
  split; [by rewrite Ha, Har', Har|]. split.
  - intros ar0 blk0 Har0 Hblk0. assert (ar0 = ar) as -> by congruence.
    assert (blk0 = blk) as -> by congruence. by rewrite Hk, Hcells', Hcells.
  - destruct (w_spaces w' !! space) as [sp'|]; [|done]. simpl in Hlocked'.
    exists sp'. split; [done|congruence].
Qed.

(** One turn of the wake-up loop of [componentActivate] for another member
    [c] of the ring: its node is reset and it is woken. *)
Lemma componentActivate_step_slept N space c w w' cb lc body arb ar blk l sp :
  componentActivate_step N space tt c w = Some (tt, w') →
  w_bodies w !! c = Some cb → linked (arbiter_link c) w (arbiterList cb) lc →
  (arb ∈ lc → fst <$> arbiter_primary c arb w = Some false) →
  w_arbiters w !! arb = Some ar → contacts ar = ContactsHeap blk →
  is_Some (w_blocks w !! blk) →
  (∀ y ar', y ∈ lc → y ≠ arb → w_arbiters w !! y = Some ar' →
            contacts ar' ≠ ContactsHeap blk) →
  w_spaces w !! space = Some sp → locked sp = false →
  slept body space arb l w w'.
Proof.
  intros H Hb Hl Hnot Har Hblk Hlive Hpriv Hsp Hlocked. unfold componentActivate_step in H.
  apply bind_Some in H as ([] & w0 & Hnode & H).
  apply modify_node_Some in Hnode as (cb0 & Hcb0 & ->).
  assert (cb0 = cb) as -> by congruence.
  set (w0 := with_bodies _ w) in H.
  assert (slept c space arb lc w w0) as (_ & Hwalk & _).
  { apply (slept_bookkeeping _ _ _ _ _ _ sp); try done.
    - intros x. unfold w0. simpl. destruct (decide (x = c)) as [->|Hne].
      + by rewrite lookup_insert_eq, Hb.
      + by rewrite lookup_insert_ne.
    - unfold w0. simpl. by rewrite lookup_insert_eq, Hb. }
  apply (slept_trans _ _ _ _ w w0).
  - apply (slept_bookkeeping _ _ _ _ _ _ sp); try done.
    + intros x. unfold w0. simpl. destruct (decide (x = c)) as [->|Hne].
      * by rewrite lookup_insert_eq, Hb.
      * by rewrite lookup_insert_ne.
    + unfold w0. simpl. destruct (decide (body = c)) as [->|Hne].
      * by rewrite lookup_insert_eq, Hb.
      * by rewrite lookup_insert_ne.
  - eapply (cpSpaceActivateBody_slept N space c w0 w' _ lc); try done.
    + unfold w0. simpl. apply lookup_insert_eq.
    + simpl. eapply linked_stable_in; [|exact Hl].
      intros z Hz. by destruct (Hwalk z Hz) as (-> & _).
    + intros Hin. destruct (Hwalk arb Hin) as (_ & -> & _). by apply Hnot.
Qed.

(** C3.  Let [arb] be an arbiter that [cpSpaceDeactivateBody] processes for
    [body]: it is on the walk [l] of the body's arbiter list and passes the
    test [body == arb->a->body || cpBodyIsStatic(arb->a->body)]; its contact
    array reads [cs] and no other arbiter of the list has its shape pair.
    Then deactivation leaves [arb] pointing at a private heap block [blk]
    that reads [cs]; and when the body is later woken by
    [cpSpaceActivateBody], [arb] has the same record but for [contacts],
    which points into the contact buffer of the space below its watermark and
    reads [cs] again, [arb] is in [contactSet] under the unordered pair of
    its shapes, and the block [blk] is no longer live.  In between the store
    may change as [slept] allows: what must stay is the arbiter list of
    [body] as its walk reads it, the record of [arb] with its block, and the
    space unlocked.  Other bodies of the component may be put to sleep and
    woken in that time ([cpSpaceDeactivateBody_slept],
    [cpSpaceActivateBody_slept], [componentActivate_step_slept]), and nodes,
    shape caches and the arrays of spaces may be written
    ([slept_bookkeeping]). *)
Theorem contacts_survive_sleep (N : nat) (space body : ptr) (w w1 w1' w2 : world)
    (b : cpBody) (l : list ptr) (arb : ptr) (ar : cpArbiter) (cs : list cpContact) :
  w_bodies w !! body = Some b →
  linked (arbiter_link body) w (arbiterList b) l → arb ∈ l →
  fst <$> arbiter_primary body arb w = Some true →
  w_arbiters w !! arb = Some ar → contents w ar = Some cs →
  (∀ x ar', x ∈ l → x ≠ arb → w_arbiters w !! x = Some ar' → key_of ar' ≠ key_of ar) →
  cpSpaceDeactivateBody N space body w = Some (tt, w1) →
  slept body space arb l w1 w1' →
  cpSpaceActivateBody N space body w1' = Some (tt, w2) →
  ∃ blk off sp2,
    w_arbiters w1 !! arb = Some (set_contacts (ContactsHeap blk) ar) ∧
    contents w1 (set_contacts (ContactsHeap blk) ar) = Some cs ∧
    w_arbiters w2 !! arb = Some (set_contacts (ContactsInBuffer space off) ar) ∧
    contents w2 (set_contacts (ContactsInBuffer space off) ar) = Some cs ∧
    w_spaces w2 !! space = Some sp2 ∧
    off + numContacts ar ≤ contactBufferNum sp2 ∧
    contactSet sp2 !! CP_HASH_PAIR (arb_a ar) (arb_b ar) = Some arb ∧
    w_blocks w2 !! blk = None.
Proof.
  intros Hb Hl Harb Hprim Har Hcs Hkeys Hdeact Hslept Hact.
  destruct (cpSpaceDeactivateBody_saves _ _ _ _ _ _ _ _ _ _ Hdeact Hb Hl Harb Hprim
              (conj Har Hcs)) as (Hg & blk & Har1 & Hcs1).
  assert (w_bodies w1 = w_bodies w) as Hbodies.
  { exact (preserves_cpSpaceDeactivateBody_bodies (λ bs, bs = w_bodies w) _ _ _ _ _ _
             Hdeact eq_refl). }
  destruct Hslept as (Hlist' & Hwalk & Ha' & Hk' & sp & Hsp & Hlocked).
  rewrite Hbodies, Hb in Hlist'.
  destruct (w_bodies w1' !! body) as [b'|] eqn:Hb'; [|done]. injection Hlist' as Hlist'.
  set (ar1 := set_contacts (ContactsHeap blk) ar) in *.
  destruct (cpSpaceActivateBody_restores N space body w1' w2 sp b' l arb ar1 blk cs)
    as (off & Hr2 & Hblk2 & sp2 & Hsp2 & Hread2 & Hnum2 & Hset2); try done.
  - rewrite Hlist'. eapply linked_stable_in; [|exact Hl].
    intros z Hz. destruct (Hwalk z Hz) as (-> & _). by apply same_graph_arbiter_link.
  - destruct (Hwalk arb Harb) as (_ & -> & _). by rewrite (same_graph_arbiter_primary w).
  - split; [by rewrite Ha'|]. unfold contents, read_contacts in *. simpl in *.
    rewrite (Hk' ar1 blk Har1 eq_refl).
    destruct (w_blocks w1 !! blk) as [cells|]; simpl in *; [|done].
    by destruct (read_cells cells 0 (numContacts ar)).
  - intros x ar' Hx Hne Hx'. destruct (Hwalk x Hx) as (_ & _ & Hk1).
    pose proof (same_graph_key_of _ _ x Hg) as Hk. rewrite Hk, Hx' in Hk1.
    destruct (w_arbiters w !! x) as [ar0|] eqn:E; [|done].
    simpl in Hk1. apply (inj Some) in Hk1. rewrite Hk1. unfold ar1, key_of. simpl.
    by eapply (Hkeys x).
  - exists blk, off, sp2. split; [done|]. split; [done|]. split; [done|].
    split; [|done].
    unfold contents, read_contacts. simpl. rewrite Hsp2. simpl.
    change (numContacts ar) with (numContacts ar1). by rewrite Hread2.
Qed.

Lemma contacts_survive_sleep_witness :
  ∃ w1 w2 w3 w4,
    cpSpaceDeactivateBody 3 0 1 stack_world = Some (tt, w1) ∧
    cpSpaceDeactivateBody 3 0 2 w1 = Some (tt, w2) ∧
    cpSpaceActivateBody 3 0 1 w2 = Some (tt, w3) ∧
    cpSpaceActivateBody 3 0 2 w3 = Some (tt, w4) ∧
    (contacts <$> w_arbiters w2 !! 21) = Some (ContactsHeap 0) ∧
    (contacts <$> w_arbiters w2 !! 22) = Some (ContactsHeap 1) ∧
    (∃ off, w_arbiters w3 !! 21
            = Some (mkArbiter 13 11 None (Some 22) 1 (ContactsInBuffer 0 off)) ∧
            contents w3 (mkArbiter 13 11 None (Some 22) 1 (ContactsInBuffer 0 off))
            = Some [mkContact 1 2 3 4]) ∧
    w_blocks w3 !! 0 = None ∧
    (∃ off, w_arbiters w4 !! 22 = Some (mkArbiter 12 11 None None 2 (ContactsInBuffer 0 off)) ∧
            contents w4 (mkArbiter 12 11 None None 2 (ContactsInBuffer 0 off))
            = Some [mkContact 5 6 7 8; mkContact 9 10 11 12]) ∧
    w_blocks w4 !! 1 = None.
Proof.
  destruct (cpSpaceDeactivateBody 3 0 1 stack_world) as [[[] w1]|] eqn:Hd1;
    [|vm_compute in Hd1; discriminate].
  assert (Some (tt, w1) = Some (tt, w1)) as E1 by reflexivity.
  rewrite <- Hd1 in E1 at 1. vm_compute in E1. injection E1 as Hw1.
  destruct (cpSpaceDeactivateBody 3 0 2 w1) as [[[] w2]|] eqn:Hd2;
    [|rewrite <- Hw1 in Hd2; vm_compute in Hd2; discriminate].
  assert (Some (tt, w2) = Some (tt, w2)) as E2 by reflexivity.
  rewrite <- Hd2 in E2 at 1. rewrite <- Hw1 in E2. vm_compute in E2. injection E2 as Hw2.
  destruct (cpSpaceActivateBody 3 0 1 w2) as [[[] w3]|] eqn:Ha1;
    [|rewrite <- Hw2 in Ha1; vm_compute in Ha1; discriminate].
  assert (Some (tt, w3) = Some (tt, w3)) as E3 by reflexivity.
  rewrite <- Ha1 in E3 at 1. rewrite <- Hw2 in E3. vm_compute in E3. injection E3 as Hw3.
  destruct (cpSpaceActivateBody 3 0 2 w3) as [[[] w4]|] eqn:Ha2;
    [|rewrite <- Hw3 in Ha2; vm_compute in Ha2; discriminate].
  exists w1, w2, w3, w4.
  split; [reflexivity|]. split; [exact Hd2|]. split; [exact Ha1|]. split; [exact Ha2|].
  (* while body 2 is put to sleep, arbiter 21 of body 1 stays as it is *)
  assert (slept 1 0 21 [21; 22] w1 w2) as Hs1.
  { eapply (cpSpaceDeactivateBody_slept 3 0 2 w1 w2 _ [22] 1 21 _ 0); [exact Hd2|..];
      rewrite <- ?Hw1.
    - vm_compute; reflexivity.
    - eapply linked_cons; [vm_compute; reflexivity|apply linked_nil].
    - intros Hin. apply list_elem_of_singleton in Hin. discriminate.
    - vm_compute; reflexivity.
    - reflexivity.
    - vm_compute. eauto.
    - vm_compute; reflexivity.
    - reflexivity. }
  (* while body 1 is woken, arbiter 22 of body 2 stays as it is *)
  assert (slept 2 0 22 [22] w2 w3) as Hs2.
  { eapply (cpSpaceActivateBody_slept 3 0 1 w2 w3 _ [21; 22] 2 22 _ 1); [exact Ha1|..];
      rewrite <- ?Hw2.
    - vm_compute; reflexivity.
    - eapply linked_cons; [vm_compute; reflexivity|].
      eapply linked_cons; [vm_compute; reflexivity|apply linked_nil].
    - intros _. vm_compute; reflexivity.
    - vm_compute; reflexivity.
    - reflexivity.
    - vm_compute. eauto.
    - intros y ar' Hy Hne. apply elem_of_cons in Hy as [->|Hy];
        [|apply list_elem_of_singleton in Hy; contradiction].
      vm_compute. intros [= <-]. discriminate.
    - vm_compute; reflexivity.
    - reflexivity. }
  destruct (contacts_survive_sleep 3 0 1 stack_world w1 w2 w3
              (mkBody 1 0 zero_vect zero_vect false (Some 11) (Some 21) None (Some 0)
                 (mkNode None None 0 0))
              [21; 22] 21 (mkArbiter 13 11 None (Some 22) 1 (ContactsInBuffer 0 0))
              [mkContact 1 2 3 4])
    as (blk1 & off1 & sp3 & Har1 & _ & Har3 & Hcs3 & _ & _ & _ & Hblk3);
    [vm_compute; reflexivity
    |eapply linked_cons; [vm_compute; reflexivity|];
     eapply linked_cons; [vm_compute; reflexivity|apply linked_nil]
    |by left|vm_compute; reflexivity|vm_compute; reflexivity|vm_compute; reflexivity
    | |exact Hd1|exact Hs1|exact Ha1|].
  { intros x ar' Hx Hne. apply elem_of_cons in Hx as [->|Hx]; [contradiction|].
    apply list_elem_of_singleton in Hx as ->. vm_compute. intros [= <-]. discriminate. }
  destruct (contacts_survive_sleep 3 0 2 w1 w2 w3 w4
              (mkBody 1 0 zero_vect zero_vect false (Some 12) (Some 22) None (Some 0)
                 (mkNode None None 0 0))
              [22] 22 (mkArbiter 12 11 None None 2 (ContactsInBuffer 0 1))
              [mkContact 5 6 7 8; mkContact 9 10 11 12])
    as (blk2 & off2 & sp4 & Har2 & _ & Har4 & Hcs4 & _ & _ & _ & Hblk4);
    [rewrite <- Hw1; vm_compute; reflexivity
    |rewrite <- Hw1; eapply linked_cons; [vm_compute; reflexivity|apply linked_nil]
    |by left|rewrite <- Hw1; vm_compute; reflexivity|rewrite <- Hw1; vm_compute; reflexivity
    |rewrite <- Hw1; vm_compute; reflexivity
    | |exact Hd2|exact Hs2|exact Ha2|].
  { intros x ar' Hx Hne. apply list_elem_of_singleton in Hx. contradiction. }
  assert (blk1 = 0) as ->.
  { rewrite <- Hw1 in Har1. vm_compute in Har1. by injection Har1. }
  assert (blk2 = 1) as ->.
  { rewrite <- Hw2 in Har2. vm_compute in Har2. by injection Har2. }
  split; [rewrite <- Hw2; vm_compute; reflexivity|].
  split; [rewrite <- Hw2; vm_compute; reflexivity|].
  split; [exists off1; split; [exact Har3|exact Hcs3]|].
  split; [exact Hblk3|].
  split; [exists off2; split; [exact Har4|exact Hcs4]|exact Hblk4].
Defined.

(** ** Idempotence of the explicit wake and sleep calls *)



